(** * CollectHoistablePropertyLoads

    A shallow embedding of
    [compiler/packages/babel-plugin-react-compiler/src/HIR/CollectHoistablePropertyLoads.ts]
    and the properties of its path trie, local fact extractor, CFG fixed-point
    propagator and optional-chain canonicalizer.

    Conventions of the embedding.
    - JavaScript objects with identity ([PropertyLoadNode]) live in an arena:
      the [heap] of a [Tree]; a reference is an index into it, and an object
      mutated in place is updated at its index.
    - A JavaScript [Set] is a list in insertion order without repetition; a
      [Map] that is only read by key is a [gmap]; a [Map] that is iterated is
      an association list in insertion order.
    - Loops that the source bounds only by its data take a [fuel] argument;
      [OutOfFuel] (or [None]) is never a result of the program. *)

From stdpp Require Import gmap strings list fin_maps pretty.

(** ** HIR data (from [./HIR], declarations only) *)

Abbreviation IdentifierId := N (only parsing).
Abbreviation BlockId := N (only parsing).
Abbreviation InstructionId := N (only parsing).
Abbreviation ScopeId := N (only parsing).
(** The identity of a [PropertyLoadNode] object: its index in the heap. *)
Abbreviation NodeRef := nat (only parsing).

Record MutableRange := { range_start : InstructionId; range_end : InstructionId }.

Record ReactiveScope := { scope_id : ScopeId; scope_range : MutableRange }.

Record Identifier := {
  id : IdentifierId;
  name : option string;
  mutableRange : MutableRange;
  scope : option ReactiveScope
}.

Record DependencyPathEntry := { property : string; optional : bool }.

Record ReactiveScopeDependency := {
  identifier : Identifier;
  path : list DependencyPathEntry
}.

Record Place := { place_identifier : Identifier }.

Inductive Param :=
| ParamIdentifier (p : Place)
| ParamSpread (p : Place).

Inductive InstructionValue :=
| PropertyLoad (object : Place) (prop : string)
| Destructure (value : Place) (pattern : list Place)
| ComputedLoad (object : Place) (prop : Place)
| FunctionExpression (dependencies : list Place)
| OtherValue (operands : list Place) (lvalues : list Place).

Record Instruction := {
  instr_id : InstructionId;
  lvalue : Place;
  instr_value : InstructionValue
}.

Inductive Terminal :=
| TerminalScope (scope : ReactiveScope) (block : BlockId)
| TerminalThrow
| TerminalReturn
| TerminalOther.

Record BasicBlock := {
  block_id : BlockId;
  instructions : list Instruction;
  terminal : Terminal;
  preds : list BlockId
}.

Inductive ReactFunctionType := Component | Hook | Other.

Record HIRFunction := {
  fnType : ReactFunctionType;
  params : list Param;
  (** [fn.env.config.enablePropagateDepsInHIR] *)
  enablePropagateDepsInHIR : string;
  (** [fn.body.blocks], a [Map] in insertion order *)
  blocks : list (BlockId * BasicBlock)
}.

#[global] Instance MutableRange_eq_dec : EqDecision MutableRange.
Proof. solve_decision. Defined.
#[global] Instance ReactiveScope_eq_dec : EqDecision ReactiveScope.
Proof. solve_decision. Defined.
#[global] Instance Identifier_eq_dec : EqDecision Identifier.
Proof. solve_decision. Defined.
#[global] Instance DependencyPathEntry_eq_dec : EqDecision DependencyPathEntry.
Proof. solve_decision. Defined.
#[global] Instance ReactiveScopeDependency_eq_dec : EqDecision ReactiveScopeDependency.
Proof. solve_decision. Defined.

(** ** Errors *)

Inductive SourceLocation := GeneratedSource | SourceRange (line column : nat).

(** What [CompilerError.invariant] throws when its condition is false. *)
Record CompilerError := {
  reason : string;
  description : option string;
  loc : SourceLocation
}.

Inductive outcome (A : Type) :=
| Ok (a : A)
| Throw (e : CompilerError)
| OutOfFuel.
Arguments Ok {A} a.
Arguments Throw {A} e.
Arguments OutOfFuel {A}.

#[global] Instance outcome_ret : MRet outcome := fun A a => Ok a.

#[global] Instance outcome_bind : MBind outcome := fun A B k m =>
  match m with
  | Ok a => k a
  | Throw e => Throw e
  | OutOfFuel => OutOfFuel
  end.

Definition of_option {A} (o : option A) : outcome A :=
  match o with Some a => Ok a | None => OutOfFuel end.

(** ** Sets of node references *)

Section Sets.
Context {A : Type} `{EqDecision A}.

Definition Set_has (s : list A) (x : A) : bool := bool_decide (x ∈ s).

Definition Set_add (s : list A) (x : A) : list A :=
  if Set_has s x then s else s ++ [x].

Definition Set_delete (s : list A) (x : A) : list A :=
  filter (fun y => y ≠ x) s.

(** Modelled from the spec: the helpers of [../Utils/utils] are not in the
    source tree. [Set_union a b] is a new set with the members of [a], then
    those of [b] that are not yet there. *)
Definition Set_union (a b : list A) : list A :=
  foldl Set_add a b.

(** Modelled from the spec: not in the source tree. The intersection of a
    list of sets, in the order of the first; no set at all gives the empty
    set. *)
Definition Set_intersect (sets : list (list A)) : list A :=
  match sets with
  | [] => []
  | first :: rest =>
      filter (fun e => forallb (fun s => Set_has s e) rest = true) first
  end.

(** Modelled from the spec: not in the source tree. Same size and every
    member of [a] is in [b]. *)
Definition Set_equal (a b : list A) : bool :=
  (length a =? length b)%nat && forallb (Set_has b) a.

(** Modelled from the spec: not in the source tree. *)
Definition Set_filter (s : list A) (f : A -> bool) : list A :=
  filter (fun x => f x = true) s.
End Sets.

(** Modelled from the spec: [inRange] of
    [../ReactiveScopes/InferReactiveScopeVariables] is not in the source tree;
    a range is a half-open instruction interval. *)
Definition inRange (instrId : InstructionId) (range : MutableRange) : bool :=
  (range_start range <=? instrId)%N && (instrId <? range_end range)%N.

(** ** The path trie *)

Record PropertyLoadNode := {
  properties : gmap string NodeRef;
  optionalProperties : gmap string NodeRef;
  parent : option NodeRef;
  fullPath : ReactiveScopeDependency;
  hasOptional : bool;
  (** only a [RootNode] has it *)
  root : option IdentifierId
}.

(** [class Tree]: its [roots], and the objects reachable from them. *)
Record Tree := {
  heap : list PropertyLoadNode;
  roots : gmap IdentifierId NodeRef
}.

(** [new Tree()] *)
Definition Tree_new : Tree := {| heap := []; roots := ∅ |}.

Definition dummy_identifier : Identifier :=
  {| id := 0; name := None;
     mutableRange := {| range_start := 0; range_end := 0 |}; scope := None |}.

Definition dummy_node : PropertyLoadNode :=
  {| properties := ∅; optionalProperties := ∅; parent := None;
     fullPath := {| identifier := dummy_identifier; path := [] |};
     hasOptional := false; root := None |}.

(** Reading through a reference. A reference of the program always points to
    an object; outside the heap the result is [dummy_node]. *)
Definition deref (t : Tree) (r : NodeRef) : PropertyLoadNode :=
  default dummy_node (heap t !! r).

Definition getOrCreateIdentifier (t : Tree) (identifier : Identifier)
  : Tree * NodeRef :=
  match roots t !! id identifier with
  | Some rootNode => (t, rootNode)
  | None =>
      let rootNode :=
        {| root := Some (id identifier);
           properties := ∅;
           optionalProperties := ∅;
           fullPath := {| identifier := identifier; path := [] |};
           hasOptional := false;
           parent := None |} in
      let r := length (heap t) in
      ({| heap := heap t ++ [rootNode];
          roots := <[id identifier := r]> (roots t) |}, r)
  end.

(** [entry.optional ? parent.optionalProperties : parent.properties] *)
Definition child_map (n : PropertyLoadNode) (opt : bool) : gmap string NodeRef :=
  if opt then optionalProperties n else properties n.

(** [map.set(entry.property, child)] on the map that [child_map] selected *)
Definition set_child (n : PropertyLoadNode) (entry : DependencyPathEntry)
  (child : NodeRef) : PropertyLoadNode :=
  if optional entry
  then {| properties := properties n;
          optionalProperties := <[property entry := child]> (optionalProperties n);
          parent := parent n; fullPath := fullPath n;
          hasOptional := hasOptional n; root := root n |}
  else {| properties := <[property entry := child]> (properties n);
          optionalProperties := optionalProperties n;
          parent := parent n; fullPath := fullPath n;
          hasOptional := hasOptional n; root := root n |}.

Definition getOrCreatePropertyEntry (t : Tree) (parent : NodeRef)
  (entry : DependencyPathEntry) : Tree * NodeRef :=
  let pn := deref t parent in
  match child_map pn (optional entry) !! property entry with
  | Some child => (t, child)
  | None =>
      let child :=
        {| properties := ∅;
           optionalProperties := ∅;
           parent := Some parent;
           fullPath := {| identifier := identifier (fullPath pn);
                          path := path (fullPath pn) ++ [entry] |};
           hasOptional := hasOptional pn || optional entry;
           root := None |} in
      let c := length (heap t) in
      ({| heap := <[parent := set_child pn entry c]> (heap t) ++ [child];
          roots := roots t |}, c)
  end.

(** The [for] loops of [getOrCreateProperty] and of the canonicalizer's
    re-walk: one [getOrCreatePropertyEntry] per entry, left to right. *)
Fixpoint walk_entries (t : Tree) (currNode : NodeRef)
  (entries : list DependencyPathEntry) : Tree * NodeRef :=
  match entries with
  | [] => (t, currNode)
  | entry :: rest =>
      let '(t', next) := getOrCreatePropertyEntry t currNode entry in
      walk_entries t' next rest
  end.

Definition getOrCreateProperty (t : Tree) (n : ReactiveScopeDependency)
  : Tree * NodeRef :=
  let '(t0, currNode) := getOrCreateIdentifier t (identifier n) in
  match last (path n) with
  | None => (t0, currNode)
  | Some lastEntry =>
      let '(t1, currNode1) := walk_entries t0 currNode (removelast (path n)) in
      getOrCreatePropertyEntry t1 currNode1 lastEntry
  end.

(** ** The local fact extractor *)

Definition pushPropertyLoadNode (t : Tree) (node : NodeRef)
  (instrId : InstructionId) (knownImmutableIdentifiers : gset IdentifierId)
  (result : list NodeRef) : list NodeRef :=
  let object := identifier (fullPath (deref t node)) in
  let isMutableAtInstr :=
    (range_start (mutableRange object) + 1 <? range_end (mutableRange object))%N
    && match scope object with
       | Some s => inRange instrId (scope_range s)
       | None => false
       end in
  if negb isMutableAtInstr
     || bool_decide (id (identifier (fullPath (deref t node)))
                      ∈ knownImmutableIdentifiers)
  then Set_add result node
  else result.

Record BlockInfo := {
  block : BasicBlock;
  assumedNonNullObjects : list NodeRef
}.

Definition ENABLED_WITH_OPTIMIZATIONS : string := "enabled_with_optimizations".

Definition optimizations_enabled (fn : HIRFunction) : bool :=
  String.eqb (enablePropagateDepsInHIR fn) ENABLED_WITH_OPTIMIZATIONS.

Definition is_component_or_hook (ty : ReactFunctionType) : bool :=
  match ty with Component | Hook => true | Other => false end.

(** The [knownImmutableIdentifiers] of [collectNonNullsInBlocks]. *)
Definition knownImmutableIdentifiers_of (fn : HIRFunction) : gset IdentifierId :=
  if is_component_or_hook (fnType fn)
  then foldl (fun acc p =>
                match p with
                | ParamIdentifier pl => {[ id (place_identifier pl) ]} ∪ acc
                | ParamSpread _ => acc
                end) ∅ (params fn)
  else ∅.

(** The [knownNonNullIdentifiers] of [collectNonNullsInBlocks]. *)
Definition knownNonNullIdentifiers_of (fn : HIRFunction) (t : Tree)
  : Tree * list NodeRef :=
  match fnType fn, params fn with
  | Component, ParamIdentifier pl :: _ =>
      if optimizations_enabled fn
      then let '(t', r) := getOrCreateIdentifier t (place_identifier pl) in
           (t', Set_add [] r)
      else (t, [])
  | _, _ => (t, [])
  end.

(** One instruction of the scan of a block: the tree and the block's set. *)
Definition collect_instr (fn : HIRFunction)
  (temporaries : gmap IdentifierId ReactiveScopeDependency)
  (knownImmutableIdentifiers : gset IdentifierId)
  (acc : Tree * list NodeRef) (instr : Instruction) : Tree * list NodeRef :=
  let '(t, assumed) := acc in
  match instr_value instr with
  | PropertyLoad object _ =>
      let source :=
        default {| identifier := place_identifier object; path := [] |}
                (temporaries !! id (place_identifier object)) in
      let '(t', propertyNode) := getOrCreateProperty t source in
      (t', pushPropertyLoadNode t' propertyNode (instr_id instr)
             knownImmutableIdentifiers assumed)
  | Destructure value _ =>
      if optimizations_enabled fn then
        match temporaries !! id (place_identifier value) with
        | Some sourceNode =>
            let '(t', n) := getOrCreateProperty t sourceNode in
            (t', pushPropertyLoadNode t' n (instr_id instr)
                   knownImmutableIdentifiers assumed)
        | None => (t, assumed)
        end
      else (t, assumed)
  | ComputedLoad object _ =>
      if optimizations_enabled fn then
        match temporaries !! id (place_identifier object) with
        | Some sourceNode =>
            let '(t', n) := getOrCreateProperty t sourceNode in
            (t', pushPropertyLoadNode t' n (instr_id instr)
                   knownImmutableIdentifiers assumed)
        | None => (t, assumed)
        end
      else (t, assumed)
  | _ => (t, assumed)
  end.

(** One block of [collectNonNullsInBlocks]. The set stored in [nodes] is the
    object that the rest of the iteration fills, so the entry is written here
    with its final content. *)
Definition collect_block (fn : HIRFunction)
  (temporaries : gmap IdentifierId ReactiveScopeDependency)
  (optionals : gmap BlockId ReactiveScopeDependency)
  (knownImmutableIdentifiers : gset IdentifierId)
  (knownNonNullIdentifiers : list NodeRef)
  (acc : Tree * gmap BlockId BlockInfo) (b : BasicBlock)
  : Tree * gmap BlockId BlockInfo :=
  let '(t, nodes) := acc in
  let assumed0 := knownNonNullIdentifiers in
  let '(t', assumed) :=
    match optionals !! block_id b with
    | Some maybeOptionalChain =>
        let '(t1, r) := getOrCreateProperty t maybeOptionalChain in
        (t1, Set_add assumed0 r)
    | None =>
        foldl (collect_instr fn temporaries knownImmutableIdentifiers)
              (t, assumed0) (instructions b)
    end in
  (t', <[block_id b := {| block := b; assumedNonNullObjects := assumed |}]> nodes).

Definition collectNonNullsInBlocks (fn : HIRFunction)
  (temporaries : gmap IdentifierId ReactiveScopeDependency)
  (optionals : gmap BlockId ReactiveScopeDependency)
  (t : Tree) : Tree * gmap BlockId BlockInfo :=
  let knownImmutableIdentifiers := knownImmutableIdentifiers_of fn in
  let '(t0, knownNonNullIdentifiers) := knownNonNullIdentifiers_of fn t in
  foldl (collect_block fn temporaries optionals knownImmutableIdentifiers
           knownNonNullIdentifiers)
        (t0, ∅) (blocks fn).*2.

(** ** The optional-chain canonicalizer *)

(** The inner [for] loop over [origPath]: the re-walk from [currNode]. *)
Fixpoint rewalk_entries (t : Tree) (knownNonNulls : list NodeRef)
  (currNode : NodeRef) (origPath : list DependencyPathEntry) : Tree * NodeRef :=
  match origPath with
  | [] => (t, currNode)
  | entry :: rest =>
      let nextEntry :=
        if optional entry && Set_has knownNonNulls currNode
        then {| property := property entry; optional := false |}
        else entry in
      let '(t', next) := getOrCreatePropertyEntry t currNode nextEntry in
      rewalk_entries t' knownNonNulls next rest
  end.

Definition rewalk (t : Tree) (knownNonNulls : list NodeRef) (original : NodeRef)
  : Tree * NodeRef :=
  let fp := fullPath (deref t original) in
  let '(t0, currNode) := getOrCreateIdentifier t (identifier fp) in
  rewalk_entries t0 knownNonNulls currNode (path fp).

(** The state of one pass over [optionalChainNodes]. The iteration of a
    JavaScript [Set] is live: [visited] are the members the iterator has
    passed, [pending] those still ahead, in insertion order; a member added
    during the pass is appended to [pending]. *)
Record ReduceState := {
  rs_tree : Tree;
  rs_nodes : list NodeRef;
  rs_knownNonNulls : list NodeRef;
  rs_visited : list NodeRef;
  rs_pending : list NodeRef;
  rs_changed : bool
}.

(** The members of [optionalChainNodes]. *)
Definition rs_optionalChainNodes (s : ReduceState) : list NodeRef :=
  rs_visited s ++ rs_pending s.

(** The body of [for (const original of optionalChainNodes)], at the member
    [original] that the iterator has just taken from [pending]. *)
Definition reduce_body (s : ReduceState) (original : NodeRef)
  (rest : list NodeRef) : ReduceState :=
  let '(t', currNode) := rewalk (rs_tree s) (rs_knownNonNulls s) original in
  if bool_decide (currNode ≠ original) then
    {| rs_tree := t';
       rs_changed := true;
       (* optionalChainNodes.delete(original); optionalChainNodes.add(currNode) *)
       rs_visited := rs_visited s;
       rs_pending :=
         if Set_has (rs_visited s ++ rest) currNode then rest
         else rest ++ [currNode];
       rs_nodes := Set_add (Set_delete (rs_nodes s) original) currNode;
       rs_knownNonNulls := Set_add (rs_knownNonNulls s) currNode |}
  else
    {| rs_tree := t';
       rs_changed := rs_changed s;
       rs_visited := rs_visited s ++ [original];
       rs_pending := rest;
       rs_nodes := rs_nodes s;
       rs_knownNonNulls := rs_knownNonNulls s |}.

Fixpoint reduce_for (fuel : nat) (s : ReduceState) : option ReduceState :=
  match fuel with
  | 0 => None
  | S fuel' =>
      match rs_pending s with
      | [] => Some s
      | original :: rest => reduce_for fuel' (reduce_body s original rest)
      end
  end.

(** [do { changed = false; for ... } while (changed)] *)
Fixpoint reduce_loop (fuel : nat) (t : Tree) (nodes knownNonNulls
  optionalChainNodes : list NodeRef) : option (list NodeRef * Tree) :=
  match fuel with
  | 0 => None
  | S fuel' =>
      match reduce_for fuel
              {| rs_tree := t; rs_nodes := nodes;
                 rs_knownNonNulls := knownNonNulls;
                 rs_visited := []; rs_pending := optionalChainNodes;
                 rs_changed := false |} with
      | None => None
      | Some s =>
          if rs_changed s
          then reduce_loop fuel' (rs_tree s) (rs_nodes s) (rs_knownNonNulls s)
                 (rs_optionalChainNodes s)
          else Some (rs_nodes s, rs_tree s)
      end
  end.

(** [nodes] is mutated in place and the tree may grow: both are returned. *)
Definition reduceMaybeOptionalChains (fuel : nat) (nodes : list NodeRef)
  (t : Tree) : option (list NodeRef * Tree) :=
  let optionalChainNodes :=
    Set_filter nodes (fun n => hasOptional (deref t n)) in
  if (length optionalChainNodes =? 0)%nat then Some (nodes, t)
  else reduce_loop fuel t nodes nodes optionalChainNodes.

(** ** The CFG fixed-point propagator *)

Inductive Direction := forward | backward.

Inductive TraversalStatus := active | done.

#[global] Instance TraversalStatus_eq_dec : EqDecision TraversalStatus.
Proof. solve_decision. Defined.

Definition direction_name (d : Direction) : string :=
  match d with forward => "forward" | backward => "backward" end.

Definition invariant_error (reason : string) : CompilerError :=
  {| reason := reason; description := None; loc := GeneratedSource |}.

Definition bad_node_reason (nodeId : BlockId) (direction : Direction) : string :=
  ("Bad node " +:+ pretty nodeId +:+ ", kind: " +:+ direction_name direction)%string.

Definition unexpected_null_reason : string := "Unexpected null".

Definition fixpoint_reason : string :=
  "[CollectHoistablePropertyLoads] fixed point iteration did not terminate after 100 loops".

Definition assertNonNull {A} (value : option A) : outcome A :=
  match value with
  | Some v => Ok v
  | None => Throw (invariant_error unexpected_null_reason)
  end.

(** [getOrInsertDefault(blockSuccessors, pred, new Set()).add(blockId)] for
    every predecessor of every block, in the order of [fn.body.blocks]. (The
    set [terminalPreds] that the same loop fills is never read.) *)
Definition blockSuccessors_of (fn : HIRFunction) : gmap BlockId (list BlockId) :=
  foldl (fun acc '(blockId, b) =>
           foldl (fun acc pred =>
                    <[pred := Set_add (default [] (acc !! pred)) blockId]> acc)
                 acc (preds b))
        ∅ (blocks fn).

Record PropState := {
  traversalState : gmap BlockId TraversalStatus;
  st_nodes : gmap BlockId BlockInfo;
  st_tree : Tree
}.

Definition set_status (nodeId : BlockId) (s : TraversalStatus) (st : PropState)
  : PropState :=
  {| traversalState := <[nodeId := s]> (traversalState st);
     st_nodes := st_nodes st; st_tree := st_tree st |}.

Definition clear_traversal (st : PropState) : PropState :=
  {| traversalState := ∅; st_nodes := st_nodes st; st_tree := st_tree st |}.

(** [for (const x of xs) { const c = visit(x); changed ||= c; }] *)
Fixpoint visit_all (visit : BlockId -> PropState -> outcome (bool * PropState))
  (xs : list BlockId) (changed : bool) (st : PropState)
  : outcome (bool * PropState) :=
  match xs with
  | [] => Ok (changed, st)
  | x :: rest =>
      '(c, st') ← visit x st;
      visit_all visit rest (changed || c) st'
  end.

(** [if (!traversalState.has(pred)) { ... visit(pred) ... }]: a neighbor that
    has a traversal state is passed over. *)
Definition unless_visited (visit : BlockId -> PropState -> outcome (bool * PropState))
  (pred : BlockId) (st : PropState) : outcome (bool * PropState) :=
  if decide (is_Some (traversalState st !! pred)) then Ok (false, st)
  else visit pred st.

(** The [assumedNonNullObjects] of the neighbors whose state is ['done']. *)
Fixpoint neighbor_sets (st : PropState) (neighbors : list BlockId)
  : outcome (list (list NodeRef)) :=
  match neighbors with
  | [] => Ok []
  | n :: rest =>
      if decide (traversalState st !! n = Some done) then
        info ← assertNonNull (st_nodes st !! n);
        sets ← neighbor_sets st rest;
        Ok (assumedNonNullObjects info :: sets)
      else neighbor_sets st rest
  end.

Definition neighbors_of (blockSuccessors : gmap BlockId (list BlockId))
  (direction : Direction) (nodeId : BlockId) (node : BlockInfo) : list BlockId :=
  match direction with
  | backward => default [] (blockSuccessors !! nodeId)
  | forward => preds (block node)
  end.

(** The part of [recursivelyPropagateNonNull] after the neighbors have been
    visited: merge, canonicalize, store. *)
Definition merge_block (fuel : nat) (nodeId : BlockId)
  (neighbors : list BlockId) (changed : bool) (st : PropState)
  : outcome (bool * PropState) :=
  sets ← neighbor_sets st neighbors;
  let neighborAccesses := Set_intersect sets in
  info ← assertNonNull (st_nodes st !! nodeId);
  let prevObjects := assumedNonNullObjects info in
  let mergedObjects := Set_union prevObjects neighborAccesses in
  '(mergedObjects', t') ← of_option (reduceMaybeOptionalChains fuel mergedObjects (st_tree st));
  info' ← assertNonNull (st_nodes st !! nodeId);
  Ok (changed || negb (Set_equal prevObjects mergedObjects'),
      {| traversalState := <[nodeId := done]> (traversalState st);
         st_nodes := <[nodeId := {| block := block info';
                                    assumedNonNullObjects := mergedObjects' |}]>
                       (st_nodes st);
         st_tree := t' |}).

Fixpoint recursivelyPropagateNonNull (fuel : nat)
  (blockSuccessors : gmap BlockId (list BlockId))
  (direction : Direction) (nodeId : BlockId) (st : PropState)
  : outcome (bool * PropState) :=
  match fuel with
  | 0 => OutOfFuel
  | S fuel' =>
      if decide (is_Some (traversalState st !! nodeId)) then Ok (false, st)
      else
        let st := set_status nodeId active st in
        match st_nodes st !! nodeId with
        | None => Throw (invariant_error (bad_node_reason nodeId direction))
        | Some node =>
            let neighbors := neighbors_of blockSuccessors direction nodeId node in
            '(changed, st') ←
              visit_all
                (unless_visited
                   (recursivelyPropagateNonNull fuel' blockSuccessors direction))
                neighbors false st;
            merge_block fuel nodeId neighbors changed st'
        end
  end.

(** The cap of the outer loop: [CompilerError.invariant(i++ < 100, ...)]. *)
Definition MAX_LOOPS : nat := 100.

(** One iteration of the [do ... while (changed)] loop after its invariant:
    a forward sweep in block order and a backward sweep in reverse order. *)
Definition sweep_both (fuel : nat) (fn : HIRFunction)
  (blockSuccessors : gmap BlockId (list BlockId)) (st : PropState)
  : outcome (bool * PropState) :=
  '(changed, st1) ←
    visit_all (recursivelyPropagateNonNull fuel blockSuccessors forward)
              (blocks fn).*1 false st;
  '(changed', st2) ←
    visit_all (recursivelyPropagateNonNull fuel blockSuccessors backward)
              (reverse (blocks fn)).*1 changed (clear_traversal st1);
  Ok (changed', clear_traversal st2).

(** The [do ... while (changed)] loop; [remaining] is [100 - i]. *)
Fixpoint fixpoint_loop (fuel : nat) (fn : HIRFunction)
  (blockSuccessors : gmap BlockId (list BlockId))
  (remaining : nat) (st : PropState) : outcome PropState :=
  match remaining with
  | 0 => Throw (invariant_error fixpoint_reason)
  | S remaining' =>
      '(changed, st') ← sweep_both fuel fn blockSuccessors st;
      if changed : bool
      then fixpoint_loop fuel fn blockSuccessors remaining' st'
      else Ok st'
  end.

(** [nodes] is mutated in place and the tree may grow: both are returned. *)
Definition propagateNonNull (fuel : nat) (fn : HIRFunction)
  (nodes : gmap BlockId BlockInfo) (t : Tree)
  : outcome (gmap BlockId BlockInfo * Tree) :=
  st ← fixpoint_loop fuel fn (blockSuccessors_of fn) MAX_LOOPS
         {| traversalState := ∅; st_nodes := nodes; st_tree := t |};
  Ok (st_nodes st, st_tree st).

(** ** The closure-reference filter *)

(** Modelled from the spec: [eachInstructionValueOperand] of [./visitors] is
    not in the source tree; the places an instruction value reads. *)
Definition eachInstructionValueOperand (v : InstructionValue) : list Place :=
  match v with
  | PropertyLoad object _ => [object]
  | Destructure value _ => [value]
  | ComputedLoad object prop => [object; prop]
  | FunctionExpression dependencies => dependencies
  | OtherValue operands _ => operands
  end.

(** Modelled from the spec: [eachInstructionValueLValue] of [./visitors] is
    not in the source tree; the places an instruction value writes. *)
Definition eachInstructionValueLValue (v : InstructionValue) : list Place :=
  match v with
  | Destructure _ pattern => pattern
  | OtherValue _ lvalues => lvalues
  | _ => []
  end.

(** [while (queued.length > 0)]: [queued] is a stack, its top first. *)
Fixpoint drain_queue (fuel : nat) (uses : gmap IdentifierId (list IdentifierId))
  (queued : list IdentifierId) (functionExpressionReferences : list IdentifierId)
  : option (list IdentifierId) :=
  match fuel with
  | 0 => None
  | S fuel' =>
      match queued with
      | [] => Some functionExpressionReferences
      | top :: rest =>
          drain_queue fuel' uses
            (reverse (default [] (uses !! top)) ++ rest)
            (Set_add functionExpressionReferences top)
      end
  end.

Fixpoint drain_dependencies (fuel : nat) (uses : gmap IdentifierId (list IdentifierId))
  (dependencies : list Place) (functionExpressionReferences : list IdentifierId)
  : option (list IdentifierId) :=
  match dependencies with
  | [] => Some functionExpressionReferences
  | reference :: rest =>
      refs ← drain_queue fuel uses [id (place_identifier reference)]
               functionExpressionReferences;
      drain_dependencies fuel uses rest refs
  end.

Definition is_unnamed (p : Place) : bool :=
  match name (place_identifier p) with None => true | Some _ => false end.

Definition collect_rvalues_instr (fuel : nat)
  (acc : gmap IdentifierId (list IdentifierId) * list IdentifierId)
  (instr : Instruction)
  : option (gmap IdentifierId (list IdentifierId) * list IdentifierId) :=
  let '(uses, refs) := acc in
  match instr_value instr with
  | FunctionExpression dependencies =>
      refs' ← drain_dependencies fuel uses dependencies refs;
      Some (uses, refs')
  | value =>
      let operands :=
        eachInstructionValueOperand value ++ eachInstructionValueLValue value in
      if forallb is_unnamed operands
      then Some (<[id (place_identifier (lvalue instr)) :=
                     foldl Set_add [] ((fun o => id (place_identifier o)) <$> operands)]>
                   uses, refs)
      else Some (uses, refs)
  end.

Fixpoint foldl_option {A B} (f : A -> B -> option A) (a : A) (l : list B)
  : option A :=
  match l with
  | [] => Some a
  | x :: rest => a' ← f a x; foldl_option f a' rest
  end.

Definition collectFunctionExpressionRValues (fuel : nat) (fn : HIRFunction)
  : option (list IdentifierId) :=
  snd <$> foldl_option (collect_rvalues_instr fuel) (∅, [])
            (concat (instructions <$> (blocks fn).*2)).

(** ** The entry point *)

(** [Map.prototype.set] on a map that keeps insertion order. *)
Fixpoint Map_set {V} (m : list (N * V)) (k : N) (v : V) : list (N * V) :=
  match m with
  | [] => [(k, v)]
  | (k', v') :: rest =>
      if decide (k' = k) then (k, v) :: rest else (k', v') :: Map_set rest k v
  end.

(** The final re-indexing by scope; [nodes.get(...)!] may be [undefined]. *)
Definition nodesKeyedByScopeId_of (fn : HIRFunction)
  (nodes : gmap BlockId BlockInfo) : list (ScopeId * option BlockInfo) :=
  foldl (fun acc b =>
           match terminal b with
           | TerminalScope scope blockId =>
               Map_set acc (scope_id scope) (nodes !! blockId)
           | _ => acc
           end) [] (blocks fn).*2.

(** The result, and the tree that its node references point into. *)
Definition collectHoistablePropertyLoads (fuel : nat) (fn : HIRFunction)
  (temporaries : gmap IdentifierId ReactiveScopeDependency)
  (optionals : gmap BlockId ReactiveScopeDependency)
  : outcome (list (ScopeId * option BlockInfo) * Tree) :=
  let t := Tree_new in
  functionExpressionReferences ← of_option (collectFunctionExpressionRValues fuel fn);
  let realTemporaries :=
    foldl (fun m reference => delete reference m) temporaries
          functionExpressionReferences in
  let '(t1, nodes) := collectNonNullsInBlocks fn realTemporaries optionals t in
  '(nodes', t2) ← propagateNonNull fuel fn nodes t1;
  Ok (nodesKeyedByScopeId_of fn nodes', t2).

(** ** Specification-level definitions *)

(** *** Reading the trie without creating nodes *)

Definition child_of (t : Tree) (p : NodeRef) (e : DependencyPathEntry)
  : option NodeRef :=
  child_map (deref t p) (optional e) !! property e.

Fixpoint find_path (t : Tree) (curr : NodeRef) (entries : list DependencyPathEntry)
  : option NodeRef :=
  match entries with
  | [] => Some curr
  | e :: rest => c ← child_of t curr e; find_path t c rest
  end.

(** The node of the dependency with root identifier [i] and path [p]. *)
Definition find_dep (t : Tree) (i : IdentifierId) (p : list DependencyPathEntry)
  : option NodeRef :=
  r ← roots t !! i; find_path t r p.

(** *** Well-formed tries: what [Tree]'s methods maintain *)

Record wf_tree (t : Tree) : Prop := {
  wf_roots : ∀ i r, roots t !! i = Some r →
    ∃ n, heap t !! r = Some n ∧ id (identifier (fullPath n)) = i
         ∧ path (fullPath n) = [];
  wf_child : ∀ p pn e c, heap t !! p = Some pn →
    child_map pn (optional e) !! property e = Some c →
    ∃ cn, heap t !! c = Some cn
          ∧ identifier (fullPath cn) = identifier (fullPath pn)
          ∧ path (fullPath cn) = path (fullPath pn) ++ [e];
  wf_self : ∀ r n, heap t !! r = Some n →
    find_dep t (id (identifier (fullPath n))) (path (fullPath n)) = Some r;
  wf_hasOptional : ∀ r n, heap t !! r = Some n →
    hasOptional n = existsb optional (path (fullPath n))
}.

(** [t'] is [t] after some more calls of its methods: the nodes of [t] are
    still there, with their paths, and every child they had. *)
Record extends (t t' : Tree) : Prop := {
  ext_length : length (heap t) ≤ length (heap t');
  ext_roots : ∀ i r, roots t !! i = Some r → roots t' !! i = Some r;
  ext_node : ∀ r n, heap t !! r = Some n →
    ∃ n', heap t' !! r = Some n' ∧ fullPath n' = fullPath n
          ∧ hasOptional n' = hasOptional n
          ∧ ∀ o k c, child_map n o !! k = Some c → child_map n' o !! k = Some c
}.

(** Every member of a set is a node of the tree. *)
Definition valid_set (t : Tree) (s : list NodeRef) : Prop :=
  Forall (fun r => r < length (heap t)) s.

(** The number of prefixes of a dependency (the root included) that have no
    node in the tree. *)
Definition missing_nodes (t : Tree) (i : IdentifierId)
  (p : list DependencyPathEntry) : nat :=
  length (filter (fun k => find_dep t i (take k p) = None) (seq 0 (S (length p)))).

(** *** The canonicalizer *)

Definition unconditional (e : DependencyPathEntry) : DependencyPathEntry :=
  {| property := property e; optional := false |}.

(** The path the re-walk follows, in the spec's words: a segment is rewritten
    to unconditional exactly when it is optional and the node of the prefix
    accumulated so far is in the known-non-null set. The nodes are read in
    the tree [t] as it is after the re-walk. *)
Fixpoint canon_path (t : Tree) (knownNonNulls : list NodeRef) (prefix : NodeRef)
  (origPath : list DependencyPathEntry) : list DependencyPathEntry :=
  match origPath with
  | [] => []
  | e :: rest =>
      let e' := if optional e && Set_has knownNonNulls prefix
                then unconditional e else e in
      e' :: match child_of t prefix e' with
            | Some next => canon_path t knownNonNulls next rest
            | None => rest
            end
  end.

(** The number of optional segments of a path, and of a node's path. *)
Definition optional_count (p : list DependencyPathEntry) : nat :=
  length (filter (fun e => optional e = true) p).

Definition node_weight (t : Tree) (r : NodeRef) : nat :=
  optional_count (path (fullPath (deref t r))).

Definition set_weight (t : Tree) (s : list NodeRef) : nat :=
  sum_list_with (node_weight t) s.

(** Fuel that is enough for [reduceMaybeOptionalChains]. *)
Definition reduce_bound (t : Tree) (nodes : list NodeRef) : nat :=
  set_weight t nodes + length nodes.

(** A node that the re-walk leaves alone. *)
Definition stable (t : Tree) (knownNonNulls : list NodeRef) (r : NodeRef) : Prop :=
  rewalk t knownNonNulls r = (t, r).

(** *** The local fact extractor *)

(** The dependency a property-read instruction reads from, when the scan
    handles the instruction. *)
Definition read_source (fn : HIRFunction)
  (temporaries : gmap IdentifierId ReactiveScopeDependency)
  (instr : Instruction) : option ReactiveScopeDependency :=
  match instr_value instr with
  | PropertyLoad object _ =>
      Some (default {| identifier := place_identifier object; path := [] |}
                    (temporaries !! id (place_identifier object)))
  | Destructure value _ =>
      if optimizations_enabled fn
      then temporaries !! id (place_identifier value) else None
  | ComputedLoad object _ =>
      if optimizations_enabled fn
      then temporaries !! id (place_identifier object) else None
  | _ => None
  end.

(** The invariant of the fact table while it is built. *)
Definition wf_nodes (t : Tree) (nodes : gmap BlockId BlockInfo) : Prop :=
  ∀ k info, nodes !! k = Some info →
    valid_set t (assumedNonNullObjects info) ∧ NoDup (assumedNonNullObjects info).

(** *** The propagator *)

(** The fact sets of the neighbors that are ['done'], in the spec's words. *)
Definition done_neighbor_sets (st : PropState) (neighbors : list BlockId)
  : list (list NodeRef) :=
  omap (fun n => if decide (traversalState st !! n = Some done)
                 then assumedNonNullObjects <$> st_nodes st !! n else None)
       neighbors.

(** The block ids the forward sweep refers to: the keys of [fn.body.blocks]
    and, from a block with an entry in the fact table, its predecessors. *)
Inductive referenced (fn : HIRFunction) (nodes : gmap BlockId BlockInfo)
  : BlockId → Prop :=
| referenced_block k : k ∈ (blocks fn).*1 → referenced fn nodes k
| referenced_pred k info p :
    referenced fn nodes k → nodes !! k = Some info → p ∈ preds (block info) →
    referenced fn nodes p.

(** The first [k] iterations of the outer loop all report a change. *)
Fixpoint sweeps_all_changed (fuel : nat) (fn : HIRFunction)
  (blockSuccessors : gmap BlockId (list BlockId)) (k : nat) (st : PropState)
  : bool :=
  match k with
  | 0 => true
  | S k' =>
      match sweep_both fuel fn blockSuccessors st with
      | Ok (true, st') => sweeps_all_changed fuel fn blockSuccessors k' st'
      | _ => false
      end
  end.

(** The tree and the fact sets of a propagator state are well formed. *)
Record wf_state (st : PropState) : Prop := {
  wf_st_tree : wf_tree (st_tree st);
  wf_st_sets : ∀ k info, st_nodes st !! k = Some info →
    valid_set (st_tree st) (assumedNonNullObjects info)
}.

(** Every block with a traversal state has an entry in the fact table. *)
Definition visited_ok (st : PropState) : Prop :=
  ∀ k, is_Some (traversalState st !! k) → is_Some (st_nodes st !! k).

(** The neighbors of every ['done'] block have a traversal state. *)
Definition closed (blockSuccessors : gmap BlockId (list BlockId))
  (d : Direction) (st : PropState) : Prop :=
  ∀ k info, traversalState st !! k = Some done → st_nodes st !! k = Some info →
    ∀ p, p ∈ neighbors_of blockSuccessors d k info →
      is_Some (traversalState st !! p).

(** The invariant of a sweep; [w] says whether well-formedness is part of it. *)
Definition prop_inv (w : Prop) (blockSuccessors : gmap BlockId (list BlockId))
  (d : Direction) (st : PropState) : Prop :=
  visited_ok st ∧ closed blockSuccessors d st ∧ (w → wf_state st).

(** What a visit may change. *)
Record step_rel (st st' : PropState) : Prop := {
  sr_blocks : ∀ k, block <$> st_nodes st' !! k = block <$> st_nodes st !! k;
  sr_kept : ∀ k, is_Some (traversalState st !! k) →
    st_nodes st' !! k = st_nodes st !! k;
  sr_status : ∀ k s, traversalState st !! k = Some s →
    traversalState st' !! k = Some s;
  sr_new_done : ∀ k s, traversalState st !! k = None →
    traversalState st' !! k = Some s → s = done
}.

(** What a visit function does from a state that satisfies the invariant. *)
Definition visit_ok (w : Prop) (blockSuccessors : gmap BlockId (list BlockId))
  (d : Direction) (v : BlockId → PropState → outcome (bool * PropState)) : Prop :=
  ∀ x st, prop_inv w blockSuccessors d st →
    match v x st with
    | Ok (_, st') =>
        prop_inv w blockSuccessors d st' ∧ step_rel st st'
        ∧ is_Some (traversalState st' !! x)
        ∧ (w → extends (st_tree st) (st_tree st'))
    | Throw e =>
        ∃ m, e = invariant_error (bad_node_reason m d) ∧ st_nodes st !! m = None
    | OutOfFuel => True
    end.

(** The blocks of the fact table that have no traversal state yet. *)
Definition unvisited (st : PropState) : gset BlockId :=
  dom (st_nodes st) ∖ dom (traversalState st).

(** [y] is the result [x], unless [x] ran out of fuel. *)
Definition refines {A} (x y : outcome A) : Prop := x ≠ OutOfFuel → y = x.

(** The number of proper extensions of the node [c] along [es] that have no
    node in the tree. *)
Definition missing_from (t : Tree) (c : NodeRef)
  (es : list DependencyPathEntry) : nat :=
  length (filter (fun k => find_path t c (take k es) = None) (seq 1 (length es))).

(** *** Concrete inputs *)

Definition ident (i : IdentifierId) : Identifier :=
  {| id := i; name := None;
     mutableRange := {| range_start := 0; range_end := 0 |}; scope := None |}.

(** The same identifier as [ident i], seen through another object. *)
Definition ident_named (i : IdentifierId) (s : string) : Identifier :=
  {| id := i; name := Some s;
     mutableRange := {| range_start := 0; range_end := 0 |}; scope := None |}.

Definition entry (p : string) (o : bool) : DependencyPathEntry :=
  {| property := p; optional := o |}.

(** [a.b], and [a.b] again with another [Identifier] object for [a] *)
Definition dep_a_b : ReactiveScopeDependency :=
  {| identifier := ident 1; path := [entry "b" false] |}.
Definition dep_a_b' : ReactiveScopeDependency :=
  {| identifier := ident_named 1 "a"; path := [entry "b" false] |}.

(** The test of [pushPropertyLoadNode] on the identifier [object] that the
    node records for its root. *)
Definition admitted (object : Identifier) (instrId : InstructionId)
  (knownImmutableIdentifiers : gset IdentifierId) : bool :=
  negb ((range_start (mutableRange object) + 1 <? range_end (mutableRange object))%N
        && match scope object with
           | Some s => inRange instrId (scope_range s)
           | None => false
           end)
  || bool_decide (id object ∈ knownImmutableIdentifiers).

(** A component whose parameter [props] (identifier 7) has a mutable range
    and a scope that both contain instruction 3, and whose only block reads
    [props.x] at instruction 3. *)
Definition wide_range : MutableRange := {| range_start := 0; range_end := 10 |}.

Definition props_identifier : Identifier :=
  {| id := 7; name := Some "props"; mutableRange := wide_range;
     scope := Some {| scope_id := 1; scope_range := wide_range |} |}.

Definition read_props_x : Instruction :=
  {| instr_id := 3;
     lvalue := {| place_identifier := ident 8 |};
     instr_value := PropertyLoad {| place_identifier := props_identifier |} "x" |}.

Definition props_block : BasicBlock :=
  {| block_id := 0; instructions := [read_props_x];
     terminal := TerminalReturn; preds := [] |}.

Definition props_fn (ty : ReactFunctionType) : HIRFunction :=
  {| fnType := ty;
     params := [ParamIdentifier {| place_identifier := props_identifier |}];
     enablePropagateDepsInHIR := "disabled";
     blocks := [(0%N, props_block)] |}.

(** A function that is no component, whose block reads [y.x] at instruction 3
    from an identifier (9) with a wide mutable range and no scope. *)
Definition unscoped_identifier : Identifier :=
  {| id := 9; name := Some "y"; mutableRange := wide_range; scope := None |}.

Definition read_y_x : Instruction :=
  {| instr_id := 3;
     lvalue := {| place_identifier := ident 8 |};
     instr_value := PropertyLoad {| place_identifier := unscoped_identifier |} "x" |}.

Definition unscoped_block : BasicBlock :=
  {| block_id := 0; instructions := [read_y_x];
     terminal := TerminalReturn; preds := [] |}.

Definition unscoped_fn : HIRFunction :=
  {| fnType := Other; params := []; enablePropagateDepsInHIR := "disabled";
     blocks := [(0%N, unscoped_block)] |}.

(** One segment of the re-walk: kept, or an optional segment made
    unconditional. *)
Definition relaxes (e e' : DependencyPathEntry) : Prop :=
  e' = e ∨ (optional e = true ∧ e' = unconditional e).

(** Walking [es] from [c] in the tree as it is, no segment is rewritten. *)
Fixpoint unrewritten (t : Tree) (knownNonNulls : list NodeRef) (c : NodeRef)
  (es : list DependencyPathEntry) : bool :=
  match es with
  | [] => true
  | e :: rest =>
      negb (optional e && Set_has knownNonNulls c)
      && match child_of t c e with
         | Some next => unrewritten t knownNonNulls next rest
         | None => false
         end
  end.

(** The invariant of the canonicalizer's loop. *)
Record reduce_inv (s : ReduceState) : Prop := {
  ri_wf : wf_tree (rs_tree s);
  ri_nodes : valid_set (rs_tree s) (rs_nodes s);
  ri_known : valid_set (rs_tree s) (rs_knownNonNulls s);
  ri_visited : valid_set (rs_tree s) (rs_visited s);
  ri_pending : valid_set (rs_tree s) (rs_pending s);
  ri_nodes_known : ∀ x, x ∈ rs_nodes s → x ∈ rs_knownNonNulls s;
  ri_optional : ∀ x, x ∈ rs_nodes s →
    hasOptional (deref (rs_tree s) x) = true →
    x ∈ rs_visited s ++ rs_pending s;
  ri_stable : rs_changed s = false → ∀ x, x ∈ rs_visited s →
    stable (rs_tree s) (rs_knownNonNulls s) x
}.

(** What is left of the pass over [optionalChainNodes], as a number. *)
Definition pending_measure (s : ReduceState) : nat :=
  set_weight (rs_tree s) (rs_pending s) + length (rs_pending s).

(** The optional segments of all of [optionalChainNodes]. *)
Definition ocn_weight (s : ReduceState) : nat :=
  set_weight (rs_tree s) (rs_optionalChainNodes s).

Definition changed_bit (s : ReduceState) : nat :=
  if rs_changed s then 1 else 0.

(** [a?.b.c], and the tree with the nodes 0 = [a], 1 = [a.b], 2 = [a?.b],
    3 = [a?.b.c] *)
Definition dep_a_optb_c : ReactiveScopeDependency :=
  {| identifier := ident 1; path := [entry "b" true; entry "c" false] |}.

Definition example_tree : Tree :=
  (getOrCreateProperty (getOrCreateProperty Tree_new dep_a_b).1 dep_a_optb_c).1.

(** The canonicalizer's state at [a?.b.c] (node 3) of the set {[a], [a?.b.c]}. *)
Definition example_state : ReduceState :=
  {| rs_tree := example_tree; rs_nodes := [0; 3]; rs_knownNonNulls := [0; 3];
     rs_visited := []; rs_pending := [3]; rs_changed := false |}.

(** The two components of the canonicalizer's result, when it returns. *)
Definition reduceMaybeOptionalChains_fst (fuel : nat) (nodes : list NodeRef)
  (t : Tree) : list NodeRef :=
  match reduceMaybeOptionalChains fuel nodes t with
  | Some (nodes', _) => nodes'
  | None => nodes
  end.

Definition reduceMaybeOptionalChains_snd (fuel : nat) (nodes : list NodeRef)
  (t : Tree) : Tree :=
  match reduceMaybeOptionalChains fuel nodes t with
  | Some (_, t') => t'
  | None => t
  end.

(** A component whose first block reads [props.x] and ends in a scope
    terminal for scope 4 with block 1; block 1 follows block 0. *)
Definition scope_four : ReactiveScope :=
  {| scope_id := 4; scope_range := {| range_start := 20; range_end := 30 |} |}.

Definition scoped_fn : HIRFunction :=
  {| fnType := Component;
     params := [ParamIdentifier {| place_identifier := props_identifier |}];
     enablePropagateDepsInHIR := "disabled";
     blocks :=
       [(0%N, {| block_id := 0; instructions := [read_props_x];
                 terminal := TerminalScope scope_four 1; preds := [] |});
        (1%N, {| block_id := 1; instructions := [];
                 terminal := TerminalReturn; preds := [0%N] |})] |}.

(** The fact sets of a returned table, by scope. *)
Definition table_sets (r : outcome (list (ScopeId * option BlockInfo) * Tree))
  : option (list (ScopeId * option (list NodeRef))) :=
  match r with
  | Ok (table, _) =>
      Some (map (fun e : ScopeId * option BlockInfo =>
                   (e.1, option_map assumedNonNullObjects e.2)) table)
  | _ => None
  end.

(** A control-flow graph on which the fixed point needs more than 100
    iterations. The chain blocks [0 .. n] are linked both ways (block [k] has
    the predecessors [k + 1] and [k - 1]); every even chain block [k > 0] has
    one more predecessor [2000 + k], a block without predecessors; every odd
    chain block [k] has one more successor [1000 + k]. Block 0 reads [x.a].
    The blocks are listed from chain block [n] down to 0, then the blocks
    [1000 + k], then the blocks [2000 + k]. *)
Definition plain_block (i : BlockId) (instrs : list Instruction)
  (ps : list BlockId) : BlockId * BasicBlock :=
  (i, {| block_id := i; instructions := instrs; terminal := TerminalOther;
         preds := ps |}).

Definition read_x_a : Instruction :=
  {| instr_id := 1;
     lvalue := {| place_identifier := ident 1 |};
     instr_value := PropertyLoad {| place_identifier := ident_named 0 "x" |} "a" |}.

Definition chain_block (n k : N) : BlockId * BasicBlock :=
  plain_block k (if (k =? 0)%N then [read_x_a] else [])
    ((if (k + 1 <=? n)%N then [(k + 1)%N] else [])
     ++ (if (1 <=? k)%N then [(k - 1)%N] else [])
     ++ (if N.even k && (1 <=? k)%N then [(2000 + k)%N] else [])).

Definition upto (n : nat) : list N := N.of_nat <$> seq 0 (S n).

Definition zigzag (n : nat) : HIRFunction :=
  {| fnType := Other; params := []; enablePropagateDepsInHIR := "disabled";
     blocks :=
       (chain_block (N.of_nat n) <$> reverse (upto n))
       ++ ((fun k => plain_block (1000 + k)%N [] [k])
             <$> filter (fun k => N.odd k = true) (upto n))
       ++ ((fun k => plain_block (2000 + k)%N [] [])
             <$> filter (fun k => N.even k && (1 <=? k)%N = true) (upto n)) |}.

(** The facts and the tree that the local fact extractor hands to the
    propagator for [zigzag 200]. *)
Definition zigzag_facts : Tree * gmap BlockId BlockInfo :=
  collectNonNullsInBlocks (zigzag 200) ∅ ∅ Tree_new.

(** A diamond: block 0 branches to the blocks 1 and 2, which both go to block
    3. Block 1 reads [q.b]; block 2 reads [q.b] only when [both] is set. *)
Definition read_q_b (i : InstructionId) : Instruction :=
  {| instr_id := i;
     lvalue := {| place_identifier := ident 11 |};
     instr_value := PropertyLoad {| place_identifier := ident_named 10 "q" |} "b" |}.

Definition diamond (both : bool) : HIRFunction :=
  {| fnType := Other; params := []; enablePropagateDepsInHIR := "disabled";
     blocks :=
       [plain_block 0 [] [];
        plain_block 1 [read_q_b 1] [0%N];
        plain_block 2 (if both then [read_q_b 2] else []) [0%N];
        plain_block 3 [] [1%N; 2%N]] |}.

(** The state in which the first forward sweep of [diamond both] starts. *)
Definition diamond_start (both : bool) : PropState :=
  {| traversalState := ∅;
     st_nodes := (collectNonNullsInBlocks (diamond both) ∅ ∅ Tree_new).2;
     st_tree := (collectNonNullsInBlocks (diamond both) ∅ ∅ Tree_new).1 |}.

(** The state and the flag a visit returns, when it returns. *)
Definition visit_state (r : outcome (bool * PropState)) (st : PropState)
  : PropState :=
  match r with Ok (_, st') => st' | _ => st end.

Definition visit_changed (r : outcome (bool * PropState)) : bool :=
  match r with Ok (c, _) => c | _ => false end.

(** The fact set of a block in a state. *)
Definition facts_of (st : PropState) (k : BlockId) : option (list NodeRef) :=
  assumedNonNullObjects <$> st_nodes st !! k.

(** A function whose only block reads [a.x] and then, through the temporary
    5 that stands for [a?.b], [a?.b.c]: its local facts are the nodes of [a]
    and of [a?.b]. *)
Definition read_a_x : Instruction :=
  {| instr_id := 1;
     lvalue := {| place_identifier := ident 4 |};
     instr_value := PropertyLoad {| place_identifier := ident_named 1 "a" |} "x" |}.

Definition read_t_c : Instruction :=
  {| instr_id := 3;
     lvalue := {| place_identifier := ident 6 |};
     instr_value := PropertyLoad {| place_identifier := ident 5 |} "c" |}.

Definition optional_fn : HIRFunction :=
  {| fnType := Other; params := []; enablePropagateDepsInHIR := "disabled";
     blocks := [plain_block 0 [read_a_x; read_t_c] []] |}.

Definition optional_temporaries : gmap IdentifierId ReactiveScopeDependency :=
  {[ 5%N := {| identifier := ident_named 1 "a"; path := [entry "b" true] |} ]}.

Definition optional_start : PropState :=
  {| traversalState := ∅;
     st_nodes := (collectNonNullsInBlocks optional_fn optional_temporaries ∅ Tree_new).2;
     st_tree := (collectNonNullsInBlocks optional_fn optional_temporaries ∅ Tree_new).1 |}.

(** A block with a predecessor, 7, that is no block of the function. *)
Definition dangling_fn : HIRFunction :=
  {| fnType := Other; params := []; enablePropagateDepsInHIR := "disabled";
     blocks := [plain_block 0 [read_q_b 1] [7%N]] |}.

Definition dangling_facts : Tree * gmap BlockId BlockInfo :=
  collectNonNullsInBlocks dangling_fn ∅ ∅ Tree_new.

(** [a.b?.c], and the tree with the nodes 0 = [a], 1 = [a.b], 2 = [a.b?.c] *)
Definition dep_a_b_optc : ReactiveScopeDependency :=
  {| identifier := ident 1; path := [entry "b" false; entry "c" true] |}.

Definition example_tree_optc : Tree := (getOrCreateProperty Tree_new dep_a_b_optc).1.
(** *** More concrete inputs *)

(** [props_fn Component] with the optimizations enabled, and with a second
    block that [optionals] maps to the chain [a?.b.c]. *)
Definition optimized_fn : HIRFunction :=
  {| fnType := Component;
     params := [ParamIdentifier {| place_identifier := props_identifier |}];
     enablePropagateDepsInHIR := "enabled_with_optimizations";
     blocks := [(0%N, props_block);
                (1%N, {| block_id := 1; instructions := [read_y_x];
                         terminal := TerminalReturn; preds := [0%N] |})] |}.

Definition optimized_optionals : gmap BlockId ReactiveScopeDependency :=
  {[ 1%N := dep_a_optb_c ]}.

(** *** What the canonicalizer does to its set *)

(** The node [y] stands for the path of the node [x] with some of its
    optional segments made unconditional (or for the same path): same root
    identifier, same property names. *)
Definition relaxed_node (t : Tree) (x y : NodeRef) : Prop :=
  identifier (fullPath (deref t y)) = identifier (fullPath (deref t x))
  ∧ Forall2 relaxes (path (fullPath (deref t x))) (path (fullPath (deref t y))).

(** How the set [nodes] of the canonicalizer's loop relates to the set
    [nodes0] it was called with. *)
Record reduce_track (nodes0 : list NodeRef) (s : ReduceState) : Prop := {
  rt_valid : valid_set (rs_tree s) nodes0;
  rt_from : ∀ y, y ∈ rs_nodes s →
    ∃ x, x ∈ nodes0 ∧ relaxed_node (rs_tree s) x y;
  rt_to : ∀ x, x ∈ nodes0 →
    ∃ y, y ∈ rs_nodes s ∧ relaxed_node (rs_tree s) x y;
  rt_chain : ∀ x, x ∈ rs_visited s ++ rs_pending s → x ∈ rs_nodes s;
  rt_chain_NoDup : NoDup (rs_visited s ++ rs_pending s);
  rt_NoDup : NoDup (rs_nodes s);
  rt_length : length (rs_nodes s) ≤ length nodes0
}.

(** *** What the propagator does to the fact table *)

(** The trie and the fact sets of a propagator state are well formed, and no
    fact set has a repeated member. *)
Definition facts_ok (st : PropState) : Prop :=
  wf_tree (st_tree st) ∧ wf_nodes (st_tree st) (st_nodes st).

(** How the fact table of a later state [st'] relates to the one of [st]:
    every fact of a block is still a fact of that block, up to relaxation,
    and every fact of a block comes from a fact of some block. *)
Record facts_rel (st st' : PropState) : Prop := {
  fr_extends : extends (st_tree st) (st_tree st');
  fr_ok : facts_ok st';
  fr_kept : ∀ k info x,
    st_nodes st !! k = Some info → x ∈ assumedNonNullObjects info →
    ∃ info' y, st_nodes st' !! k = Some info'
      ∧ y ∈ assumedNonNullObjects info' ∧ relaxed_node (st_tree st') x y;
  fr_origin : ∀ k info' y,
    st_nodes st' !! k = Some info' → y ∈ assumedNonNullObjects info' →
    ∃ k0 info0 x, st_nodes st !! k0 = Some info0
      ∧ x ∈ assumedNonNullObjects info0 ∧ relaxed_node (st_tree st') x y
}.

(** The result of the propagator on the facts of [diamond true], when it
    returns. *)
Definition diamond_result : gmap BlockId BlockInfo * Tree :=
  match propagateNonNull 10 (diamond true) (st_nodes (diamond_start true))
          (st_tree (diamond_start true)) with
  | Ok r => r
  | _ => (∅, Tree_new)
  end.

(** Every neighbor of a block of the fact table is a block of the table. *)
Definition neighbors_known (blockSuccessors : gmap BlockId (list BlockId))
  (d : Direction) (st : PropState) : Prop :=
  ∀ k info p, st_nodes st !! k = Some info →
    p ∈ neighbors_of blockSuccessors d k info → is_Some (st_nodes st !! p).

(** The control-flow graph of a function is closed: every block is stored
    under its own id, and the predecessors of a block and the block of a
    scope terminal are blocks of the function. *)
Record closed_graph (fn : HIRFunction) : Prop := {
  cg_ids : ∀ k b, (k, b) ∈ blocks fn → block_id b = k;
  cg_preds : ∀ k b p, (k, b) ∈ blocks fn → p ∈ preds b → p ∈ (blocks fn).*1;
  cg_scopes : ∀ k b sc blk, (k, b) ∈ blocks fn →
    terminal b = TerminalScope sc blk → blk ∈ (blocks fn).*1
}.

(** *** The closure-reference filter *)

(** [b] is one of the operands recorded for the temporary [a]. *)
Definition uses_edge (uses : gmap IdentifierId (list IdentifierId))
  (a b : IdentifierId) : Prop :=
  b ∈ default [] (uses !! a).

(** What the scan of one instruction does to [uses]. *)
Definition record_uses (uses : gmap IdentifierId (list IdentifierId))
  (instr : Instruction) : gmap IdentifierId (list IdentifierId) :=
  match instr_value instr with
  | FunctionExpression _ => uses
  | value =>
      let operands :=
        eachInstructionValueOperand value ++ eachInstructionValueLValue value in
      if forallb is_unnamed operands
      then <[id (place_identifier (lvalue instr)) :=
               foldl Set_add [] ((fun o => id (place_identifier o)) <$> operands)]>
             uses
      else uses
  end.

(** The map [uses] after the scan of [instrs]. *)
Definition uses_after (instrs : list Instruction)
  : gmap IdentifierId (list IdentifierId) :=
  foldl record_uses ∅ instrs.

(** The instructions of a function, in the order of the scan. *)
Definition all_instructions (fn : HIRFunction) : list Instruction :=
  concat (instructions <$> (blocks fn).*2).

(** Every operand that the scan records for a temporary has a lower rank
    than the temporary. *)
Definition ranked_uses (rank : IdentifierId → nat) (instrs : list Instruction)
  : Prop :=
  ∀ instr o, instr ∈ instrs →
    (∀ deps, instr_value instr ≠ FunctionExpression deps) →
    forallb is_unnamed
      (eachInstructionValueOperand (instr_value instr)
       ++ eachInstructionValueLValue (instr_value instr)) = true →
    o ∈ eachInstructionValueOperand (instr_value instr)
        ++ eachInstructionValueLValue (instr_value instr) →
    rank (id (place_identifier o)) < rank (id (place_identifier (lvalue instr))).

(** A function that computes the temporary 5 from the temporary 3, captures
    5 in a function expression and then reads [t5.c]. *)
Definition closure_fn : HIRFunction :=
  {| fnType := Other; params := []; enablePropagateDepsInHIR := "disabled";
     blocks :=
       [plain_block 0
          [{| instr_id := 1; lvalue := {| place_identifier := ident 5 |};
              instr_value := OtherValue [{| place_identifier := ident 3 |}] [] |};
           {| instr_id := 2; lvalue := {| place_identifier := ident 7 |};
              instr_value := FunctionExpression [{| place_identifier := ident 5 |}] |};
           read_t_c] []] |}.

(** A function that computes the temporary 1 from itself and then captures
    it in a function expression. *)
Definition cyclic_fn : HIRFunction :=
  {| fnType := Other; params := []; enablePropagateDepsInHIR := "disabled";
     blocks :=
       [plain_block 0
          [{| instr_id := 1; lvalue := {| place_identifier := ident 1 |};
              instr_value := OtherValue [{| place_identifier := ident 1 |}] [] |};
           {| instr_id := 2; lvalue := {| place_identifier := ident 7 |};
              instr_value := FunctionExpression [{| place_identifier := ident 1 |}] |}]
          []] |}.

(** *** When a merge changes nothing *)

(** What the canonicalizer's loop keeps, for the set [U] it was called with
    (the previous facts [prev] of a block, then what the neighbors added) and
    the trie [t0] it started from. *)
Record reduce_settle (prev U : list NodeRef) (t0 : Tree) (s : ReduceState)
  : Prop := {
  rq_known : ∀ x, x ∈ U → x ∈ rs_knownNonNulls s;
  rq_front : ∃ tail,
    rs_nodes s = filter (fun x => x ∈ rs_nodes s) prev ++ tail
    ∧ ∀ z, z ∈ tail → z ∉ prev;
  rq_gone : ∀ x, x ∈ rs_knownNonNulls s → x ∉ rs_nodes s →
    ¬ stable (rs_tree s) (rs_knownNonNulls s) x;
  rq_new : ∀ z, z ∈ rs_knownNonNulls s → z ∉ U →
    ∀ q e r nq,
      path (fullPath (deref (rs_tree s) z)) = q ++ e :: r →
      optional e = true →
      find_dep (rs_tree s) (id (identifier (fullPath (deref (rs_tree s) z)))) q
        = Some nq →
      nq ∉ U;
  rq_tree : rs_tree s = t0 ∨ ∃ z, z ∈ rs_knownNonNulls s ∧ z ∉ U
}.

(** *** The equation that the propagator solves *)

(** The fact sets of all the neighbors that have an entry. *)
Definition all_neighbor_sets (nodes : gmap BlockId BlockInfo)
  (neighbors : list BlockId) : list (list NodeRef) :=
  omap (fun p => assumedNonNullObjects <$> nodes !! p) neighbors.

(** [X = Union(Intersect(X_neighbors), X)] at the block [k], up to the
    canonicalizer: merging the facts of all neighbors into those of [k]
    gives the facts of [k] back and leaves the trie as it is. *)
Definition satisfies_equation (fuel : nat)
  (blockSuccessors : gmap BlockId (list BlockId)) (d : Direction)
  (nodes : gmap BlockId BlockInfo) (t : Tree) (k : BlockId) : Prop :=
  ∃ info, nodes !! k = Some info
    ∧ reduceMaybeOptionalChains fuel
        (Set_union (assumedNonNullObjects info)
           (Set_intersect
              (all_neighbor_sets nodes (neighbors_of blockSuccessors d k info))))
        t
      = Some (assumedNonNullObjects info, t).

(** The block [n] lies below every block that is being visited, in the
    order [lt]. *)
Definition below_active (lt : BlockId → BlockId → Prop) (st : PropState)
  (n : BlockId) : Prop :=
  ∀ a, traversalState st !! a = Some active → lt n a.

(** The order in which a sweep meets the blocks of an acyclic graph ranked by
    [rank]: towards lower ranks in a forward sweep, towards higher ranks in a
    backward sweep. *)
Definition sweep_order (rank : BlockId → nat) (d : Direction)
  (a b : BlockId) : Prop :=
  match d with
  | forward => rank a < rank b
  | backward => rank b < rank a
  end.

(** *** Runs of the pass in one object store *)

(** The identity of a [PropertyLoadNode] object is its place in the object
    store. [new Tree()] in a store that already holds the objects [store]
    (those of earlier runs): the tree has no roots, the objects that exist
    stay where they are, and the nodes of this tree are created behind
    them. [Tree_new] is [Tree_new_in []]. *)
Definition Tree_new_in (store : list PropertyLoadNode) : Tree :=
  {| heap := store; roots := ∅ |}.

(** [collectHoistablePropertyLoads] called when the store holds [store]. *)
Definition collectHoistablePropertyLoads_in (store : list PropertyLoadNode)
  (fuel : nat) (fn : HIRFunction)
  (temporaries : gmap IdentifierId ReactiveScopeDependency)
  (optionals : gmap BlockId ReactiveScopeDependency)
  : outcome (list (ScopeId * option BlockInfo) * Tree) :=
  let t := Tree_new_in store in
  functionExpressionReferences ← of_option (collectFunctionExpressionRValues fuel fn);
  let realTemporaries :=
    foldl (fun m reference => delete reference m) temporaries
          functionExpressionReferences in
  let '(t1, nodes) := collectNonNullsInBlocks fn realTemporaries optionals t in
  '(nodes', t2) ← propagateNonNull fuel fn nodes t1;
  Ok (nodesKeyedByScopeId_of fn nodes', t2).

(** The object store that a run leaves: the store it started in and the
    nodes it has created. *)
Definition store_after
  (r : outcome (list (ScopeId * option BlockInfo) * Tree))
  : list PropertyLoadNode :=
  match r with Ok (_, t) => heap t | _ => [] end.

(** A reference, a node, a tree and the tables of a run, moved behind [k]
    objects that were there before. *)
Definition move_ref (k : nat) (r : NodeRef) : NodeRef := k + r.

#[global] Instance move_ref_inj k : Inj (=) (=) (move_ref k).
Proof. intros x y. unfold move_ref. lia. Qed.

Definition move_node (k : nat) (n : PropertyLoadNode) : PropertyLoadNode :=
  {| properties := move_ref k <$> properties n;
     optionalProperties := move_ref k <$> optionalProperties n;
     parent := move_ref k <$> parent n;
     fullPath := fullPath n;
     hasOptional := hasOptional n;
     root := root n |}.

Definition move_tree (store : list PropertyLoadNode) (t : Tree) : Tree :=
  {| heap := store ++ (move_node (length store) <$> heap t);
     roots := move_ref (length store) <$> roots t |}.

Definition move_info (k : nat) (info : BlockInfo) : BlockInfo :=
  {| block := block info;
     assumedNonNullObjects := move_ref k <$> assumedNonNullObjects info |}.

Definition move_reduce (store : list PropertyLoadNode) (s : ReduceState)
  : ReduceState :=
  {| rs_tree := move_tree store (rs_tree s);
     rs_nodes := move_ref (length store) <$> rs_nodes s;
     rs_knownNonNulls := move_ref (length store) <$> rs_knownNonNulls s;
     rs_visited := move_ref (length store) <$> rs_visited s;
     rs_pending := move_ref (length store) <$> rs_pending s;
     rs_changed := rs_changed s |}.

Definition move_state (store : list PropertyLoadNode) (st : PropState)
  : PropState :=
  {| traversalState := traversalState st;
     st_nodes := move_info (length store) <$> st_nodes st;
     st_tree := move_tree store (st_tree st) |}.

Definition move_outcome {A B} (f : A → B) (r : outcome A) : outcome B :=
  match r with
  | Ok a => Ok (f a)
  | Throw e => Throw e
  | OutOfFuel => OutOfFuel
  end.

Definition move_table (store : list PropertyLoadNode)
  (r : list (ScopeId * option BlockInfo) * Tree)
  : list (ScopeId * option BlockInfo) * Tree :=
  ((fun e : ScopeId * option BlockInfo =>
      (e.1, move_info (length store) <$> e.2)) <$> r.1,
   move_tree store r.2).

(** What two runs, started in the stores [h1] and [h2], have in common.
    Two nodes are counterparts when they were created at the same point of
    their runs (the same number of nodes of the run before them) and stand for
    the same dependency; such nodes are objects of neither store. *)
Definition same_node (h1 h2 : list PropertyLoadNode) (t1 t2 : Tree)
  (n1 n2 : NodeRef) : Prop :=
  ∃ n, n1 = length h1 + n ∧ n2 = length h2 + n
       ∧ fullPath (deref t1 n1) = fullPath (deref t2 n2).

Definition same_info (h1 h2 : list PropertyLoadNode) (t1 t2 : Tree)
  (i1 i2 : BlockInfo) : Prop :=
  block i1 = block i2
  ∧ Forall2 (same_node h1 h2 t1 t2)
      (assumedNonNullObjects i1) (assumedNonNullObjects i2).

Definition same_entry (h1 h2 : list PropertyLoadNode) (t1 t2 : Tree)
  (e1 e2 : ScopeId * option BlockInfo) : Prop :=
  e1.1 = e2.1 ∧ option_Forall2 (same_info h1 h2 t1 t2) e1.2 e2.2.

(** Both runs end with the same error, or with tables that have the same
    scope ids in the same order, the same blocks, and sets that hold
    counterparts position by position; and each run has left the objects of
    the store it started in as they were. *)
Definition same_outcome (h1 h2 : list PropertyLoadNode)
  (r1 r2 : outcome (list (ScopeId * option BlockInfo) * Tree)) : Prop :=
  match r1, r2 with
  | Ok (table1, t1), Ok (table2, t2) =>
      Forall2 (same_entry h1 h2 t1 t2) table1 table2
      ∧ take (length h1) (heap t1) = h1
      ∧ take (length h2) (heap t2) = h2
  | Throw e1, Throw e2 => e1 = e2
  | _, _ => False
  end.

(** * Properties *)

(** ** Sets *)

Section SetLemmas.
Context {A : Type} `{EqDecision A}.
Implicit Types (s a b : list A) (x y : A).

Lemma Set_has_true s x : Set_has s x = true ↔ x ∈ s.
Proof. unfold Set_has. by rewrite bool_decide_eq_true. Qed.

Lemma Set_has_false s x : Set_has s x = false ↔ x ∉ s.
Proof. unfold Set_has. by rewrite bool_decide_eq_false. Qed.

Lemma elem_of_Set_add s x y : y ∈ Set_add s x ↔ y ∈ s ∨ y = x.
Proof.
  unfold Set_add. destruct (Set_has s x) eqn:E.
  - apply Set_has_true in E. split; [by left|]. intros [?| ->]; done.
  - rewrite elem_of_app, list_elem_of_singleton. done.
Qed.

Lemma elem_of_Set_delete s x y : y ∈ Set_delete s x ↔ y ∈ s ∧ y ≠ x.
Proof. unfold Set_delete. rewrite list_elem_of_filter. tauto. Qed.

Lemma elem_of_Set_union a b y : y ∈ Set_union a b ↔ y ∈ a ∨ y ∈ b.
Proof.
  unfold Set_union. revert a. induction b as [|x b IH]; intros a; simpl.
  - rewrite elem_of_nil. tauto.
  - rewrite IH, elem_of_Set_add, elem_of_cons. tauto.
Qed.

Lemma elem_of_Set_intersect first rest y :
  y ∈ Set_intersect (first :: rest) ↔ y ∈ first ∧ ∀ s', s' ∈ rest → y ∈ s'.
Proof.
  simpl. rewrite list_elem_of_filter, forallb_forall.
  split; intros [H1 H2]; split; try done.
  - intros s' Hs. apply Set_has_true, H1. by apply list_elem_of_In.
  - intros s' Hs. apply Set_has_true, H2. by apply list_elem_of_In.
Qed.

Lemma Set_intersect_nil : Set_intersect (@nil (list A)) = [].
Proof. done. Qed.

Lemma Set_add_NoDup s x : NoDup s → NoDup (Set_add s x).
Proof.
  intros Hs. unfold Set_add. destruct (Set_has s x) eqn:E; [done|].
  apply Set_has_false in E. apply NoDup_app. split_and!; [done| |apply NoDup_singleton].
  intros y Hy ->%list_elem_of_singleton. done.
Qed.

Lemma Set_union_NoDup a b : NoDup a → NoDup (Set_union a b).
Proof.
  unfold Set_union. revert a. induction b as [|x b IH]; intros a Ha; simpl; [done|].
  apply IH. by apply Set_add_NoDup.
Qed.

Lemma Set_add_length s x : length s ≤ length (Set_add s x) ≤ S (length s).
Proof.
  unfold Set_add. destruct (Set_has s x); [lia|]. rewrite length_app. simpl. lia.
Qed.

Lemma Set_union_nil_r a : Set_union a [] = a.
Proof. done. Qed.
End SetLemmas.

(** ** The path trie *)

Lemma deref_lookup t r n : heap t !! r = Some n → deref t r = n.
Proof. unfold deref. by intros ->. Qed.

Lemma entry_eq (e e' : DependencyPathEntry) :
  property e = property e' → optional e = optional e' → e = e'.
Proof. destruct e, e'; simpl; by intros -> ->. Qed.

Lemma find_path_app t r p q :
  find_path t r (p ++ q) = find_path t r p ≫= fun x => find_path t x q.
Proof.
  revert r. induction p as [|e p IH]; intros r; simpl; [done|].
  destruct (child_of t r e); simpl; [apply IH|done].
Qed.

Lemma extends_refl t : extends t t.
Proof. split; [lia|done|]. intros r n Hn. exists n. by split_and!. Qed.

Lemma extends_trans t1 t2 t3 : extends t1 t2 → extends t2 t3 → extends t1 t3.
Proof.
  intros [L1 R1 N1] [L2 R2 N2]. split; [lia|naive_solver|].
  intros r n Hn. destruct (N1 r n Hn) as (n2 & H2 & F2 & O2 & C2).
  destruct (N2 r n2 H2) as (n3 & H3 & F3 & O3 & C3).
  exists n3. split_and!; [done|congruence|congruence|naive_solver].
Qed.

Lemma extends_valid t t' r : extends t t' → r < length (heap t) → r < length (heap t').
Proof. intros [L _ _] ?. lia. Qed.

Lemma extends_valid_set t t' s : extends t t' → valid_set t s → valid_set t' s.
Proof.
  intros E Hs. eapply Forall_impl; [exact Hs|]. intros r. by apply extends_valid.
Qed.

Lemma extends_fullPath t t' r :
  extends t t' → r < length (heap t) →
  fullPath (deref t' r) = fullPath (deref t r).
Proof.
  intros E Hr. destruct (lookup_lt_is_Some_2 _ _ Hr) as [n Hn].
  destruct (ext_node _ _ E r n Hn) as (n' & Hn' & F & _).
  by rewrite (deref_lookup _ _ _ Hn), (deref_lookup _ _ _ Hn').
Qed.

Lemma extends_hasOptional t t' r :
  extends t t' → r < length (heap t) →
  hasOptional (deref t' r) = hasOptional (deref t r).
Proof.
  intros E Hr. destruct (lookup_lt_is_Some_2 _ _ Hr) as [n Hn].
  destruct (ext_node _ _ E r n Hn) as (n' & Hn' & _ & O & _).
  by rewrite (deref_lookup _ _ _ Hn), (deref_lookup _ _ _ Hn').
Qed.

Lemma extends_child_of t t' p pn e c :
  extends t t' → heap t !! p = Some pn →
  child_of t p e = Some c → child_of t' p e = Some c.
Proof.
  intros E Hp. unfold child_of. rewrite (deref_lookup _ _ _ Hp).
  destruct (ext_node _ _ E p pn Hp) as (n' & Hn' & _ & _ & C).
  rewrite (deref_lookup _ _ _ Hn'). apply C.
Qed.

Lemma wf_child_of t p pn e c :
  wf_tree t → heap t !! p = Some pn → child_of t p e = Some c →
  ∃ cn, heap t !! c = Some cn
        ∧ identifier (fullPath cn) = identifier (fullPath pn)
        ∧ path (fullPath cn) = path (fullPath pn) ++ [e].
Proof.
  intros W Hp. unfold child_of. rewrite (deref_lookup _ _ _ Hp).
  intros Hc. by apply (wf_child _ W p pn e c).
Qed.

Lemma find_path_node t r n p x :
  wf_tree t → heap t !! r = Some n → find_path t r p = Some x →
  ∃ xn, heap t !! x = Some xn
        ∧ identifier (fullPath xn) = identifier (fullPath n)
        ∧ path (fullPath xn) = path (fullPath n) ++ p.
Proof.
  intros W. revert r n. induction p as [|e p IH]; intros r n Hr; simpl.
  - intros [= <-]. exists n. by rewrite app_nil_r.
  - destruct (child_of t r e) as [c|] eqn:Hc; simpl; [|done]. intros Hx.
    destruct (wf_child_of _ _ _ _ _ W Hr Hc) as (cn & Hcn & I & P).
    destruct (IH c cn Hcn Hx) as (xn & Hxn & I' & P').
    exists xn. split_and!; [done|congruence|]. by rewrite P', P, <-app_assoc.
Qed.

Lemma find_dep_node t i p x :
  wf_tree t → find_dep t i p = Some x →
  ∃ xn, heap t !! x = Some xn ∧ id (identifier (fullPath xn)) = i
        ∧ path (fullPath xn) = p.
Proof.
  intros W. unfold find_dep. destruct (roots t !! i) as [r|] eqn:Hr; simpl; [|done].
  intros Hx. destruct (wf_roots _ W i r Hr) as (n & Hn & I & P).
  destruct (find_path_node _ _ _ _ _ W Hn Hx) as (xn & Hxn & I' & P').
  exists xn. split_and!; [done|congruence|]. by rewrite P', P.
Qed.

Lemma find_dep_valid t i p x :
  wf_tree t → find_dep t i p = Some x → x < length (heap t).
Proof.
  intros W H. destruct (find_dep_node _ _ _ _ W H) as (xn & Hxn & _).
  by apply lookup_lt_Some in Hxn.
Qed.

(** Node identity: two nodes with the same root and the same path are the
    same object. *)
Lemma node_inj t r1 r2 n1 n2 :
  wf_tree t → heap t !! r1 = Some n1 → heap t !! r2 = Some n2 →
  id (identifier (fullPath n1)) = id (identifier (fullPath n2)) →
  path (fullPath n1) = path (fullPath n2) → r1 = r2.
Proof.
  intros W H1 H2 I P. apply (wf_self _ W) in H1, H2.
  rewrite I, P in H1. congruence.
Qed.

Lemma find_path_ext t t' r n p x :
  wf_tree t → extends t t' → heap t !! r = Some n →
  find_path t r p = Some x → find_path t' r p = Some x.
Proof.
  intros W E. revert r n. induction p as [|e p IH]; intros r n Hr; simpl; [done|].
  destruct (child_of t r e) as [c|] eqn:Hc; simpl; [|done]. intros Hx.
  rewrite (extends_child_of _ _ _ _ _ _ E Hr Hc). simpl.
  destruct (wf_child_of _ _ _ _ _ W Hr Hc) as (cn & Hcn & _).
  by apply (IH c cn).
Qed.

Lemma find_dep_ext t t' i p x :
  wf_tree t → extends t t' → find_dep t i p = Some x → find_dep t' i p = Some x.
Proof.
  intros W E. unfold find_dep. destruct (roots t !! i) as [r|] eqn:Hr; simpl; [|done].
  rewrite (ext_roots _ _ E i r Hr). simpl.
  destruct (wf_roots _ W i r Hr) as (n & Hn & _). by apply find_path_ext with n.
Qed.

Lemma find_dep_root t i p x :
  find_dep t i p = Some x → ∃ r, roots t !! i = Some r ∧ find_path t r p = Some x.
Proof.
  unfold find_dep. destruct (roots t !! i) as [r|]; simpl; [|done]. eauto.
Qed.

Lemma wf_tree_new : wf_tree Tree_new.
Proof. split; intros *; simpl; try rewrite lookup_empty; done. Qed.

(** *** [getOrCreateIdentifier] *)

Lemma getOrCreateIdentifier_found t ident r :
  roots t !! id ident = Some r → getOrCreateIdentifier t ident = (t, r).
Proof. unfold getOrCreateIdentifier. by intros ->. Qed.

Lemma getOrCreateIdentifier_extends t ident t' r :
  getOrCreateIdentifier t ident = (t', r) → extends t t'.
Proof.
  unfold getOrCreateIdentifier. destruct (roots t !! id ident) eqn:Hr.
  - intros [= <- <-]. apply extends_refl.
  - intros [= <- <-]. split; simpl.
    + rewrite length_app. lia.
    + intros i r Hi. rewrite lookup_insert_ne; [done|congruence].
    + intros r n Hn. exists n. split_and!; try done.
      by apply lookup_app_l_Some.
Qed.

Lemma getOrCreateIdentifier_length t ident t' r :
  getOrCreateIdentifier t ident = (t', r) →
  length (heap t') =
    length (heap t) + (match roots t !! id ident with Some _ => 0 | None => 1 end).
Proof.
  unfold getOrCreateIdentifier. destruct (roots t !! id ident) eqn:Hr.
  - intros [= <- <-]. lia.
  - intros [= <- <-]. simpl. by rewrite length_app.
Qed.

Lemma getOrCreateIdentifier_wf t ident t' r :
  wf_tree t → getOrCreateIdentifier t ident = (t', r) →
  wf_tree t' ∧ roots t' !! id ident = Some r
  ∧ ∃ n, heap t' !! r = Some n ∧ id (identifier (fullPath n)) = id ident
         ∧ path (fullPath n) = [].
Proof.
  intros W H. pose proof (getOrCreateIdentifier_extends _ _ _ _ H) as E.
  revert H. unfold getOrCreateIdentifier.
  destruct (roots t !! id ident) as [r0|] eqn:Hr.
  { intros [= <- <-]. split_and!; [done..|]. by apply (wf_roots _ W). }
  intros [= <- <-].
  set (rn := {| properties := ∅; optionalProperties := ∅; parent := None;
                fullPath := {| identifier := ident; path := [] |};
                hasOptional := false; root := Some (id ident) |}) in *.
  set (t' := {| heap := heap t ++ [rn]; roots := <[id ident := length (heap t)]> (roots t) |}) in *.
  assert (Hnew : heap t' !! length (heap t) = Some rn).
  { simpl. by rewrite lookup_app_r, Nat.sub_diag by lia. }
  assert (Hold : ∀ r n, heap t' !! r = Some n →
            (r = length (heap t) ∧ n = rn) ∨ (heap t !! r = Some n)).
  { intros r n. simpl. destruct (decide (r < length (heap t))).
    - rewrite lookup_app_l by done. by right.
    - rewrite lookup_app_r by lia. intros Hn. left.
      destruct (r - length (heap t)) as [|k] eqn:Hk; simpl in Hn; [|done].
      split; [lia|congruence]. }
  split_and!.
  - split.
    + intros i r. simpl. rewrite lookup_insert. case_decide as Hi.
      * intros [= <-]. subst i. exists rn. by split_and!.
      * intros Hi'. destruct (wf_roots _ W i r Hi') as (n & Hn & ?).
        exists n. split; [|done]. by apply lookup_app_l_Some.
    + intros p pn e c Hp Hc. destruct (Hold _ _ Hp) as [[-> ->]|Hp'].
      { destruct (optional e); simpl in Hc; by rewrite lookup_empty in Hc. }
      destruct (wf_child _ W p pn e c Hp' Hc) as (cn & Hcn & ?).
      exists cn. split; [|done]. by apply lookup_app_l_Some.
    + intros r n Hn. destruct (Hold _ _ Hn) as [[-> ->]|Hn'].
      { unfold find_dep. simpl. by rewrite lookup_insert_eq. }
      by apply (find_dep_ext t), (wf_self _ W).
    + intros r n Hn. destruct (Hold _ _ Hn) as [[-> ->]|Hn']; [done|].
      by apply (wf_hasOptional _ W r).
  - simpl. by rewrite lookup_insert_eq.
  - exists rn. by split_and!.
Qed.

(** *** [getOrCreatePropertyEntry] *)

Lemma getOrCreatePropertyEntry_found t p e c :
  child_of t p e = Some c → getOrCreatePropertyEntry t p e = (t, c).
Proof. unfold child_of, getOrCreatePropertyEntry. by intros ->. Qed.

Lemma child_map_set_child pn e c o k :
  child_map (set_child pn e c) o !! k =
    if decide (o = optional e ∧ k = property e) then Some c
    else child_map pn o !! k.
Proof.
  unfold set_child, child_map.
  destruct (optional e) eqn:Oe; destruct o; simpl; rewrite ?lookup_insert;
    try done;
    (destruct (decide (property e = k)) as [Hk|Hk];
     [rewrite decide_True by done|rewrite decide_False by (intros [_ ?]; done)]; done).
Qed.

Lemma getOrCreatePropertyEntry_extends t p pn e t' c :
  heap t !! p = Some pn → getOrCreatePropertyEntry t p e = (t', c) → extends t t'.
Proof.
  intros Hp. unfold getOrCreatePropertyEntry. rewrite (deref_lookup _ _ _ Hp).
  destruct (child_map pn (optional e) !! property e) eqn:Hc.
  { intros [= <- <-]. apply extends_refl. }
  intros [= <- <-]. split; simpl.
  - rewrite length_app, length_insert. lia.
  - done.
  - intros r n Hn. destruct (decide (r = p)) as [->|Hne].
    + assert (n = pn) as -> by congruence.
      exists (set_child pn e (length (heap t))). split_and!.
      * apply lookup_app_l_Some. apply list_lookup_insert_eq.
        by apply lookup_lt_Some in Hp.
      * unfold set_child. by destruct (optional e).
      * unfold set_child. by destruct (optional e).
      * intros o k c0 Hc0. rewrite child_map_set_child. case_decide as D; [|done].
        destruct D as [-> ->]. congruence.
    + exists n. split_and!; try done. apply lookup_app_l_Some.
      by rewrite list_lookup_insert_ne.
Qed.

Lemma getOrCreatePropertyEntry_length t p e t' c :
  getOrCreatePropertyEntry t p e = (t', c) →
  length (heap t') =
    length (heap t) + (match child_of t p e with Some _ => 0 | None => 1 end).
Proof.
  unfold getOrCreatePropertyEntry, child_of.
  destruct (child_map (deref t p) (optional e) !! property e) eqn:Hc.
  - intros [= <- <-]. lia.
  - intros [= <- <-]. simpl. by rewrite length_app, length_insert.
Qed.

Lemma getOrCreatePropertyEntry_fresh t p e t' c :
  child_of t p e = None → getOrCreatePropertyEntry t p e = (t', c) →
  c = length (heap t) ∧ properties (deref t' c) = ∅
  ∧ optionalProperties (deref t' c) = ∅.
Proof.
  unfold getOrCreatePropertyEntry, child_of. intros ->. intros [= <- <-].
  unfold deref. simpl.
  rewrite lookup_app_r by (rewrite length_insert; lia).
  rewrite length_insert, Nat.sub_diag. done.
Qed.

Lemma getOrCreatePropertyEntry_wf t p pn e t' c :
  wf_tree t → heap t !! p = Some pn →
  getOrCreatePropertyEntry t p e = (t', c) →
  wf_tree t' ∧ child_of t' p e = Some c.
Proof.
  intros W Hp H. pose proof (getOrCreatePropertyEntry_extends _ _ _ _ _ _ Hp H) as E.
  revert H. unfold getOrCreatePropertyEntry. rewrite (deref_lookup _ _ _ Hp).
  destruct (child_map pn (optional e) !! property e) as [c0|] eqn:Hc.
  { intros [= <- <-]. split; [done|]. unfold child_of.
    by rewrite (deref_lookup _ _ _ Hp). }
  intros [= <- <-].
  set (cn := {| properties := ∅; optionalProperties := ∅; parent := Some p;
                fullPath := {| identifier := identifier (fullPath pn);
                               path := path (fullPath pn) ++ [e] |};
                hasOptional := hasOptional pn || optional e; root := None |}) in *.
  set (c := length (heap t)) in *.
  set (t' := {| heap := <[p := set_child pn e c]> (heap t) ++ [cn]; roots := roots t |}) in *.
  assert (Hlt : p < length (heap t)) by by apply lookup_lt_Some in Hp.
  assert (Hnew : heap t' !! c = Some cn).
  { simpl. rewrite lookup_app_r by (rewrite length_insert; lia).
    by rewrite length_insert, Nat.sub_diag. }
  assert (Hpar : heap t' !! p = Some (set_child pn e c)).
  { simpl. apply lookup_app_l_Some. by apply list_lookup_insert_eq. }
  assert (Hfp : fullPath (set_child pn e c) = fullPath pn).
  { unfold set_child. by destruct (optional e). }
  assert (Hho : hasOptional (set_child pn e c) = hasOptional pn).
  { unfold set_child. by destruct (optional e). }
  assert (Hold : ∀ r n, heap t' !! r = Some n →
            (r = c ∧ n = cn) ∨ (r = p ∧ n = set_child pn e c)
            ∨ (r ≠ p ∧ heap t !! r = Some n)).
  { intros r n. simpl. destruct (decide (r < length (heap t))).
    - rewrite lookup_app_l by (by rewrite length_insert).
      destruct (decide (r = p)) as [->|Hne].
      + rewrite list_lookup_insert_eq by done. intros [= <-]. right; by left.
      + rewrite list_lookup_insert_ne by done. intros ?. right; by right.
    - rewrite lookup_app_r by (rewrite length_insert; lia). intros Hn. left.
      rewrite length_insert in Hn.
      destruct (r - length (heap t)) as [|k] eqn:Hk; simpl in Hn; [|done].
      split; [unfold c; lia|congruence]. }
  assert (Hchild : child_of t' p e = Some c).
  { unfold child_of. rewrite (deref_lookup _ _ _ Hpar), child_map_set_child.
    by rewrite decide_True. }
  assert (Hkeep : ∀ r n, heap t !! r = Some n →
            ∃ n', heap t' !! r = Some n' ∧ fullPath n' = fullPath n).
  { intros r n Hn. destruct (ext_node _ _ E r n Hn) as (n' & ? & ? & _). eauto. }
  split; [|done]. split.
  - intros i r Hi. destruct (wf_roots _ W i r Hi) as (n & Hn & I & P).
    destruct (Hkeep _ _ Hn) as (n' & Hn' & F). exists n'. by rewrite F.
  - intros q qn e0 c0 Hq Hc0. destruct (Hold _ _ Hq) as [[-> ->]|[[-> ->]|[Hne Hq']]].
    + destruct (optional e0); simpl in Hc0; by rewrite lookup_empty in Hc0.
    + rewrite child_map_set_child in Hc0. case_decide as D.
      * destruct D as [Do Dp]. injection Hc0 as <-. exists cn. split_and!; [done|by rewrite Hfp|].
        rewrite Hfp. simpl. f_equal. f_equal. by apply entry_eq.
      * destruct (wf_child _ W p pn e0 c0 Hp Hc0) as (xn & Hxn & I & P).
        destruct (Hkeep _ _ Hxn) as (n' & Hn' & F). exists n'.
        rewrite F, Hfp. done.
    + destruct (wf_child _ W q qn e0 c0 Hq' Hc0) as (xn & Hxn & I & P).
      destruct (Hkeep _ _ Hxn) as (n' & Hn' & F). exists n'. by rewrite F.
  - intros r n Hn. destruct (Hold _ _ Hn) as [[-> ->]|[[-> ->]|[Hne Hn']]].
    + simpl. pose proof (wf_self _ W p pn Hp) as Hs.
      apply (find_dep_ext t t') in Hs; [|done..].
      apply find_dep_root in Hs as (r0 & Hr0 & Hs).
      unfold find_dep. rewrite Hr0. simpl. rewrite find_path_app, Hs. simpl.
      by rewrite Hchild.
    + rewrite Hfp. by apply (find_dep_ext t), (wf_self _ W).
    + by apply (find_dep_ext t), (wf_self _ W).
  - intros r n Hn. destruct (Hold _ _ Hn) as [[-> ->]|[[-> ->]|[Hne Hn']]].
    + simpl. rewrite existsb_app. simpl. rewrite orb_false_r.
      by rewrite (wf_hasOptional _ W p pn Hp).
    + rewrite Hho, Hfp. by apply (wf_hasOptional _ W p).
    + by apply (wf_hasOptional _ W r).
Qed.

Lemma getOrCreatePropertyEntry_node t p pn e t' c :
  wf_tree t → heap t !! p = Some pn →
  getOrCreatePropertyEntry t p e = (t', c) →
  ∃ cn, heap t' !! c = Some cn
        ∧ identifier (fullPath cn) = identifier (fullPath pn)
        ∧ path (fullPath cn) = path (fullPath pn) ++ [e].
Proof.
  intros W Hp H.
  destruct (getOrCreatePropertyEntry_wf _ _ _ _ _ _ W Hp H) as [W' Hc].
  pose proof (getOrCreatePropertyEntry_extends _ _ _ _ _ _ Hp H) as E.
  destruct (ext_node _ _ E p pn Hp) as (pn' & Hp' & F & _).
  destruct (wf_child_of _ _ _ _ _ W' Hp' Hc) as (cn & Hcn & I & P).
  exists cn. by rewrite <-F.
Qed.

(** *** Walking a path *)

Lemma walk_entries_app t c p q :
  walk_entries t c (p ++ q) =
    let '(t1, c1) := walk_entries t c p in walk_entries t1 c1 q.
Proof.
  revert t c. induction p as [|e p IH]; intros t c; simpl; [done|].
  destruct (getOrCreatePropertyEntry t c e) as [t1 c1]. apply IH.
Qed.

Lemma getOrCreateProperty_walk t n :
  getOrCreateProperty t n =
    let '(t0, c) := getOrCreateIdentifier t (identifier n) in
    walk_entries t0 c (path n).
Proof.
  unfold getOrCreateProperty.
  destruct (getOrCreateIdentifier t (identifier n)) as [t0 c].
  destruct (last (path n)) as [e|] eqn:Hl.
  - apply last_Some in Hl as [l' ->]. rewrite removelast_last, walk_entries_app.
    destruct (walk_entries t0 c l') as [t1 c1]. simpl.
    by destruct (getOrCreatePropertyEntry t1 c1 e).
  - apply last_None in Hl as ->. done.
Qed.

Lemma walk_entries_found t c es r :
  find_path t c es = Some r → walk_entries t c es = (t, r).
Proof.
  revert c. induction es as [|e es IH]; intros c; simpl.
  - by intros [= ->].
  - destruct (child_of t c e) as [next|] eqn:Hc; simpl; [|done]. intros H.
    rewrite (getOrCreatePropertyEntry_found _ _ _ _ Hc). by apply IH.
Qed.

Lemma walk_entries_spec t c cn es t' r :
  wf_tree t → heap t !! c = Some cn → walk_entries t c es = (t', r) →
  wf_tree t' ∧ extends t t' ∧ find_path t' c es = Some r.
Proof.
  revert t c cn. induction es as [|e es IH]; intros t c cn W Hc; simpl.
  - intros [= <- <-]. split_and!; [done|apply extends_refl|done].
  - destruct (getOrCreatePropertyEntry t c e) as [t1 next] eqn:H1. intros H.
    destruct (getOrCreatePropertyEntry_wf _ _ _ _ _ _ W Hc H1) as [W1 Hch].
    pose proof (getOrCreatePropertyEntry_extends _ _ _ _ _ _ Hc H1) as E1.
    destruct (getOrCreatePropertyEntry_node _ _ _ _ _ _ W Hc H1) as (nn & Hnn & _).
    destruct (IH _ _ _ W1 Hnn H) as (W' & E' & F).
    split_and!; [done|by eapply extends_trans|].
    destruct (ext_node _ _ E1 c cn Hc) as (cn1 & Hc1 & _).
    by rewrite (extends_child_of _ _ _ _ _ _ E' Hc1 Hch).
Qed.

Lemma walk_entries_fresh t c es t' r :
  properties (deref t c) = ∅ → optionalProperties (deref t c) = ∅ →
  walk_entries t c es = (t', r) →
  length (heap t') = length (heap t) + length es.
Proof.
  revert t c. induction es as [|e es IH]; intros t c Hp Ho; simpl.
  - intros [= <- <-]. lia.
  - assert (Hc : child_of t c e = None).
    { unfold child_of, child_map. destruct (optional e); by rewrite ?Hp, ?Ho. }
    destruct (getOrCreatePropertyEntry t c e) as [t1 next] eqn:H1. intros H.
    destruct (getOrCreatePropertyEntry_fresh _ _ _ _ _ Hc H1) as (_ & Hp1 & Ho1).
    rewrite (IH _ _ Hp1 Ho1 H).
    rewrite (getOrCreatePropertyEntry_length _ _ _ _ _ H1), Hc. lia.
Qed.

Lemma filter_seq_S (P : nat → Prop) `{∀ k, Decision (P k)} a n :
  length (filter P (seq (S a) n)) = length (filter (fun k => P (S k)) (seq a n)).
Proof.
  revert a. induction n as [|n IH]; intros a; simpl; [done|].
  rewrite !filter_cons. destruct (decide (P (S a))); simpl; by rewrite IH.
Qed.

Lemma filter_seq_all (P : nat → Prop) `{∀ k, Decision (P k)} a n :
  (∀ k, P k) → length (filter P (seq a n)) = n.
Proof.
  intros HP. revert a. induction n as [|n IH]; intros a; simpl; [done|].
  rewrite filter_cons, decide_True by done. simpl. by rewrite IH.
Qed.

Lemma missing_from_found t c e es next :
  child_of t c e = Some next →
  missing_from t c (e :: es) = missing_from t next es.
Proof.
  intros Hc. unfold missing_from. simpl length at 2. simpl seq.
  rewrite filter_cons, decide_False; last first.
  { simpl. rewrite Hc. simpl. by destruct es. }
  rewrite filter_seq_S. f_equal. apply list_filter_iff. intros k. simpl.
  by rewrite Hc.
Qed.

Lemma missing_from_none t c e es :
  child_of t c e = None → missing_from t c (e :: es) = S (length es).
Proof.
  intros Hc. unfold missing_from. simpl length at 2.
  rewrite filter_seq_S. apply filter_seq_all. intros k. simpl. by rewrite Hc.
Qed.

Lemma walk_entries_length t c cn es t' r :
  wf_tree t → heap t !! c = Some cn → walk_entries t c es = (t', r) →
  length (heap t') = length (heap t) + missing_from t c es.
Proof.
  intros W. revert c cn. induction es as [|e es IH]; intros c cn Hc; simpl.
  - intros [= <- <-]. unfold missing_from. simpl. lia.
  - destruct (child_of t c e) as [next|] eqn:Hch.
    + rewrite (getOrCreatePropertyEntry_found _ _ _ _ Hch).
      rewrite (missing_from_found _ _ _ _ _ Hch).
      destruct (wf_child_of _ _ _ _ _ W Hc Hch) as (nn & Hnn & _).
      by apply (IH next nn).
    + destruct (getOrCreatePropertyEntry t c e) as [t1 next] eqn:H1. intros H.
      destruct (getOrCreatePropertyEntry_fresh _ _ _ _ _ Hch H1) as (_ & Hp1 & Ho1).
      rewrite (walk_entries_fresh _ _ _ _ _ Hp1 Ho1 H).
      rewrite (getOrCreatePropertyEntry_length _ _ _ _ _ H1), Hch.
      rewrite (missing_from_none _ _ _ _ Hch). lia.
Qed.

(** *** [getOrCreateProperty] *)

Lemma getOrCreateProperty_spec t d t' r :
  wf_tree t → getOrCreateProperty t d = (t', r) →
  wf_tree t' ∧ extends t t'
  ∧ find_dep t' (id (identifier d)) (path d) = Some r.
Proof.
  intros W. rewrite getOrCreateProperty_walk.
  destruct (getOrCreateIdentifier t (identifier d)) as [t0 c] eqn:H0. intros H.
  destruct (getOrCreateIdentifier_wf _ _ _ _ W H0) as (W0 & Hr & n & Hn & _).
  pose proof (getOrCreateIdentifier_extends _ _ _ _ H0) as E0.
  destruct (walk_entries_spec _ _ _ _ _ _ W0 Hn H) as (W' & E' & F).
  split_and!; [done|by eapply extends_trans|].
  unfold find_dep. rewrite (ext_roots _ _ E' _ _ Hr). done.
Qed.

Lemma getOrCreateProperty_found t d r :
  find_dep t (id (identifier d)) (path d) = Some r →
  getOrCreateProperty t d = (t, r).
Proof.
  intros H. apply find_dep_root in H as (r0 & Hr0 & H).
  rewrite getOrCreateProperty_walk, (getOrCreateIdentifier_found _ _ _ Hr0).
  by apply walk_entries_found.
Qed.

Lemma missing_nodes_root t i p r :
  roots t !! i = Some r → missing_nodes t i p = missing_from t r p.
Proof.
  intros Hr. unfold missing_nodes, missing_from. simpl seq.
  rewrite filter_cons, decide_False; last first.
  { unfold find_dep. rewrite Hr, take_0. done. }
  f_equal. apply list_filter_iff. intros k. unfold find_dep. by rewrite Hr.
Qed.

Lemma missing_nodes_no_root t i p :
  roots t !! i = None → missing_nodes t i p = S (length p).
Proof.
  intros Hr. unfold missing_nodes. apply filter_seq_all. intros k.
  unfold find_dep. by rewrite Hr.
Qed.

Lemma getOrCreateProperty_length t d t' r :
  wf_tree t → getOrCreateProperty t d = (t', r) →
  length (heap t') =
    length (heap t) + missing_nodes t (id (identifier d)) (path d).
Proof.
  intros W. rewrite getOrCreateProperty_walk.
  destruct (getOrCreateIdentifier t (identifier d)) as [t0 c] eqn:H0. intros H.
  destruct (roots t !! id (identifier d)) as [r0|] eqn:Hr.
  - rewrite (getOrCreateIdentifier_found _ _ _ Hr) in H0. injection H0 as <- <-.
    destruct (wf_roots _ W _ _ Hr) as (n & Hn & _).
    rewrite (missing_nodes_root _ _ _ _ Hr).
    apply (walk_entries_length _ _ n _ _ _ W Hn H).
  - rewrite (missing_nodes_no_root _ _ _ Hr).
    pose proof (getOrCreateIdentifier_length _ _ _ _ H0) as L0. rewrite Hr in L0.
    revert H0. unfold getOrCreateIdentifier. rewrite Hr. intros [= <- <-].
    erewrite walk_entries_fresh; [| | |exact H]; [simpl in *; lia|..];
      unfold deref; simpl; by rewrite lookup_app_r, Nat.sub_diag by lia.
Qed.

(** ** Canonical deduplication *)

(** C4. Resolving a dependency [d], and then any dependency [d'] with the same
    root identifier and the same sequence of (property, optionality) entries,
    returns the identical node and leaves the trie as it is. The resolve
    creates exactly the missing nodes: the heap grows by the number of
    prefixes of [d] that had no node, every node that was there is found
    again, and resolving [d] extended by one entry afterwards creates at most
    that one node, as a child of the node of [d]. *)
Theorem resolve_same_node t d d' t1 r1 :
  wf_tree t →
  getOrCreateProperty t d = (t1, r1) →
  id (identifier d') = id (identifier d) →
  path d' = path d →
  getOrCreateProperty t1 d' = (t1, r1)
  ∧ length (heap t1)
    = length (heap t) + missing_nodes t (id (identifier d)) (path d)
  ∧ (∀ i p r, find_dep t i p = Some r → find_dep t1 i p = Some r)
  ∧ ∀ e t2 r2,
      getOrCreateProperty t1
        {| identifier := identifier d; path := path d ++ [e] |} = (t2, r2) →
      find_dep t2 (id (identifier d)) (path d) = Some r1
      ∧ child_of t2 r1 e = Some r2
      ∧ length (heap t2) ≤ S (length (heap t1)).
Proof.
  intros W H I P.
  destruct (getOrCreateProperty_spec _ _ _ _ W H) as (W1 & E1 & F1).
  split_and!.
  - apply getOrCreateProperty_found. by rewrite I, P.
  - apply (getOrCreateProperty_length _ _ _ _ W H).
  - intros i p r. by apply find_dep_ext.
  - intros e t2 r2. rewrite getOrCreateProperty_walk. simpl.
    destruct (find_dep_root _ _ _ _ F1) as (r0 & Hr0 & Hp).
    rewrite (getOrCreateIdentifier_found _ _ _ Hr0), walk_entries_app.
    rewrite (walk_entries_found _ _ _ _ Hp). simpl.
    destruct (getOrCreatePropertyEntry t1 r1 e) as [t2' r2'] eqn:H2.
    intros [= <- <-].
    destruct (find_dep_node _ _ _ _ W1 F1) as (n1 & Hn1 & _).
    destruct (getOrCreatePropertyEntry_wf _ _ _ _ _ _ W1 Hn1 H2) as [W2 Hc].
    pose proof (getOrCreatePropertyEntry_extends _ _ _ _ _ _ Hn1 H2) as E2.
    split_and!; [by apply (find_dep_ext t1)|done|].
    rewrite (getOrCreatePropertyEntry_length _ _ _ _ _ H2).
    destruct (child_of t1 r1 e); lia.
Qed.

Lemma resolve_same_node_witness :
  getOrCreateProperty (getOrCreateProperty Tree_new dep_a_b).1 dep_a_b'
  = getOrCreateProperty Tree_new dep_a_b.
Proof.
  destruct (resolve_same_node Tree_new dep_a_b dep_a_b'
              (getOrCreateProperty Tree_new dep_a_b).1
              (getOrCreateProperty Tree_new dep_a_b).2
              wf_tree_new (surjective_pairing _) eq_refl eq_refl) as [H _].
  rewrite H. symmetry. apply surjective_pairing.
Defined.

(** ** The local fact extractor *)

Lemma pushPropertyLoadNode_admitted t node instrId known result :
  pushPropertyLoadNode t node instrId known result =
    if admitted (identifier (fullPath (deref t node))) instrId known
    then Set_add result node else result.
Proof. done. Qed.

Lemma pushPropertyLoadNode_subset t node instrId known result x :
  x ∈ result → x ∈ pushPropertyLoadNode t node instrId known result.
Proof.
  intros Hx. rewrite pushPropertyLoadNode_admitted.
  destruct (admitted _ _ _); [|done]. apply elem_of_Set_add. by left.
Qed.

Lemma pushPropertyLoadNode_valid t node instrId known result :
  node < length (heap t) → valid_set t result →
  valid_set t (pushPropertyLoadNode t node instrId known result).
Proof.
  intros Hn Hr. rewrite pushPropertyLoadNode_admitted.
  destruct (admitted _ _ _); [|done]. unfold valid_set in *.
  rewrite Forall_forall in *. intros x [?| ->]%elem_of_Set_add; auto.
Qed.

Lemma pushPropertyLoadNode_NoDup t node instrId known result :
  NoDup result → NoDup (pushPropertyLoadNode t node instrId known result).
Proof.
  intros Hr. rewrite pushPropertyLoadNode_admitted.
  destruct (admitted _ _ _); [|done]. by apply Set_add_NoDup.
Qed.

Lemma admitted_known_immutable object instrId known :
  id object ∈ known → admitted object instrId known = true.
Proof.
  intros H. unfold admitted. rewrite (bool_decide_eq_true_2 _ H).
  apply orb_true_r.
Qed.

Lemma admitted_settled object instrId known :
  scope object = None
  ∨ (range_end (mutableRange object) ≤ range_start (mutableRange object) + 1)%N →
  admitted object instrId known = true.
Proof.
  intros [H|H]; unfold admitted.
  - rewrite H. by rewrite andb_false_r.
  - apply N.ltb_ge in H. by rewrite H.
Qed.

Lemma collect_instr_read_source fn temporaries known t assumed instr :
  collect_instr fn temporaries known (t, assumed) instr =
    match read_source fn temporaries instr with
    | Some source =>
        let '(t', n) := getOrCreateProperty t source in
        (t', pushPropertyLoadNode t' n (instr_id instr) known assumed)
    | None => (t, assumed)
    end.
Proof.
  unfold collect_instr, read_source.
  destruct (instr_value instr); try done;
    destruct (optimizations_enabled fn); try done;
    by destruct (temporaries !! _).
Qed.

Lemma collect_instr_spec fn temporaries known t assumed instr t' assumed' :
  wf_tree t → valid_set t assumed →
  collect_instr fn temporaries known (t, assumed) instr = (t', assumed') →
  wf_tree t' ∧ extends t t' ∧ valid_set t' assumed'
  ∧ (∀ x, x ∈ assumed → x ∈ assumed')
  ∧ (NoDup assumed → NoDup assumed')
  ∧ ∀ source, read_source fn temporaries instr = Some source →
      ∃ r, find_dep t' (id (identifier source)) (path source) = Some r
           ∧ (admitted (identifier (fullPath (deref t' r))) (instr_id instr) known
              = true → r ∈ assumed').
Proof.
  intros W V. rewrite collect_instr_read_source.
  destruct (read_source fn temporaries instr) as [source|].
  - destruct (getOrCreateProperty t source) as [t1 n] eqn:H1. intros [= <- <-].
    destruct (getOrCreateProperty_spec _ _ _ _ W H1) as (W1 & E1 & F1).
    pose proof (find_dep_valid _ _ _ _ W1 F1) as Hv.
    split_and!; try done.
    + apply pushPropertyLoadNode_valid; [done|]. by apply (extends_valid_set t).
    + intros x. apply pushPropertyLoadNode_subset.
    + apply pushPropertyLoadNode_NoDup.
    + intros ? [= <-]. exists n. split; [done|]. intros Ha.
      rewrite pushPropertyLoadNode_admitted, Ha. apply elem_of_Set_add. by right.
  - intros [= <- <-]. split_and!; try done. apply extends_refl.
Qed.

Lemma collect_instrs_spec fn temporaries known instrs t assumed t' assumed' :
  wf_tree t → valid_set t assumed →
  foldl (collect_instr fn temporaries known) (t, assumed) instrs = (t', assumed') →
  wf_tree t' ∧ extends t t' ∧ valid_set t' assumed'
  ∧ (∀ x, x ∈ assumed → x ∈ assumed')
  ∧ (NoDup assumed → NoDup assumed')
  ∧ ∀ instr source, instr ∈ instrs →
      read_source fn temporaries instr = Some source →
      ∃ r, find_dep t' (id (identifier source)) (path source) = Some r
           ∧ (admitted (identifier (fullPath (deref t' r))) (instr_id instr) known
              = true → r ∈ assumed').
Proof.
  revert t assumed. induction instrs as [|i instrs IH]; intros t assumed W V;
    cbn [foldl].
  - intros [= <- <-]. split_and!; try done; [apply extends_refl|].
    intros ?? []%elem_of_nil.
  - destruct (collect_instr fn temporaries known (t, assumed) i) as [t1 a1] eqn:H1.
    intros H.
    destruct (collect_instr_spec _ _ _ _ _ _ _ _ W V H1) as (W1 & E1 & V1 & S1 & D1 & R1).
    destruct (IH _ _ W1 V1 H) as (W' & E' & V' & S' & D' & R').
    split_and!; [done|by eapply extends_trans|done|auto|auto|].
    intros instr source [->|Hin]%elem_of_cons Hs; [|by eapply R'].
    destruct (R1 _ Hs) as (r & F & A). exists r.
    pose proof (find_dep_valid _ _ _ _ W1 F) as Hv.
    split; [by apply (find_dep_ext t1)|].
    rewrite (extends_fullPath _ _ _ E' Hv). auto.
Qed.

Lemma elem_of_knownImmutableIdentifiers fn pl :
  is_component_or_hook (fnType fn) = true →
  ParamIdentifier pl ∈ params fn →
  id (place_identifier pl) ∈ knownImmutableIdentifiers_of fn.
Proof.
  intros Hty Hin. unfold knownImmutableIdentifiers_of. rewrite Hty.
  assert (G : ∀ ps (acc : gset N),
    id (place_identifier pl) ∈ acc ∨ ParamIdentifier pl ∈ ps →
    id (place_identifier pl) ∈
      foldl (fun acc p => match p with
                          | ParamIdentifier pl => {[ id (place_identifier pl) ]} ∪ acc
                          | ParamSpread _ => acc
                          end) acc ps).
  { induction ps as [|p ps IH]; intros acc; simpl.
    - intros [?|[]%elem_of_nil]. done.
    - intros [Ha|[<-|Hp]%elem_of_cons]; apply IH.
      + left. destruct p; set_solver.
      + left. set_solver.
      + by right. }
  apply G. by right.
Qed.

Lemma knownNonNullIdentifiers_of_spec fn t t0 known :
  wf_tree t → knownNonNullIdentifiers_of fn t = (t0, known) →
  wf_tree t0 ∧ extends t t0 ∧ valid_set t0 known ∧ NoDup known.
Proof.
  intros W. unfold knownNonNullIdentifiers_of.
  assert (D : (t, @nil nat) = (t0, known) →
    wf_tree t0 ∧ extends t t0 ∧ valid_set t0 known ∧ NoDup known).
  { intros [= <- <-]. split_and!; [done|apply extends_refl|apply Forall_nil_2|apply NoDup_nil_2]. }
  destruct (fnType fn); try done. destruct (params fn) as [|[pl|pl] ?]; try done.
  destruct (optimizations_enabled fn); try done.
  destruct (getOrCreateIdentifier t (place_identifier pl)) as [t1 r] eqn:H1.
  intros [= <- <-].
  destruct (getOrCreateIdentifier_wf _ _ _ _ W H1) as (W1 & _ & n & Hn & _).
  split_and!; [done|by eapply getOrCreateIdentifier_extends| |].
  - apply Forall_singleton. by apply lookup_lt_Some in Hn.
  - apply NoDup_singleton.
Qed.

Lemma wf_nodes_extends t t' nodes :
  extends t t' → wf_nodes t nodes → wf_nodes t' nodes.
Proof.
  intros E H k info Hk. destruct (H k info Hk). split; [|done].
  by apply (extends_valid_set t).
Qed.

Lemma collect_block_spec fn temporaries optionals known nonNull t nodes b t' nodes' :
  wf_tree t → valid_set t nonNull → NoDup nonNull → wf_nodes t nodes →
  collect_block fn temporaries optionals known nonNull (t, nodes) b = (t', nodes') →
  wf_tree t' ∧ extends t t' ∧ wf_nodes t' nodes'
  ∧ (∀ k, k ≠ block_id b → nodes' !! k = nodes !! k)
  ∧ ∃ info, nodes' !! block_id b = Some info ∧ block info = b
      ∧ (optionals !! block_id b = None →
         ∀ instr source, instr ∈ instructions b →
           read_source fn temporaries instr = Some source →
           ∃ r, find_dep t' (id (identifier source)) (path source) = Some r
                ∧ (admitted (identifier (fullPath (deref t' r))) (instr_id instr)
                     known = true → r ∈ assumedNonNullObjects info)).
Proof.
  intros W V D Wn. unfold collect_block.
  destruct (optionals !! block_id b) as [chain|] eqn:Ho.
  - destruct (getOrCreateProperty t chain) as [t1 r] eqn:H1. intros [= <- <-].
    destruct (getOrCreateProperty_spec _ _ _ _ W H1) as (W1 & E1 & F1).
    split_and!; [done|done| | |].
    + intros k info. rewrite lookup_insert. case_decide as Hk.
      * intros [= <-]. simpl. split; [|by apply Set_add_NoDup].
        unfold valid_set. rewrite Forall_forall.
        intros x [Hx| ->]%elem_of_Set_add.
        -- apply (extends_valid t); [done|]. unfold valid_set in V.
           rewrite Forall_forall in V. auto.
        -- by eapply find_dep_valid.
      * intros Hk'. by apply (wf_nodes_extends t t1 nodes E1 Wn k).
    + intros k Hk. by rewrite lookup_insert_ne.
    + eexists. rewrite lookup_insert_eq. split_and!; done.
  - destruct (foldl _ _ _) as [t1 a1] eqn:H1. intros [= <- <-].
    destruct (collect_instrs_spec _ _ _ _ _ _ _ _ W V H1) as (W1 & E1 & V1 & S1 & D1 & R1).
    split_and!; [done|done| | |].
    + intros k info. rewrite lookup_insert. case_decide as Hk.
      * intros [= <-]. simpl. auto.
      * intros Hk'. by apply (wf_nodes_extends t t1 nodes E1 Wn k).
    + intros k Hk. by rewrite lookup_insert_ne.
    + eexists. rewrite lookup_insert_eq. split_and!; [done..|]. intros _. apply R1.
Qed.

Lemma collect_blocks_spec fn temporaries optionals known nonNull bs t nodes t' nodes' :
  wf_tree t → valid_set t nonNull → NoDup nonNull → wf_nodes t nodes →
  foldl (collect_block fn temporaries optionals known nonNull) (t, nodes) bs
    = (t', nodes') →
  wf_tree t' ∧ extends t t' ∧ wf_nodes t' nodes'
  ∧ (∀ k, k ∉ block_id <$> bs → nodes' !! k = nodes !! k)
  ∧ (∀ k, k ∈ block_id <$> bs → is_Some (nodes' !! k))
  ∧ (NoDup (block_id <$> bs) → ∀ b, b ∈ bs →
      ∃ info, nodes' !! block_id b = Some info ∧ block info = b
        ∧ (optionals !! block_id b = None →
           ∀ instr source, instr ∈ instructions b →
             read_source fn temporaries instr = Some source →
             ∃ r, find_dep t' (id (identifier source)) (path source) = Some r
                  ∧ (admitted (identifier (fullPath (deref t' r))) (instr_id instr)
                       known = true → r ∈ assumedNonNullObjects info))).
Proof.
  revert t nodes. induction bs as [|b bs IH]; intros t nodes W V D Wn;
    cbn [foldl].
  - intros [= <- <-]. split_and!; try done; [apply extends_refl|..].
    + intros k []%elem_of_nil.
    + intros _ b []%elem_of_nil.
  - destruct (collect_block fn temporaries optionals known nonNull (t, nodes) b)
      as [t1 n1] eqn:H1. intros H.
    destruct (collect_block_spec _ _ _ _ _ _ _ _ _ _ W V D Wn H1)
      as (W1 & E1 & Wn1 & O1 & info1 & Hi1 & Hb1 & R1).
    destruct (IH t1 n1 W1 (extends_valid_set _ _ _ E1 V) D Wn1 H)
      as (W' & E' & Wn' & O' & I' & R').
    split_and!; [done|by eapply extends_trans|done|..].
    + intros k. rewrite fmap_cons, not_elem_of_cons. intros [Hk1 Hk2].
      rewrite O' by done. by apply O1.
    + intros k. rewrite fmap_cons. intros [->|Hk]%elem_of_cons; [|by apply I'].
      destruct (decide (block_id b ∈ block_id <$> bs)); [by apply I'|].
      rewrite O' by done. by rewrite Hi1.
    + rewrite fmap_cons.
      intros [Hnb Hnd]%NoDup_cons b' [->|Hb']%elem_of_cons; [|by apply R'].
      exists info1. rewrite O' by done. split_and!; [done..|].
      intros Ho instr source Hin Hs.
      destruct (R1 Ho instr source Hin Hs) as (r & F & A). exists r.
      pose proof (find_dep_valid _ _ _ _ W1 F) as Hv.
      split; [by apply (find_dep_ext t1)|].
      rewrite (extends_fullPath _ _ _ E' Hv). auto.
Qed.

Lemma collectNonNullsInBlocks_spec fn temporaries optionals t t' nodes :
  wf_tree t →
  collectNonNullsInBlocks fn temporaries optionals t = (t', nodes) →
  wf_tree t' ∧ extends t t' ∧ wf_nodes t' nodes
  ∧ (∀ k, k ∈ block_id <$> (blocks fn).*2 ↔ is_Some (nodes !! k))
  ∧ (NoDup (block_id <$> (blocks fn).*2) → ∀ b, b ∈ (blocks fn).*2 →
      ∃ info, nodes !! block_id b = Some info ∧ block info = b
        ∧ (optionals !! block_id b = None →
           ∀ instr source, instr ∈ instructions b →
             read_source fn temporaries instr = Some source →
             ∃ r, find_dep t' (id (identifier source)) (path source) = Some r
                  ∧ (admitted (identifier (fullPath (deref t' r))) (instr_id instr)
                       (knownImmutableIdentifiers_of fn) = true
                     → r ∈ assumedNonNullObjects info))).
Proof.
  intros W. unfold collectNonNullsInBlocks.
  destruct (knownNonNullIdentifiers_of fn t) as [t0 nonNull] eqn:H0. intros H.
  destruct (knownNonNullIdentifiers_of_spec _ _ _ _ W H0) as (W0 & E0 & V0 & D0).
  assert (Wn0 : wf_nodes t0 ∅).
  { intros k info. by rewrite lookup_empty. }
  destruct (collect_blocks_spec _ _ _ _ _ _ _ _ _ _ W0 V0 D0 Wn0 H)
    as (W' & E' & Wn' & O' & I' & R').
  split_and!; [done|by eapply extends_trans|done| |done].
  intros k. split; [apply I'|].
  intros Hk. destruct (decide (k ∈ block_id <$> (blocks fn).*2)) as [|Hn]; [done|].
  rewrite (O' k Hn), lookup_empty in Hk. by destruct Hk.
Qed.

(** C8. In the local fact extractor, a property read whose source identifier
    is a parameter of a Component or Hook (a member of the known-immutable
    set) has its node in the fact set of its block, whatever the identifier's
    mutable range and scope range are. *)
Theorem known_immutable_read_admitted
  fn temporaries optionals t t' nodes b instr source pl :
  wf_tree t →
  NoDup (block_id <$> (blocks fn).*2) →
  collectNonNullsInBlocks fn temporaries optionals t = (t', nodes) →
  b ∈ (blocks fn).*2 →
  optionals !! block_id b = None →
  instr ∈ instructions b →
  read_source fn temporaries instr = Some source →
  is_component_or_hook (fnType fn) = true →
  ParamIdentifier pl ∈ params fn →
  id (place_identifier pl) = id (identifier source) →
  ∃ info r,
    nodes !! block_id b = Some info
    ∧ find_dep t' (id (identifier source)) (path source) = Some r
    ∧ r ∈ assumedNonNullObjects info.
Proof.
  intros W D H Hb Ho Hi Hs Hty Hp Hid.
  destruct (collectNonNullsInBlocks_spec _ _ _ _ _ _ W H) as (W' & _ & _ & _ & R).
  destruct (R D b Hb) as (info & Hn & _ & R').
  destruct (R' Ho instr source Hi Hs) as (r & F & A).
  exists info, r. split_and!; [done..|]. apply A.
  apply admitted_known_immutable.
  destruct (find_dep_node _ _ _ _ W' F) as (n & Hn' & I & _).
  rewrite (deref_lookup _ _ _ Hn'), I, <-Hid.
  by apply elem_of_knownImmutableIdentifiers.
Qed.

Lemma known_immutable_read_admitted_witness :
  ∃ info r,
    (collectNonNullsInBlocks (props_fn Component) ∅ ∅ Tree_new).2 !! 0%N = Some info
    ∧ find_dep (collectNonNullsInBlocks (props_fn Component) ∅ ∅ Tree_new).1 7 []
      = Some r
    ∧ r ∈ assumedNonNullObjects info.
Proof.
  apply (known_immutable_read_admitted (props_fn Component) ∅ ∅ Tree_new
           (collectNonNullsInBlocks (props_fn Component) ∅ ∅ Tree_new).1
           (collectNonNullsInBlocks (props_fn Component) ∅ ∅ Tree_new).2
           props_block read_props_x
           {| identifier := props_identifier; path := [] |}
           {| place_identifier := props_identifier |}).
  - apply wf_tree_new.
  - apply NoDup_singleton.
  - apply surjective_pairing.
  - apply list_elem_of_singleton. reflexivity.
  - reflexivity.
  - apply list_elem_of_singleton. reflexivity.
  - reflexivity.
  - reflexivity.
  - apply list_elem_of_singleton. reflexivity.
  - reflexivity.
Defined.

(** Without the known-immutable set the same read is not admitted: the
    parameter's scope range contains the instruction. *)
Example props_read_not_admitted_elsewhere :
  (assumedNonNullObjects <$>
     (collectNonNullsInBlocks (props_fn Other) ∅ ∅ Tree_new).2 !! 0%N) = Some [].
Proof. vm_compute. reflexivity. Qed.

(** C10. For every property-read instruction that the local fact extractor
    scans, if the root identifier recorded in the resolved node has no owning
    scope, or its mutable range spans at most one instruction, the node is in
    the fact set of the block, whatever the instruction id and the
    known-immutable set are. *)
Theorem settled_read_admitted
  fn temporaries optionals t t' nodes b instr source r :
  wf_tree t →
  NoDup (block_id <$> (blocks fn).*2) →
  collectNonNullsInBlocks fn temporaries optionals t = (t', nodes) →
  b ∈ (blocks fn).*2 →
  optionals !! block_id b = None →
  instr ∈ instructions b →
  read_source fn temporaries instr = Some source →
  find_dep t' (id (identifier source)) (path source) = Some r →
  scope (identifier (fullPath (deref t' r))) = None
  ∨ (range_end (mutableRange (identifier (fullPath (deref t' r))))
     ≤ range_start (mutableRange (identifier (fullPath (deref t' r)))) + 1)%N →
  ∃ info, nodes !! block_id b = Some info ∧ r ∈ assumedNonNullObjects info.
Proof.
  intros W D H Hb Ho Hi Hs F Hset.
  destruct (collectNonNullsInBlocks_spec _ _ _ _ _ _ W H) as (W' & _ & _ & _ & R).
  destruct (R D b Hb) as (info & Hn & _ & R').
  destruct (R' Ho instr source Hi Hs) as (r' & F' & A).
  assert (r' = r) as -> by congruence.
  exists info. split; [done|]. apply A. by apply admitted_settled.
Qed.

Lemma settled_read_admitted_witness :
  ∃ info,
    (collectNonNullsInBlocks unscoped_fn ∅ ∅ Tree_new).2 !! 0%N = Some info
    ∧ 0 ∈ assumedNonNullObjects info.
Proof.
  apply (settled_read_admitted unscoped_fn ∅ ∅ Tree_new
           (collectNonNullsInBlocks unscoped_fn ∅ ∅ Tree_new).1
           (collectNonNullsInBlocks unscoped_fn ∅ ∅ Tree_new).2
           unscoped_block read_y_x
           {| identifier := unscoped_identifier; path := [] |} 0).
  - apply wf_tree_new.
  - apply NoDup_singleton.
  - apply surjective_pairing.
  - apply list_elem_of_singleton. reflexivity.
  - reflexivity.
  - apply list_elem_of_singleton. reflexivity.
  - reflexivity.
  - vm_compute. reflexivity.
  - left. vm_compute. reflexivity.
Defined.

(** ** The optional-chain canonicalizer *)

(** *** The re-walk *)

Lemma optional_count_cons e es :
  optional_count (e :: es) = (if optional e then 1 else 0) + optional_count es.
Proof.
  unfold optional_count. rewrite filter_cons. case_decide as D.
  - by rewrite D.
  - by destruct (optional e).
Qed.

Lemma relaxes_count es es' :
  Forall2 relaxes es es' →
  optional_count es' ≤ optional_count es
  ∧ (es' ≠ es → optional_count es' < optional_count es).
Proof.
  induction 1 as [|e e' es es' Hr _ [IH1 IH2]].
  - split; [done|]. by intros [].
  - rewrite !optional_count_cons. destruct Hr as [->|[Ho ->]].
    + split; [lia|]. intros Hne.
      assert (es' ≠ es) by congruence. specialize (IH2 ltac:(done)). lia.
    + rewrite Ho. simpl. split; lia.
Qed.

Lemma rewalk_entries_spec t K c cn es t' r :
  wf_tree t → heap t !! c = Some cn →
  rewalk_entries t K c es = (t', r) →
  wf_tree t' ∧ extends t t'
  ∧ find_path t' c (canon_path t' K c es) = Some r
  ∧ Forall2 relaxes es (canon_path t' K c es).
Proof.
  revert t c cn. induction es as [|e es IH]; intros t c cn W Hc; simpl.
  - intros [= <- <-]. split_and!; [done|apply extends_refl|done|constructor].
  - fold (unconditional e).
    remember (if optional e && Set_has K c then unconditional e else e) as e'
      eqn:He'.
    destruct (getOrCreatePropertyEntry t c e') as [t1 next] eqn:H1. intros H.
    destruct (getOrCreatePropertyEntry_wf _ _ _ _ _ _ W Hc H1) as [W1 Hch].
    pose proof (getOrCreatePropertyEntry_extends _ _ _ _ _ _ Hc H1) as E1.
    destruct (getOrCreatePropertyEntry_node _ _ _ _ _ _ W Hc H1) as (nn & Hnn & _).
    destruct (IH _ _ _ W1 Hnn H) as (W' & E' & F & R).
    destruct (ext_node _ _ E1 c cn Hc) as (cn1 & Hc1 & _).
    pose proof (extends_child_of _ _ _ _ _ _ E' Hc1 Hch) as Hch'.
    split_and!; [done|by eapply extends_trans|..].
    + by rewrite Hch'.
    + rewrite Hch'. constructor; [|done]. rewrite He'. unfold relaxes.
      destruct (optional e) eqn:Ho; simpl; [|by left].
      destruct (Set_has K c); [by right|by left].
Qed.

Lemma rewalk_entries_unchanged t K c cn es t' r :
  wf_tree t → heap t !! c = Some cn →
  rewalk_entries t K c es = (t', r) →
  canon_path t' K c es = es →
  walk_entries t c es = (t', r).
Proof.
  revert t c cn. induction es as [|e es IH]; intros t c cn W Hc; simpl; [done|].
  fold (unconditional e).
  remember (if optional e && Set_has K c then unconditional e else e) as e'
    eqn:He'.
  destruct (getOrCreatePropertyEntry t c e') as [t1 next] eqn:H1. intros H Hcan.
  injection Hcan as He Hcan. rewrite He in H1. rewrite H1.
  destruct (getOrCreatePropertyEntry_wf _ _ _ _ _ _ W Hc H1) as [W1 Hch].
  pose proof (getOrCreatePropertyEntry_extends _ _ _ _ _ _ Hc H1) as E1.
  destruct (getOrCreatePropertyEntry_node _ _ _ _ _ _ W Hc H1) as (nn & Hnn & _).
  destruct (rewalk_entries_spec _ _ _ _ _ _ _ W1 Hnn H) as (_ & E' & _).
  destruct (ext_node _ _ E1 c cn Hc) as (cn1 & Hc1 & _).
  pose proof (extends_child_of _ _ _ _ _ _ E' Hc1 Hch) as Hch'.
  rewrite He, Hch' in Hcan. by apply (IH _ _ nn).
Qed.

Lemma rewalk_entries_unrewritten t K c es r :
  unrewritten t K c es = true → find_path t c es = Some r →
  rewalk_entries t K c es = (t, r).
Proof.
  revert c. induction es as [|e es IH]; intros c; simpl.
  - by intros _ [= ->].
  - intros [Hn Hu]%andb_true_iff. apply negb_true_iff in Hn. rewrite Hn.
    destruct (child_of t c e) as [next|] eqn:Hc; [|done]. simpl.
    rewrite (getOrCreatePropertyEntry_found _ _ _ _ Hc). by apply IH.
Qed.

Lemma canon_path_unrewritten t t' K c cn es r :
  wf_tree t → extends t t' → heap t !! c = Some cn →
  find_path t c es = Some r →
  canon_path t' K c es = es → unrewritten t K c es = true.
Proof.
  intros W E. revert c cn. induction es as [|e es IH]; intros c cn Hc; simpl; [done|].
  destruct (child_of t c e) as [next|] eqn:Hch; simpl; [|done]. intros Hf Hcan.
  injection Hcan as He Hcan. rewrite He in Hcan.
  rewrite (extends_child_of _ _ _ _ _ _ E Hc Hch) in Hcan.
  destruct (wf_child_of _ _ _ _ _ W Hc Hch) as (nn & Hnn & _).
  rewrite (IH _ _ Hnn Hf Hcan), andb_true_r.
  destruct (optional e) eqn:Ho; [|done]. destruct (Set_has K c); [|done].
  simpl in He. apply (f_equal optional) in He. simpl in He. congruence.
Qed.

Lemma unrewritten_antitone t K K' c es :
  (∀ x, x ∈ K' → x ∈ K) →
  unrewritten t K c es = true → unrewritten t K' c es = true.
Proof.
  intros Hsub. revert c. induction es as [|e es IH]; intros c; simpl; [done|].
  intros [Hn Hu]%andb_true_iff. apply andb_true_iff. split.
  - apply negb_true_iff. apply negb_true_iff in Hn.
    destruct (optional e); [|done]. simpl in *.
    apply Set_has_false. apply Set_has_false in Hn. auto.
  - destruct (child_of t c e); [by apply IH|done].
Qed.

Lemma unrewritten_no_optional t K c es r :
  existsb optional es = false → find_path t c es = Some r →
  unrewritten t K c es = true.
Proof.
  revert c. induction es as [|e es IH]; intros c; simpl; [done|].
  intros [He Hes]%orb_false_iff. rewrite He. simpl.
  destruct (child_of t c e) as [next|]; [|done]. simpl. by apply IH.
Qed.

(** What the re-walk of a node returns. *)
Lemma rewalk_spec t K o n t' r :
  wf_tree t → heap t !! o = Some n → rewalk t K o = (t', r) →
  wf_tree t' ∧ extends t t'
  ∧ ∃ r0 rn,
      roots t !! id (identifier (fullPath n)) = Some r0
      ∧ find_path t r0 (path (fullPath n)) = Some o
      ∧ heap t' !! r = Some rn
      ∧ identifier (fullPath rn) = identifier (fullPath n)
      ∧ path (fullPath rn) = canon_path t' K r0 (path (fullPath n))
      ∧ Forall2 relaxes (path (fullPath n)) (path (fullPath rn)).
Proof.
  intros W Ho. unfold rewalk. rewrite (deref_lookup _ _ _ Ho).
  destruct (find_dep_root _ _ _ _ (wf_self _ W o n Ho)) as (r0 & Hr0 & Hp).
  rewrite (getOrCreateIdentifier_found _ _ _ Hr0). intros H.
  destruct (wf_roots _ W _ _ Hr0) as (n0 & Hn0 & I0 & P0).
  destruct (rewalk_entries_spec _ _ _ _ _ _ _ W Hn0 H) as (W' & E' & F & R).
  split_and!; [done..|]. exists r0.
  destruct (ext_node _ _ E' r0 n0 Hn0) as (n0' & Hn0' & F0 & _).
  destruct (find_path_node _ _ _ _ _ W' Hn0' F) as (rn & Hrn & I & P).
  exists rn. rewrite F0, P0 in P. simpl in P.
  destruct (find_path_node _ _ _ _ _ W Hn0 Hp) as (n' & Hn' & In & _).
  assert (n' = n) as -> by congruence.
  split_and!; [done..|congruence|done|by rewrite P].
Qed.

(** The re-walk returns the node it started from exactly when no segment is
    rewritten, and then the tree is as it was. *)
Lemma rewalk_same t K o n t' :
  wf_tree t → heap t !! o = Some n → rewalk t K o = (t', o) → t' = t.
Proof.
  intros W Ho H.
  destruct (rewalk_spec _ _ _ _ _ _ W Ho H) as (W' & E' & r0 & rn & Hr0 & Hp & Hrn & _ & P & _).
  destruct (ext_node _ _ E' o n Ho) as (n' & Hn' & Fn & _).
  assert (rn = n') as -> by congruence. rewrite Fn in P.
  revert H. unfold rewalk. rewrite (deref_lookup _ _ _ Ho).
  rewrite (getOrCreateIdentifier_found _ _ _ Hr0). intros H.
  destruct (wf_roots _ W _ _ Hr0) as (n0 & Hn0 & _).
  pose proof (rewalk_entries_unchanged _ _ _ _ _ _ _ W Hn0 H (eq_sym P)) as Hw.
  rewrite (walk_entries_found _ _ _ _ Hp) in Hw. congruence.
Qed.

Lemma stable_unrewritten t K o n r0 :
  wf_tree t → heap t !! o = Some n →
  roots t !! id (identifier (fullPath n)) = Some r0 →
  stable t K o ↔ unrewritten t K r0 (path (fullPath n)) = true.
Proof.
  intros W Ho Hr0. unfold stable.
  destruct (find_dep_root _ _ _ _ (wf_self _ W o n Ho)) as (r0' & Hr0' & Hp).
  assert (r0' = r0) as -> by congruence.
  destruct (wf_roots _ W _ _ Hr0) as (n0 & Hn0 & _).
  split.
  - intros H.
    destruct (rewalk_spec _ _ _ _ _ _ W Ho H) as (_ & E' & r1 & rn & Hr1 & _ & Hrn & _ & P & _).
    assert (r1 = r0) as -> by congruence.
    assert (rn = n) as -> by congruence.
    by apply (canon_path_unrewritten t t K r0 n0 _ o).
  - intros Hu. unfold rewalk. rewrite (deref_lookup _ _ _ Ho).
    rewrite (getOrCreateIdentifier_found _ _ _ Hr0).
    by apply rewalk_entries_unrewritten.
Qed.

Lemma stable_antitone t K K' o :
  wf_tree t → o < length (heap t) →
  (∀ x, x ∈ K' → x ∈ K) → stable t K o → stable t K' o.
Proof.
  intros W Hv Hsub. destruct (lookup_lt_is_Some_2 _ _ Hv) as [n Ho].
  destruct (find_dep_root _ _ _ _ (wf_self _ W o n Ho)) as (r0 & Hr0 & _).
  rewrite !(stable_unrewritten _ _ _ _ _ W Ho Hr0).
  by apply unrewritten_antitone.
Qed.

Lemma stable_no_optional t K o :
  wf_tree t → o < length (heap t) →
  hasOptional (deref t o) = false → stable t K o.
Proof.
  intros W Hv. destruct (lookup_lt_is_Some_2 _ _ Hv) as [n Ho].
  rewrite (deref_lookup _ _ _ Ho), (wf_hasOptional _ W o n Ho). intros Hopt.
  destruct (find_dep_root _ _ _ _ (wf_self _ W o n Ho)) as (r0 & Hr0 & Hp).
  apply (stable_unrewritten _ _ _ _ _ W Ho Hr0).
  by apply unrewritten_no_optional with o.
Qed.

(** A re-walk that ends elsewhere ends at a node with fewer optional
    segments. *)
Lemma rewalk_weight t K o t' r :
  wf_tree t → o < length (heap t) → rewalk t K o = (t', r) →
  r < length (heap t')
  ∧ node_weight t' r ≤ node_weight t o
  ∧ (r ≠ o → node_weight t' r < node_weight t o).
Proof.
  intros W Hv H. destruct (lookup_lt_is_Some_2 _ _ Hv) as [n Ho].
  destruct (rewalk_spec _ _ _ _ _ _ W Ho H)
    as (W' & E' & r0 & rn & Hr0 & Hp & Hrn & I & P & R).
  unfold node_weight. rewrite (deref_lookup _ _ _ Ho), (deref_lookup _ _ _ Hrn).
  destruct (relaxes_count _ _ R) as [C1 C2].
  split_and!; [by apply lookup_lt_Some in Hrn|done|].
  intros Hne. apply C2. intros Heq. apply Hne.
  destruct (ext_node _ _ E' o n Ho) as (n' & Hn' & Fn & _).
  apply (node_inj t' r o rn n' W' Hrn Hn'); rewrite Fn; congruence.
Qed.

(** *** The passes of the canonicalizer *)

Lemma set_weight_app t l1 l2 :
  set_weight t (l1 ++ l2) = set_weight t l1 + set_weight t l2.
Proof. apply sum_list_with_app. Qed.

Lemma set_weight_cons t x l :
  set_weight t (x :: l) = node_weight t x + set_weight t l.
Proof. done. Qed.

Lemma set_weight_singleton t x : set_weight t [x] = node_weight t x.
Proof. unfold set_weight. simpl. lia. Qed.

Lemma node_weight_extends t t' r :
  extends t t' → r < length (heap t) → node_weight t' r = node_weight t r.
Proof. intros E Hr. unfold node_weight. by rewrite (extends_fullPath _ _ _ E Hr). Qed.

Lemma set_weight_extends t t' l :
  extends t t' → valid_set t l → set_weight t' l = set_weight t l.
Proof.
  intros E. induction 1 as [|x l Hx _ IH]; [done|].
  by rewrite !set_weight_cons, IH, (node_weight_extends _ _ _ E Hx).
Qed.

Lemma valid_set_app t l1 l2 :
  valid_set t (l1 ++ l2) ↔ valid_set t l1 ∧ valid_set t l2.
Proof. apply Forall_app. Qed.

Lemma valid_set_elem t l x : valid_set t l → x ∈ l → x < length (heap t).
Proof. unfold valid_set. rewrite Forall_forall. auto. Qed.

Lemma valid_set_Set_add t l x :
  valid_set t l → x < length (heap t) → valid_set t (Set_add l x).
Proof.
  intros Hl Hx. unfold valid_set. rewrite Forall_forall.
  intros y [Hy| ->]%elem_of_Set_add; [|done]. by eapply valid_set_elem.
Qed.

Lemma valid_set_Set_delete t l x : valid_set t l → valid_set t (Set_delete l x).
Proof.
  intros Hl. unfold valid_set. rewrite Forall_forall.
  intros y [Hy _]%elem_of_Set_delete. by eapply valid_set_elem.
Qed.

Lemma valid_set_filter t l (P : nat → Prop) `{∀ x, Decision (P x)} :
  valid_set t l → valid_set t (filter P l).
Proof.
  intros Hl. unfold valid_set. rewrite Forall_forall.
  intros y [_ Hy]%list_elem_of_filter. by eapply valid_set_elem.
Qed.

Lemma set_weight_filter t l (P : nat → Prop) `{∀ x, Decision (P x)} :
  set_weight t (filter P l) ≤ set_weight t l.
Proof.
  induction l as [|x l IH]; [done|]. rewrite filter_cons.
  destruct (decide (P x)); rewrite !set_weight_cons; lia.
Qed.


(** One step of the pass. *)
Lemma reduce_body_spec s original rest :
  reduce_inv s → rs_pending s = original :: rest →
  let s' := reduce_body s original rest in
  reduce_inv s'
  ∧ extends (rs_tree s) (rs_tree s')
  ∧ pending_measure s' < pending_measure s
  ∧ ocn_weight s' + changed_bit s' ≤ ocn_weight s + changed_bit s
  ∧ length (rs_optionalChainNodes s') ≤ length (rs_optionalChainNodes s)
  ∧ (∀ x, x ∈ rs_knownNonNulls s → x ∈ rs_knownNonNulls s')
  ∧ (∀ x, x ∈ rs_nodes s → hasOptional (deref (rs_tree s) x) = false →
        x ∈ rs_nodes s')
  ∧ (rs_changed s = true → rs_changed s' = true)
  ∧ (rs_changed s' = false →
       rs_tree s' = rs_tree s ∧ rs_nodes s' = rs_nodes s
       ∧ rs_knownNonNulls s' = rs_knownNonNulls s
       ∧ rs_visited s' = rs_visited s ++ [original]
       ∧ stable (rs_tree s) (rs_knownNonNulls s) original).
Proof.
  intros [W Vn Vk Vv Vp NK OP ST] Hp. rewrite Hp in Vp, OP.
  apply Forall_cons in Vp as [Ho Vr].
  unfold reduce_body, pending_measure, ocn_weight, rs_optionalChainNodes,
    changed_bit. rewrite Hp.
  destruct (rewalk (rs_tree s) (rs_knownNonNulls s) original) as [t' curr] eqn:Hw.
  destruct (lookup_lt_is_Some_2 _ _ Ho) as [n Hon].
  destruct (rewalk_spec _ _ _ _ _ _ W Hon Hw) as (W' & E' & _).
  destruct (rewalk_weight _ _ _ _ _ W Ho Hw) as (Hcv & Hw1 & Hw2).
  case_bool_decide as Hne; simpl.
  - specialize (Hw2 Hne).
    assert (Vr' : valid_set t' rest) by by apply (extends_valid_set (rs_tree s)).
    assert (Vv' : valid_set t' (rs_visited s)) by by apply (extends_valid_set (rs_tree s)).
    split_and!.
    + split; simpl; try done.
      * apply valid_set_Set_add; [|done]. apply valid_set_Set_delete.
        by apply (extends_valid_set (rs_tree s)).
      * apply valid_set_Set_add; [|done]. by apply (extends_valid_set (rs_tree s)).
      * destruct (Set_has _ curr); [done|]. apply valid_set_app. split; [done|].
        by apply Forall_singleton.
      * intros x [[Hx _]%elem_of_Set_delete| ->]%elem_of_Set_add;
          apply elem_of_Set_add; auto.
      * intros x [[Hx Hxo]%elem_of_Set_delete| ->]%elem_of_Set_add Hopt.
        -- rewrite (extends_hasOptional _ _ _ E') in Hopt
             by apply (valid_set_elem _ _ _ Vn Hx).
           specialize (OP x Hx Hopt).
           rewrite elem_of_app, elem_of_cons in OP. rewrite elem_of_app.
           destruct OP as [?|[?|?]]; [by left|done|right].
           destruct (Set_has _ curr); [done|]. apply elem_of_app. by left.
        -- destruct (Set_has (rs_visited s ++ rest) curr) eqn:Hh.
           ++ by apply Set_has_true in Hh.
           ++ rewrite !elem_of_app, list_elem_of_singleton. auto.
    + done.
    + destruct (Set_has _ curr).
      * rewrite (set_weight_extends _ _ _ E' Vr). simpl. lia.
      * rewrite set_weight_app, length_app, set_weight_singleton.
        rewrite (set_weight_extends _ _ _ E' Vr). simpl. lia.
    + rewrite !set_weight_app, set_weight_cons.
      rewrite (set_weight_extends _ _ _ E' Vv).
      destruct (Set_has _ curr).
      * rewrite (set_weight_extends _ _ _ E' Vr). destruct (rs_changed s); lia.
      * rewrite set_weight_app, set_weight_singleton.
        rewrite (set_weight_extends _ _ _ E' Vr). destruct (rs_changed s); lia.
    + rewrite !length_app. destruct (Set_has _ curr); rewrite ?length_app; simpl; lia.
    + intros x Hx. apply elem_of_Set_add. by left.
    + intros x Hx Hopt. apply elem_of_Set_add. left. apply elem_of_Set_delete.
      split; [done|]. intros ->.
      pose proof (stable_no_optional _ (rs_knownNonNulls s) _ W Ho Hopt) as Hst.
      unfold stable in Hst. rewrite Hst in Hw. injection Hw as _ <-. done.
    + done.
    + done.
  - assert (curr = original) as -> by (destruct (decide (curr = original)); done).
    pose proof (rewalk_same _ _ _ _ _ W Hon Hw) as ->.
    split_and!.
    + split; simpl; try done.
      * apply valid_set_app. split; [done|]. by apply Forall_singleton.
      * intros x Hx Hopt. rewrite <-app_assoc. simpl. by apply OP.
      * intros Hc x [Hx| ->%list_elem_of_singleton]%elem_of_app; [by apply ST|done].
    + apply extends_refl.
    + simpl. lia.
    + rewrite <-app_assoc. simpl. lia.
    + rewrite <-app_assoc. simpl. lia.
    + done.
    + done.
    + done.
    + intros _. split_and!; done.
Qed.

(** A whole pass over [optionalChainNodes]. *)
Lemma reduce_for_spec fuel s :
  reduce_inv s → pending_measure s < fuel →
  ∃ s', reduce_for fuel s = Some s'
    ∧ reduce_inv s'
    ∧ extends (rs_tree s) (rs_tree s')
    ∧ rs_pending s' = []
    ∧ ocn_weight s' + changed_bit s' ≤ ocn_weight s + changed_bit s
    ∧ length (rs_optionalChainNodes s') ≤ length (rs_optionalChainNodes s)
    ∧ (∀ x, x ∈ rs_knownNonNulls s → x ∈ rs_knownNonNulls s')
    ∧ (∀ x, x ∈ rs_nodes s → hasOptional (deref (rs_tree s) x) = false →
          x ∈ rs_nodes s')
    ∧ (rs_changed s' = false →
         rs_tree s' = rs_tree s ∧ rs_nodes s' = rs_nodes s
         ∧ rs_knownNonNulls s' = rs_knownNonNulls s).
Proof.
  revert s. induction fuel as [|fuel IH]; intros s I Hm; [lia|]. simpl.
  destruct (rs_pending s) as [|original rest] eqn:Hp.
  { exists s. split_and!; try done; try lia. apply extends_refl. }
  destruct (reduce_body_spec s original rest I Hp)
    as (I1 & E1 & M1 & O1 & L1 & K1 & P1 & C1 & N1).
  destruct (IH _ I1 ltac:(lia)) as (s' & H' & I' & E' & Hp' & O' & L' & K' & P' & N').
  exists s'. split_and!; try done.
  - by eapply extends_trans.
  - lia.
  - lia.
  - auto.
  - intros x Hx Hopt. apply P'; [by apply P1|].
    rewrite (extends_hasOptional _ _ _ E1); [done|].
    apply (valid_set_elem _ _ _ (ri_nodes _ I) Hx).
  - intros Hc. destruct (N' Hc) as (T' & No' & Kn').
    destruct (rs_changed (reduce_body s original rest)) eqn:Hcb.
    + exfalso. clear -H' Hcb Hc I1 IH.
      assert (G : ∀ f s0 s1, reduce_for f s0 = Some s1 →
                    rs_changed s0 = true → rs_changed s1 = true).
      { clear. induction f as [|f IHf]; intros s0 s1; simpl; [done|].
        destruct (rs_pending s0) as [|o r] eqn:Hp0; [by intros [= <-]|].
        intros H Hc0. apply (IHf _ _ H). unfold reduce_body.
        destruct (rewalk _ _ _). by case_bool_decide. }
      rewrite (G _ _ _ H' Hcb) in Hc. done.
    + destruct (N1 eq_refl) as (T1 & No1 & Kn1 & _). split_and!; congruence.
Qed.

(** A pass over members that are all stable changes nothing. *)
Lemma reduce_for_stable fuel s :
  wf_tree (rs_tree s) → valid_set (rs_tree s) (rs_pending s) →
  (∀ x, x ∈ rs_pending s → stable (rs_tree s) (rs_knownNonNulls s) x) →
  length (rs_pending s) < fuel →
  ∃ s', reduce_for fuel s = Some s' ∧ rs_changed s' = rs_changed s
        ∧ rs_tree s' = rs_tree s ∧ rs_nodes s' = rs_nodes s.
Proof.
  revert s. induction fuel as [|fuel IH]; intros s W V St Hl; [lia|]. simpl.
  destruct (rs_pending s) as [|original rest] eqn:Hp; [by exists s|].
  assert (Hb : reduce_body s original rest =
    {| rs_tree := rs_tree s; rs_changed := rs_changed s;
       rs_visited := rs_visited s ++ [original]; rs_pending := rest;
       rs_nodes := rs_nodes s; rs_knownNonNulls := rs_knownNonNulls s |}).
  { unfold reduce_body. rewrite (St original) by apply list_elem_of_here.
    by rewrite bool_decide_eq_false_2 by (intros ?; done). }
  rewrite Hb. apply Forall_cons in V as [_ V]. simpl in Hl.
  match goal with |- context [reduce_for fuel ?s1] =>
    destruct (IH s1) as (s' & H' & ? & ? & ?); simpl; try done
  end.
  - intros x Hx. apply St. by apply list_elem_of_further.
  - lia.
  - by exists s'.
Qed.

Lemma reduce_loop_spec fuel t nodes known ocn :
  reduce_inv {| rs_tree := t; rs_nodes := nodes; rs_knownNonNulls := known;
                rs_visited := []; rs_pending := ocn; rs_changed := false |} →
  set_weight t ocn + length ocn < fuel →
  ∃ nodes' t', reduce_loop fuel t nodes known ocn = Some (nodes', t')
    ∧ wf_tree t' ∧ extends t t' ∧ valid_set t' nodes'
    ∧ (∀ x, x ∈ nodes → hasOptional (deref t x) = false → x ∈ nodes')
    ∧ (∃ K, (∀ x, x ∈ known → x ∈ K) ∧ (∀ x, x ∈ nodes' → x ∈ K)
            ∧ (∀ x, x ∈ nodes' → stable t' K x))
    ∧ ∃ s1, reduce_for fuel
              {| rs_tree := t; rs_nodes := nodes; rs_knownNonNulls := known;
                 rs_visited := []; rs_pending := ocn; rs_changed := false |}
            = Some s1
          ∧ extends (rs_tree s1) t'
          ∧ (∀ x, x ∈ rs_nodes s1 →
               hasOptional (deref (rs_tree s1) x) = false → x ∈ nodes').
Proof.
  revert t nodes known ocn. induction fuel as [|fuel IH];
    intros t nodes known ocn I Hm; [lia|].
  cbn [reduce_loop].
  destruct (reduce_for_spec (S fuel) _ I) as (s' & H' & I' & E' & Hp' & O' & L' & K' & P' & N').
  { unfold pending_measure. simpl. lia. }
  rewrite H'. unfold ocn_weight, changed_bit, rs_optionalChainNodes in O', L'.
  simpl in O', L', E', K', P'. rewrite Hp', app_nil_r in O', L'.
  destruct (rs_changed s') eqn:Hc.
  - unfold rs_optionalChainNodes. rewrite Hp', app_nil_r.
    destruct (IH (rs_tree s') (rs_nodes s') (rs_knownNonNulls s') (rs_visited s'))
      as (nodes' & t' & Hl & W2 & E2 & V2 & P2 & (K & K1 & K2 & K3) & _).
    + destruct I' as [W1 Vn Vk Vv Vp NK OP ST]. split; simpl; try done.
      * apply Forall_nil_2.
      * intros x Hx Hopt. specialize (OP x Hx Hopt).
        by rewrite Hp', app_nil_r in OP.
      * intros _ x []%elem_of_nil.
    + lia.
    + exists nodes', t'. split_and!; try done.
      * by eapply extends_trans.
      * intros x Hx Hopt. apply P2; [by apply P'|].
        rewrite (extends_hasOptional _ _ _ E'); [done|].
        apply (valid_set_elem _ _ _ (ri_nodes _ I) Hx).
      * exists K. split_and!; auto.
      * exists s'. split_and!; done.
  - exists (rs_nodes s'), (rs_tree s').
    destruct I' as [W1 Vn Vk Vv Vp NK OP ST].
    split_and!; try done.
    + exists (rs_knownNonNulls s'). split_and!; try done.
      intros x Hx.
      destruct (hasOptional (deref (rs_tree s') x)) eqn:Hopt.
      * apply ST; [done|]. specialize (OP x Hx Hopt).
        by rewrite Hp', app_nil_r in OP.
      * apply stable_no_optional; [done| |done]. apply (valid_set_elem _ _ _ Vn Hx).
    + exists s'. split_and!; [done|apply extends_refl|done].
Qed.

Lemma reduceMaybeOptionalChains_spec fuel nodes t :
  wf_tree t → valid_set t nodes → reduce_bound t nodes < fuel →
  ∃ nodes' t', reduceMaybeOptionalChains fuel nodes t = Some (nodes', t')
    ∧ wf_tree t' ∧ extends t t' ∧ valid_set t' nodes'
    ∧ (∀ x, x ∈ nodes → hasOptional (deref t x) = false → x ∈ nodes')
    ∧ ∃ K, (∀ x, x ∈ nodes → x ∈ K) ∧ (∀ x, x ∈ nodes' → x ∈ K)
           ∧ (∀ x, x ∈ nodes' → stable t' K x).
Proof.
  intros W V Hb. unfold reduceMaybeOptionalChains, Set_filter.
  set (ocn := filter (fun x => hasOptional (deref t x) = true) nodes).
  destruct (length ocn =? 0)%nat eqn:Hl.
  - apply Nat.eqb_eq, nil_length_inv in Hl.
    exists nodes, t. split_and!; try done; [apply extends_refl|].
    exists nodes. split_and!; try done. intros x Hx.
    apply stable_no_optional; [done|apply (valid_set_elem _ _ _ V Hx)|].
    destruct (hasOptional (deref t x)) eqn:Hopt; [|done].
    assert (x ∈ ocn) as Hin by (apply list_elem_of_filter; done).
    rewrite Hl in Hin. by apply elem_of_nil in Hin.
  - edestruct reduce_loop_spec as (nodes' & t' & H & ? & ? & ? & ? & ? & _);
      [| |exists nodes', t'; split_and!; [exact H|done..]].
    + split; simpl; try done.
      * apply Forall_nil_2.
      * by apply valid_set_filter.
      * intros x Hx Hopt. by apply list_elem_of_filter.
      * intros _ x []%elem_of_nil.
    + unfold reduce_bound in Hb.
      pose proof (set_weight_filter t nodes (fun x => hasOptional (deref t x) = true)).
      pose proof (length_filter (fun x => hasOptional (deref t x) = true) nodes).
      fold ocn in H, H0. lia.
Qed.

(** More fuel does not change a result. *)
Lemma reduce_for_mono fuel fuel' s s' :
  reduce_for fuel s = Some s' → fuel ≤ fuel' → reduce_for fuel' s = Some s'.
Proof.
  revert fuel' s. induction fuel as [|fuel IH]; intros fuel' s; simpl; [done|].
  intros H Hle. destruct fuel' as [|fuel']; [lia|]. simpl.
  destruct (rs_pending s); [done|]. apply IH; [done|lia].
Qed.

Lemma reduce_loop_mono fuel fuel' t nodes known ocn r :
  reduce_loop fuel t nodes known ocn = Some r → fuel ≤ fuel' →
  reduce_loop fuel' t nodes known ocn = Some r.
Proof.
  revert fuel' t nodes known ocn. induction fuel as [|fuel IH];
    intros fuel' t nodes known ocn; [done|].
  intros H Hle. destruct fuel' as [|fuel']; [lia|].
  cbn [reduce_loop] in *.
  destruct (reduce_for (S fuel) _) as [s|] eqn:Hf; [|done].
  rewrite (reduce_for_mono _ (S fuel') _ _ Hf) by lia.
  destruct (rs_changed s); [|done]. apply IH; [done|lia].
Qed.

Lemma reduceMaybeOptionalChains_mono fuel fuel' nodes t r :
  reduceMaybeOptionalChains fuel nodes t = Some r → fuel ≤ fuel' →
  reduceMaybeOptionalChains fuel' nodes t = Some r.
Proof.
  unfold reduceMaybeOptionalChains. destruct (_ =? _)%nat; [done|].
  apply reduce_loop_mono.
Qed.

(** A set whose members are all stable is a fixed point. *)
Lemma reduce_fixed_point fuel nodes t :
  wf_tree t → valid_set t nodes →
  (∀ x, x ∈ nodes → stable t nodes x) → length nodes < fuel →
  reduceMaybeOptionalChains fuel nodes t = Some (nodes, t).
Proof.
  intros W V St Hl. unfold reduceMaybeOptionalChains, Set_filter.
  set (ocn := filter (fun x => hasOptional (deref t x) = true) nodes).
  destruct (length ocn =? 0)%nat; [done|].
  destruct fuel as [|fuel]; [lia|]. cbn [reduce_loop].
  edestruct (reduce_for_stable (S fuel)) as (s' & H & Hc & Ht & Hn);
    [| | |shelve|rewrite H]; simpl.
  - done.
  - by apply valid_set_filter.
  - intros x [_ Hx]%list_elem_of_filter. by apply St.
  - simpl in *. rewrite Hc, Ht, Hn. done.
  Unshelve.
  simpl. pose proof (length_filter (fun x => hasOptional (deref t x) = true) nodes).
  fold ocn in H. lia.
Qed.

(** *** Optional collapse *)

Lemma example_tree_wf : wf_tree example_tree.
Proof.
  unfold example_tree.
  destruct (getOrCreateProperty Tree_new dep_a_b) as [t1 r1] eqn:H1.
  destruct (getOrCreateProperty_spec _ _ _ _ wf_tree_new H1) as (W1 & _).
  simpl. destruct (getOrCreateProperty t1 dep_a_optb_c) as [t2 r2] eqn:H2.
  by destruct (getOrCreateProperty_spec _ _ _ _ W1 H2) as (W2 & _).
Qed.

Lemma canon_path_no_optional t K c es :
  existsb optional es = false → canon_path t K c es = es.
Proof.
  revert c. induction es as [|e es IH]; intros c; simpl; [done|].
  intros [He Hes]%orb_false_iff. rewrite He. simpl.
  destruct (child_of t c e); [by rewrite IH|done].
Qed.

(** The re-walk of [q?.x.r] from the root, when the node of [q] is known to
    be non-null and neither [q] nor [r] has an optional segment. *)
Lemma canon_path_collapse t K c q x r nq :
  find_path t c q = Some nq → nq ∈ K →
  existsb optional q = false → existsb optional r = false →
  canon_path t K c (q ++ entry x true :: r) = q ++ entry x false :: r.
Proof.
  intros Hq Hk Hoq Hor. revert c Hq Hoq.
  induction q as [|e q IH]; intros c Hq Hoq; simpl in *.
  - injection Hq as ->. rewrite (proj2 (Set_has_true K nq) Hk). simpl.
    unfold unconditional. simpl. fold (entry x false).
    destruct (child_of t nq (entry x false)); [|done].
    by rewrite canon_path_no_optional.
  - apply orb_false_iff in Hoq as [He Hoq]. rewrite He. simpl.
    destruct (child_of t c e) as [c1|]; simpl in *; [|done].
    by rewrite (IH c1).
Qed.

Lemma unrewritten_collapse t K c q x r nq :
  find_path t c q = Some nq → nq ∈ K →
  unrewritten t K c (q ++ entry x true :: r) = false.
Proof.
  intros Hq Hk. revert c Hq. induction q as [|e q IH]; intros c Hq; simpl in *.
  - injection Hq as ->. by rewrite (proj2 (Set_has_true K nq) Hk).
  - destruct (child_of t c e) as [c1|]; simpl in *; [|done].
    rewrite (IH c1 Hq). apply andb_false_r.
Qed.

(** In a pass that still has the node of [q?.x.r] ahead, or already has the
    node of [q.x.r] in the set, the latter is in the set after the step. *)
Lemma reduce_body_collapse s original rest a q x r nq o :
  reduce_inv s → rs_pending s = original :: rest →
  existsb optional q = false → existsb optional r = false →
  find_dep (rs_tree s) a q = Some nq → nq ∈ rs_knownNonNulls s →
  find_dep (rs_tree s) a (q ++ entry x true :: r) = Some o →
  (o ∈ rs_pending s
   ∨ ∃ o', find_dep (rs_tree s) a (q ++ entry x false :: r) = Some o'
           ∧ o' ∈ rs_nodes s) →
  let s' := reduce_body s original rest in
  o ∈ rs_pending s'
  ∨ ∃ o', find_dep (rs_tree s') a (q ++ entry x false :: r) = Some o'
          ∧ o' ∈ rs_nodes s'.
Proof.
  intros I Hp Hoq Hor Hq Hk Hr Hd.
  destruct (reduce_body_spec s original rest I Hp) as (_ & E1 & _ & _ & _ & _ & P1 & _).
  pose proof (ri_wf _ I) as W.
  destruct (decide (original = o)) as [->|Hne].
  - right. unfold reduce_body in *.
    destruct (rewalk (rs_tree s) (rs_knownNonNulls s) o) as [t' curr] eqn:Hw.
    destruct (find_dep_node _ _ _ _ W Hr) as (n & Hn & In & Pn).
    destruct (rewalk_spec _ _ _ _ _ _ W Hn Hw)
      as (W' & E' & r0 & rn & Hr0 & _ & Hrn & Irn & Prn & _).
    rewrite In in Hr0.
    pose proof (find_dep_ext _ _ _ _ _ W E' Hq) as Hq'.
    apply find_dep_root in Hq' as (r0' & Hr0' & Hq').
    rewrite (ext_roots _ _ E' _ _ Hr0) in Hr0'. injection Hr0' as <-.
    rewrite Pn, (canon_path_collapse _ _ _ _ _ _ _ Hq' Hk Hoq Hor) in Prn.
    assert (Hcurr : curr ≠ o).
    { intros ->. destruct (ext_node _ _ E' o n Hn) as (n' & Hn' & Fn & _).
      assert (rn = n') as -> by congruence. rewrite Fn, Pn in Prn.
      apply app_inv_head in Prn. by injection Prn. }
    rewrite bool_decide_eq_true_2 by done. simpl. exists curr. split.
    + pose proof (wf_self _ W' curr rn Hrn) as Hs.
      by rewrite Prn, Irn, In in Hs.
    + apply elem_of_Set_add. by right.
  - destruct Hd as [Hd|(o' & Ho' & Hin)].
    + left. rewrite Hp in Hd. apply elem_of_cons in Hd as [->|Hd]; [done|].
      unfold reduce_body. destruct (rewalk _ _ _) as [t' curr].
      case_bool_decide; simpl; [|done].
      destruct (Set_has _ curr); [done|]. apply elem_of_app. by left.
    + right. exists o'. split; [by apply (find_dep_ext (rs_tree s))|].
      apply P1; [done|].
      destruct (find_dep_node _ _ _ _ W Ho') as (n' & Hn' & _ & Pn').
      rewrite (deref_lookup _ _ _ Hn'), (wf_hasOptional _ W _ _ Hn'), Pn'.
      rewrite existsb_app. simpl. by rewrite Hoq, Hor.
Qed.

Lemma reduce_for_collapse fuel s s' a q x r nq o :
  reduce_inv s → reduce_for fuel s = Some s' →
  existsb optional q = false → existsb optional r = false →
  find_dep (rs_tree s) a q = Some nq → nq ∈ rs_knownNonNulls s →
  find_dep (rs_tree s) a (q ++ entry x true :: r) = Some o →
  (o ∈ rs_pending s
   ∨ ∃ o', find_dep (rs_tree s) a (q ++ entry x false :: r) = Some o'
           ∧ o' ∈ rs_nodes s) →
  ∃ o', find_dep (rs_tree s') a (q ++ entry x false :: r) = Some o'
        ∧ o' ∈ rs_nodes s'.
Proof.
  revert s. induction fuel as [|fuel IH]; intros s I; simpl; [done|].
  destruct (rs_pending s) as [|original rest] eqn:Hp.
  { intros [= ->] _ _ _ _ _ [Hd|Hd]; [by apply elem_of_nil in Hd|done]. }
  intros H Hoq Hor Hq Hk Hr Hd.
  destruct (reduce_body_spec s original rest I Hp) as (I1 & E1 & _ & _ & _ & K1 & _).
  apply (IH _ I1 H Hoq Hor).
  - apply (find_dep_ext (rs_tree s)); [apply I|done|done].
  - by apply K1.
  - apply (find_dep_ext (rs_tree s)); [apply I|done|done].
  - rewrite <-Hp in Hd.
    apply (reduce_body_collapse s original rest a q x r nq o I Hp Hoq Hor Hq Hk Hr Hd).
Qed.

Lemma canonicalizer_bound fuel nodes t :
  wf_tree t → valid_set t nodes → reduce_bound t nodes < fuel →
  ∃ nodes' t', reduceMaybeOptionalChains fuel nodes t = Some (nodes', t').
Proof.
  intros W V Hb.
  destruct (reduceMaybeOptionalChains_spec fuel nodes t W V Hb)
    as (nodes' & t' & H & _).
  by exists nodes', t'.
Qed.

(** C7. The optional-chain canonicalizer terminates on every finite set of
    nodes of a well-formed trie: with fuel above the sum, over the set, of the
    members' optional segments plus one each, its repeat-until-no-change loop
    returns. *)
Theorem canonicalizer_terminates fuel nodes t :
  wf_tree t → valid_set t nodes → reduce_bound t nodes < fuel →
  ∃ nodes' t', reduceMaybeOptionalChains fuel nodes t = Some (nodes', t').
Proof. apply canonicalizer_bound. Qed.

Lemma canonicalizer_terminates_witness :
  ∃ nodes' t', reduceMaybeOptionalChains 10 [0; 2; 3] example_tree = Some (nodes', t').
Proof.
  apply (canonicalizer_terminates 10 [0; 2; 3] example_tree).
  - apply example_tree_wf.
  - vm_compute. repeat constructor.
  - vm_compute. lia.
Defined.

(** The canonicalizer's result does not depend on the fuel, and it is a fixed
    point of the pass. *)
Lemma reduceMaybeOptionalChains_result fuel nodes t nodes' t' :
  wf_tree t → valid_set t nodes →
  reduceMaybeOptionalChains fuel nodes t = Some (nodes', t') →
  wf_tree t' ∧ extends t t' ∧ valid_set t' nodes'
  ∧ (∀ x, x ∈ nodes → hasOptional (deref t x) = false → x ∈ nodes')
  ∧ (∀ x, x ∈ nodes' → stable t' nodes' x).
Proof.
  intros W V H.
  destruct (reduceMaybeOptionalChains_spec (Nat.max fuel (S (reduce_bound t nodes)))
              nodes t W V ltac:(lia))
    as (n2 & t2 & H2 & W2 & E2 & V2 & P2 & K & K1 & K2 & K3).
  rewrite (reduceMaybeOptionalChains_mono _ _ _ _ _ H) in H2 by lia.
  injection H2 as <- <-. split_and!; try done.
  intros x Hx. apply (stable_antitone _ K); [done| |done|by apply K3].
  apply (valid_set_elem _ _ _ V2 Hx).
Qed.

(** C2, as the code has it. When the candidate set contains the node of
    the base of an optional segment and the node of the optionally-accessed
    path (the node of [a] and the node of [a?.b.c]; likewise the node of
    [a.b] and the node of [a.b?.c]), the canonicalizer replaces the latter by
    the node of the unconditional path [a.b.c]; running it again on the
    result changes nothing. Here [q] is the path of the base and [r] the path
    after the optional segment [x]; neither has an optional segment. *)
Theorem optional_collapse fuel nodes t a q x r nq o :
  wf_tree t → valid_set t nodes →
  existsb optional q = false → existsb optional r = false →
  find_dep t a q = Some nq → nq ∈ nodes →
  find_dep t a (q ++ entry x true :: r) = Some o → o ∈ nodes →
  reduce_bound t nodes < fuel →
  ∃ nodes' t' o',
    reduceMaybeOptionalChains fuel nodes t = Some (nodes', t')
    ∧ find_dep t' a (q ++ entry x false :: r) = Some o'
    ∧ o' ∈ nodes' ∧ (o ∉ nodes') ∧ nq ∈ nodes'
    ∧ ∀ fuel2, length nodes' < fuel2 →
        reduceMaybeOptionalChains fuel2 nodes' t' = Some (nodes', t').
Proof.
  intros W V Hoq Hor Hq Hin Hr Hrin Hb.
  destruct (find_dep_node _ _ _ _ W Hr) as (n & Hn & In & Pn).
  destruct (find_dep_node _ _ _ _ W Hq) as (na & Hna & Ina & Pna).
  assert (Hopt : hasOptional (deref t o) = true).
  { rewrite (deref_lookup _ _ _ Hn), (wf_hasOptional _ W _ _ Hn), Pn.
    rewrite existsb_app. simpl. apply orb_true_r. }
  set (ocn := filter (fun y => hasOptional (deref t y) = true) nodes).
  assert (Hocn : o ∈ ocn) by by apply list_elem_of_filter.
  set (s0 := {| rs_tree := t; rs_nodes := nodes; rs_knownNonNulls := nodes;
                rs_visited := []; rs_pending := ocn; rs_changed := false |}).
  assert (I0 : reduce_inv s0).
  { split; simpl; try done.
    - apply Forall_nil_2.
    - by apply valid_set_filter.
    - intros y Hy Ho. by apply list_elem_of_filter.
    - intros _ y []%elem_of_nil. }
  assert (Hm : set_weight t ocn + length ocn < fuel).
  { unfold reduce_bound in Hb.
    pose proof (set_weight_filter t nodes (fun y => hasOptional (deref t y) = true)).
    pose proof (length_filter (fun y => hasOptional (deref t y) = true) nodes).
    fold ocn in H, H0. lia. }
  destruct (reduce_loop_spec fuel t nodes nodes ocn I0 Hm)
    as (nodes' & t' & Hl & W' & E' & V' & P' & (K & K1 & K2 & K3) & s1 & Hs1 & E1 & P1).
  destruct (reduce_for_spec fuel s0 I0) as (s1' & Hs1' & I1 & _).
  { unfold pending_measure. simpl. lia. }
  assert (s1' = s1) as -> by (unfold s0 in Hs1'; congruence).
  destruct (reduce_for_collapse fuel s0 s1 a q x r nq o I0 Hs1 Hoq Hor Hq Hin Hr
              (or_introl Hocn)) as (o' & Ho' & Hin').
  pose proof (ri_wf _ I1) as W1.
  exists nodes', t', o'. split_and!.
  - unfold reduceMaybeOptionalChains, Set_filter. fold ocn.
    destruct ocn as [|? ?]; [by apply elem_of_nil in Hocn|]. done.
  - by apply (find_dep_ext (rs_tree s1)).
  - apply P1; [done|].
    destruct (find_dep_node _ _ _ _ W1 Ho') as (n' & Hn' & _ & Pn').
    rewrite (deref_lookup _ _ _ Hn'), (wf_hasOptional _ W1 _ _ Hn'), Pn'.
    rewrite existsb_app. simpl. by rewrite Hoq, Hor.
  - intros Hbad. specialize (K3 o Hbad).
    destruct (ext_node _ _ E' o n Hn) as (n2 & Hn2 & Fn & _).
    pose proof (find_dep_ext _ _ _ _ _ W E' Hq) as Hq'.
    apply find_dep_root in Hq' as (r0 & Hr0 & Hq').
    pose proof Hr0 as Hroot'. rewrite <-In, <-Fn in Hroot'.
    apply (stable_unrewritten _ _ _ _ _ W' Hn2 Hroot') in K3.
    rewrite Fn, Pn in K3.
    by rewrite (unrewritten_collapse _ _ _ _ _ _ _ Hq' (K1 _ Hin)) in K3.
  - apply P'; [done|].
    by rewrite (deref_lookup _ _ _ Hna), (wf_hasOptional _ W _ _ Hna), Pna.
  - intros fuel2 Hf. apply reduce_fixed_point; try done.
    intros y Hy. apply (stable_antitone _ K); [done| |done|by apply K3].
    apply (valid_set_elem _ _ _ V' Hy).
Qed.

Lemma optional_collapse_witness :
  ∃ nodes' t' o',
    reduceMaybeOptionalChains 10 [0; 3] example_tree = Some (nodes', t')
    ∧ find_dep t' 1 ([] ++ entry "b" false :: [entry "c" false]) = Some o'
    ∧ o' ∈ nodes' ∧ (3 ∉ nodes') ∧ 0 ∈ nodes'
    ∧ ∀ fuel2, length nodes' < fuel2 →
        reduceMaybeOptionalChains fuel2 nodes' t' = Some (nodes', t').
Proof.
  apply (optional_collapse 10 [0; 3] example_tree 1 [] "b" [entry "c" false] 0 3).
  - apply example_tree_wf.
  - vm_compute. repeat constructor.
  - reflexivity.
  - reflexivity.
  - vm_compute. reflexivity.
  - apply list_elem_of_here.
  - vm_compute. reflexivity.
  - apply list_elem_of_further, list_elem_of_here.
  - vm_compute. lia.
Defined.

(** With the optional segment after [a.b]: from the nodes of [a.b] (node 1)
    and [a.b?.c] (node 2) the result has [a.b] and the new node 3 of
    [a.b.c]. *)
Example optional_collapse_after_a_b :
  (fun r : list nat * Tree => (r.1, path (fullPath (deref r.2 3))))
    <$> reduceMaybeOptionalChains 10 [1; 2] example_tree_optc
  = Some ([1; 3], [entry "b" false; entry "c" false]).
Proof. vm_compute. reflexivity. Qed.

(** C2 as stated fails: from the set of the nodes of [a.b] (node 1) and
    [a?.b.c] (node 3), the canonicalizer returns the same set, and the tree
    has no node for [a.b.c]. *)
Lemma optional_collapse_needs_base :
  find_dep example_tree 1 [entry "b" false] = Some 1
  ∧ find_dep example_tree 1 [entry "b" true; entry "c" false] = Some 3
  ∧ reduceMaybeOptionalChains 10 [1; 3] example_tree = Some ([1; 3], example_tree)
  ∧ find_dep example_tree 1 [entry "b" false; entry "c" false] = None.
Proof. vm_compute. done. Qed.

(** C3, as the code has it. The body of the pass re-walks the path of
    [original] from the root, rewriting a segment to unconditional exactly
    when it is optional and the node of the accumulated prefix is in the
    known-non-null set ([canon_path]). If the re-walk ends at another node,
    that node replaces [original] in the candidate set and is added to the
    known-non-null set, which keeps [original], and the pass is marked as
    changed; otherwise nothing changes. The set the canonicalizer returns is
    one that a further pass leaves unchanged. *)
Theorem canonicalizer_pass_refines s original rest fuel nodes t nodes' t' :
  wf_tree (rs_tree s) → original < length (heap (rs_tree s)) →
  wf_tree t → valid_set t nodes →
  reduceMaybeOptionalChains fuel nodes t = Some (nodes', t') →
  let K := rs_knownNonNulls s in
  let origin := fullPath (deref (rs_tree s) original) in
  let t1 := (rewalk (rs_tree s) K original).1 in
  let currNode := (rewalk (rs_tree s) K original).2 in
  let s' := reduce_body s original rest in
  (∃ r0, roots t1 !! id (identifier origin) = Some r0
         ∧ identifier (fullPath (deref t1 currNode)) = identifier origin
         ∧ path (fullPath (deref t1 currNode)) = canon_path t1 K r0 (path origin)
         ∧ find_path t1 r0 (canon_path t1 K r0 (path origin)) = Some currNode)
  ∧ (currNode ≠ original →
       (∀ x, x ∈ rs_nodes s' ↔ (x ∈ rs_nodes s ∧ x ≠ original) ∨ x = currNode)
       ∧ (∀ x, x ∈ rs_knownNonNulls s' ↔ x ∈ K ∨ x = currNode)
       ∧ rs_changed s' = true)
  ∧ (currNode = original →
       rs_nodes s' = rs_nodes s ∧ rs_knownNonNulls s' = K
       ∧ rs_changed s' = rs_changed s ∧ rs_tree s' = rs_tree s)
  ∧ (∀ x, x ∈ nodes' → rewalk t' nodes' x = (t', x)).
Proof.
  intros Ws Ho W V H. cbv zeta.
  destruct (lookup_lt_is_Some_2 _ _ Ho) as [n Hn].
  rewrite (deref_lookup _ _ _ Hn).
  destruct (rewalk (rs_tree s) (rs_knownNonNulls s) original) as [t1 curr] eqn:Hw.
  destruct (rewalk_spec _ _ _ _ _ _ Ws Hn Hw)
    as (W1 & E1 & r0 & rn & Hr0 & Hp & Hrn & Irn & Prn & _).
  simpl. split_and!.
  - exists r0. rewrite (deref_lookup _ _ _ Hrn).
    split_and!; [by apply (ext_roots _ _ E1)|done|done|].
    pose proof (wf_self _ W1 _ _ Hrn) as Hs.
    apply find_dep_root in Hs as (r0' & Hr0' & Hs).
    rewrite Irn in Hr0'. rewrite (ext_roots _ _ E1 _ _ Hr0) in Hr0'.
    injection Hr0' as <-. by rewrite <-Prn.
  - intros Hne. unfold reduce_body. rewrite Hw.
    rewrite bool_decide_eq_true_2 by done. simpl. split_and!; [| |done].
    + intros x. rewrite elem_of_Set_add, elem_of_Set_delete. done.
    + intros x. by rewrite elem_of_Set_add.
  - intros ->. unfold reduce_body. rewrite Hw.
    rewrite bool_decide_eq_false_2 by (intros ?; done). simpl.
    split_and!; try done. by apply (rewalk_same _ _ _ _ _ Ws Hn Hw).
  - by destruct (reduceMaybeOptionalChains_result _ _ _ _ _ W V H) as (_ & _ & _ & _ & St).
Qed.

Lemma canonicalizer_pass_refines_witness :
  rs_changed (reduce_body example_state 3 []) = true.
Proof.
  destruct (canonicalizer_pass_refines example_state 3 [] 10 [0; 3] example_tree
              (reduceMaybeOptionalChains_fst 10 [0; 3] example_tree)
              (reduceMaybeOptionalChains_snd 10 [0; 3] example_tree))
    as (_ & Hrep & _).
  - apply example_tree_wf.
  - vm_compute. lia.
  - apply example_tree_wf.
  - vm_compute. repeat constructor.
  - vm_compute. reflexivity.
  - apply Hrep. vm_compute. lia.
Defined.

(** C3 as stated fails: after the step that replaces [a?.b.c] (node 3) by
    [a.b.c] (node 4) in the candidate set, the known-non-null set still has
    node 3. *)
Lemma canonicalizer_keeps_original_known :
  (rewalk example_tree [0; 3] 3).2 = 4
  ∧ rs_nodes (reduce_body example_state 3 []) = [0; 4]
  ∧ rs_knownNonNulls (reduce_body example_state 3 []) = [0; 3; 4].
Proof. vm_compute. done. Qed.

(** ** The CFG fixed-point propagator *)

(** *** More fuel does not change a result *)

Lemma refines_refl {A} (x : outcome A) : refines x x.
Proof. by intros _. Qed.

Lemma refines_bind {A B} (x y : outcome A) (f g : A → outcome B) :
  refines x y → (∀ a, x = Ok a → refines (f a) (g a)) →
  refines (x ≫= f) (y ≫= g).
Proof.
  intros Hxy Hfg. destruct x as [a|e|]; unfold refines in *; simpl.
  - rewrite Hxy by done. simpl. by apply Hfg.
  - rewrite Hxy by done. done.
  - done.
Qed.

Lemma refines_of_option {A} (x y : option A) :
  (∀ a, x = Some a → y = Some a) → refines (of_option x) (of_option y).
Proof.
  intros H. destruct x as [a|]; unfold refines; simpl; [|done].
  by rewrite (H a eq_refl).
Qed.

Lemma visit_all_refines v v' xs changed st :
  (∀ x st, refines (v x st) (v' x st)) →
  refines (visit_all v xs changed st) (visit_all v' xs changed st).
Proof.
  intros Hv. revert changed st. induction xs as [|x xs IH]; intros changed st;
    cbn [visit_all]; [apply refines_refl|].
  apply refines_bind; [apply Hv|]. intros [c st'] _. apply IH.
Qed.

Lemma unless_visited_refines v v' x st :
  refines (v x st) (v' x st) →
  refines (unless_visited v x st) (unless_visited v' x st).
Proof. unfold unless_visited. case_decide; [intros; apply refines_refl|done]. Qed.

Lemma merge_block_mono fuel fuel' nodeId neighbors changed st :
  fuel ≤ fuel' →
  refines (merge_block fuel nodeId neighbors changed st)
          (merge_block fuel' nodeId neighbors changed st).
Proof.
  intros Hle. unfold merge_block.
  apply refines_bind; [apply refines_refl|]. intros sets _.
  apply refines_bind; [apply refines_refl|]. intros info _.
  apply refines_bind; [|intros; apply refines_refl].
  apply refines_of_option. intros r Hr.
  by apply (reduceMaybeOptionalChains_mono fuel).
Qed.

Lemma recursivelyPropagateNonNull_mono fuel fuel' succs d n st :
  fuel ≤ fuel' →
  refines (recursivelyPropagateNonNull fuel succs d n st)
          (recursivelyPropagateNonNull fuel' succs d n st).
Proof.
  revert fuel' n st. induction fuel as [|fuel IH]; intros fuel' n st Hle.
  { by intros []. }
  destruct fuel' as [|fuel']; [lia|]. cbn [recursivelyPropagateNonNull].
  case_decide; [apply refines_refl|].
  destruct (st_nodes (set_status n active st) !! n) as [node|];
    [|apply refines_refl].
  apply refines_bind.
  - apply visit_all_refines. intros x st0. apply unless_visited_refines, IH. lia.
  - intros [c st'] _. by apply merge_block_mono.
Qed.

Lemma sweep_both_mono fuel fuel' fn succs st :
  fuel ≤ fuel' →
  refines (sweep_both fuel fn succs st) (sweep_both fuel' fn succs st).
Proof.
  intros Hle. unfold sweep_both.
  apply refines_bind.
  { apply visit_all_refines. intros. by apply recursivelyPropagateNonNull_mono. }
  intros [c st1] _. apply refines_bind; [|intros; apply refines_refl].
  apply visit_all_refines. intros. by apply recursivelyPropagateNonNull_mono.
Qed.

Lemma fixpoint_loop_mono fuel fuel' fn succs remaining st :
  fuel ≤ fuel' →
  refines (fixpoint_loop fuel fn succs remaining st)
          (fixpoint_loop fuel' fn succs remaining st).
Proof.
  intros Hle. revert st. induction remaining as [|k IH]; intros st;
    cbn [fixpoint_loop]; [apply refines_refl|].
  apply refines_bind; [by apply sweep_both_mono|].
  intros [[] st'] _; [apply IH|apply refines_refl].
Qed.

Lemma propagateNonNull_mono fuel fuel' fn nodes t :
  fuel ≤ fuel' →
  refines (propagateNonNull fuel fn nodes t) (propagateNonNull fuel' fn nodes t).
Proof.
  intros Hle. unfold propagateNonNull.
  apply refines_bind; [by apply fixpoint_loop_mono|]. intros; apply refines_refl.
Qed.

Lemma drain_queue_mono fuel fuel' uses queued refs r :
  drain_queue fuel uses queued refs = Some r → fuel ≤ fuel' →
  drain_queue fuel' uses queued refs = Some r.
Proof.
  revert fuel' queued refs. induction fuel as [|fuel IH];
    intros fuel' queued refs; simpl; [done|].
  intros H Hle. destruct fuel' as [|fuel']; [lia|]. simpl.
  destruct queued; [done|]. apply IH; [done|lia].
Qed.

Lemma drain_dependencies_mono fuel fuel' uses deps refs r :
  drain_dependencies fuel uses deps refs = Some r → fuel ≤ fuel' →
  drain_dependencies fuel' uses deps refs = Some r.
Proof.
  intros H Hle. revert refs H. induction deps as [|dp deps IH]; intros refs;
    simpl; [done|].
  destruct (drain_queue fuel uses _ refs) as [refs1|] eqn:H1; simpl; [|done].
  rewrite (drain_queue_mono _ _ _ _ _ _ H1 Hle). simpl. apply IH.
Qed.

Lemma collect_rvalues_instr_mono fuel fuel' acc instr r :
  collect_rvalues_instr fuel acc instr = Some r → fuel ≤ fuel' →
  collect_rvalues_instr fuel' acc instr = Some r.
Proof.
  unfold collect_rvalues_instr. destruct acc as [uses refs].
  destruct (instr_value instr); try done.
  destruct (drain_dependencies fuel uses _ refs) as [refs1|] eqn:H1; simpl; [|done].
  intros H Hle. by rewrite (drain_dependencies_mono _ _ _ _ _ _ H1 Hle).
Qed.

Lemma collectFunctionExpressionRValues_mono fuel fuel' fn r :
  collectFunctionExpressionRValues fuel fn = Some r → fuel ≤ fuel' →
  collectFunctionExpressionRValues fuel' fn = Some r.
Proof.
  unfold collectFunctionExpressionRValues. intros H Hle.
  assert (G : ∀ l acc acc',
    foldl_option (collect_rvalues_instr fuel) acc l = Some acc' →
    foldl_option (collect_rvalues_instr fuel') acc l = Some acc').
  { induction l as [|i l IH]; intros acc acc'; simpl; [done|].
    destruct (collect_rvalues_instr fuel acc i) as [a1|] eqn:H1; simpl; [|done].
    rewrite (collect_rvalues_instr_mono _ _ _ _ _ H1 Hle). simpl. apply IH. }
  destruct (foldl_option (collect_rvalues_instr fuel) _ _) as [acc'|] eqn:Hf;
    [|done].
  by rewrite (G _ _ _ Hf).
Qed.

Lemma collectHoistablePropertyLoads_mono fuel fuel' fn temporaries optionals :
  fuel ≤ fuel' →
  refines (collectHoistablePropertyLoads fuel fn temporaries optionals)
          (collectHoistablePropertyLoads fuel' fn temporaries optionals).
Proof.
  intros Hle. unfold collectHoistablePropertyLoads.
  apply refines_bind.
  { apply refines_of_option. intros r Hr.
    by apply (collectFunctionExpressionRValues_mono fuel). }
  intros refs _. destruct (collectNonNullsInBlocks _ _ _ _) as [t1 nodes].
  apply refines_bind; [by apply propagateNonNull_mono|].
  intros; apply refines_refl.
Qed.

(** The result of that run: scope 4 maps to block 1, whose fact set is the
    node of [props], handed on from block 0. *)
Example scoped_fn_result :
  table_sets (collectHoistablePropertyLoads 5 scoped_fn ∅ ∅)
  = Some [(4%N, Some [0])].
Proof. vm_compute. reflexivity. Qed.

(** *** What a visit preserves *)

Lemma step_rel_refl st : step_rel st st.
Proof. split; try done. intros k s H1 H2. congruence. Qed.

Lemma step_rel_trans st1 st2 st3 :
  step_rel st1 st2 → step_rel st2 st3 → step_rel st1 st3.
Proof.
  intros [B1 K1 S1 N1] [B2 K2 S2 N2]. split.
  - intros k. by rewrite B2, B1.
  - intros k [s Hs]. rewrite K2; [apply K1; eauto|]. rewrite (S1 _ _ Hs). eauto.
  - intros k s Hs. by apply S2, S1.
  - intros k s Hk Hs. destruct (traversalState st2 !! k) as [s2|] eqn:H2.
    + rewrite (S2 _ _ H2) in Hs. injection Hs as <-. by apply (N1 k).
    + by apply (N2 k).
Qed.

Lemma step_rel_nodes_None st st' m :
  step_rel st st' → st_nodes st' !! m = None → st_nodes st !! m = None.
Proof.
  intros R H. pose proof (sr_blocks _ _ R m) as B. rewrite H in B.
  by destruct (st_nodes st !! m).
Qed.

Lemma step_rel_nodes_Some st st' m :
  step_rel st st' → is_Some (st_nodes st !! m) → is_Some (st_nodes st' !! m).
Proof.
  intros R [i H]. pose proof (sr_blocks _ _ R m) as B. rewrite H in B.
  by destruct (st_nodes st' !! m).
Qed.

Lemma neighbors_of_block succs d k info info' :
  block info = block info' →
  neighbors_of succs d k info = neighbors_of succs d k info'.
Proof. unfold neighbors_of. by intros ->. Qed.

Lemma neighbor_sets_done st neighbors :
  visited_ok st → neighbor_sets st neighbors = Ok (done_neighbor_sets st neighbors).
Proof.
  intros Hv. induction neighbors as [|n nb IH]; [done|].
  cbn [neighbor_sets done_neighbor_sets omap list_omap]. case_decide as Hd.
  - destruct (Hv n) as [info Hi]; [by rewrite Hd|].
    rewrite Hi, IH. simpl. done.
  - by rewrite IH.
Qed.

Lemma done_neighbor_sets_valid st t neighbors :
  (∀ k info, st_nodes st !! k = Some info →
     valid_set t (assumedNonNullObjects info)) →
  Forall (valid_set t) (done_neighbor_sets st neighbors).
Proof.
  intros Hs. unfold done_neighbor_sets. apply Forall_forall.
  intros s [n [_ Hn]]%list_elem_of_omap. case_decide; [|done].
  destruct (st_nodes st !! n) as [info|] eqn:Hi; [|done].
  injection Hn as <-. by apply (Hs n).
Qed.

Lemma valid_set_Set_union t a b :
  valid_set t a → valid_set t b → valid_set t (Set_union a b).
Proof.
  intros Ha Hb. unfold valid_set. rewrite Forall_forall.
  intros x [Hx|Hx]%elem_of_Set_union;
    [apply (valid_set_elem _ _ _ Ha Hx)|apply (valid_set_elem _ _ _ Hb Hx)].
Qed.

Lemma valid_set_Set_intersect t sets :
  Forall (valid_set t) sets → valid_set t (Set_intersect sets).
Proof.
  intros Hs. destruct sets as [|first rest]; [apply Forall_nil_2|].
  apply Forall_cons in Hs as [Hf _]. unfold valid_set. rewrite Forall_forall.
  intros x [Hx _]%elem_of_Set_intersect. apply (valid_set_elem _ _ _ Hf Hx).
Qed.

(** The shape of a successful merge. *)
Lemma merge_block_Ok fuel n neighbors changed st c st' :
  visited_ok st →
  merge_block fuel n neighbors changed st = Ok (c, st') →
  ∃ info merged t',
    st_nodes st !! n = Some info
    ∧ reduceMaybeOptionalChains fuel
        (Set_union (assumedNonNullObjects info)
                   (Set_intersect (done_neighbor_sets st neighbors)))
        (st_tree st) = Some (merged, t')
    ∧ c = changed || negb (Set_equal (assumedNonNullObjects info) merged)
    ∧ st' = {| traversalState := <[n := done]> (traversalState st);
               st_nodes := <[n := {| block := block info;
                                      assumedNonNullObjects := merged |}]>
                             (st_nodes st);
               st_tree := t' |}.
Proof.
  intros Hv. unfold merge_block. rewrite (neighbor_sets_done _ _ Hv). simpl.
  destruct (st_nodes st !! n) as [info|]; simpl; [|done].
  destruct (reduceMaybeOptionalChains fuel _ _) as [[merged t']|] eqn:Hr; simpl;
    [|done].
  intros [= <- <-]. by exists info, merged, t'.
Qed.

Lemma merge_block_no_throw fuel n neighbors changed st e :
  visited_ok st → is_Some (st_nodes st !! n) →
  merge_block fuel n neighbors changed st ≠ Throw e.
Proof.
  intros Hv [info Hi]. unfold merge_block.
  rewrite (neighbor_sets_done _ _ Hv), Hi. simpl.
  by destruct (reduceMaybeOptionalChains fuel _ _) as [[merged t']|].
Qed.

Lemma visit_all_ok w succs d v xs changed st :
  visit_ok w succs d v → prop_inv w succs d st →
  match visit_all v xs changed st with
  | Ok (_, st') =>
      prop_inv w succs d st' ∧ step_rel st st'
      ∧ (∀ x, x ∈ xs → is_Some (traversalState st' !! x))
      ∧ (w → extends (st_tree st) (st_tree st'))
  | Throw e =>
      ∃ m, e = invariant_error (bad_node_reason m d) ∧ st_nodes st !! m = None
  | OutOfFuel => True
  end.
Proof.
  intros Hv. revert changed st. induction xs as [|x xs IH]; intros changed st I;
    cbn [visit_all].
  - split_and!; [done|apply step_rel_refl| |intros; apply extends_refl].
    intros x []%elem_of_nil.
  - specialize (Hv x st I). destruct (v x st) as [[c1 st1]|e|]; simpl; [|done..].
    destruct Hv as (I1 & R1 & Hx & E1). specialize (IH (changed || c1) st1 I1).
    destruct (visit_all v xs (changed || c1) st1) as [[c2 st2]|e|]; [|..|done].
    + destruct IH as (I2 & R2 & Hxs & E2). split_and!; [done| | |].
      * by eapply step_rel_trans.
      * intros y [->|Hy]%elem_of_cons; [|by apply Hxs].
        destruct Hx as [s Hs]. rewrite (sr_status _ _ R2 _ _ Hs). eauto.
      * intros Hw. eapply extends_trans; eauto.
    + destruct IH as (m & -> & Hm). exists m. split; [done|].
      by apply (step_rel_nodes_None st st1).
Qed.

Lemma unless_visited_ok w succs d v :
  visit_ok w succs d v → visit_ok w succs d (unless_visited v).
Proof.
  intros Hv x st I. unfold unless_visited. case_decide; [|by apply Hv].
  split_and!; [done|apply step_rel_refl|done|intros; apply extends_refl].
Qed.

Lemma recursivelyPropagateNonNull_ok w succs d fuel :
  visit_ok w succs d (recursivelyPropagateNonNull fuel succs d).
Proof.
  induction fuel as [|fuel IH]; intros n st I; [done|].
  cbn [recursivelyPropagateNonNull]. case_decide as Hin.
  { split_and!; [done|apply step_rel_refl|done|intros; apply extends_refl]. }
  assert (Hnone : traversalState st !! n = None).
  { destruct (traversalState st !! n) eqn:E; [|done]. destruct Hin. eauto. }
  destruct I as (Hv & Hc & Hw).
  change (st_nodes (set_status n active st)) with (st_nodes st).
  destruct (st_nodes st !! n) as [node|] eqn:Hnode; [|by exists n].
  set (st1 := set_status n active st).
  set (neighbors := neighbors_of succs d n node).
  assert (I1 : prop_inv w succs d st1).
  { split_and!.
    - intros k. unfold st1. simpl. rewrite lookup_insert. case_decide as Hk.
      + subst k. by rewrite Hnode.
      + apply Hv.
    - intros k info. unfold st1. simpl. rewrite lookup_insert.
      case_decide as Hk; [done|]. intros Hd Hi p Hp.
      destruct (Hc k info Hd Hi p Hp) as [s Hs].
      rewrite lookup_insert. case_decide; eauto.
    - intros Hw'. destruct (Hw Hw') as [Wt Ws]. by split. }
  pose proof (visit_all_ok w succs d _ neighbors false st1
                (unless_visited_ok _ _ _ _ IH) I1) as Hall.
  destruct (visit_all _ neighbors false st1) as [[c2 st2]|e|]; simpl; [|done..].
  destruct Hall as ((Hv2 & Hc2 & Hw2) & R12 & Hnb & E12).
  assert (Hn2 : st_nodes st2 !! n = Some node).
  { rewrite (sr_kept _ _ R12 n); [done|]. unfold st1. simpl.
    rewrite lookup_insert_eq. eauto. }
  destruct (merge_block (S fuel) n neighbors c2 st2) as [[c st']|e|] eqn:Hm;
    [|exfalso;
      by apply (merge_block_no_throw (S fuel) n neighbors c2 st2 e Hv2
                  (mk_is_Some _ _ Hn2))
     |done].
  destruct (merge_block_Ok _ _ _ _ _ _ _ Hv2 Hm) as (info & merged & t' & Hi & Hr & -> & ->).
  assert (info = node) as -> by congruence.
  assert (Hwf : w → wf_state
            {| traversalState := <[n:=done]> (traversalState st2);
               st_nodes := <[n:={| block := block node;
                                   assumedNonNullObjects := merged |}]> (st_nodes st2);
               st_tree := t' |} ∧ extends (st_tree st2) t').
  { intros Hw'. destruct (Hw2 Hw') as [Wt2 Ws2].
    assert (Vc : valid_set (st_tree st2)
              (Set_union (assumedNonNullObjects node)
                 (Set_intersect (done_neighbor_sets st2 neighbors)))).
    { apply valid_set_Set_union; [by apply (Ws2 n)|].
      apply valid_set_Set_intersect. by apply done_neighbor_sets_valid. }
    destruct (reduceMaybeOptionalChains_result _ _ _ _ _ Wt2 Vc Hr)
      as (Wt' & Et' & Vm & _).
    split; [|done]. split; simpl; [done|].
    intros k info. rewrite lookup_insert. case_decide as Hk.
    - by intros [= <-].
    - intros Hi'. apply (extends_valid_set (st_tree st2)); [done|].
      by apply (Ws2 k). }
  split_and!.
  - split_and!.
    + intros k. simpl. rewrite !lookup_insert. case_decide; [eauto|apply Hv2].
    + intros k info. simpl. rewrite !lookup_insert. case_decide as Hk.
      * subst k. intros _ [= <-] p Hp.
        rewrite lookup_insert. case_decide; [eauto|]. by apply Hnb.
      * intros Hd Hi' p Hp. rewrite lookup_insert. case_decide; [eauto|].
        by apply (Hc2 k info).
    + intros Hw'. by apply Hwf.
  - split; simpl.
    + intros k. rewrite lookup_insert. case_decide as Hk.
      * subst k. by rewrite Hnode.
      * by rewrite (sr_blocks _ _ R12 k).
    + intros k Hk. rewrite lookup_insert. case_decide as Hkn.
      * subst k. rewrite Hnone in Hk. by destruct Hk.
      * rewrite (sr_kept _ _ R12 k); [done|]. unfold st1. simpl.
        by rewrite lookup_insert_ne.
    + intros k s Hs. rewrite lookup_insert. case_decide as Hkn.
      * subst k. congruence.
      * apply (sr_status _ _ R12). unfold st1. simpl. by rewrite lookup_insert_ne.
    + intros k s Hk. rewrite lookup_insert. case_decide as Hkn; [congruence|].
      apply (sr_new_done _ _ R12). unfold st1. simpl. by rewrite lookup_insert_ne.
  - simpl. rewrite lookup_insert_eq. eauto.
  - intros Hw'. simpl. eapply extends_trans; [by apply E12|]. by apply Hwf.
Qed.

(** *** The iteration cap *)

Lemma fixpoint_loop_all_changed fuel fn succs k st :
  sweeps_all_changed fuel fn succs k st = true →
  fixpoint_loop fuel fn succs k st = Throw (invariant_error fixpoint_reason).
Proof.
  revert st. induction k as [|k IH]; intros st; simpl; [done|].
  destruct (sweep_both fuel fn succs st) as [[[] st']|e|]; simpl; try done.
  apply IH.
Qed.

(** C5. If each of the 100 iterations that the outer loop allows (a forward
    sweep and a backward sweep each) reports a change, the propagator does
    not return: it throws the invariant error of the iteration cap, with its
    reason and the generated-source location. *)
Theorem iteration_cap_is_fatal fuel fn nodes t :
  sweeps_all_changed fuel fn (blockSuccessors_of fn) MAX_LOOPS
    {| traversalState := ∅; st_nodes := nodes; st_tree := t |} = true →
  propagateNonNull fuel fn nodes t
  = Throw {| reason := fixpoint_reason; description := None;
             loc := GeneratedSource |}.
Proof.
  intros H. unfold propagateNonNull.
  by rewrite (fixpoint_loop_all_changed _ _ _ _ _ H).
Qed.

Lemma iteration_cap_is_fatal_witness :
  propagateNonNull 1000 (zigzag 200) zigzag_facts.2 zigzag_facts.1
  = Throw {| reason := fixpoint_reason; description := None;
             loc := GeneratedSource |}.
Proof.
  apply (iteration_cap_is_fatal 1000 (zigzag 200) zigzag_facts.2 zigzag_facts.1).
  vm_compute. reflexivity.
Defined.

(** With two chain blocks fewer the same graph reaches its fixed point in
    the 100th iteration. *)
Example zigzag_198_converges :
  match collectHoistablePropertyLoads 1000 (zigzag 198) ∅ ∅ with
  | Ok _ => true
  | _ => false
  end = true.
Proof. vm_compute. reflexivity. Qed.

(** *** One visit of a block *)

Lemma reduce_no_optional fuel nodes t :
  Forall (fun x => hasOptional (deref t x) = false) nodes →
  reduceMaybeOptionalChains fuel nodes t = Some (nodes, t).
Proof.
  intros H. unfold reduceMaybeOptionalChains, Set_filter.
  replace (filter (λ x, hasOptional (deref t x) = true) nodes) with (@nil nat);
    [done|].
  symmetry. induction H as [|x l Hx _ IH]; [done|].
  by rewrite filter_cons, decide_False by (by rewrite Hx).
Qed.

Lemma elem_of_done_neighbor_sets st neighbors s :
  s ∈ done_neighbor_sets st neighbors ↔
  ∃ k info, k ∈ neighbors ∧ traversalState st !! k = Some done
            ∧ st_nodes st !! k = Some info ∧ s = assumedNonNullObjects info.
Proof.
  unfold done_neighbor_sets. rewrite list_elem_of_omap. split.
  - intros (k & Hk & H). case_decide as Hd; [|done].
    destruct (st_nodes st !! k) as [info|] eqn:Hi; [|done].
    injection H as <-. by exists k, info.
  - intros (k & info & Hk & Hd & Hi & ->). exists k. split; [done|].
    by rewrite decide_True, Hi by done.
Qed.

Lemma elem_of_Set_intersect_all {A} `{EqDecision A} (sets : list (list A)) x :
  x ∈ Set_intersect sets ↔ sets ≠ [] ∧ ∀ s, s ∈ sets → x ∈ s.
Proof.
  destruct sets as [|first rest].
  - rewrite Set_intersect_nil, elem_of_nil. split; [done|]. by intros [[] _].
  - rewrite elem_of_Set_intersect. split.
    + intros [Hf Hr]. split; [done|]. intros s [->|Hs]%elem_of_cons; auto.
    + intros [_ H]. split; [apply H, list_elem_of_here|].
      intros s Hs. by apply H, list_elem_of_further.
Qed.

(** C1, as the code has it. When a sweep visits a block, the fact set it
    stores is the optional-chain canonicalizer's result on the candidate set:
    the union of the block's previous fact set with the intersection of the
    fact sets of the neighbors (predecessors in a forward sweep, successors in
    a backward sweep) whose traversal state is 'done'; a neighbor that is
    still 'active' contributes nothing to the intersection, not an empty set.
    A node is in the candidate set exactly when the block had it or there is
    a 'done' neighbor and every 'done' neighbor has it. When no node of the
    candidate set has an optional segment, the stored set is the candidate
    set itself. *)
Theorem propagation_step w fuel succs d n st changed st' :
  prop_inv w succs d st →
  traversalState st !! n = None →
  recursivelyPropagateNonNull (S fuel) succs d n st = Ok (changed, st') →
  ∃ info st1 c1 merged t1,
    st_nodes st !! n = Some info
    ∧ visit_all (unless_visited (recursivelyPropagateNonNull fuel succs d))
        (neighbors_of succs d n info) false (set_status n active st)
      = Ok (c1, st1)
    ∧ st_nodes st1 !! n = Some info
    ∧ let sets := done_neighbor_sets st1 (neighbors_of succs d n info) in
      let candidate := Set_union (assumedNonNullObjects info) (Set_intersect sets) in
      reduceMaybeOptionalChains (S fuel) candidate (st_tree st1) = Some (merged, t1)
      ∧ st_nodes st' !! n
        = Some {| block := block info; assumedNonNullObjects := merged |}
      ∧ traversalState st' !! n = Some done
      ∧ (∀ s, s ∈ sets ↔
           ∃ k i, k ∈ neighbors_of succs d n info
                  ∧ traversalState st1 !! k = Some done
                  ∧ st_nodes st1 !! k = Some i ∧ s = assumedNonNullObjects i)
      ∧ (∀ x, x ∈ candidate ↔
           x ∈ assumedNonNullObjects info
           ∨ (sets ≠ [] ∧ ∀ s, s ∈ sets → x ∈ s))
      ∧ (Forall (fun x => hasOptional (deref (st_tree st1) x) = false) candidate →
         merged = candidate ∧ t1 = st_tree st1).
Proof.
  intros I Hnone. cbn [recursivelyPropagateNonNull].
  rewrite decide_False by (rewrite Hnone; by intros []).
  change (st_nodes (set_status n active st)) with (st_nodes st).
  destruct (st_nodes st !! n) as [info|] eqn:Hi; [|done].
  set (st0 := set_status n active st).
  set (neighbors := neighbors_of succs d n info).
  assert (I0 : prop_inv w succs d st0).
  { destruct I as (Hv & Hc & Hw). split_and!.
    - intros k. unfold st0. simpl. rewrite lookup_insert. case_decide as Hk.
      + subst k. by rewrite Hi.
      + apply Hv.
    - intros k info'. unfold st0. simpl. rewrite lookup_insert.
      case_decide as Hk; [done|]. intros Hd Hi' p Hp.
      destruct (Hc k info' Hd Hi' p Hp) as [s Hs].
      rewrite lookup_insert. case_decide; eauto.
    - intros Hw'. destruct (Hw Hw') as [Wt Ws]. by split. }
  pose proof (visit_all_ok w succs d _ neighbors false st0
                (unless_visited_ok _ _ _ _
                   (recursivelyPropagateNonNull_ok w succs d fuel)) I0) as Hall.
  destruct (visit_all _ neighbors false st0) as [[c1 st1]|e|] eqn:Hva; simpl;
    [|done..].
  destruct Hall as ((Hv1 & _) & R01 & _). intros Hm.
  destruct (merge_block_Ok _ _ _ _ _ _ _ Hv1 Hm) as (info1 & merged & t1 & Hi1 & Hr & -> & ->).
  assert (Hkept : st_nodes st1 !! n = Some info).
  { rewrite (sr_kept _ _ R01 n); [done|]. unfold st0. simpl.
    rewrite lookup_insert_eq. eauto. }
  assert (info1 = info) as -> by congruence.
  exists info, st1, c1, merged, t1. split_and!; try done.
  - simpl. by rewrite lookup_insert_eq.
  - simpl. by rewrite lookup_insert_eq.
  - intros s. apply elem_of_done_neighbor_sets.
  - intros x. by rewrite elem_of_Set_union, elem_of_Set_intersect_all.
  - intros Hno. rewrite (reduce_no_optional _ _ _ Hno) in Hr. by injection Hr as <- <-.
Qed.

Lemma propagation_step_witness :
  ∃ info st1 c1 merged t1,
    st_nodes (diamond_start false) !! 3%N = Some info
    ∧ visit_all
        (unless_visited
           (recursivelyPropagateNonNull 9 (blockSuccessors_of (diamond false)) forward))
        (neighbors_of (blockSuccessors_of (diamond false)) forward 3 info) false
        (set_status 3 active (diamond_start false))
      = Ok (c1, st1)
    ∧ st_nodes st1 !! 3%N = Some info
    ∧ let sets := done_neighbor_sets st1
                    (neighbors_of (blockSuccessors_of (diamond false)) forward 3 info) in
      let candidate := Set_union (assumedNonNullObjects info) (Set_intersect sets) in
      reduceMaybeOptionalChains 10 candidate (st_tree st1) = Some (merged, t1)
      ∧ st_nodes
          (visit_state
             (recursivelyPropagateNonNull 10 (blockSuccessors_of (diamond false))
                forward 3 (diamond_start false)) (diamond_start false)) !! 3%N
        = Some {| block := block info; assumedNonNullObjects := merged |}
      ∧ traversalState
          (visit_state
             (recursivelyPropagateNonNull 10 (blockSuccessors_of (diamond false))
                forward 3 (diamond_start false)) (diamond_start false)) !! 3%N
        = Some done
      ∧ (∀ s, s ∈ sets ↔
           ∃ k i, k ∈ neighbors_of (blockSuccessors_of (diamond false)) forward 3 info
                  ∧ traversalState st1 !! k = Some done
                  ∧ st_nodes st1 !! k = Some i ∧ s = assumedNonNullObjects i)
      ∧ (∀ x, x ∈ candidate ↔
           x ∈ assumedNonNullObjects info
           ∨ (sets ≠ [] ∧ ∀ s, s ∈ sets → x ∈ s))
      ∧ (Forall (fun x => hasOptional (deref (st_tree st1) x) = false) candidate →
         merged = candidate ∧ t1 = st_tree st1).
Proof.
  apply (propagation_step False 9 (blockSuccessors_of (diamond false)) forward 3
           (diamond_start false)
           (visit_changed
              (recursivelyPropagateNonNull 10 (blockSuccessors_of (diamond false))
                 forward 3 (diamond_start false)))).
  - split_and!.
    + intros k [s Hs]. vm_compute in Hs. discriminate.
    + intros k info Hk. vm_compute in Hk. discriminate.
    + intros [].
  - vm_compute. reflexivity.
  - vm_compute. reflexivity.
Defined.

(** The scenarios of the diamond: with a read of [q.b] in block 1 only, the
    node of [q] (node 0) is not in the fact set of block 3 after the visit;
    with a read in both branches it is. *)
Example diamond_one_branch :
  facts_of (diamond_start false) 1 = Some [0]
  ∧ facts_of (diamond_start false) 2 = Some []
  ∧ facts_of
      (visit_state
         (recursivelyPropagateNonNull 10 (blockSuccessors_of (diamond false))
            forward 3 (diamond_start false)) (diamond_start false)) 3
    = Some [].
Proof. vm_compute. done. Qed.

Example diamond_both_branches :
  facts_of (diamond_start true) 1 = Some [0]
  ∧ facts_of (diamond_start true) 2 = Some [0]
  ∧ facts_of
      (visit_state
         (recursivelyPropagateNonNull 10 (blockSuccessors_of (diamond true))
            forward 3 (diamond_start true)) (diamond_start true)) 3
    = Some [0].
Proof. vm_compute. done. Qed.

(** C1 as stated fails: the only block of [optional_fn] has the local facts
    [a] (node 0) and [a?.b] (node 1) and no neighbor; the union of its
    previous set with the intersection is that set, but the visit stores
    [a] and [a.b] (node 2). *)
Lemma stored_set_is_canonicalized :
  facts_of optional_start 0 = Some [0; 1]
  ∧ Set_union [0; 1]
      (Set_intersect
         (done_neighbor_sets (set_status 0 active optional_start) []))
    = [0; 1]
  ∧ facts_of
      (visit_state
         (recursivelyPropagateNonNull 10 (blockSuccessors_of optional_fn)
            forward 0 optional_start) optional_start) 0
    = Some [0; 2]
  ∧ path (fullPath (deref (st_tree optional_start) 1)) = [entry "b" true]
  ∧ path (fullPath (deref
            (st_tree
               (visit_state
                  (recursivelyPropagateNonNull 10 (blockSuccessors_of optional_fn)
                     forward 0 optional_start) optional_start)) 2))
    = [entry "b" false].
Proof. vm_compute. done. Qed.

(** *** With enough fuel a visit ends *)

Lemma step_rel_unvisited st st' :
  step_rel st st' → unvisited st' ⊆ unvisited st.
Proof.
  intros R k. unfold unvisited. rewrite !elem_of_difference, !elem_of_dom.
  intros [Hn Ht]. split.
  - destruct Hn as [i Hi]. pose proof (sr_blocks _ _ R k) as B.
    rewrite Hi in B. by destruct (st_nodes st !! k).
  - intros [s Hs]. apply Ht. rewrite (sr_status _ _ R _ _ Hs). eauto.
Qed.

Lemma set_status_unvisited n st node :
  traversalState st !! n = None → st_nodes st !! n = Some node →
  size (unvisited (set_status n active st)) < size (unvisited st).
Proof.
  intros Hn Hi. apply subset_size. unfold unvisited. simpl.
  rewrite dom_insert_L.
  assert (n ∈ dom (st_nodes st)) by (apply elem_of_dom; eauto).
  assert (n ∉ dom (traversalState st)) by by rewrite not_elem_of_dom.
  split.
  - intros k. rewrite !elem_of_difference, elem_of_union, elem_of_singleton.
    intros [? Hk]. split; [done|]. intros ?. apply Hk. by right.
  - intros Hsub. specialize (Hsub n).
    rewrite !elem_of_difference, elem_of_union, elem_of_singleton in Hsub.
    destruct Hsub as [_ Hb]; [done|]. apply Hb. by left.
Qed.

Lemma prop_inv_set_status w succs d n st node :
  prop_inv w succs d st → st_nodes st !! n = Some node →
  prop_inv w succs d (set_status n active st).
Proof.
  intros (Hv & Hc & Hw) Hnode. split_and!.
  - intros k. simpl. rewrite lookup_insert. case_decide as Hk.
    + subst k. by rewrite Hnode.
    + apply Hv.
  - intros k info. simpl. rewrite lookup_insert.
    case_decide as Hk; [done|]. intros Hd Hi p Hp.
    destruct (Hc k info Hd Hi p Hp) as [s Hs].
    rewrite lookup_insert. case_decide; eauto.
  - intros Hw'. destruct (Hw Hw') as [Wt Ws]. by split.
Qed.

Lemma visit_all_converges succs d M xs changed st :
  (∀ x st, prop_inv True succs d st → size (unvisited st) ≤ M →
     ∃ fuel, recursivelyPropagateNonNull fuel succs d x st ≠ OutOfFuel) →
  prop_inv True succs d st → size (unvisited st) ≤ M →
  ∃ fuel, visit_all (recursivelyPropagateNonNull fuel succs d) xs changed st
          ≠ OutOfFuel.
Proof.
  intros Hv. revert changed st. induction xs as [|x xs IH]; intros changed st I Hm.
  { by exists 0. }
  destruct (Hv x st I Hm) as [fuel1 H1].
  pose proof (recursivelyPropagateNonNull_ok True succs d fuel1 x st I) as Hok.
  destruct (recursivelyPropagateNonNull fuel1 succs d x st) as [[c1 st1]|e|] eqn:E1;
    [|exists fuel1; cbn [visit_all]; by rewrite E1|done].
  destruct Hok as (I1 & R1 & _).
  destruct (IH (changed || c1) st1 I1) as [fuel2 H2].
  { pose proof (subseteq_size _ _ (step_rel_unvisited _ _ R1)). lia. }
  exists (fuel1 `max` fuel2). cbn [visit_all].
  rewrite (recursivelyPropagateNonNull_mono fuel1 (fuel1 `max` fuel2) succs d x st
             ltac:(lia)) by (by rewrite E1).
  rewrite E1. simpl.
  rewrite (visit_all_refines (recursivelyPropagateNonNull fuel2 succs d)
             (recursivelyPropagateNonNull (fuel1 `max` fuel2) succs d)); [done| |done].
  intros y sty. apply recursivelyPropagateNonNull_mono. lia.
Qed.

Lemma recursivelyPropagateNonNull_converges succs d M n st :
  prop_inv True succs d st → size (unvisited st) ≤ M →
  ∃ fuel, recursivelyPropagateNonNull fuel succs d n st ≠ OutOfFuel.
Proof.
  revert n st. induction M as [|M IH]; intros n st I Hm.
  - (* every block of the table has a state: the visit returns or throws *)
    exists 1. cbn [recursivelyPropagateNonNull]. case_decide as Hin; [done|].
    change (st_nodes (set_status n active st)) with (st_nodes st).
    destruct (st_nodes st !! n) as [node|] eqn:Hnode; [|done].
    assert (Hnone : traversalState st !! n = None).
    { destruct (traversalState st !! n) eqn:E; [|done]. destruct Hin. eauto. }
    pose proof (set_status_unvisited _ _ _ Hnone Hnode). lia.
  - destruct (decide (is_Some (traversalState st !! n))) as [Hin|Hin].
    { exists 1. cbn [recursivelyPropagateNonNull]. by rewrite decide_True. }
    assert (Hnone : traversalState st !! n = None).
    { destruct (traversalState st !! n) eqn:E; [|done]. destruct Hin. eauto. }
    destruct (st_nodes st !! n) as [node|] eqn:Hnode; last first.
    { exists 1. cbn [recursivelyPropagateNonNull]. rewrite decide_False by done.
      change (st_nodes (set_status n active st)) with (st_nodes st).
      by rewrite Hnode. }
    set (st1 := set_status n active st).
    set (neighbors := neighbors_of succs d n node).
    pose proof (prop_inv_set_status _ _ _ _ _ _ I Hnode) as I1. fold st1 in I1.
    assert (Hm1 : size (unvisited st1) ≤ M).
    { pose proof (set_status_unvisited _ _ _ Hnone Hnode). unfold st1. lia. }
    destruct (visit_all_converges succs d M neighbors false st1 IH I1 Hm1)
      as [fuelA HA].
    assert (HU : ∀ F, fuelA ≤ F →
      visit_all (unless_visited (recursivelyPropagateNonNull F succs d))
        neighbors false st1
      = visit_all (recursivelyPropagateNonNull fuelA succs d) neighbors false st1).
    { intros F HF. apply visit_all_refines; [|done]. intros y sty Hy.
      unfold unless_visited. case_decide as Hd.
      - destruct fuelA as [|fA]; [done|]. cbn [recursivelyPropagateNonNull].
        by rewrite decide_True.
      - by apply recursivelyPropagateNonNull_mono. }
    pose proof (visit_all_ok True succs d _ neighbors false st1
                  (recursivelyPropagateNonNull_ok True succs d fuelA) I1) as Hall.
    destruct (visit_all (recursivelyPropagateNonNull fuelA succs d) neighbors
                false st1) as [[c2 st2]|e|] eqn:EA; [| |done].
    + destruct Hall as ((Hv2 & Hc2 & Hw2) & R12 & _).
      destruct (Hw2 ltac:(done)) as [Wt2 Ws2].
      assert (Hn2 : st_nodes st2 !! n = Some node).
      { rewrite (sr_kept _ _ R12 n); [done|]. unfold st1. simpl.
        rewrite lookup_insert_eq. eauto. }
      set (candidate := Set_union (assumedNonNullObjects node)
             (Set_intersect (done_neighbor_sets st2 neighbors))).
      assert (Vc : valid_set (st_tree st2) candidate).
      { apply valid_set_Set_union; [by apply (Ws2 n)|].
        apply valid_set_Set_intersect. by apply done_neighbor_sets_valid. }
      set (fuelB := S (reduce_bound (st_tree st2) candidate)).
      destruct (canonicalizer_bound fuelB candidate (st_tree st2) Wt2 Vc)
        as (merged & t' & Hr); [unfold fuelB; lia|].
      exists (S (fuelA `max` fuelB)). cbn [recursivelyPropagateNonNull].
      rewrite decide_False by done.
      change (st_nodes (set_status n active st)) with (st_nodes st).
      rewrite Hnode. fold st1 neighbors.
      rewrite (HU (fuelA `max` fuelB)) by lia. simpl. unfold merge_block.
      rewrite (neighbor_sets_done _ _ Hv2), Hn2. simpl. fold candidate.
      rewrite (reduceMaybeOptionalChains_mono fuelB _ _ _ _ Hr) by lia. done.
    + exists (S fuelA). cbn [recursivelyPropagateNonNull].
      rewrite decide_False by done.
      change (st_nodes (set_status n active st)) with (st_nodes st).
      rewrite Hnode. fold st1 neighbors. by rewrite (HU fuelA).
Qed.

(** *** The failure modes of the propagator *)

Lemma prop_inv_empty (w : Prop) succs d st :
  traversalState st = ∅ → (w → wf_state st) → prop_inv w succs d st.
Proof.
  intros Hts Hw. split_and!; [| |done].
  - intros k [s Hs]. by rewrite Hts, lookup_empty in Hs.
  - intros k info Hs. by rewrite Hts, lookup_empty in Hs.
Qed.

Lemma sweep_both_ok (w : Prop) fuel fn succs st :
  traversalState st = ∅ → (w → wf_state st) →
  match sweep_both fuel fn succs st with
  | Ok (_, st') =>
      traversalState st' = ∅ ∧ (w → wf_state st')
      ∧ ∀ k, block <$> st_nodes st' !! k = block <$> st_nodes st !! k
  | Throw e =>
      ∃ m d, e = invariant_error (bad_node_reason m d) ∧ st_nodes st !! m = None
  | OutOfFuel => True
  end.
Proof.
  intros Hts Hw. unfold sweep_both.
  pose proof (visit_all_ok w succs forward _ (blocks fn).*1 false st
                (recursivelyPropagateNonNull_ok w succs forward fuel)
                (prop_inv_empty _ _ _ _ Hts Hw)) as H1.
  destruct (visit_all _ (blocks fn).*1 false st) as [[c1 st1]|e|]; simpl;
    [|destruct H1 as (m & -> & Hm); by exists m, forward|done].
  destruct H1 as ((_ & _ & Hw1) & R1 & _).
  assert (Hw1' : w → wf_state (clear_traversal st1)).
  { intros Hw'. destruct (Hw1 Hw') as [Wt Ws]. by split. }
  pose proof (visit_all_ok w succs backward _ (reverse (blocks fn)).*1 c1
                (clear_traversal st1)
                (recursivelyPropagateNonNull_ok w succs backward fuel)
                (prop_inv_empty w succs backward (clear_traversal st1) eq_refl
                   Hw1')) as H2.
  destruct (visit_all _ (reverse (blocks fn)).*1 c1 (clear_traversal st1))
    as [[c2 st2]|e|]; simpl; [| |done].
  - destruct H2 as ((_ & _ & Hw2) & R2 & _). split_and!; [done| |].
    + intros Hw'. destruct (Hw2 Hw') as [Wt Ws]. by split.
    + intros k. rewrite (sr_blocks _ _ R2 k). simpl. apply (sr_blocks _ _ R1 k).
  - destruct H2 as (m & -> & Hm). exists m, backward. split; [done|].
    by apply (step_rel_nodes_None st st1).
Qed.

Lemma fixpoint_loop_throw fuel fn succs k st e :
  traversalState st = ∅ →
  fixpoint_loop fuel fn succs k st = Throw e →
  (∃ m d, e = invariant_error (bad_node_reason m d) ∧ st_nodes st !! m = None)
  ∨ e = invariant_error fixpoint_reason.
Proof.
  revert st. induction k as [|k IH]; intros st Hts; cbn [fixpoint_loop].
  { intros [= <-]. by right. }
  pose proof (sweep_both_ok False fuel fn succs st Hts ltac:(done)) as H.
  destruct (sweep_both fuel fn succs st) as [[c st']|e'|]; simpl; [| |done].
  - destruct H as (Hts' & _ & B). destruct c; [|done]. intros He.
    destruct (IH st' Hts' He) as [(m & d & -> & Hm)| ->]; [left|by right].
    exists m, d. split; [done|]. specialize (B m). rewrite Hm in B.
    by destruct (st_nodes st !! m).
  - intros [= <-]. by left.
Qed.

Lemma sweep_both_converges fn succs st :
  traversalState st = ∅ → wf_state st →
  ∃ fuel, sweep_both fuel fn succs st ≠ OutOfFuel.
Proof.
  intros Hts Hw.
  pose proof (prop_inv_empty True succs forward st Hts (fun _ => Hw)) as I0.
  destruct (visit_all_converges succs forward (size (unvisited st))
              (blocks fn).*1 false st) as [fuel1 H1]; [|done|done|].
  { intros x sx Ix Hx. by apply (recursivelyPropagateNonNull_converges _ _ (size (unvisited st))). }
  pose proof (visit_all_ok True succs forward _ (blocks fn).*1 false st
                (recursivelyPropagateNonNull_ok True succs forward fuel1) I0) as Hok.
  destruct (visit_all (recursivelyPropagateNonNull fuel1 succs forward)
              (blocks fn).*1 false st) as [[c1 st1]|e|] eqn:E1; [| |done].
  - destruct Hok as ((_ & _ & Hw1) & _).
    assert (Hw1' : wf_state (clear_traversal st1)).
    { destruct (Hw1 ltac:(done)) as [Wt Ws]. by split. }
    pose proof (prop_inv_empty True succs backward (clear_traversal st1) eq_refl
                  (fun _ => Hw1')) as I1.
    destruct (visit_all_converges succs backward
                (size (unvisited (clear_traversal st1)))
                (reverse (blocks fn)).*1 c1 (clear_traversal st1)) as [fuel2 H2];
      [|done|done|].
    { intros x sx Ix Hx.
      by apply (recursivelyPropagateNonNull_converges _ _
                  (size (unvisited (clear_traversal st1)))). }
    exists (fuel1 `max` fuel2). unfold sweep_both.
    rewrite (visit_all_refines (recursivelyPropagateNonNull fuel1 succs forward)
               (recursivelyPropagateNonNull (fuel1 `max` fuel2) succs forward));
      [|intros y sty; apply recursivelyPropagateNonNull_mono; lia|by rewrite E1].
    rewrite E1. simpl.
    rewrite (visit_all_refines (recursivelyPropagateNonNull fuel2 succs backward)
               (recursivelyPropagateNonNull (fuel1 `max` fuel2) succs backward));
      [|intros y sty; apply recursivelyPropagateNonNull_mono; lia|done].
    by destruct (visit_all (recursivelyPropagateNonNull fuel2 succs backward) _ _ _)
      as [[c2 st2]|e|].
  - exists fuel1. unfold sweep_both. by rewrite E1.
Qed.

Lemma fixpoint_loop_converges fn succs k st :
  traversalState st = ∅ → wf_state st →
  ∃ fuel, fixpoint_loop fuel fn succs k st ≠ OutOfFuel.
Proof.
  revert st. induction k as [|k IH]; intros st Hts Hw.
  { by exists 0. }
  destruct (sweep_both_converges fn succs st Hts Hw) as [fuel1 H1].
  pose proof (sweep_both_ok True fuel1 fn succs st Hts (fun _ => Hw)) as Hok.
  destruct (sweep_both fuel1 fn succs st) as [[[] st']|e|] eqn:E1; [| | |done].
  - destruct Hok as (Hts' & Hw' & _).
    destruct (IH st' Hts' (Hw' ltac:(done))) as [fuel2 H2].
    exists (fuel1 `max` fuel2). cbn [fixpoint_loop].
    rewrite (sweep_both_mono fuel1 (fuel1 `max` fuel2) fn succs st ltac:(lia))
      by (by rewrite E1).
    rewrite E1. simpl.
    by rewrite (fixpoint_loop_mono fuel2 (fuel1 `max` fuel2) fn succs k st'
                  ltac:(lia)).
  - exists fuel1. cbn [fixpoint_loop]. by rewrite E1.
  - exists fuel1. cbn [fixpoint_loop]. by rewrite E1.
Qed.

(** A forward sweep that returns has given a state to every block id it
    refers to. *)
Lemma forward_sweep_visits_referenced fuel fn succs nodes t c st1 k :
  visit_all (recursivelyPropagateNonNull fuel succs forward) (blocks fn).*1 false
    {| traversalState := ∅; st_nodes := nodes; st_tree := t |} = Ok (c, st1) →
  referenced fn nodes k → is_Some (nodes !! k).
Proof.
  intros Hs Hk.
  set (st0 := {| traversalState := ∅; st_nodes := nodes; st_tree := t |}) in *.
  pose proof (visit_all_ok False succs forward _ (blocks fn).*1 false st0
                (recursivelyPropagateNonNull_ok False succs forward fuel)
                (prop_inv_empty False succs forward st0 eq_refl ltac:(done)))
    as Hok.
  rewrite Hs in Hok. destruct Hok as ((Hv1 & Hc1 & _) & R & Hxs & _).
  assert (Hall : ∀ j, referenced fn nodes j → is_Some (traversalState st1 !! j)).
  { induction 1 as [j Hj|j info p Hj IHj Hi Hp]; [by apply Hxs|].
    destruct IHj as [s Hs1].
    assert (s = done) as -> by (apply (sr_new_done _ _ R j); [done|done]).
    pose proof (sr_blocks _ _ R j) as B. simpl in B. rewrite Hi in B.
    destruct (st_nodes st1 !! j) as [info1|] eqn:Hi1; [|done].
    injection B as B. apply (Hc1 j info1 Hs1 Hi1). simpl. by rewrite B. }
  destruct (Hv1 k (Hall k Hk)) as [i1 Hi1].
  pose proof (sr_blocks _ _ R k) as B. rewrite Hi1 in B. simpl in B.
  by destruct (nodes !! k).
Qed.

(** C6. If the forward sweep refers to a block id (a key of the block map,
    or a predecessor of a block it visits) that has no entry in the fact
    table, the propagator throws the invariant error of a bad node, for every
    fuel from some fuel on. And every error the propagator throws, on any
    input, is either that of a block id without an entry in the fact table or
    that of the iteration cap; on a well-formed input it throws or returns
    when it has enough fuel. *)
Theorem missing_node_is_fatal fn nodes t k :
  wf_state {| traversalState := ∅; st_nodes := nodes; st_tree := t |} →
  referenced fn nodes k → nodes !! k = None →
  (∃ fuel0 m, nodes !! m = None
     ∧ ∀ fuel, fuel0 ≤ fuel →
         propagateNonNull fuel fn nodes t
         = Throw {| reason := bad_node_reason m forward; description := None;
                    loc := GeneratedSource |})
  ∧ (∀ fuel fn' nodes' t' e,
       propagateNonNull fuel fn' nodes' t' = Throw e →
       (∃ m d, e = invariant_error (bad_node_reason m d) ∧ nodes' !! m = None)
       ∨ e = invariant_error fixpoint_reason)
  ∧ (∀ fn' nodes' t',
       wf_state {| traversalState := ∅; st_nodes := nodes'; st_tree := t' |} →
       ∃ fuel, propagateNonNull fuel fn' nodes' t' ≠ OutOfFuel)
  ∧ (∀ fuel fn' temporaries optionals e,
       collectHoistablePropertyLoads fuel fn' temporaries optionals = Throw e →
       (∃ m d, e = invariant_error (bad_node_reason m d))
       ∨ e = invariant_error fixpoint_reason).
Proof.
  intros Hw Hk Hnone. split_and!.
  - set (st0 := {| traversalState := ∅; st_nodes := nodes; st_tree := t |}) in *.
    set (succs := blockSuccessors_of fn).
    destruct (visit_all_converges succs forward (size (unvisited st0))
                (blocks fn).*1 false st0) as [fuel0 H0]; [| |done|].
    { intros x sx Ix Hx.
      by apply (recursivelyPropagateNonNull_converges _ _ (size (unvisited st0))). }
    { by apply prop_inv_empty. }
    pose proof (visit_all_ok False succs forward _ (blocks fn).*1 false st0
                  (recursivelyPropagateNonNull_ok False succs forward fuel0)
                  (prop_inv_empty False succs forward st0 eq_refl ltac:(done)))
      as Hok.
    destruct (visit_all (recursivelyPropagateNonNull fuel0 succs forward)
                (blocks fn).*1 false st0) as [[c1 st1]|e|] eqn:E0; [| |done].
    { destruct (forward_sweep_visits_referenced _ _ _ _ _ _ _ _ E0 Hk) as [i Hi].
      congruence. }
    destruct Hok as (m & -> & Hm). exists fuel0, m. split; [done|].
    intros fuel Hle.
    assert (E : propagateNonNull fuel0 fn nodes t
                = Throw (invariant_error (bad_node_reason m forward))).
    { unfold propagateNonNull, MAX_LOOPS. cbn [fixpoint_loop].
      unfold sweep_both. fold succs st0. by rewrite E0. }
    pose proof (propagateNonNull_mono fuel0 fuel fn nodes t Hle) as R.
    rewrite E in R. by apply R.
  - intros fuel fn' nodes' t' e. unfold propagateNonNull.
    destruct (fixpoint_loop fuel fn' _ MAX_LOOPS _) as [st'|e'|] eqn:E; simpl;
      [done| |done].
    intros [= <-].
    by apply (fixpoint_loop_throw fuel fn' (blockSuccessors_of fn') MAX_LOOPS
                {| traversalState := ∅; st_nodes := nodes'; st_tree := t' |}
                e' eq_refl E).
  - intros fn' nodes' t' Hw'.
    destruct (fixpoint_loop_converges fn' (blockSuccessors_of fn') MAX_LOOPS
                {| traversalState := ∅; st_nodes := nodes'; st_tree := t' |}
                eq_refl Hw') as [fuel Hf].
    exists fuel. unfold propagateNonNull.
    by destruct (fixpoint_loop fuel fn' _ MAX_LOOPS _).
  - intros fuel fn' temporaries optionals e. unfold collectHoistablePropertyLoads.
    destruct (collectFunctionExpressionRValues fuel fn') as [refs|]; simpl; [|done].
    destruct (collectNonNullsInBlocks _ _ _ _) as [t1 nodes1].
    unfold propagateNonNull.
    destruct (fixpoint_loop fuel fn' _ MAX_LOOPS _) as [st'|e'|] eqn:E; simpl;
      [done| |done].
    intros [= <-].
    destruct (fixpoint_loop_throw fuel fn' (blockSuccessors_of fn') MAX_LOOPS
                {| traversalState := ∅; st_nodes := nodes1; st_tree := t1 |}
                e' eq_refl E) as [(m & d & -> & _)| ->]; [left|by right].
    by exists m, d.
Qed.

Lemma dangling_facts_wf :
  wf_state {| traversalState := ∅; st_nodes := dangling_facts.2;
              st_tree := dangling_facts.1 |}.
Proof.
  destruct (collectNonNullsInBlocks_spec dangling_fn ∅ ∅ Tree_new
              dangling_facts.1 dangling_facts.2 wf_tree_new
              (surjective_pairing _)) as (W & _ & Wn & _).
  split; [done|]. intros k info Hi. by destruct (Wn k info Hi).
Qed.

Lemma missing_node_is_fatal_witness :
  ∃ fuel0 m, dangling_facts.2 !! m = None
    ∧ ∀ fuel, fuel0 ≤ fuel →
        propagateNonNull fuel dangling_fn dangling_facts.2 dangling_facts.1
        = Throw {| reason := bad_node_reason m forward; description := None;
                   loc := GeneratedSource |}.
Proof.
  destruct (missing_node_is_fatal dangling_fn dangling_facts.2 dangling_facts.1 7)
    as [H _].
  - apply dangling_facts_wf.
  - apply (referenced_pred _ _ 0%N
             {| block := (plain_block 0 [read_q_b 1] [7%N]).2;
                assumedNonNullObjects := [0] |}).
    + apply referenced_block. vm_compute. apply list_elem_of_here.
    + vm_compute. reflexivity.
    + apply list_elem_of_here.
  - vm_compute. reflexivity.
  - exact H.
Defined.

(** The error of that run names block 7. *)
Example dangling_pred_throws :
  propagateNonNull 5 dangling_fn dangling_facts.2 dangling_facts.1
  = Throw {| reason := "Bad node 7, kind: forward"; description := None;
             loc := GeneratedSource |}.
Proof. vm_compute. reflexivity. Qed.

(** ** Runs of the pass in one object store *)

(** *** A run behind other objects is the same run, moved *)

Lemma move_node_dummy k : move_node k dummy_node = dummy_node.
Proof. unfold move_node, dummy_node. simpl. by rewrite !fmap_empty. Qed.

Lemma heap_move_lookup store t r :
  heap (move_tree store t) !! move_ref (length store) r
  = move_node (length store) <$> heap t !! r.
Proof.
  unfold move_tree, move_ref. cbn [heap].
  rewrite lookup_app_r by lia.
  replace (length store + r - length store) with r by lia.
  by rewrite list_lookup_fmap.
Qed.

Lemma deref_move store t r :
  deref (move_tree store t) (move_ref (length store) r)
  = move_node (length store) (deref t r).
Proof.
  unfold deref. rewrite heap_move_lookup.
  destruct (heap t !! r); simpl; [done|]. by rewrite move_node_dummy.
Qed.

Lemma getOrCreateIdentifier_move store t i :
  getOrCreateIdentifier (move_tree store t) i
  = prod_map (move_tree store) (move_ref (length store)) (getOrCreateIdentifier t i).
Proof.
  unfold getOrCreateIdentifier.
  replace (roots (move_tree store t) !! id i)
    with (move_ref (length store) <$> roots t !! id i)
    by (unfold move_tree; cbn [roots]; by rewrite lookup_fmap).
  destruct (roots t !! id i) as [r|]; simpl; [done|].
  unfold prod_map. simpl. rewrite length_app, length_fmap.
  f_equal. unfold move_tree. cbn [heap roots]. f_equal.
  - by rewrite fmap_app, app_assoc.
  - by rewrite fmap_insert.
Qed.

Lemma child_map_move k n o :
  child_map (move_node k n) o = move_ref k <$> child_map n o.
Proof. by destruct o. Qed.

Lemma set_child_move k n e c :
  set_child (move_node k n) e (move_ref k c) = move_node k (set_child n e c).
Proof.
  unfold set_child, move_node. destruct (optional e); simpl;
    by rewrite fmap_insert.
Qed.

Lemma getOrCreatePropertyEntry_move store t p e :
  getOrCreatePropertyEntry (move_tree store t) (move_ref (length store) p) e
  = prod_map (move_tree store) (move_ref (length store))
      (getOrCreatePropertyEntry t p e).
Proof.
  unfold getOrCreatePropertyEntry. rewrite deref_move, child_map_move, lookup_fmap.
  destruct (child_map (deref t p) (optional e) !! property e) as [c|]; simpl;
    [done|].
  unfold prod_map. cbn [fst snd]. rewrite length_app, length_fmap.
  change (length store + length (heap t))
    with (move_ref (length store) (length (heap t))).
  rewrite set_child_move. f_equal.
  unfold move_tree. cbn [heap roots]. f_equal.
  unfold move_ref at 1. rewrite insert_app_r.
  by rewrite fmap_app, list_fmap_insert, app_assoc.
Qed.

Lemma walk_entries_move store t c es :
  walk_entries (move_tree store t) (move_ref (length store) c) es
  = prod_map (move_tree store) (move_ref (length store)) (walk_entries t c es).
Proof.
  revert t c. induction es as [|e es IH]; intros t c; simpl; [done|].
  rewrite getOrCreatePropertyEntry_move.
  destruct (getOrCreatePropertyEntry t c e) as [t' next]. simpl. apply IH.
Qed.

Lemma getOrCreateProperty_move store t n :
  getOrCreateProperty (move_tree store t) n
  = prod_map (move_tree store) (move_ref (length store)) (getOrCreateProperty t n).
Proof.
  unfold getOrCreateProperty. rewrite getOrCreateIdentifier_move.
  destruct (getOrCreateIdentifier t (identifier n)) as [t0 c]. simpl.
  destruct (last (path n)) as [lastEntry|]; [|done].
  rewrite walk_entries_move.
  destruct (walk_entries t0 c (removelast (path n))) as [t1 c1]. simpl.
  apply getOrCreatePropertyEntry_move.
Qed.

Section SetsMoved.
Context {A B : Type} `{EqDecision A, EqDecision B}.
Context (f : A → B) `{!Inj (=) (=) f}.

Lemma filter_fmap_iff (P : B → Prop) (Q : A → Prop)
  `{∀ y, Decision (P y), ∀ x, Decision (Q x)} (l : list A) :
  (∀ x, P (f x) ↔ Q x) → filter P (f <$> l) = f <$> filter Q l.
Proof.
  intros HPQ. induction l as [|x l IH]; [done|].
  rewrite fmap_cons, !filter_cons, IH.
  destruct (decide (P (f x))) as [HP|HP], (decide (Q x)) as [HQ|HQ]; try done.
  - by apply HPQ in HP.
  - by apply HPQ in HQ.
Qed.

Lemma Set_has_fmap (s : list A) x : Set_has (f <$> s) (f x) = Set_has s x.
Proof. unfold Set_has. apply bool_decide_ext, (list_elem_of_fmap_inj f). Qed.

Lemma Set_add_fmap (s : list A) x : Set_add (f <$> s) (f x) = f <$> Set_add s x.
Proof.
  unfold Set_add. rewrite Set_has_fmap. destruct (Set_has s x); [done|].
  by rewrite fmap_app.
Qed.

Lemma Set_delete_fmap (s : list A) x :
  Set_delete (f <$> s) (f x) = f <$> Set_delete s x.
Proof.
  unfold Set_delete. apply filter_fmap_iff. intros y. split; [congruence|].
  intros Hne Heq. by apply Hne, (inj f).
Qed.

Lemma Set_union_fmap (a b : list A) :
  Set_union (f <$> a) (f <$> b) = f <$> Set_union a b.
Proof.
  unfold Set_union. revert a. induction b as [|x b IH]; intros a; [done|].
  rewrite fmap_cons. cbn [foldl]. by rewrite Set_add_fmap, IH.
Qed.

Lemma Set_intersect_fmap (sets : list (list A)) :
  Set_intersect (fmap (M := list) f <$> sets) = f <$> Set_intersect sets.
Proof.
  destruct sets as [|first rest]; [done|]. rewrite fmap_cons.
  unfold Set_intersect. apply filter_fmap_iff. intros x.
  assert (forallb (λ s, Set_has s (f x)) (fmap (M := list) f <$> rest)
          = forallb (λ s, Set_has s x) rest) as ->; [|done].
  induction rest as [|s rest IH]; [done|].
  rewrite fmap_cons. cbn [forallb]. by rewrite Set_has_fmap, IH.
Qed.

Lemma Set_equal_fmap (a b : list A) :
  Set_equal (f <$> a) (f <$> b) = Set_equal a b.
Proof.
  unfold Set_equal. rewrite !length_fmap. f_equal.
  induction a as [|x a IH]; [done|].
  rewrite fmap_cons. cbn [forallb]. by rewrite Set_has_fmap, IH.
Qed.

Lemma Set_filter_fmap (s : list A) (p : B → bool) (q : A → bool) :
  (∀ x, p (f x) = q x) → Set_filter (f <$> s) p = f <$> Set_filter s q.
Proof.
  intros Hpq. unfold Set_filter. apply filter_fmap_iff. intros x.
  by rewrite Hpq.
Qed.
End SetsMoved.

(** *** The local fact extractor, moved *)

Lemma pushPropertyLoadNode_move store t node instrId known result :
  pushPropertyLoadNode (move_tree store t) (move_ref (length store) node)
    instrId known (move_ref (length store) <$> result)
  = move_ref (length store) <$> pushPropertyLoadNode t node instrId known result.
Proof.
  unfold pushPropertyLoadNode. rewrite deref_move. cbn [move_node fullPath].
  destruct (_ || _); [|done]. apply (Set_add_fmap _).
Qed.

Lemma knownNonNullIdentifiers_of_move store fn t :
  knownNonNullIdentifiers_of fn (move_tree store t)
  = prod_map (move_tree store) (fmap (move_ref (length store)))
      (knownNonNullIdentifiers_of fn t).
Proof.
  unfold knownNonNullIdentifiers_of.
  destruct (fnType fn); [|done..]. destruct (params fn) as [|[pl|pl] ps]; [done| |done].
  destruct (optimizations_enabled fn); [|done].
  rewrite getOrCreateIdentifier_move.
  by destruct (getOrCreateIdentifier t (place_identifier pl)).
Qed.

Lemma push_resolved_move store t dep instrId known assumed :
  (let '(t', n) := getOrCreateProperty (move_tree store t) dep in
   (t', pushPropertyLoadNode t' n instrId known
          (move_ref (length store) <$> assumed)))
  = prod_map (move_tree store) (fmap (move_ref (length store)))
      (let '(t', n) := getOrCreateProperty t dep in
       (t', pushPropertyLoadNode t' n instrId known assumed)).
Proof.
  rewrite getOrCreateProperty_move.
  destruct (getOrCreateProperty t dep) as [t' n]. unfold prod_map. cbn [fst snd].
  by rewrite pushPropertyLoadNode_move.
Qed.

Lemma collect_instr_move store fn temporaries known t assumed instr :
  collect_instr fn temporaries known
    (move_tree store t, move_ref (length store) <$> assumed) instr
  = prod_map (move_tree store) (fmap (move_ref (length store)))
      (collect_instr fn temporaries known (t, assumed) instr).
Proof.
  unfold collect_instr. destruct (instr_value instr) as [o p|v p|o p|ds|os ls];
    try done.
  - apply push_resolved_move.
  - destruct (optimizations_enabled fn); [|done].
    destruct (temporaries !! _); [|done]. apply push_resolved_move.
  - destruct (optimizations_enabled fn); [|done].
    destruct (temporaries !! _); [|done]. apply push_resolved_move.
Qed.

Lemma collect_instrs_move store fn temporaries known instrs t assumed :
  foldl (collect_instr fn temporaries known)
    (move_tree store t, move_ref (length store) <$> assumed) instrs
  = prod_map (move_tree store) (fmap (move_ref (length store)))
      (foldl (collect_instr fn temporaries known) (t, assumed) instrs).
Proof.
  revert t assumed. induction instrs as [|i instrs IH]; intros t assumed; [done|].
  cbn [foldl]. rewrite collect_instr_move.
  destruct (collect_instr fn temporaries known (t, assumed) i) as [t' a'].
  apply IH.
Qed.

Lemma collect_block_move store fn temporaries optionals known knownNonNull
  t nodes b :
  collect_block fn temporaries optionals known
    (move_ref (length store) <$> knownNonNull)
    (move_tree store t, move_info (length store) <$> nodes) b
  = prod_map (move_tree store) (fmap (move_info (length store)))
      (collect_block fn temporaries optionals known knownNonNull (t, nodes) b).
Proof.
  unfold collect_block. destruct (optionals !! block_id b) as [chain|].
  - rewrite getOrCreateProperty_move.
    destruct (getOrCreateProperty t chain) as [t1 r]. unfold prod_map.
    cbn [fst snd]. rewrite (Set_add_fmap _), fmap_insert. done.
  - rewrite collect_instrs_move.
    destruct (foldl _ (t, knownNonNull) (instructions b)) as [t' assumed].
    unfold prod_map. cbn [fst snd]. by rewrite fmap_insert.
Qed.

Lemma collectNonNullsInBlocks_move store fn temporaries optionals t :
  collectNonNullsInBlocks fn temporaries optionals (move_tree store t)
  = prod_map (move_tree store) (fmap (move_info (length store)))
      (collectNonNullsInBlocks fn temporaries optionals t).
Proof.
  unfold collectNonNullsInBlocks. rewrite knownNonNullIdentifiers_of_move.
  destruct (knownNonNullIdentifiers_of fn t) as [t0 known]. unfold prod_map at 1.
  cbn [fst snd].
  assert (G : ∀ bs t nodes,
    foldl (collect_block fn temporaries optionals (knownImmutableIdentifiers_of fn)
             (move_ref (length store) <$> known))
      (move_tree store t, move_info (length store) <$> nodes) bs
    = prod_map (move_tree store) (fmap (move_info (length store)))
        (foldl (collect_block fn temporaries optionals
                  (knownImmutableIdentifiers_of fn) known) (t, nodes) bs)).
  { induction bs as [|b bs IH]; intros t1 nodes; [done|].
    cbn [foldl]. rewrite collect_block_move.
    destruct (collect_block _ _ _ _ _ (t1, nodes) b) as [t' n']. apply IH. }
  rewrite <- G. by rewrite fmap_empty.
Qed.

(** *** The canonicalizer, moved *)

Lemma rewalk_entries_move store t known c es :
  rewalk_entries (move_tree store t) (move_ref (length store) <$> known)
    (move_ref (length store) c) es
  = prod_map (move_tree store) (move_ref (length store))
      (rewalk_entries t known c es).
Proof.
  revert t c. induction es as [|e es IH]; intros t c; [done|].
  cbn [rewalk_entries]. rewrite (Set_has_fmap _), getOrCreatePropertyEntry_move.
  destruct (getOrCreatePropertyEntry t c _) as [t' next]. apply IH.
Qed.

Lemma rewalk_move store t known original :
  rewalk (move_tree store t) (move_ref (length store) <$> known)
    (move_ref (length store) original)
  = prod_map (move_tree store) (move_ref (length store)) (rewalk t known original).
Proof.
  unfold rewalk. rewrite deref_move. cbn [move_node fullPath].
  rewrite getOrCreateIdentifier_move.
  destruct (getOrCreateIdentifier t _) as [t0 c]. apply rewalk_entries_move.
Qed.

Lemma reduce_body_move store s original rest :
  reduce_body (move_reduce store s) (move_ref (length store) original)
    (move_ref (length store) <$> rest)
  = move_reduce store (reduce_body s original rest).
Proof.
  unfold reduce_body. cbn [move_reduce rs_tree rs_knownNonNulls rs_visited
    rs_nodes rs_changed].
  rewrite rewalk_move.
  destruct (rewalk (rs_tree s) (rs_knownNonNulls s) original) as [t' c].
  unfold prod_map. cbn [fst snd].
  rewrite (bool_decide_ext (move_ref (length store) c ≠ move_ref (length store) original)
             (c ≠ original))
    by (unfold move_ref; lia).
  destruct (bool_decide (c ≠ original)); unfold move_reduce;
    cbn [rs_tree rs_nodes rs_knownNonNulls rs_visited rs_pending rs_changed].
  - rewrite <- fmap_app, (Set_has_fmap _), (Set_delete_fmap _), !(Set_add_fmap _).
    f_equal. destruct (Set_has _ c); [done|]. by rewrite fmap_app.
  - by rewrite fmap_app.
Qed.

Lemma reduce_for_move store fuel s :
  reduce_for fuel (move_reduce store s) = move_reduce store <$> reduce_for fuel s.
Proof.
  revert s. induction fuel as [|fuel IH]; intros s; [done|].
  cbn [reduce_for]. cbn [move_reduce rs_pending].
  destruct (rs_pending s) as [|original rest] eqn:Hp; [done|].
  rewrite fmap_cons.
  change {| rs_tree := move_tree store (rs_tree s);
            rs_nodes := move_ref (length store) <$> rs_nodes s;
            rs_knownNonNulls := move_ref (length store) <$> rs_knownNonNulls s;
            rs_visited := move_ref (length store) <$> rs_visited s;
            rs_pending := move_ref (length store) <$> rs_pending s;
            rs_changed := rs_changed s |} with (move_reduce store s).
  by rewrite reduce_body_move, IH.
Qed.

Lemma reduce_loop_move store fuel t (nodes known ocn : list NodeRef) :
  reduce_loop fuel (move_tree store t) (move_ref (length store) <$> nodes)
    (move_ref (length store) <$> known) (move_ref (length store) <$> ocn)
  = prod_map (fmap (M := list) (move_ref (length store))) (move_tree store)
    <$> reduce_loop fuel t nodes known ocn.
Proof.
  revert t nodes known ocn. induction fuel as [|fuel IH]; intros t nodes known ocn;
    [done|].
  cbn [reduce_loop].
  set (s0 := {| rs_tree := t; rs_nodes := nodes; rs_knownNonNulls := known;
                rs_visited := []; rs_pending := ocn; rs_changed := false |}).
  pose proof (reduce_for_move store (S fuel) s0) as Hf.
  unfold move_reduce at 1 in Hf.
  cbn [s0 rs_tree rs_nodes rs_knownNonNulls rs_visited rs_pending rs_changed] in Hf.
  rewrite fmap_nil in Hf. rewrite Hf.
  destruct (reduce_for (S fuel) s0) as [s|]; [|done].
  cbn [fmap option_fmap option_map move_reduce rs_changed rs_tree rs_nodes
       rs_knownNonNulls].
  destruct (rs_changed s); [|done].
  unfold rs_optionalChainNodes. cbn [move_reduce rs_visited rs_pending].
  rewrite <- fmap_app. apply IH.
Qed.

Lemma reduceMaybeOptionalChains_move store fuel (nodes : list NodeRef) t :
  reduceMaybeOptionalChains fuel (move_ref (length store) <$> nodes)
    (move_tree store t)
  = prod_map (fmap (M := list) (move_ref (length store))) (move_tree store)
    <$> reduceMaybeOptionalChains fuel nodes t.
Proof.
  unfold reduceMaybeOptionalChains.
  rewrite (Set_filter_fmap (move_ref (length store)) nodes _
             (λ n, hasOptional (deref t n)))
    by (intros x; by rewrite deref_move).
  rewrite length_fmap.
  destruct (length _ =? 0)%nat; [done|]. apply reduce_loop_move.
Qed.

(** *** The propagator, moved *)

Lemma neighbor_sets_move store st neighbors :
  neighbor_sets (move_state store st) neighbors
  = move_outcome (fmap (M := list) (fmap (M := list) (move_ref (length store))))
      (neighbor_sets st neighbors).
Proof.
  induction neighbors as [|n rest IH]; [done|].
  cbn [neighbor_sets]. cbn [move_state traversalState st_nodes].
  destruct (decide (traversalState st !! n = Some done)); [|apply IH].
  rewrite lookup_fmap. destruct (st_nodes st !! n) as [info|]; [|done].
  cbn [fmap option_fmap option_map assertNonNull mbind outcome_bind].
  change {| traversalState := traversalState st;
            st_nodes := move_info (length store) <$> st_nodes st;
            st_tree := move_tree store (st_tree st) |} with (move_state store st).
  rewrite IH. by destruct (neighbor_sets st rest).
Qed.

Lemma merge_block_move store fuel nodeId neighbors changed st :
  merge_block fuel nodeId neighbors changed (move_state store st)
  = move_outcome (λ r : bool * PropState, (r.1, move_state store r.2))
      (merge_block fuel nodeId neighbors changed st).
Proof.
  unfold merge_block. rewrite neighbor_sets_move.
  destruct (neighbor_sets st neighbors) as [sets|e|]; [|done..].
  cbn [move_outcome mbind outcome_bind]. cbn [move_state st_nodes st_tree].
  rewrite lookup_fmap. destruct (st_nodes st !! nodeId) as [info|]; [|done].
  cbn [fmap option_fmap option_map assertNonNull mbind outcome_bind].
  cbn [move_info assumedNonNullObjects block].
  rewrite (Set_intersect_fmap _), (Set_union_fmap _),
    reduceMaybeOptionalChains_move.
  destruct (reduceMaybeOptionalChains fuel _ (st_tree st)) as [[merged t']|];
    [|done].
  cbn [fmap option_fmap option_map of_option mbind outcome_bind prod_map fst snd
       move_outcome].
  rewrite (Set_equal_fmap _). do 2 f_equal.
  unfold move_state. cbn [traversalState st_nodes st_tree]. f_equal.
  by rewrite fmap_insert.
Qed.

Lemma visit_all_move store
  (v : BlockId → PropState → outcome (bool * PropState)) xs changed st :
  (∀ x st, v x (move_state store st)
           = move_outcome (λ r : bool * PropState, (r.1, move_state store r.2))
               (v x st)) →
  visit_all v xs changed (move_state store st)
  = move_outcome (λ r : bool * PropState, (r.1, move_state store r.2))
      (visit_all v xs changed st).
Proof.
  intros Hv. revert changed st. induction xs as [|x xs IH]; intros changed st;
    [done|].
  cbn [visit_all]. rewrite Hv. destruct (v x st) as [[c st']|e|]; [|done..].
  cbn [move_outcome mbind outcome_bind fst snd]. apply IH.
Qed.

Lemma unless_visited_move store
  (v : BlockId → PropState → outcome (bool * PropState)) x st :
  (∀ x st, v x (move_state store st)
           = move_outcome (λ r : bool * PropState, (r.1, move_state store r.2))
               (v x st)) →
  unless_visited v x (move_state store st)
  = move_outcome (λ r : bool * PropState, (r.1, move_state store r.2))
      (unless_visited v x st).
Proof.
  intros Hv. unfold unless_visited. cbn [move_state traversalState].
  destruct (decide (is_Some (traversalState st !! x))); [done|]. apply Hv.
Qed.

Lemma recursivelyPropagateNonNull_move store fuel succs d n st :
  recursivelyPropagateNonNull fuel succs d n (move_state store st)
  = move_outcome (λ r : bool * PropState, (r.1, move_state store r.2))
      (recursivelyPropagateNonNull fuel succs d n st).
Proof.
  revert n st. induction fuel as [|fuel IH]; intros n st; [done|].
  cbn [recursivelyPropagateNonNull].
  change (traversalState (move_state store st)) with (traversalState st).
  destruct (decide (is_Some (traversalState st !! n))); [done|].
  change (set_status n active (move_state store st))
    with (move_state store (set_status n active st)).
  change (st_nodes (move_state store (set_status n active st)))
    with (move_info (length store) <$> st_nodes st).
  rewrite lookup_fmap.
  change (st_nodes (set_status n active st)) with (st_nodes st).
  destruct (st_nodes st !! n) as [node|]; [|done].
  cbn [fmap option_fmap option_map].
  change (neighbors_of succs d n (move_info (length store) node))
    with (neighbors_of succs d n node).
  rewrite (visit_all_move store _ _ _ _
             (λ x s, unless_visited_move store _ x s IH)).
  destruct (visit_all _ (neighbors_of succs d n node) false _) as [[c st']|e|];
    [|done..].
  cbn [move_outcome mbind outcome_bind fst snd]. apply merge_block_move.
Qed.

Lemma sweep_both_move store fuel fn succs st :
  sweep_both fuel fn succs (move_state store st)
  = move_outcome (λ r : bool * PropState, (r.1, move_state store r.2))
      (sweep_both fuel fn succs st).
Proof.
  unfold sweep_both.
  rewrite (visit_all_move store _ _ _ _
             (recursivelyPropagateNonNull_move store fuel succs forward)).
  destruct (visit_all _ (blocks fn).*1 false st) as [[c st1]|e|]; [|done..].
  cbn [move_outcome mbind outcome_bind fst snd].
  change (clear_traversal (move_state store st1))
    with (move_state store (clear_traversal st1)).
  rewrite (visit_all_move store _ _ _ _
             (recursivelyPropagateNonNull_move store fuel succs backward)).
  by destruct (visit_all _ (reverse (blocks fn)).*1 c _) as [[c' st2]|e|].
Qed.

Lemma fixpoint_loop_move store fuel fn succs remaining st :
  fixpoint_loop fuel fn succs remaining (move_state store st)
  = move_outcome (move_state store) (fixpoint_loop fuel fn succs remaining st).
Proof.
  revert st. induction remaining as [|remaining IH]; intros st; [done|].
  cbn [fixpoint_loop]. rewrite sweep_both_move.
  destruct (sweep_both fuel fn succs st) as [[c st']|e|]; [|done..].
  cbn [move_outcome mbind outcome_bind fst snd]. destruct c; [apply IH|done].
Qed.

Lemma propagateNonNull_move store fuel fn nodes t :
  propagateNonNull fuel fn (move_info (length store) <$> nodes) (move_tree store t)
  = move_outcome (prod_map (fmap (move_info (length store))) (move_tree store))
      (propagateNonNull fuel fn nodes t).
Proof.
  unfold propagateNonNull.
  change {| traversalState := ∅;
            st_nodes := move_info (length store) <$> nodes;
            st_tree := move_tree store t |}
    with (move_state store {| traversalState := ∅; st_nodes := nodes; st_tree := t |}).
  rewrite fixpoint_loop_move.
  by destruct (fixpoint_loop _ _ _ _ _) as [st|e|].
Qed.

(** *** The entry point, moved *)

Lemma Map_set_move {V W} (g : V → W) (m : list (N * V)) k v :
  Map_set ((λ e : N * V, (e.1, g e.2)) <$> m) k (g v)
  = (λ e : N * V, (e.1, g e.2)) <$> Map_set m k v.
Proof.
  induction m as [|[k' v'] m IH]; [done|].
  rewrite fmap_cons. cbn [Map_set fst snd].
  destruct (decide (k' = k)); [done|]. by rewrite IH.
Qed.

Lemma nodesKeyedByScopeId_of_move k fn nodes :
  nodesKeyedByScopeId_of fn (move_info k <$> nodes)
  = (λ e : ScopeId * option BlockInfo, (e.1, move_info k <$> e.2))
    <$> nodesKeyedByScopeId_of fn nodes.
Proof.
  unfold nodesKeyedByScopeId_of.
  change (@nil (ScopeId * option BlockInfo))
    with ((λ e : ScopeId * option BlockInfo, (e.1, move_info k <$> e.2))
          <$> (@nil (ScopeId * option BlockInfo))) at 1.
  generalize (@nil (ScopeId * option BlockInfo)).
  induction ((blocks fn).*2) as [|b bs IH]; intros acc; [done|].
  cbn [foldl]. destruct (terminal b) as [scope blockId| | |]; try apply IH.
  rewrite lookup_fmap, (Map_set_move (fmap (move_info k))). apply IH.
Qed.

Lemma move_tree_new store : move_tree store Tree_new = Tree_new_in store.
Proof.
  unfold move_tree, Tree_new, Tree_new_in. cbn [heap roots].
  by rewrite fmap_nil, app_nil_r, fmap_empty.
Qed.

(** A run in the store [store] is the run in the empty store, moved behind
    the objects of [store]. *)
Lemma collectHoistablePropertyLoads_in_move store fuel fn temporaries optionals :
  collectHoistablePropertyLoads_in store fuel fn temporaries optionals
  = move_outcome (move_table store)
      (collectHoistablePropertyLoads fuel fn temporaries optionals).
Proof.
  unfold collectHoistablePropertyLoads_in, collectHoistablePropertyLoads.
  destruct (collectFunctionExpressionRValues fuel fn) as [refs|]; [|done].
  cbn [of_option mbind outcome_bind].
  rewrite <- (move_tree_new store).
  rewrite collectNonNullsInBlocks_move.
  destruct (collectNonNullsInBlocks fn _ optionals Tree_new) as [t1 nodes].
  cbn [prod_map fst snd]. rewrite propagateNonNull_move.
  destruct (propagateNonNull fuel fn nodes t1) as [[nodes' t2]|e|]; [|done..].
  cbn [move_outcome mbind outcome_bind prod_map fst snd].
  unfold move_table. cbn [fst snd]. by rewrite nodesKeyedByScopeId_of_move.
Qed.

Lemma same_outcome_moved h1 h2 r :
  r ≠ OutOfFuel →
  same_outcome h1 h2 (move_outcome (move_table h1) r)
    (move_outcome (move_table h2) r).
Proof.
  destruct r as [[table t]|e|]; [|done..]. intros _.
  cbn [move_outcome move_table same_outcome fst snd].
  split_and!.
  - apply Forall2_fmap, Forall_Forall2_diag, Forall_forall.
    intros [s info] _. split; [done|]. cbn [snd].
    destruct info as [info|]; constructor. split; [done|].
    cbn [move_info assumedNonNullObjects].
    apply Forall2_fmap, Forall_Forall2_diag, Forall_forall.
    intros n _. exists n. split_and!; [done..|]. by rewrite !deref_move.
  - unfold move_tree. cbn [heap]. by rewrite take_app_length.
  - unfold move_tree. cbn [heap]. by rewrite take_app_length.
Qed.




(** ** More on the path trie *)

(** The node of a dependency in a well-formed trie records the identifier of
    the root node above it. *)
Lemma find_dep_identifier t i p x r0 :
  wf_tree t → roots t !! i = Some r0 → find_dep t i p = Some x →
  identifier (fullPath (deref t x)) = identifier (fullPath (deref t r0)).
Proof.
  intros W Hr F. destruct (find_dep_root _ _ _ _ F) as (r & Hr' & Fp).
  assert (r = r0) as -> by congruence.
  destruct (wf_roots _ W _ _ Hr) as (n0 & Hn0 & _).
  destruct (find_path_node _ _ _ _ _ W Hn0 Fp) as (xn & Hx & Ix & _).
  by rewrite (deref_lookup _ _ _ Hx), (deref_lookup _ _ _ Hn0).
Qed.

(** Dependencies that differ in the id of their root identifier or in their
    path (a property name, or the optionality of a segment) resolve to
    different node objects. *)
Theorem resolve_distinct_nodes t d d' t1 r1 t2 r2 :
  wf_tree t →
  getOrCreateProperty t d = (t1, r1) →
  getOrCreateProperty t1 d' = (t2, r2) →
  id (identifier d) ≠ id (identifier d') ∨ path d ≠ path d' →
  r1 ≠ r2.
Proof.
  intros W H1 H2 Hne ->.
  destruct (getOrCreateProperty_spec _ _ _ _ W H1) as (W1 & E1 & F1).
  destruct (getOrCreateProperty_spec _ _ _ _ W1 H2) as (W2 & E2 & F2).
  pose proof (find_dep_ext _ _ _ _ _ W1 E2 F1) as F1'.
  destruct (find_dep_node _ _ _ _ W2 F1') as (n1 & Hn1 & I1 & P1).
  destruct (find_dep_node _ _ _ _ W2 F2) as (n2 & Hn2 & I2 & P2).
  assert (n1 = n2) as -> by congruence.
  destruct Hne as [Hne|Hne]; apply Hne; congruence.
Qed.

Lemma resolve_distinct_nodes_witness :
  (getOrCreateProperty Tree_new dep_a_b).2
  ≠ (getOrCreateProperty (getOrCreateProperty Tree_new dep_a_b).1 dep_a_optb_c).2.
Proof.
  apply (resolve_distinct_nodes Tree_new dep_a_b dep_a_optb_c _ _ _ _
           wf_tree_new (surjective_pairing _) (surjective_pairing _)).
  right. discriminate.
Defined.

(** The node that a resolve returns records the dependency it stands for: the
    id of the root identifier, the path, and whether a segment of the path is
    optional. Its [Identifier] object is the one of the first resolve of that
    id: an identifier object that comes later with the same id does not
    replace it. *)
Theorem resolve_records_dependency t d t' r :
  wf_tree t →
  getOrCreateProperty t d = (t', r) →
  ∃ n, heap t' !! r = Some n
    ∧ id (identifier (fullPath n)) = id (identifier d)
    ∧ path (fullPath n) = path d
    ∧ hasOptional n = existsb optional (path d)
    ∧ identifier (fullPath n)
      = match roots t !! id (identifier d) with
        | Some r0 => identifier (fullPath (deref t r0))
        | None => identifier d
        end.
Proof.
  intros W H.
  destruct (getOrCreateProperty_spec _ _ _ _ W H) as (W' & E' & F').
  destruct (find_dep_node _ _ _ _ W' F') as (n & Hn & In & Pn).
  exists n. split_and!; [done..| |].
  - by rewrite (wf_hasOptional _ W' _ _ Hn), Pn.
  - destruct (find_dep_root _ _ _ _ F') as (r' & Hr' & _).
    pose proof (find_dep_identifier _ _ _ _ _ W' Hr' F') as Hi.
    rewrite (deref_lookup _ _ _ Hn) in Hi. rewrite Hi.
    destruct (roots t !! id (identifier d)) as [r0|] eqn:Hr0.
    + pose proof (ext_roots _ _ E' _ _ Hr0) as Hr0'.
      assert (r' = r0) as -> by congruence.
      destruct (wf_roots _ W _ _ Hr0) as (n0 & Hn0 & _).
      by rewrite (extends_fullPath _ _ _ E' (lookup_lt_Some _ _ _ Hn0)).
    + rewrite getOrCreateProperty_walk in H.
      destruct (getOrCreateIdentifier t (identifier d)) as [t0 c] eqn:H0.
      pose proof H0 as H0'. unfold getOrCreateIdentifier in H0'.
      rewrite Hr0 in H0'. injection H0' as <- <-.
      destruct (getOrCreateIdentifier_wf _ _ _ _ W H0) as (W0 & R0 & n0 & Hn0 & _).
      destruct (walk_entries_spec _ _ _ _ _ _ W0 Hn0 H) as (_ & E0 & _).
      pose proof (ext_roots _ _ E0 _ _ R0) as R0'.
      assert (r' = length (heap t)) as -> by congruence.
      rewrite (extends_fullPath _ _ _ E0 (lookup_lt_Some _ _ _ Hn0)).
      rewrite (deref_lookup _ _ _ Hn0).
      simpl in Hn0. rewrite lookup_app_r in Hn0 by lia.
      rewrite Nat.sub_diag in Hn0. by injection Hn0 as <-.
Qed.

Lemma resolve_records_dependency_witness :
  ∃ n, heap (getOrCreateProperty (getOrCreateProperty Tree_new dep_a_b).1 dep_a_b').1
         !! (getOrCreateProperty (getOrCreateProperty Tree_new dep_a_b).1 dep_a_b').2
       = Some n
    ∧ id (identifier (fullPath n)) = id (identifier dep_a_b')
    ∧ path (fullPath n) = path dep_a_b'
    ∧ hasOptional n = existsb optional (path dep_a_b')
    ∧ identifier (fullPath n) = ident 1.
Proof.
  exact (resolve_records_dependency (getOrCreateProperty Tree_new dep_a_b).1 dep_a_b'
           _ _ (proj1 (getOrCreateProperty_spec _ _ _ _ wf_tree_new
                         (surjective_pairing _)))
           (surjective_pairing _)).
Defined.

(** ** More on the local fact extractor *)

(** The scan of a block adds nothing but the nodes of the sources of its
    reads that pass the test of [pushPropertyLoadNode]. *)
Lemma collect_instrs_sound fn temporaries known instrs t assumed t' assumed' x :
  wf_tree t → valid_set t assumed →
  foldl (collect_instr fn temporaries known) (t, assumed) instrs = (t', assumed') →
  x ∈ assumed' →
  x ∈ assumed
  ∨ ∃ instr source, instr ∈ instrs
      ∧ read_source fn temporaries instr = Some source
      ∧ find_dep t' (id (identifier source)) (path source) = Some x
      ∧ admitted (identifier (fullPath (deref t' x))) (instr_id instr) known = true.
Proof.
  revert t assumed. induction instrs as [|i instrs IH]; intros t assumed W V;
    cbn [foldl].
  - intros [= <- <-] Hx. by left.
  - destruct (collect_instr fn temporaries known (t, assumed) i) as [t1 a1] eqn:H1.
    intros H Hx.
    destruct (collect_instr_spec _ _ _ _ _ _ _ _ W V H1) as (W1 & E1 & V1 & _).
    destruct (collect_instrs_spec _ _ _ _ _ _ _ _ W1 V1 H) as (W' & E' & _).
    destruct (IH t1 a1 W1 V1 H Hx) as [Ha1|(instr & source & Hin & Hs & F & A)].
    + rewrite collect_instr_read_source in H1.
      destruct (read_source fn temporaries i) as [source|] eqn:Hs.
      * destruct (getOrCreateProperty t source) as [t1' r] eqn:Hg.
        injection H1 as -> <-.
        destruct (getOrCreateProperty_spec _ _ _ _ W Hg) as (_ & _ & F).
        rewrite pushPropertyLoadNode_admitted in Ha1.
        destruct (admitted _ _ _) eqn:A; [|by left].
        apply elem_of_Set_add in Ha1 as [?| ->]; [by left|].
        right. exists i, source. split_and!; [apply list_elem_of_here|done| |].
        -- by apply (find_dep_ext t1).
        -- by rewrite (extends_fullPath _ _ _ E' (find_dep_valid _ _ _ _ W1 F)).
      * injection H1 as -> <-. by left.
    + right. exists instr, source. split_and!; [by apply list_elem_of_further|done..].
Qed.

(** The iteration of a block in [collectNonNullsInBlocks], taken out of the
    loop: the entry of a block is the one its own iteration writes. *)
Lemma collect_blocks_at fn temporaries optionals known nonNull bs t nodes t' nodes' b :
  wf_tree t → valid_set t nonNull → NoDup nonNull → wf_nodes t nodes →
  foldl (collect_block fn temporaries optionals known nonNull) (t, nodes) bs
    = (t', nodes') →
  NoDup (block_id <$> bs) → b ∈ bs →
  ∃ ta nodesa tb nodesb,
    wf_tree ta ∧ extends t ta ∧ valid_set ta nonNull
    ∧ collect_block fn temporaries optionals known nonNull (ta, nodesa) b
      = (tb, nodesb)
    ∧ wf_tree tb ∧ extends tb t'
    ∧ nodes' !! block_id b = nodesb !! block_id b.
Proof.
  revert t nodes. induction bs as [|b0 bs IH]; intros t nodes W V D Wn;
    cbn [foldl].
  - intros _ _ []%elem_of_nil.
  - destruct (collect_block fn temporaries optionals known nonNull (t, nodes) b0)
      as [t1 n1] eqn:H1. intros H.
    destruct (collect_block_spec _ _ _ _ _ _ _ _ _ _ W V D Wn H1)
      as (W1 & E1 & Wn1 & _).
    pose proof (extends_valid_set _ _ _ E1 V) as V1.
    destruct (collect_blocks_spec _ _ _ _ _ _ _ _ _ _ W1 V1 D Wn1 H)
      as (W' & E' & _ & O' & _).
    rewrite fmap_cons. intros [Hnb Hnd]%NoDup_cons [->|Hb]%elem_of_cons.
    + exists t, nodes, t1, n1.
      split_and!; [done|apply extends_refl|done..|by apply O'].
    + destruct (IH t1 n1 W1 V1 D Wn1 H Hnd Hb)
        as (ta & na & tb & nb & Wa & Ea & Va & Hc & Wb & Eb & Hl).
      exists ta, na, tb, nb. split_and!; try done. by eapply extends_trans.
Qed.

(** In a block that [optionals] has no entry for, every member of the local
    fact set is a known-non-null root or the node of the source of a read of
    the block that passed the test of [pushPropertyLoadNode]: the extractor
    records no node that the block does not read from. In particular, without
    ['enabled_with_optimizations'] a [Destructure] or a [ComputedLoad]
    contributes nothing. *)
Theorem local_facts_are_reads fn temporaries optionals t t' nodes b info x :
  wf_tree t →
  NoDup (block_id <$> (blocks fn).*2) →
  collectNonNullsInBlocks fn temporaries optionals t = (t', nodes) →
  b ∈ (blocks fn).*2 →
  optionals !! block_id b = None →
  nodes !! block_id b = Some info →
  x ∈ assumedNonNullObjects info →
  x ∈ (knownNonNullIdentifiers_of fn t).2
  ∨ ∃ instr source,
      instr ∈ instructions b
      ∧ read_source fn temporaries instr = Some source
      ∧ find_dep t' (id (identifier source)) (path source) = Some x
      ∧ admitted (identifier (fullPath (deref t' x))) (instr_id instr)
          (knownImmutableIdentifiers_of fn) = true.
Proof.
  intros W ND. unfold collectNonNullsInBlocks.
  destruct (knownNonNullIdentifiers_of fn t) as [t0 nonNull] eqn:H0.
  intros H Hb Ho Hi Hx.
  destruct (knownNonNullIdentifiers_of_spec _ _ _ _ W H0) as (W0 & E0 & V0 & D0).
  assert (Wn0 : wf_nodes t0 ∅) by (intros k i; by rewrite lookup_empty).
  destruct (collect_blocks_at _ _ _ _ _ _ _ _ _ _ _ W0 V0 D0 Wn0 H ND Hb)
    as (ta & na & tb & nb & Wa & Ea & Va & Hc & Wb & Eb & Hl).
  unfold collect_block in Hc. rewrite Ho in Hc.
  destruct (foldl (collect_instr _ _ _) _ _) as [t1 a1] eqn:H1.
  injection Hc as <- <-.
  rewrite Hl, lookup_insert_eq in Hi. injection Hi as <-. simpl in Hx.
  destruct (collect_instrs_spec _ _ _ _ _ _ _ _ Wa Va H1) as (W1 & _).
  destruct (collect_instrs_sound _ _ _ _ _ _ _ _ _ Wa Va H1 Hx)
    as [?|(instr & source & Hin & Hs & F & A)]; [by left|right].
  exists instr, source. split_and!; [done..| |].
  - by apply (find_dep_ext t1).
  - by rewrite (extends_fullPath _ _ _ Eb (find_dep_valid _ _ _ _ W1 F)).
Qed.

Lemma local_facts_are_reads_witness :
  0 ∈ (knownNonNullIdentifiers_of (props_fn Component) Tree_new).2
  ∨ ∃ instr source,
      instr ∈ instructions props_block
      ∧ read_source (props_fn Component) ∅ instr = Some source
      ∧ find_dep (collectNonNullsInBlocks (props_fn Component) ∅ ∅ Tree_new).1
          (id (identifier source)) (path source) = Some 0
      ∧ admitted
          (identifier (fullPath
             (deref (collectNonNullsInBlocks (props_fn Component) ∅ ∅ Tree_new).1 0)))
          (instr_id instr) (knownImmutableIdentifiers_of (props_fn Component)) = true.
Proof.
  apply (local_facts_are_reads (props_fn Component) ∅ ∅ Tree_new
           (collectNonNullsInBlocks (props_fn Component) ∅ ∅ Tree_new).1
           (collectNonNullsInBlocks (props_fn Component) ∅ ∅ Tree_new).2 props_block
           {| block := props_block; assumedNonNullObjects := [0] |} 0 wf_tree_new).
  - apply NoDup_singleton.
  - apply surjective_pairing.
  - apply list_elem_of_here.
  - reflexivity.
  - vm_compute. reflexivity.
  - apply list_elem_of_here.
Defined.

(** A block that [optionals] maps to a chain gets the known-non-null roots
    and the node of the chain, and nothing else: its instructions are not
    scanned. *)
Theorem optional_block_facts fn temporaries optionals t t' nodes b chain :
  wf_tree t →
  NoDup (block_id <$> (blocks fn).*2) →
  collectNonNullsInBlocks fn temporaries optionals t = (t', nodes) →
  b ∈ (blocks fn).*2 →
  optionals !! block_id b = Some chain →
  ∃ r, find_dep t' (id (identifier chain)) (path chain) = Some r
    ∧ nodes !! block_id b
      = Some {| block := b;
                assumedNonNullObjects :=
                  Set_add (knownNonNullIdentifiers_of fn t).2 r |}.
Proof.
  intros W ND. unfold collectNonNullsInBlocks.
  destruct (knownNonNullIdentifiers_of fn t) as [t0 nonNull] eqn:H0.
  intros H Hb Ho.
  destruct (knownNonNullIdentifiers_of_spec _ _ _ _ W H0) as (W0 & E0 & V0 & D0).
  assert (Wn0 : wf_nodes t0 ∅) by (intros k i; by rewrite lookup_empty).
  destruct (collect_blocks_at _ _ _ _ _ _ _ _ _ _ _ W0 V0 D0 Wn0 H ND Hb)
    as (ta & na & tb & nb & Wa & Ea & Va & Hc & Wb & Eb & Hl).
  unfold collect_block in Hc. rewrite Ho in Hc.
  destruct (getOrCreateProperty ta chain) as [t1 r] eqn:H1. injection Hc as <- <-.
  destruct (getOrCreateProperty_spec _ _ _ _ Wa H1) as (W1 & _ & F).
  exists r. split; [by apply (find_dep_ext t1)|].
  by rewrite Hl, lookup_insert_eq.
Qed.

Lemma optional_block_facts_witness :
  ∃ r, find_dep (collectNonNullsInBlocks optimized_fn ∅ optimized_optionals Tree_new).1
         (id (identifier dep_a_optb_c)) (path dep_a_optb_c) = Some r
    ∧ (collectNonNullsInBlocks optimized_fn ∅ optimized_optionals Tree_new).2 !! 1%N
      = Some {| block := {| block_id := 1; instructions := [read_y_x];
                            terminal := TerminalReturn; preds := [0%N] |};
                assumedNonNullObjects :=
                  Set_add (knownNonNullIdentifiers_of optimized_fn Tree_new).2 r |}.
Proof.
  apply (optional_block_facts optimized_fn ∅ optimized_optionals Tree_new
           (collectNonNullsInBlocks optimized_fn ∅ optimized_optionals Tree_new).1
           (collectNonNullsInBlocks optimized_fn ∅ optimized_optionals Tree_new).2
           {| block_id := 1; instructions := [read_y_x];
              terminal := TerminalReturn; preds := [0%N] |} dep_a_optb_c wf_tree_new).
  - apply (bool_decide_unpack _). vm_compute. exact I.
  - apply surjective_pairing.
  - apply list_elem_of_further, list_elem_of_here.
  - reflexivity.
Defined.

(** The entry that the iteration of a block writes holds the known-non-null
    roots; the other entries are left as they are. *)
Lemma collect_block_known fn temporaries optionals known nonNull t nodes b t' nodes' :
  wf_tree t → valid_set t nonNull →
  collect_block fn temporaries optionals known nonNull (t, nodes) b = (t', nodes') →
  ∀ k info, nodes' !! k = Some info →
    nodes !! k = Some info ∨ ∀ x, x ∈ nonNull → x ∈ assumedNonNullObjects info.
Proof.
  intros W V. unfold collect_block.
  destruct (optionals !! block_id b) as [chain|].
  - destruct (getOrCreateProperty t chain) as [t1 r]. intros [= <- <-] k info.
    rewrite lookup_insert. case_decide; [|by left].
    intros [= <-]. right. intros x Hx. apply elem_of_Set_add. by left.
  - destruct (foldl _ _ _) as [t1 a1] eqn:H1. intros [= <- <-] k info.
    rewrite lookup_insert. case_decide; [|by left].
    intros [= <-]. right.
    by destruct (collect_instrs_spec _ _ _ _ _ _ _ _ W V H1) as (_ & _ & _ & S1 & _).
Qed.

(** In a component compiled with ['enabled_with_optimizations'] whose first
    parameter is an identifier, the root node of that parameter is in the
    local fact set of every block, whatever the block reads. *)
Theorem first_param_in_every_block fn temporaries optionals t t' nodes pl rest :
  wf_tree t →
  fnType fn = Component →
  enablePropagateDepsInHIR fn = "enabled_with_optimizations" →
  params fn = ParamIdentifier pl :: rest →
  collectNonNullsInBlocks fn temporaries optionals t = (t', nodes) →
  ∃ r, roots t' !! id (place_identifier pl) = Some r
    ∧ ∀ k info, nodes !! k = Some info → r ∈ assumedNonNullObjects info.
Proof.
  intros W Hty Hen Hpar. unfold collectNonNullsInBlocks.
  destruct (knownNonNullIdentifiers_of fn t) as [t0 nonNull] eqn:H0.
  intros H.
  destruct (knownNonNullIdentifiers_of_spec _ _ _ _ W H0) as (W0 & E0 & V0 & D0).
  unfold knownNonNullIdentifiers_of, optimizations_enabled in H0.
  rewrite Hty, Hpar, Hen in H0. simpl in H0.
  destruct (getOrCreateIdentifier t (place_identifier pl)) as [t1 r] eqn:H1.
  injection H0 as -> <-.
  destruct (getOrCreateIdentifier_wf _ _ _ _ W H1) as (_ & Hr & _).
  assert (Wn0 : wf_nodes t0 ∅) by (intros k i; by rewrite lookup_empty).
  destruct (collect_blocks_spec _ _ _ _ _ _ _ _ _ _ W0 V0 D0 Wn0 H) as (_ & E' & _).
  exists r. split; [by apply (ext_roots _ _ E')|].
  assert (G : ∀ bs t nodes t' nodes',
    wf_tree t → valid_set t [r] → wf_nodes t nodes →
    (∀ k info, nodes !! k = Some info → r ∈ assumedNonNullObjects info) →
    foldl (collect_block fn temporaries optionals (knownImmutableIdentifiers_of fn)
             [r]) (t, nodes) bs = (t', nodes') →
    ∀ k info, nodes' !! k = Some info → r ∈ assumedNonNullObjects info).
  { clear. induction bs as [|b bs IH]; intros t nodes t' nodes' W V Wn I;
      cbn [foldl].
    - by intros [= <- <-].
    - destruct (collect_block _ _ _ _ _ (t, nodes) b) as [t1 n1] eqn:H1. intros H.
      destruct (collect_block_spec _ _ _ _ _ _ _ _ _ _ W V (NoDup_singleton r) Wn H1)
        as (W1 & E1 & Wn1 & _).
      apply (IH t1 n1 t' nodes' W1 (extends_valid_set _ _ _ E1 V) Wn1); [|done].
      intros k info Hk.
      destruct (collect_block_known _ _ _ _ _ _ _ _ _ _ W V H1 k info Hk) as [?|S].
      + by eapply I.
      + apply S, list_elem_of_here. }
  apply (G (blocks fn).*2 t0 ∅ t' nodes W0 V0 Wn0); [|exact H].
  intros k info. by rewrite lookup_empty.
Qed.

Lemma first_param_in_every_block_witness :
  ∃ r, roots (collectNonNullsInBlocks optimized_fn ∅ optimized_optionals Tree_new).1
         !! id props_identifier = Some r
    ∧ ∀ k info,
        (collectNonNullsInBlocks optimized_fn ∅ optimized_optionals Tree_new).2 !! k
        = Some info → r ∈ assumedNonNullObjects info.
Proof.
  exact (first_param_in_every_block optimized_fn ∅ optimized_optionals Tree_new _ _
           {| place_identifier := props_identifier |} [] wf_tree_new
           eq_refl eq_refl eq_refl (surjective_pairing _)).
Defined.

(** ** More on the optional-chain canonicalizer *)

Lemma relaxes_trans e1 e2 e3 : relaxes e1 e2 → relaxes e2 e3 → relaxes e1 e3.
Proof.
  intros [->|[H1 ->]] [->|[H2 ->]]; [by left|by right|by right|done].
Qed.

Lemma relaxed_node_refl t x : relaxed_node t x x.
Proof. split; [done|]. apply Forall2_same_length_lookup_2; [done|].
  intros i a b Ha Hb. left. congruence. Qed.

Lemma relaxed_node_trans t x y z :
  relaxed_node t x y → relaxed_node t y z → relaxed_node t x z.
Proof.
  intros [I1 P1] [I2 P2]. split; [congruence|].
  eapply Forall2_trans; [|done..]. intros ???. apply relaxes_trans.
Qed.

Lemma relaxed_node_extends t t' x y :
  extends t t' → x < length (heap t) → y < length (heap t) →
  relaxed_node t x y → relaxed_node t' x y.
Proof.
  intros E Hx Hy [I P]. unfold relaxed_node.
  by rewrite (extends_fullPath _ _ _ E Hx), (extends_fullPath _ _ _ E Hy).
Qed.

(** The node that the re-walk of [original] ends at stands for a relaxed
    path of [original]. *)
Lemma rewalk_relaxed t K o t' r :
  wf_tree t → o < length (heap t) → rewalk t K o = (t', r) →
  relaxed_node t' o r.
Proof.
  intros W Ho H. destruct (lookup_lt_is_Some_2 _ _ Ho) as [n Hn].
  destruct (rewalk_spec _ _ _ _ _ _ W Hn H)
    as (_ & E & r0 & rn & _ & _ & Hrn & I & _ & R).
  unfold relaxed_node.
  rewrite (extends_fullPath _ _ _ E Ho), (deref_lookup _ _ _ Hn),
    (deref_lookup _ _ _ Hrn). done.
Qed.

Lemma Set_delete_length (s : list nat) x :
  x ∈ s → length (Set_delete s x) < length s.
Proof.
  unfold Set_delete. induction s as [|y s IH]; [by intros []%elem_of_nil|].
  rewrite filter_cons. intros Hx. case_decide as Hy; simpl.
  - apply elem_of_cons in Hx as [->|Hx]; [done|]. specialize (IH Hx). lia.
  - pose proof (length_filter (fun y => y ≠ x) s). lia.
Qed.

Lemma reduce_body_track nodes0 s original rest :
  reduce_inv s → reduce_track nodes0 s → rs_pending s = original :: rest →
  reduce_track nodes0 (reduce_body s original rest).
Proof.
  intros I T Hp.
  destruct (reduce_body_spec s original rest I Hp) as (I' & E' & _).
  pose proof (ri_pending _ I) as Vp. rewrite Hp in Vp.
  apply Forall_cons in Vp as [Ho Vrest].
  destruct T as [Tv Tf Tt Tc Tcn Tn Tl].
  assert (Hon : original ∈ rs_nodes s).
  { apply Tc. rewrite Hp. apply elem_of_app. right. apply list_elem_of_here. }
  rewrite Hp in Tcn.
  assert (Hfresh : original ∉ rs_visited s ++ rest).
  { apply NoDup_app in Tcn as (Nv & Nd & Nr). apply NoDup_cons in Nr as [Nr1 Nr2].
    intros [Hv|Hr]%elem_of_app; [|done].
    apply (Nd _ Hv), list_elem_of_here. }
  assert (Ncn : NoDup (rs_visited s ++ rest)).
  { apply NoDup_app in Tcn as (Nv & Nd & Nr). apply NoDup_cons in Nr as [Nr1 Nr2].
    apply NoDup_app. split_and!; [done| |done].
    intros x Hx Hr. apply (Nd _ Hx). by apply list_elem_of_further. }
  revert I' E'. unfold reduce_body.
  destruct (rewalk (rs_tree s) (rs_knownNonNulls s) original) as [t' c] eqn:Hr.
  pose proof (rewalk_relaxed _ _ _ _ _ (ri_wf _ I) Ho Hr) as Rel.
  case_bool_decide as Hc; simpl; intros I' E'.
  - split; simpl.
    + by apply (extends_valid_set (rs_tree s)).
    + intros y [[Hy Hne]%elem_of_Set_delete| ->]%elem_of_Set_add.
      * destruct (Tf y Hy) as (x & Hx & R). exists x. split; [done|].
        apply (relaxed_node_extends (rs_tree s)); [done| | |done].
        -- apply (valid_set_elem _ _ _ Tv Hx).
        -- apply (valid_set_elem _ _ _ (ri_nodes _ I) Hy).
      * destruct (Tf original Hon) as (x & Hx & R). exists x. split; [done|].
        apply (relaxed_node_trans _ _ original); [|done].
        apply (relaxed_node_extends (rs_tree s)); [done| |done|done].
        apply (valid_set_elem _ _ _ Tv Hx).
    + intros x Hx. destruct (Tt x Hx) as (y & Hy & R).
      pose proof (relaxed_node_extends _ _ _ _ E' (valid_set_elem _ _ _ Tv Hx)
                    (valid_set_elem _ _ _ (ri_nodes _ I) Hy) R) as R'.
      destruct (decide (y = original)) as [->|Hne].
      * exists c. split; [apply elem_of_Set_add; by right|].
        by apply (relaxed_node_trans _ _ original).
      * exists y. split; [|done]. apply elem_of_Set_add. left.
        by apply elem_of_Set_delete.
    + intros x Hx. apply elem_of_Set_add.
      assert (x ∈ rs_visited s ++ rest ∨ x = c) as [Hin| ->]; [|left|by right].
      { destruct (Set_has (rs_visited s ++ rest) c); [by left|].
        rewrite app_assoc in Hx. apply elem_of_app in Hx as [?|?%list_elem_of_singleton];
          [by left|by right]. }
      apply elem_of_Set_delete. split.
      * apply Tc. rewrite Hp. apply elem_of_app in Hin as [?|?]; apply elem_of_app;
          [by left|right; by apply list_elem_of_further].
      * intros ->. done.
    + destruct (Set_has (rs_visited s ++ rest) c) eqn:Hh; [done|].
      apply Set_has_false in Hh. rewrite app_assoc. apply NoDup_app.
      split_and!; [done| |apply NoDup_singleton].
      intros x Hx ->%list_elem_of_singleton. done.
    + apply Set_add_NoDup. by apply NoDup_filter.
    + pose proof (Set_add_length (Set_delete (rs_nodes s) original) c).
      pose proof (Set_delete_length _ _ Hon). lia.
  - assert (c = original) as -> by (destruct (decide (c = original)); done).
    destruct (lookup_lt_is_Some_2 _ _ Ho) as [n Hn].
    pose proof (rewalk_same _ _ _ _ _ (ri_wf _ I) Hn Hr) as ->.
    split; simpl; try done.
    + intros x Hx. apply Tc. rewrite Hp. rewrite <- app_assoc in Hx. done.
    + rewrite <- app_assoc. simpl. by rewrite Hp in *.
Qed.

Lemma reduce_for_track nodes0 fuel s s' :
  reduce_inv s → reduce_track nodes0 s → reduce_for fuel s = Some s' →
  reduce_inv s' ∧ reduce_track nodes0 s' ∧ rs_pending s' = [].
Proof.
  revert s. induction fuel as [|fuel IH]; intros s I T; simpl; [done|].
  destruct (rs_pending s) as [|original rest] eqn:Hp; [by intros [= <-]|].
  apply IH.
  - by destruct (reduce_body_spec s original rest I Hp) as (I' & _).
  - by apply reduce_body_track.
Qed.

Lemma reduce_loop_track nodes0 fuel t nodes known ocn nodes' t' :
  reduce_inv {| rs_tree := t; rs_nodes := nodes; rs_knownNonNulls := known;
                rs_visited := []; rs_pending := ocn; rs_changed := false |} →
  reduce_track nodes0
    {| rs_tree := t; rs_nodes := nodes; rs_knownNonNulls := known;
       rs_visited := []; rs_pending := ocn; rs_changed := false |} →
  reduce_loop fuel t nodes known ocn = Some (nodes', t') →
  valid_set t' nodes0
  ∧ (∀ y, y ∈ nodes' → ∃ x, x ∈ nodes0 ∧ relaxed_node t' x y)
  ∧ (∀ x, x ∈ nodes0 → ∃ y, y ∈ nodes' ∧ relaxed_node t' x y)
  ∧ NoDup nodes' ∧ length nodes' ≤ length nodes0.
Proof.
  revert t nodes known ocn. induction fuel as [|fuel IH];
    intros t nodes known ocn I T; [done|].
  cbn [reduce_loop].
  destruct (reduce_for (S fuel) _) as [s1|] eqn:H1; [|done].
  destruct (reduce_for_track _ _ _ _ I T H1) as (I1 & T1 & Hp1).
  destruct (rs_changed s1) eqn:Hc.
  - apply IH.
    + destruct I1 as [W1 Vn Vk Vv Vp NK OP ST].
      unfold rs_optionalChainNodes. rewrite Hp1, app_nil_r. split; simpl; try done.
      * apply Forall_nil_2.
      * intros x Hx Hopt. specialize (OP x Hx Hopt).
        by rewrite Hp1, app_nil_r in OP.
      * intros _ x []%elem_of_nil.
    + destruct T1 as [Tv Tf Tt Tc Tcn Tn Tl]. split; simpl; done.
  - intros [= <- <-]. destruct T1 as [Tv Tf Tt Tc Tcn Tn Tl]. done.
Qed.

Lemma reduceMaybeOptionalChains_track fuel nodes t nodes' t' :
  wf_tree t → valid_set t nodes → NoDup nodes →
  reduceMaybeOptionalChains fuel nodes t = Some (nodes', t') →
  valid_set t' nodes
  ∧ (∀ y, y ∈ nodes' → ∃ x, x ∈ nodes ∧ relaxed_node t' x y)
  ∧ (∀ x, x ∈ nodes → ∃ y, y ∈ nodes' ∧ relaxed_node t' x y)
  ∧ NoDup nodes' ∧ length nodes' ≤ length nodes.
Proof.
  intros W V D. unfold reduceMaybeOptionalChains, Set_filter.
  set (ocn := filter (fun x => hasOptional (deref t x) = true) nodes).
  destruct (length ocn =? 0)%nat.
  - intros [= <- <-]. split_and!; try done;
      intros x Hx; exists x; split; try done; apply relaxed_node_refl.
  - apply reduce_loop_track.
    + split; simpl; try done.
      * apply Forall_nil_2.
      * by apply valid_set_filter.
      * intros y Hy Ho. by apply list_elem_of_filter.
      * intros _ y []%elem_of_nil.
    + split; simpl; try done.
      * intros x Hx; exists x; split; [done|apply relaxed_node_refl].
      * intros x Hx; exists x; split; [done|apply relaxed_node_refl].
      * by intros x [_ ?]%list_elem_of_filter.
      * by apply NoDup_filter.
Qed.

(** The canonicalizer changes nothing but the optionality of segments. Every
    node of its result stands for the path of a node of its input with some
    optional segments made unconditional (same root identifier, same property
    names), and every node of its input has such a node in the result: no
    fact is invented and none is lost. *)
Theorem canonicalizer_relaxes_paths fuel nodes t nodes' t' :
  wf_tree t → valid_set t nodes → NoDup nodes →
  reduceMaybeOptionalChains fuel nodes t = Some (nodes', t') →
  (∀ y, y ∈ nodes' → ∃ x, x ∈ nodes ∧ relaxed_node t' x y)
  ∧ (∀ x, x ∈ nodes → ∃ y, y ∈ nodes' ∧ relaxed_node t' x y).
Proof.
  intros W V D H.
  by destruct (reduceMaybeOptionalChains_track _ _ _ _ _ W V D H) as (_ & ? & ? & _).
Qed.

Lemma canonicalizer_relaxes_paths_witness :
  (∀ y, y ∈ [0; 4] → ∃ x, x ∈ [0; 3]
     ∧ relaxed_node (reduceMaybeOptionalChains_snd 10 [0; 3] example_tree) x y)
  ∧ (∀ x, x ∈ [0; 3] → ∃ y, y ∈ [0; 4]
     ∧ relaxed_node (reduceMaybeOptionalChains_snd 10 [0; 3] example_tree) x y).
Proof.
  apply (canonicalizer_relaxes_paths 10 [0; 3] example_tree [0; 4]
           (reduceMaybeOptionalChains_snd 10 [0; 3] example_tree) example_tree_wf).
  - vm_compute. repeat constructor.
  - apply (bool_decide_unpack _). vm_compute. exact I.
  - vm_compute. reflexivity.
Defined.

(** The canonicalizer never makes its set larger and never removes a node
    whose path has no optional segment; its result has no repeated member,
    and every node that was in the trie is still there with its path. *)
Theorem canonicalizer_never_grows fuel nodes t nodes' t' :
  wf_tree t → valid_set t nodes → NoDup nodes →
  reduceMaybeOptionalChains fuel nodes t = Some (nodes', t') →
  length nodes' ≤ length nodes
  ∧ NoDup nodes'
  ∧ (∀ x, x ∈ nodes → hasOptional (deref t x) = false → x ∈ nodes')
  ∧ (∀ i p r, find_dep t i p = Some r → find_dep t' i p = Some r)
  ∧ ∀ r, r < length (heap t) → fullPath (deref t' r) = fullPath (deref t r).
Proof.
  intros W V D H.
  destruct (reduceMaybeOptionalChains_track _ _ _ _ _ W V D H) as (_ & _ & _ & ? & ?).
  destruct (reduceMaybeOptionalChains_result _ _ _ _ _ W V H) as (_ & E & _ & K & _).
  split_and!; [done..| |].
  - intros i p r. by apply find_dep_ext.
  - intros r. by apply extends_fullPath.
Qed.

Lemma canonicalizer_never_grows_witness :
  length [0; 1] ≤ length [0; 1; 2]
  ∧ NoDup [0; 1]
  ∧ (∀ x, x ∈ [0; 1; 2] → hasOptional (deref example_tree x) = false → x ∈ [0; 1])
  ∧ (∀ i p r, find_dep example_tree i p = Some r →
       find_dep (reduceMaybeOptionalChains_snd 10 [0; 1; 2] example_tree) i p = Some r)
  ∧ ∀ r, r < length (heap example_tree) →
      fullPath (deref (reduceMaybeOptionalChains_snd 10 [0; 1; 2] example_tree) r)
      = fullPath (deref example_tree r).
Proof.
  apply (canonicalizer_never_grows 10 [0; 1; 2] example_tree [0; 1]
           (reduceMaybeOptionalChains_snd 10 [0; 1; 2] example_tree) example_tree_wf).
  - vm_compute. repeat constructor.
  - apply (bool_decide_unpack _). vm_compute. exact I.
  - vm_compute. reflexivity.
Defined.

(** The canonicalizer is idempotent: called on its own result, it returns
    that set and that trie as they are. *)
Theorem canonicalizer_idempotent fuel nodes t nodes' t' fuel2 :
  wf_tree t → valid_set t nodes →
  reduceMaybeOptionalChains fuel nodes t = Some (nodes', t') →
  length nodes' < fuel2 →
  reduceMaybeOptionalChains fuel2 nodes' t' = Some (nodes', t').
Proof.
  intros W V H Hl.
  destruct (reduceMaybeOptionalChains_result _ _ _ _ _ W V H) as (W' & _ & V' & _ & S).
  by apply reduce_fixed_point.
Qed.

Lemma canonicalizer_idempotent_witness :
  reduceMaybeOptionalChains 4 [0; 1; 4]
    (reduceMaybeOptionalChains_snd 10 [0; 2; 3] example_tree)
  = Some ([0; 1; 4], reduceMaybeOptionalChains_snd 10 [0; 2; 3] example_tree).
Proof.
  apply (canonicalizer_idempotent 10 [0; 2; 3] example_tree [0; 1; 4]
           (reduceMaybeOptionalChains_snd 10 [0; 2; 3] example_tree) 4
           example_tree_wf).
  - vm_compute. repeat constructor.
  - vm_compute. reflexivity.
  - simpl. lia.
Defined.

Lemma unrewritten_base t K c q e r nq :
  unrewritten t K c (q ++ e :: r) = true →
  find_path t c q = Some nq → optional e = true → nq ∉ K.
Proof.
  revert c. induction q as [|e0 q IH]; intros c; simpl.
  - intros H [= <-] He. rewrite He in H. simpl in H.
    destruct (Set_has K c) eqn:Hh; [done|]. by apply Set_has_false.
  - intros H. apply andb_true_iff in H as [_ H].
    destruct (child_of t c e0) as [next|]; [|done]. simpl. by apply IH.
Qed.

(** The result of the canonicalizer is in canonical form: no member has an
    optional segment whose base (the node of the path before that segment) is
    itself a member. *)
Theorem canonical_form fuel nodes t nodes' t' x q e r nq :
  wf_tree t → valid_set t nodes →
  reduceMaybeOptionalChains fuel nodes t = Some (nodes', t') →
  x ∈ nodes' →
  path (fullPath (deref t' x)) = q ++ e :: r →
  optional e = true →
  find_dep t' (id (identifier (fullPath (deref t' x)))) q = Some nq →
  nq ∉ nodes'.
Proof.
  intros W V H Hx Hp He Hq.
  destruct (reduceMaybeOptionalChains_result _ _ _ _ _ W V H) as (W' & _ & V' & _ & S).
  pose proof (valid_set_elem _ _ _ V' Hx) as Hv.
  destruct (lookup_lt_is_Some_2 _ _ Hv) as [n Hn].
  rewrite (deref_lookup _ _ _ Hn) in Hp, Hq.
  destruct (find_dep_root _ _ _ _ Hq) as (r0 & Hr0 & Fq).
  pose proof (proj1 (stable_unrewritten _ nodes' _ _ _ W' Hn Hr0) (S x Hx)) as U.
  rewrite Hp in U. by apply (unrewritten_base _ _ _ _ _ _ _ U Fq).
Qed.

Lemma canonical_form_witness :
  0 ∉ [1; 3].
Proof.
  apply (canonical_form 10 [1; 3] example_tree [1; 3] example_tree 3
           [] (entry "b" true) [entry "c" false] 0 example_tree_wf).
  - vm_compute. repeat constructor.
  - vm_compute. reflexivity.
  - apply list_elem_of_further, list_elem_of_here.
  - reflexivity.
  - reflexivity.
  - vm_compute. reflexivity.
Defined.

(** ** More on the propagator: what happens to the facts *)

Lemma relaxes_unconditional es es' :
  Forall2 relaxes es es' → existsb optional es = false → es' = es.
Proof.
  induction 1 as [|e e' es es' R _ IH]; [done|]. simpl.
  intros [He Hes]%orb_false_iff. rewrite (IH Hes).
  destruct R as [->|[Ho _]]; [done|congruence].
Qed.

(** A node without optional segment has no relaxation but itself. *)
Lemma relaxed_node_unconditional t x y :
  wf_tree t → x < length (heap t) → y < length (heap t) →
  hasOptional (deref t x) = false → relaxed_node t x y → y = x.
Proof.
  intros W Hx Hy Ho [I P].
  destruct (lookup_lt_is_Some_2 _ _ Hx) as [nx Hnx].
  destruct (lookup_lt_is_Some_2 _ _ Hy) as [ny Hny].
  rewrite (deref_lookup _ _ _ Hnx) in *. rewrite (deref_lookup _ _ _ Hny) in *.
  rewrite (wf_hasOptional _ W _ _ Hnx) in Ho.
  apply (node_inj t y x ny nx W Hny Hnx); [by rewrite I|].
  by apply relaxes_unconditional.
Qed.

Lemma facts_rel_same st st' :
  st_nodes st' = st_nodes st → st_tree st' = st_tree st →
  facts_ok st → facts_rel st st'.
Proof.
  intros Hn Ht [W Wn]. split; rewrite ?Hn, ?Ht.
  - apply extends_refl.
  - split; by rewrite ?Hn, ?Ht.
  - intros k info x Hk Hx. exists info, x. split_and!; [done..|apply relaxed_node_refl].
  - intros k info y Hk Hy. exists k, info, y.
    split_and!; [done..|apply relaxed_node_refl].
Qed.

Lemma facts_rel_trans a b c :
  facts_ok a → facts_rel a b → facts_rel b c → facts_rel a c.
Proof.
  intros [Wa Wna] [Eab [Wb Wnb] Kab Oab] [Ebc Okc Kbc Obc]. split; [|done|..].
  - by eapply extends_trans.
  - intros k info x Hk Hx.
    destruct (Kab k info x Hk Hx) as (info1 & y & Hk1 & Hy & R1).
    destruct (Kbc k info1 y Hk1 Hy) as (info2 & z & Hk2 & Hz & R2).
    exists info2, z. split_and!; [done..|].
    apply (relaxed_node_trans _ _ y); [|done].
    apply (relaxed_node_extends (st_tree b)); [done| | |done].
    + apply (extends_valid _ _ _ Eab).
      apply (valid_set_elem _ _ _ (proj1 (Wna k info Hk)) Hx).
    + apply (valid_set_elem _ _ _ (proj1 (Wnb k info1 Hk1)) Hy).
  - intros k info2 z Hk2 Hz.
    destruct (Obc k info2 z Hk2 Hz) as (k1 & info1 & y & Hk1 & Hy & R2).
    destruct (Oab k1 info1 y Hk1 Hy) as (k0 & info0 & x & Hk0 & Hx & R1).
    exists k0, info0, x. split_and!; [done..|].
    apply (relaxed_node_trans _ _ y); [|done].
    apply (relaxed_node_extends (st_tree b)); [done| | |done].
    + apply (extends_valid _ _ _ Eab).
      apply (valid_set_elem _ _ _ (proj1 (Wna k0 info0 Hk0)) Hx).
    + apply (valid_set_elem _ _ _ (proj1 (Wnb k1 info1 Hk1)) Hy).
Qed.

Lemma done_neighbor_sets_elem st neighbors x :
  x ∈ Set_intersect (done_neighbor_sets st neighbors) →
  ∃ k info, st_nodes st !! k = Some info ∧ x ∈ assumedNonNullObjects info.
Proof.
  intros [Hne Hall]%elem_of_Set_intersect_all.
  destruct (done_neighbor_sets st neighbors) as [|s rest] eqn:Hs; [done|].
  assert (Hin : s ∈ done_neighbor_sets st neighbors)
    by (rewrite Hs; apply list_elem_of_here).
  apply elem_of_done_neighbor_sets in Hin as (k & info & _ & _ & Hk & ->).
  exists k, info. split; [done|]. apply Hall. apply list_elem_of_here.
Qed.

(** The merge of a block: its facts stay, up to relaxation, and what is added
    comes from the facts of its neighbors. *)
Lemma merge_block_facts fuel n neighbors changed st c st' :
  visited_ok st → facts_ok st →
  merge_block fuel n neighbors changed st = Ok (c, st') →
  facts_rel st st'.
Proof.
  intros Hv [W Wn] Hm.
  destruct (merge_block_Ok _ _ _ _ _ _ _ Hv Hm) as (info & merged & t' & Hi & Hr & _ & ->).
  destruct (Wn n info Hi) as [Vi Di].
  assert (Vc : valid_set (st_tree st)
            (Set_union (assumedNonNullObjects info)
               (Set_intersect (done_neighbor_sets st neighbors)))).
  { apply valid_set_Set_union; [done|].
    apply valid_set_Set_intersect, done_neighbor_sets_valid.
    intros k i Hk. apply (Wn k i Hk). }
  pose proof (Set_union_NoDup _ (Set_intersect (done_neighbor_sets st neighbors)) Di)
    as Dc.
  destruct (reduceMaybeOptionalChains_result _ _ _ _ _ W Vc Hr) as (W' & E' & Vm & _).
  destruct (reduceMaybeOptionalChains_track _ _ _ _ _ W Vc Dc Hr)
    as (_ & From & To & Dm & _).
  split; simpl.
  - done.
  - split; simpl; [done|]. intros k i. rewrite lookup_insert. case_decide as Hk.
    + by intros [= <-].
    + intros Hk'. destruct (Wn k i Hk'). split; [|done].
      by apply (extends_valid_set (st_tree st)).
  - intros k i x Hk Hx. rewrite lookup_insert. case_decide as Hkn.
    + subst k. assert (i = info) as -> by congruence.
      destruct (To x) as (y & Hy & R); [apply elem_of_Set_union; by left|].
      eexists _, y. by split_and!.
    + exists i, x. split_and!; [done..|apply relaxed_node_refl].
  - intros k i y. rewrite lookup_insert. case_decide as Hkn.
    + subst k. intros [= <-] Hy. simpl in Hy.
      destruct (From y Hy) as (x & [Hx|Hx]%elem_of_Set_union & R).
      * exists n, info, x. done.
      * destruct (done_neighbor_sets_elem _ _ _ Hx) as (k0 & i0 & Hk0 & Hx0).
        exists k0, i0, x. done.
    + intros Hk Hy. exists k, i, y. split_and!; [done..|apply relaxed_node_refl].
Qed.

Lemma visit_all_facts succs d v xs changed st c st' :
  visit_ok False succs d v →
  (∀ x st c st', prop_inv False succs d st → facts_ok st →
     v x st = Ok (c, st') → facts_rel st st') →
  prop_inv False succs d st → facts_ok st →
  visit_all v xs changed st = Ok (c, st') →
  facts_rel st st'.
Proof.
  intros Hv HR. revert changed st. induction xs as [|x xs IH];
    intros changed st I F; cbn [visit_all].
  - intros [= <- <-]. by apply facts_rel_same.
  - pose proof (Hv x st I) as Hx. specialize (HR x st).
    destruct (v x st) as [[c1 st1]|e|]; simpl; [|done..].
    destruct Hx as (I1 & _). specialize (HR c1 st1 I F eq_refl).
    intros H. apply (facts_rel_trans _ st1); [done..|].
    apply (IH _ _ I1 (fr_ok _ _ HR) H).
Qed.

Lemma recursivelyPropagateNonNull_facts succs d fuel n st c st' :
  prop_inv False succs d st → facts_ok st →
  recursivelyPropagateNonNull fuel succs d n st = Ok (c, st') →
  facts_rel st st'.
Proof.
  revert n st c st'. induction fuel as [|fuel IH]; intros n st c st' I F; [done|].
  cbn [recursivelyPropagateNonNull]. case_decide as Hin.
  { intros [= <- <-]. by apply facts_rel_same. }
  change (st_nodes (set_status n active st)) with (st_nodes st).
  destruct (st_nodes st !! n) as [node|] eqn:Hnode; [|done].
  set (st1 := set_status n active st).
  pose proof (prop_inv_set_status _ _ _ _ _ _ I Hnode) as I1.
  assert (F1 : facts_ok st1) by done.
  pose proof (visit_all_ok False succs d _ (neighbors_of succs d n node) false st1
                (unless_visited_ok _ _ _ _
                   (recursivelyPropagateNonNull_ok False succs d fuel)) I1) as Hall.
  destruct (visit_all _ (neighbors_of succs d n node) false st1)
    as [[c2 st2]|e|] eqn:H2; simpl; [|done..].
  destruct Hall as ((Hv2 & _) & _).
  intros Hm.
  assert (R12 : facts_rel st1 st2).
  { eapply visit_all_facts; [| |exact I1|exact F1|exact H2].
    - apply unless_visited_ok, recursivelyPropagateNonNull_ok.
    - intros x s cx sx Is Fs. unfold unless_visited. case_decide.
      + intros [= <- <-]. by apply facts_rel_same.
      + by apply IH. }
  apply (facts_rel_trans _ st1); [done|by apply facts_rel_same|].
  apply (facts_rel_trans _ st2); [done..|].
  by apply (merge_block_facts _ _ _ _ _ _ _ Hv2 (fr_ok _ _ R12) Hm).
Qed.

Lemma sweep_both_facts fuel fn succs st c st' :
  traversalState st = ∅ → facts_ok st →
  sweep_both fuel fn succs st = Ok (c, st') →
  traversalState st' = ∅ ∧ facts_rel st st'.
Proof.
  intros Hts F. unfold sweep_both.
  pose proof (prop_inv_empty False succs forward st Hts ltac:(done)) as I0.
  destruct (visit_all _ (blocks fn).*1 false st) as [[c1 st1]|e|] eqn:H1; simpl;
    [|done..].
  assert (R1 : facts_rel st st1).
  { eapply visit_all_facts; [| |exact I0|exact F|exact H1].
    - apply recursivelyPropagateNonNull_ok.
    - intros x s cx sx. apply recursivelyPropagateNonNull_facts. }
  pose proof (prop_inv_empty False succs backward (clear_traversal st1) eq_refl
                ltac:(done)) as I1.
  assert (F1 : facts_ok (clear_traversal st1)) by apply (fr_ok _ _ R1).
  destruct (visit_all _ (reverse (blocks fn)).*1 c1 (clear_traversal st1))
    as [[c2 st2]|e|] eqn:H2; simpl; [|done..].
  intros [= <- <-]. split; [done|].
  assert (R2 : facts_rel (clear_traversal st1) st2).
  { eapply visit_all_facts; [| |exact I1|exact F1|exact H2].
    - apply recursivelyPropagateNonNull_ok.
    - intros x s cx sx. apply recursivelyPropagateNonNull_facts. }
  apply (facts_rel_trans _ st1); [done..|].
  apply (facts_rel_trans _ (clear_traversal st1)); [apply (fr_ok _ _ R1)| |].
  - apply facts_rel_same; [done..|apply (fr_ok _ _ R1)].
  - apply (facts_rel_trans _ st2); [done..|].
    apply facts_rel_same; [done..|apply (fr_ok _ _ R2)].
Qed.

Lemma fixpoint_loop_facts fuel fn succs k st st' :
  traversalState st = ∅ → facts_ok st →
  fixpoint_loop fuel fn succs k st = Ok st' →
  facts_rel st st'.
Proof.
  revert st. induction k as [|k IH]; intros st Hts F; cbn [fixpoint_loop]; [done|].
  destruct (sweep_both fuel fn succs st) as [[c st1]|e|] eqn:H1; simpl; [|done..].
  destruct (sweep_both_facts _ _ _ _ _ _ Hts F H1) as [Hts1 R1].
  destruct c.
  - intros H. apply (facts_rel_trans _ st1); [done..|].
    apply (IH _ Hts1 (fr_ok _ _ R1) H).
  - by intros [= <-].
Qed.

Lemma propagateNonNull_facts fuel fn nodes t nodes' t' :
  wf_tree t → wf_nodes t nodes →
  propagateNonNull fuel fn nodes t = Ok (nodes', t') →
  facts_rel {| traversalState := ∅; st_nodes := nodes; st_tree := t |}
            {| traversalState := ∅; st_nodes := nodes'; st_tree := t' |}.
Proof.
  intros W Wn. unfold propagateNonNull.
  destruct (fixpoint_loop _ _ _ _ _) as [st'|e|] eqn:H; simpl; [|done..].
  intros [= <- <-].
  pose proof (fixpoint_loop_facts _ _ _ _
                {| traversalState := ∅; st_nodes := nodes; st_tree := t |} _
                eq_refl (conj W Wn) H) as R.
  destruct R as [E F K O]. by split.
Qed.

Lemma fixpoint_loop_blocks fuel fn succs k st st' :
  traversalState st = ∅ →
  fixpoint_loop fuel fn succs k st = Ok st' →
  ∀ m, block <$> st_nodes st' !! m = block <$> st_nodes st !! m.
Proof.
  revert st. induction k as [|k IH]; intros st Hts; cbn [fixpoint_loop]; [done|].
  pose proof (sweep_both_ok False fuel fn succs st Hts ltac:(done)) as H.
  destruct (sweep_both fuel fn succs st) as [[c st1]|e|]; simpl; [|done..].
  destruct H as (Hts1 & _ & B). destruct c.
  - intros H m. rewrite (IH _ Hts1 H m). apply B.
  - by intros [= <-].
Qed.

(** The propagator only adds to what a block knows. Every fact of a block
    before the propagation is a fact of the same block after it, with some of
    its optional segments made unconditional at most; a fact without optional
    segment stays as it is. *)
Theorem propagation_keeps_facts fuel fn nodes t nodes' t' k info x :
  wf_tree t → wf_nodes t nodes →
  propagateNonNull fuel fn nodes t = Ok (nodes', t') →
  nodes !! k = Some info → x ∈ assumedNonNullObjects info →
  ∃ info' y, nodes' !! k = Some info'
    ∧ y ∈ assumedNonNullObjects info'
    ∧ relaxed_node t' x y
    ∧ (hasOptional (deref t x) = false → y = x).
Proof.
  intros W Wn H Hk Hx.
  destruct (propagateNonNull_facts _ _ _ _ _ _ W Wn H) as [E [W' Wn'] K _].
  simpl in *. destruct (K k info x Hk Hx) as (info' & y & Hk' & Hy & R).
  exists info', y. split_and!; [done..|]. intros Ho.
  pose proof (valid_set_elem _ _ _ (proj1 (Wn k info Hk)) Hx) as Vx.
  apply (relaxed_node_unconditional t'); [done| | | |done].
  - by apply (extends_valid t).
  - apply (valid_set_elem _ _ _ (proj1 (Wn' k info' Hk')) Hy).
  - by rewrite (extends_hasOptional _ _ _ E Vx).
Qed.

Lemma propagation_keeps_facts_witness :
  ∃ info' y, diamond_result.1 !! 1%N = Some info'
    ∧ y ∈ assumedNonNullObjects info'
    ∧ relaxed_node diamond_result.2 0 y
    ∧ (hasOptional (deref (st_tree (diamond_start true)) 0) = false → y = 0).
Proof.
  destruct (collectNonNullsInBlocks_spec (diamond true) ∅ ∅ Tree_new _ _
              wf_tree_new (surjective_pairing _)) as (W & _ & Wn & _).
  apply (propagation_keeps_facts 10 (diamond true) (st_nodes (diamond_start true))
           (st_tree (diamond_start true)) diamond_result.1 diamond_result.2 1%N
           {| block := (plain_block 1 [read_q_b 1] [0%N]).2;
              assumedNonNullObjects := [0] |} 0 W Wn).
  - vm_compute. reflexivity.
  - vm_compute. reflexivity.
  - apply list_elem_of_here.
Defined.

(** The propagator invents no fact. Every fact of a block after the
    propagation is a fact that some block had before it, with some of its
    optional segments made unconditional at most. *)
Theorem propagated_facts_have_origin fuel fn nodes t nodes' t' k info' y :
  wf_tree t → wf_nodes t nodes →
  propagateNonNull fuel fn nodes t = Ok (nodes', t') →
  nodes' !! k = Some info' → y ∈ assumedNonNullObjects info' →
  ∃ k0 info0 x, nodes !! k0 = Some info0
    ∧ x ∈ assumedNonNullObjects info0
    ∧ relaxed_node t' x y.
Proof.
  intros W Wn H Hk Hy.
  destruct (propagateNonNull_facts _ _ _ _ _ _ W Wn H) as [_ _ _ O].
  apply (O k info' y Hk Hy).
Qed.

Lemma propagated_facts_have_origin_witness :
  ∃ k0 info0 x, st_nodes (diamond_start true) !! k0 = Some info0
    ∧ x ∈ assumedNonNullObjects info0
    ∧ relaxed_node diamond_result.2 x 0.
Proof.
  destruct (collectNonNullsInBlocks_spec (diamond true) ∅ ∅ Tree_new _ _
              wf_tree_new (surjective_pairing _)) as (W & _ & Wn & _).
  apply (propagated_facts_have_origin 10 (diamond true) (st_nodes (diamond_start true))
           (st_tree (diamond_start true)) diamond_result.1 diamond_result.2 3%N
           {| block := (plain_block 3 [] [1%N; 2%N]).2;
              assumedNonNullObjects := [0] |} 0 W Wn).
  - vm_compute. reflexivity.
  - vm_compute. reflexivity.
  - apply list_elem_of_here.
Defined.

(** The propagator changes fact sets only: when it returns, the table has an
    entry for the same block ids, each for the same block, the fact sets are
    still sets of nodes of the trie without repetition, and every dependency
    that had a node has the same node. *)
Theorem propagation_keeps_table fuel fn nodes t nodes' t' :
  wf_tree t → wf_nodes t nodes →
  propagateNonNull fuel fn nodes t = Ok (nodes', t') →
  (∀ k, block <$> nodes' !! k = block <$> nodes !! k)
  ∧ wf_tree t' ∧ wf_nodes t' nodes'
  ∧ ∀ i p r, find_dep t i p = Some r → find_dep t' i p = Some r.
Proof.
  intros W Wn H.
  destruct (propagateNonNull_facts _ _ _ _ _ _ W Wn H) as [E [W' Wn'] _ _].
  simpl in *. split_and!; [|done..|].
  - unfold propagateNonNull in H.
    destruct (fixpoint_loop _ _ _ _ _) as [st'|e|] eqn:Hf; simpl in H; [|done..].
    injection H as <- <-.
    apply (fixpoint_loop_blocks _ _ _ _
             {| traversalState := ∅; st_nodes := nodes; st_tree := t |} _
             eq_refl Hf).
  - intros i p r. by apply find_dep_ext.
Qed.

Lemma propagation_keeps_table_witness :
  (∀ k, block <$> diamond_result.1 !! k = block <$> st_nodes (diamond_start true) !! k)
  ∧ wf_tree diamond_result.2 ∧ wf_nodes diamond_result.2 diamond_result.1
  ∧ ∀ i p r, find_dep (st_tree (diamond_start true)) i p = Some r →
      find_dep diamond_result.2 i p = Some r.
Proof.
  destruct (collectNonNullsInBlocks_spec (diamond true) ∅ ∅ Tree_new _ _
              wf_tree_new (surjective_pairing _)) as (W & _ & Wn & _).
  apply (propagation_keeps_table 10 (diamond true) (st_nodes (diamond_start true))
           (st_tree (diamond_start true)) diamond_result.1 diamond_result.2 W Wn).
  vm_compute. reflexivity.
Defined.

(** ** More on the propagator: the graph it walks *)

Lemma blockSuccessors_preds (blockId : BlockId) (ps : list BlockId)
  (acc : gmap BlockId (list BlockId)) (p s : BlockId) :
  s ∈ default [] (foldl (fun acc pred =>
                           <[pred := Set_add (default [] (acc !! pred)) blockId]> acc)
                        acc ps !! p)
  ↔ s ∈ default [] (acc !! p) ∨ (s = blockId ∧ p ∈ ps).
Proof.
  revert acc. induction ps as [|q ps IH]; intros acc; cbn [foldl].
  - split; [by left|]. intros [?|[_ []%elem_of_nil]]. done.
  - rewrite IH, lookup_insert. case_decide as Hq.
    + subst q. simpl. rewrite elem_of_Set_add, elem_of_cons. intuition auto.
    + rewrite elem_of_cons. intuition congruence.
Qed.

Lemma blockSuccessors_blocks (bs : list (BlockId * BasicBlock))
  (acc : gmap BlockId (list BlockId)) (p s : BlockId) :
  s ∈ default [] (foldl (fun acc '(blockId, b) =>
                           foldl (fun acc pred =>
                                    <[pred := Set_add (default [] (acc !! pred)) blockId]> acc)
                                 acc (preds b))
                        acc bs !! p)
  ↔ s ∈ default [] (acc !! p) ∨ ∃ b, (s, b) ∈ bs ∧ p ∈ preds b.
Proof.
  revert acc. induction bs as [|[k b] bs IH]; intros acc; cbn [foldl].
  - split; [by left|]. intros [?|(b & []%elem_of_nil & _)]. done.
  - rewrite IH, blockSuccessors_preds. split.
    + intros [[?|[-> Hp]]|(b' & Hb' & Hp)].
      * by left.
      * right. exists b. split; [apply list_elem_of_here|done].
      * right. exists b'. split; [by apply list_elem_of_further|done].
    + intros [?|(b' & [[= -> ->]|Hb']%elem_of_cons & Hp)].
      * left. by left.
      * left. by right.
      * right. by exists b'.
Qed.

(** The successor map that the propagator builds is the inverse of the
    predecessor lists: [s] is a successor of [p] exactly when [s] is the key
    of a block of [fn.body.blocks] that lists [p] as a predecessor. *)
Theorem blockSuccessors_inverts_preds fn p s :
  s ∈ default [] (blockSuccessors_of fn !! p)
  ↔ ∃ b, (s, b) ∈ blocks fn ∧ p ∈ preds b.
Proof.
  unfold blockSuccessors_of. rewrite blockSuccessors_blocks, lookup_empty. simpl.
  split; [|by right]. intros [[]%elem_of_nil|?]. done.
Qed.

Lemma neighbors_known_blocks succs d st st' :
  (∀ k, block <$> st_nodes st' !! k = block <$> st_nodes st !! k) →
  neighbors_known succs d st → neighbors_known succs d st'.
Proof.
  intros B N k info' p Hk Hp. pose proof (B k) as Bk. rewrite Hk in Bk.
  destruct (st_nodes st !! k) as [info|] eqn:Hi; [|done].
  injection Bk as Bk.
  rewrite (neighbors_of_block succs d k info' info Bk) in Hp.
  destruct (N k info p Hi Hp) as [i Hpi]. specialize (B p). rewrite Hpi in B.
  by destruct (st_nodes st' !! p).
Qed.

Lemma visit_all_no_throw succs d v xs changed st e :
  visit_ok False succs d v →
  (∀ x st e, prop_inv False succs d st → neighbors_known succs d st →
     is_Some (st_nodes st !! x) → v x st ≠ Throw e) →
  prop_inv False succs d st → neighbors_known succs d st →
  (∀ x, x ∈ xs → is_Some (st_nodes st !! x)) →
  visit_all v xs changed st ≠ Throw e.
Proof.
  intros Hv HT. revert changed st. induction xs as [|x xs IH];
    intros changed st I N Hxs; cbn [visit_all]; [done|].
  pose proof (Hv x st I) as Hx.
  pose proof (HT x st) as Tx.
  destruct (v x st) as [[c1 st1]|e1|]; simpl; [| |done].
  - destruct Hx as (I1 & R1 & _). apply (IH _ _ I1).
    + apply (neighbors_known_blocks _ _ st); [apply (sr_blocks _ _ R1)|done].
    + intros y Hy. apply (step_rel_nodes_Some st); [done|].
      apply Hxs. by apply list_elem_of_further.
  - exfalso. apply (Tx e1 I N); [|done]. apply Hxs, list_elem_of_here.
Qed.

(** A visit that starts at a block of the table, in a table that knows every
    neighbor, does not throw. *)
Lemma recursivelyPropagateNonNull_no_throw succs d fuel n st e :
  prop_inv False succs d st → neighbors_known succs d st →
  is_Some (st_nodes st !! n) →
  recursivelyPropagateNonNull fuel succs d n st ≠ Throw e.
Proof.
  revert n st e. induction fuel as [|fuel IH]; intros n st e I N [node Hnode];
    [done|].
  cbn [recursivelyPropagateNonNull]. case_decide as Hin; [done|].
  change (st_nodes (set_status n active st)) with (st_nodes st). rewrite Hnode.
  set (st1 := set_status n active st).
  pose proof (prop_inv_set_status _ _ _ _ _ _ I Hnode) as I1.
  assert (N1 : neighbors_known succs d st1) by done.
  pose proof (visit_all_ok False succs d _ (neighbors_of succs d n node) false st1
                (unless_visited_ok _ _ _ _
                   (recursivelyPropagateNonNull_ok False succs d fuel)) I1) as Hall.
  assert (HT : ∀ e', visit_all
                 (unless_visited (recursivelyPropagateNonNull fuel succs d))
                 (neighbors_of succs d n node) false st1 ≠ Throw e').
  { intros e'. apply (visit_all_no_throw succs d); [|  |done|done|].
    - apply unless_visited_ok, recursivelyPropagateNonNull_ok.
    - intros x s e0 Is Ns Hx. unfold unless_visited. case_decide; [done|].
      by apply IH.
    - intros p Hp. by apply (N n node). }
  destruct (visit_all _ (neighbors_of succs d n node) false st1)
    as [[c2 st2]|e2|] eqn:H2; simpl; [| |done].
  - destruct Hall as ((Hv2 & _) & R12 & _).
    apply merge_block_no_throw; [done|].
    apply (step_rel_nodes_Some st1); [done|]. by exists node.
  - by destruct (HT e2).
Qed.

Lemma sweep_both_no_throw fuel fn succs st e :
  traversalState st = ∅ →
  neighbors_known succs forward st → neighbors_known succs backward st →
  (∀ k, k ∈ (blocks fn).*1 → is_Some (st_nodes st !! k)) →
  sweep_both fuel fn succs st ≠ Throw e.
Proof.
  intros Hts Nf Nb Hk. unfold sweep_both.
  pose proof (prop_inv_empty False succs forward st Hts ltac:(done)) as I0.
  pose proof (visit_all_ok False succs forward _ (blocks fn).*1 false st
                (recursivelyPropagateNonNull_ok False succs forward fuel) I0) as H1.
  pose proof (fun e' => visit_all_no_throw succs forward _ (blocks fn).*1 false st e'
                (recursivelyPropagateNonNull_ok False succs forward fuel)
                (fun x s e0 => recursivelyPropagateNonNull_no_throw _ _ _ x s e0)
                I0 Nf Hk) as T1.
  destruct (visit_all _ (blocks fn).*1 false st) as [[c1 st1]|e1|]; simpl;
    [|by destruct (T1 e1)|done].
  destruct H1 as (_ & R1 & _).
  pose proof (prop_inv_empty False succs backward (clear_traversal st1) eq_refl
                ltac:(done)) as I1.
  assert (N1 : neighbors_known succs backward (clear_traversal st1)).
  { apply (neighbors_known_blocks _ _ st); [apply (sr_blocks _ _ R1)|done]. }
  assert (K1 : ∀ k, k ∈ (reverse (blocks fn)).*1 →
                 is_Some (st_nodes (clear_traversal st1) !! k)).
  { intros k Hin. simpl. apply (step_rel_nodes_Some st st1); [done|]. apply Hk.
    by rewrite fmap_reverse, elem_of_reverse in Hin. }
  pose proof (fun e' => visit_all_no_throw succs backward _
                (reverse (blocks fn)).*1 c1 (clear_traversal st1) e'
                (recursivelyPropagateNonNull_ok False succs backward fuel)
                (fun x s e0 => recursivelyPropagateNonNull_no_throw _ _ _ x s e0)
                I1 N1 K1) as T2.
  destruct (visit_all _ (reverse (blocks fn)).*1 c1 (clear_traversal st1))
    as [[c2 st2]|e2|]; simpl; [done|by destruct (T2 e2)|done].
Qed.

Lemma fixpoint_loop_only_cap fuel fn succs k st e :
  traversalState st = ∅ →
  neighbors_known succs forward st → neighbors_known succs backward st →
  (∀ k, k ∈ (blocks fn).*1 → is_Some (st_nodes st !! k)) →
  fixpoint_loop fuel fn succs k st = Throw e →
  e = invariant_error fixpoint_reason.
Proof.
  revert st. induction k as [|k IH]; intros st Hts Nf Nb Hk; cbn [fixpoint_loop].
  { by intros [= <-]. }
  pose proof (sweep_both_ok False fuel fn succs st Hts ltac:(done)) as H.
  pose proof (fun e' => sweep_both_no_throw fuel fn succs st e' Hts Nf Nb Hk) as T.
  destruct (sweep_both fuel fn succs st) as [[c st']|e'|]; simpl;
    [|by destruct (T e')|done].
  destruct H as (Hts' & _ & B). destruct c; [|done].
  apply IH; [done|by apply (neighbors_known_blocks _ _ st)..|].
  intros m Hm. destruct (Hk m Hm) as [i Hi]. specialize (B m). rewrite Hi in B.
  by destruct (st_nodes st' !! m).
Qed.

Lemma elem_of_blockSuccessors fn p s :
  s ∈ default [] (blockSuccessors_of fn !! p) → s ∈ (blocks fn).*1.
Proof.
  unfold blockSuccessors_of. rewrite blockSuccessors_blocks, lookup_empty. simpl.
  intros [[]%elem_of_nil|(b & Hb & _)]. apply list_elem_of_fmap. by exists (s, b).
Qed.

(** In a fact table that has an entry for every block of the function and
    for every predecessor of the block of an entry, the propagator never
    fails with "Bad node": the only error it can throw is the one of the
    iteration cap. *)
Theorem closed_table_never_bad_node fuel fn nodes t e :
  (∀ k, k ∈ (blocks fn).*1 → is_Some (nodes !! k)) →
  (∀ k info p, nodes !! k = Some info → p ∈ preds (block info) →
     is_Some (nodes !! p)) →
  propagateNonNull fuel fn nodes t = Throw e →
  e = invariant_error fixpoint_reason.
Proof.
  intros Hk Hp. unfold propagateNonNull.
  destruct (fixpoint_loop _ _ _ _ _) as [st'|e'|] eqn:H; simpl; [done| |done].
  intros [= <-].
  apply (fixpoint_loop_only_cap _ _ _ _
           {| traversalState := ∅; st_nodes := nodes; st_tree := t |} _ eq_refl)
    in H; [done|..|done].
  - intros k info p Hi Hin. by apply (Hp k info).
  - intros k info p Hi Hin. by apply Hk, (elem_of_blockSuccessors fn k).
Qed.

Lemma closed_table_never_bad_node_witness :
  invariant_error fixpoint_reason = invariant_error fixpoint_reason.
Proof.
  apply (closed_table_never_bad_node 1000 (zigzag 200) zigzag_facts.2
           zigzag_facts.1 (invariant_error fixpoint_reason)).
  - apply Forall_forall. apply (bool_decide_unpack _). vm_compute. exact I.
  - intros k info p Hi. revert p. apply Forall_forall. revert k info Hi.
    apply (bool_decide_unpack _). vm_compute. exact I.
  - vm_compute. reflexivity.
Defined.

(** ** The closure-reference filter *)

Lemma drain_queue_reaches fuel uses queued refs refs' x :
  drain_queue fuel uses queued refs = Some refs' →
  x ∈ refs' ↔ x ∈ refs ∨ ∃ q, q ∈ queued ∧ rtc (uses_edge uses) q x.
Proof.
  revert queued refs. induction fuel as [|fuel IH]; intros queued refs; simpl;
    [done|].
  destruct queued as [|top rest].
  - intros [= <-]. split; [by left|]. intros [?|(q & []%elem_of_nil & _)]. done.
  - intros H. rewrite (IH _ _ H), elem_of_Set_add. split.
    + intros [[?| ->]|(q & [Hq|Hq]%elem_of_app & R)].
      * by left.
      * right. exists top. split; [apply list_elem_of_here|apply rtc_refl].
      * right. exists top. split; [apply list_elem_of_here|].
        rewrite elem_of_reverse in Hq. by apply (rtc_l _ _ q).
      * right. exists q. split; [by apply list_elem_of_further|done].
    + intros [?|(q & [->|Hq]%elem_of_cons & R)].
      * left. by left.
      * destruct (rtc_inv _ _ R) as [->|(y & Hy & Ry)]; [left; by right|].
        right. exists y. split; [|done]. apply elem_of_app. left.
        by apply elem_of_reverse.
      * right. exists q. split; [|done]. apply elem_of_app. by right.
Qed.

Lemma drain_queue_ranked uses (rank : N → nat) :
  (∀ a b, uses_edge uses a b → rank b < rank a) →
  ∀ n queued, Forall (fun q => rank q < n) queued →
  ∀ rest refs, ∃ k refs', ∀ fuel,
    drain_queue (k + fuel) uses (queued ++ rest) refs
    = drain_queue fuel uses rest refs'.
Proof.
  intros Hr. induction n as [|n IHn]; intros queued Hq.
  { destruct queued as [|q ?]; [|apply Forall_cons in Hq as [? _]; lia].
    intros rest refs. by exists 0, refs. }
  induction queued as [|top qs IHq]; intros rest refs; [by exists 0, refs|].
  apply Forall_cons in Hq as [Ht Hqs].
  destruct (IHn (reverse (default [] (uses !! top)))) with
    (rest := qs ++ rest) (refs := Set_add refs top) as (k1 & refs1 & H1).
  { apply Forall_forall. intros y Hy. rewrite elem_of_reverse in Hy.
    specialize (Hr top y Hy). lia. }
  destruct (IHq Hqs rest refs1) as (k2 & refs2 & H2).
  exists (S (k1 + k2)), refs2. intros fuel. simpl.
  rewrite <- Nat.add_assoc, H1. apply H2.
Qed.

Lemma drain_queue_terminates uses (rank : N → nat) queued refs :
  (∀ a b, uses_edge uses a b → rank b < rank a) →
  ∃ fuel refs', ∀ fuel', fuel ≤ fuel' →
    drain_queue fuel' uses queued refs = Some refs'.
Proof.
  intros Hr.
  destruct (drain_queue_ranked uses rank Hr
              (S (max_list (rank <$> queued))) queued) with
    (rest := @nil N) (refs := refs) as (k & refs' & H).
  { apply Forall_forall. intros q Hq.
    assert (rank q ≤ max_list (rank <$> queued)); [|lia].
    apply max_list_elem_of_le, list_elem_of_fmap. by exists q. }
  exists (k + 1), refs'. intros fuel' Hf.
  apply (drain_queue_mono (k + 1)); [|done].
  rewrite <- (app_nil_r queued), H. done.
Qed.

(** The loop has no visited check: from a queue with an identifier that
    reaches a cycle of [uses], it never ends. *)
Lemma drain_queue_diverges fuel uses queued refs q c :
  q ∈ queued → rtc (uses_edge uses) q c → tc (uses_edge uses) c c →
  drain_queue fuel uses queued refs = None.
Proof.
  intros Hq Hqc Hc. revert queued refs q Hq Hqc.
  induction fuel as [|fuel IH]; intros queued refs q Hq Hqc; simpl; [done|].
  destruct queued as [|top rest]; [by apply elem_of_nil in Hq|].
  apply elem_of_cons in Hq as [->|Hq].
  - assert (∃ y, uses_edge uses top y ∧ rtc (uses_edge uses) y c)
      as (y & Hy & Hyc).
    { destruct (rtc_inv _ _ Hqc) as [->|(y & Hy & Ry)]; [|by exists y].
      inversion Hc as [? ? Hcc|? y ? Hcy Hyc]; subst.
      - exists c. split; [done|apply rtc_refl].
      - exists y. split; [done|by apply tc_rtc]. }
    apply (IH _ _ y); [|done]. apply elem_of_app. left. by apply elem_of_reverse.
  - apply (IH _ _ q); [|done]. apply elem_of_app. by right.
Qed.

Lemma drain_dependencies_reaches fuel uses deps refs refs' x :
  drain_dependencies fuel uses deps refs = Some refs' →
  x ∈ refs' ↔ x ∈ refs
    ∨ ∃ d, d ∈ deps ∧ rtc (uses_edge uses) (id (place_identifier d)) x.
Proof.
  revert refs. induction deps as [|d deps IH]; intros refs; simpl.
  - intros [= <-]. split; [by left|]. intros [?|(d & []%elem_of_nil & _)]. done.
  - destruct (drain_queue fuel uses [id (place_identifier d)] refs)
      as [refs1|] eqn:H1; simpl; [|done].
    intros H. rewrite (IH _ H), (drain_queue_reaches _ _ _ _ _ _ H1). split.
    + intros [[?|(q & ->%list_elem_of_singleton & R)]|(d' & Hd' & R)].
      * by left.
      * right. exists d. split; [apply list_elem_of_here|done].
      * right. exists d'. split; [by apply list_elem_of_further|done].
    + intros [?|(d' & [->|Hd']%elem_of_cons & R)].
      * left. by left.
      * left. right. exists (id (place_identifier d)).
        split; [apply list_elem_of_here|done].
      * right. by exists d'.
Qed.

Lemma collect_rvalues_instr_spec fuel uses refs instr uses' refs' x :
  collect_rvalues_instr fuel (uses, refs) instr = Some (uses', refs') →
  uses' = record_uses uses instr
  ∧ (x ∈ refs' ↔ x ∈ refs
       ∨ ∃ deps d, instr_value instr = FunctionExpression deps ∧ d ∈ deps
           ∧ rtc (uses_edge uses) (id (place_identifier d)) x).
Proof.
  unfold collect_rvalues_instr, record_uses.
  assert (G : ¬ (∃ deps, instr_value instr = FunctionExpression deps) →
    ∀ u, Some (u, refs) = Some (uses', refs') →
    uses' = u
    ∧ (x ∈ refs' ↔ x ∈ refs
       ∨ ∃ deps d, instr_value instr = FunctionExpression deps ∧ d ∈ deps
           ∧ rtc (uses_edge uses) (id (place_identifier d)) x)).
  { intros Hn u [= <- <-]. split; [done|]. split; [by left|].
    intros [?|(deps & d & Hv & _)]; [done|]. destruct Hn. by exists deps. }
  destruct (instr_value instr) as [o p|v ps|o p|deps|os ls] eqn:Hv;
    try (destruct (forallb _ _); apply G; intros [? ?]; done).
  destruct (drain_dependencies fuel uses deps refs) as [refs1|] eqn:H1; simpl;
    [|done].
  intros [= <- <-]. split; [done|].
  rewrite (drain_dependencies_reaches _ _ _ _ _ _ H1). split.
  - intros [?|(d & Hd & R)]; [by left|]. right. by exists deps, d.
  - intros [?|(deps' & d & [= <-] & Hd & R)]; [by left|]. right. by exists d.
Qed.

Lemma collect_rvalues_fold fuel instrs uses refs uses' refs' x :
  foldl_option (collect_rvalues_instr fuel) (uses, refs) instrs
    = Some (uses', refs') →
  uses' = foldl record_uses uses instrs
  ∧ (x ∈ refs' ↔ x ∈ refs
       ∨ ∃ pre instr post deps d,
           instrs = pre ++ instr :: post
           ∧ instr_value instr = FunctionExpression deps ∧ d ∈ deps
           ∧ rtc (uses_edge (foldl record_uses uses pre))
                 (id (place_identifier d)) x).
Proof.
  revert uses refs. induction instrs as [|i instrs IH]; intros uses refs;
    cbn [foldl_option foldl].
  - intros [= <- <-]. split; [done|]. split; [by left|].
    intros [?|(pre & instr & post & deps & d & Hl & _)]; [done|].
    by destruct pre.
  - destruct (collect_rvalues_instr fuel (uses, refs) i) as [[u1 r1]|] eqn:H1;
      simpl; [|done].
    intros H. destruct (IH _ _ H) as [-> Hx].
    destruct (collect_rvalues_instr_spec _ _ _ _ _ _ x H1) as [-> Hx1].
    split; [done|]. rewrite Hx, Hx1. split.
    + intros [[?|(deps & d & Hv & Hd & R)]
             |(pre & instr & post & deps & d & -> & Hv & Hd & R)].
      * by left.
      * right. by exists [], i, instrs, deps, d.
      * right. by exists (i :: pre), instr, post, deps, d.
    + intros [?|(pre & instr & post & deps & d & Hl & Hv & Hd & R)].
      * left. by left.
      * destruct pre as [|i0 pre]; simpl in Hl; injection Hl as -> ->.
        -- left. right. by exists deps, d.
        -- right. by exists pre, instr, post, deps, d.
Qed.

(** The set that [collectFunctionExpressionRValues] returns holds exactly the
    identifiers that a dependency of some function expression reaches along
    the operands that were recorded, before that function expression, for
    temporaries computed from unnamed operands only. *)
Theorem closure_references_characterized fuel fn refs x :
  collectFunctionExpressionRValues fuel fn = Some refs →
  x ∈ refs ↔
    ∃ pre instr post deps d,
      all_instructions fn = pre ++ instr :: post
      ∧ instr_value instr = FunctionExpression deps ∧ d ∈ deps
      ∧ rtc (uses_edge (uses_after pre)) (id (place_identifier d)) x.
Proof.
  unfold collectFunctionExpressionRValues.
  destruct (foldl_option _ _ _) as [[u r]|] eqn:H; simpl; [|done].
  intros [= <-]. destruct (collect_rvalues_fold _ _ _ _ _ _ x H) as [_ Hx].
  rewrite Hx. split; [|by right]. intros [[]%elem_of_nil|?]. done.
Qed.

Lemma closure_references_characterized_witness :
  3%N ∈ [5%N; 3%N] ↔
    ∃ pre instr post deps d,
      all_instructions closure_fn = pre ++ instr :: post
      ∧ instr_value instr = FunctionExpression deps ∧ d ∈ deps
      ∧ rtc (uses_edge (uses_after pre)) (id (place_identifier d)) 3%N.
Proof.
  apply (closure_references_characterized 5 closure_fn [5%N; 3%N] 3%N).
  vm_compute. reflexivity.
Defined.

Lemma drain_dependencies_terminates uses (rank : N → nat) deps refs :
  (∀ a b, uses_edge uses a b → rank b < rank a) →
  ∃ fuel refs', ∀ fuel', fuel ≤ fuel' →
    drain_dependencies fuel' uses deps refs = Some refs'.
Proof.
  intros Hr. revert refs. induction deps as [|d deps IH]; intros refs; simpl.
  { by exists 0, refs. }
  destruct (drain_queue_terminates uses rank [id (place_identifier d)] refs Hr)
    as (f1 & refs1 & H1).
  destruct (IH refs1) as (f2 & refs2 & H2).
  exists (f1 `max` f2), refs2. intros fuel' Hf.
  rewrite H1 by lia. simpl. apply H2. lia.
Qed.

Lemma record_uses_ranked (rank : N → nat) uses instr :
  ranked_uses rank [instr] →
  (∀ a b, uses_edge uses a b → rank b < rank a) →
  ∀ a b, uses_edge (record_uses uses instr) a b → rank b < rank a.
Proof.
  intros Hi Hr a b. unfold record_uses.
  assert (G : (∀ deps, instr_value instr ≠ FunctionExpression deps) →
    uses_edge
      (if forallb is_unnamed
            (eachInstructionValueOperand (instr_value instr)
             ++ eachInstructionValueLValue (instr_value instr))
       then <[id (place_identifier (lvalue instr)) :=
                foldl Set_add []
                  ((fun o => id (place_identifier o)) <$>
                     (eachInstructionValueOperand (instr_value instr)
                      ++ eachInstructionValueLValue (instr_value instr)))]> uses
       else uses) a b → rank b < rank a).
  { intros Hn. destruct (forallb _ _) eqn:Hu; [|apply Hr].
    unfold uses_edge. rewrite lookup_insert. case_decide as Ha; [|apply Hr].
    subst a. simpl. intros Hb.
    apply (elem_of_Set_union []) in Hb as [[]%elem_of_nil|Hb].
    apply list_elem_of_fmap in Hb as (o & -> & Ho).
    apply (Hi instr o); [apply list_elem_of_here|done..]. }
  destruct (instr_value instr) eqn:Hv; try (apply G; intros ?; done).
  apply Hr.
Qed.

Lemma collect_rvalues_terminates (rank : N → nat) instrs uses refs :
  ranked_uses rank instrs →
  (∀ a b, uses_edge uses a b → rank b < rank a) →
  ∃ fuel r, ∀ fuel', fuel ≤ fuel' →
    foldl_option (collect_rvalues_instr fuel') (uses, refs) instrs = Some r.
Proof.
  revert uses refs. induction instrs as [|i instrs IH]; intros uses refs Hi Hr;
    cbn [foldl_option].
  { by exists 0, (uses, refs). }
  assert (Hi1 : ranked_uses rank [i]).
  { intros instr o ->%list_elem_of_singleton. apply Hi, list_elem_of_here. }
  assert (Hi2 : ranked_uses rank instrs).
  { intros instr o Hin. apply Hi. by apply list_elem_of_further. }
  assert (∃ f1 refs1, ∀ fuel', f1 ≤ fuel' →
            collect_rvalues_instr fuel' (uses, refs) i
            = Some (record_uses uses i, refs1)) as (f1 & refs1 & H1).
  { unfold collect_rvalues_instr, record_uses.
    destruct (instr_value i) as [o p|v ps|o p|deps|os ls];
      try (exists 0, refs; intros fuel' _; by destruct (forallb _ _)).
    destruct (drain_dependencies_terminates uses rank deps refs Hr)
      as (f1 & refs1 & H1).
    exists f1, refs1. intros fuel' Hf. by rewrite (H1 _ Hf). }
  destruct (IH (record_uses uses i) refs1 Hi2
              (record_uses_ranked rank uses i Hi1 Hr)) as (f2 & r & H2).
  exists (f1 `max` f2), r. intros fuel' Hf.
  rewrite H1 by lia. simpl. apply H2. lia.
Qed.

(** When the operands that the scan records for a temporary all have a lower
    rank than the temporary (as when each temporary is computed from ones
    defined before it), [collectFunctionExpressionRValues] returns. *)
Theorem closure_filter_terminates fn (rank : N → nat) :
  ranked_uses rank (all_instructions fn) →
  ∃ fuel refs, ∀ fuel', fuel ≤ fuel' →
    collectFunctionExpressionRValues fuel' fn = Some refs.
Proof.
  intros Hi.
  destruct (collect_rvalues_terminates rank (all_instructions fn) ∅ [] Hi)
    as (fuel & [u r] & H).
  { intros a b. unfold uses_edge. rewrite lookup_empty. by intros []%elem_of_nil. }
  exists fuel, r. intros fuel' Hf. unfold collectFunctionExpressionRValues.
  fold (all_instructions fn). by rewrite (H _ Hf).
Qed.

Lemma closure_filter_terminates_witness :
  ∃ fuel refs, ∀ fuel', fuel ≤ fuel' →
    collectFunctionExpressionRValues fuel' closure_fn = Some refs.
Proof.
  apply (closure_filter_terminates closure_fn N.to_nat).
  intros instr o Hin Hn Hu Ho. unfold all_instructions in Hin. simpl in Hin.
  repeat (apply elem_of_cons in Hin as [->|Hin]);
    [..|by apply elem_of_nil in Hin]; simpl in Ho.
  - apply list_elem_of_singleton in Ho as ->. simpl. lia.
  - by destruct (Hn _ eq_refl).
  - apply list_elem_of_singleton in Ho as ->. simpl. lia.
Defined.

Lemma foldl_option_app {A B} (f : A → B → option A) a l1 l2 :
  foldl_option f a (l1 ++ l2) = foldl_option f a l1 ≫= fun a' => foldl_option f a' l2.
Proof.
  revert a. induction l1 as [|x l1 IH]; intros a; simpl; [done|].
  destruct (f a x); simpl; [apply IH|done].
Qed.

Lemma drain_dependencies_diverges fuel uses deps refs d c :
  d ∈ deps → rtc (uses_edge uses) (id (place_identifier d)) c →
  tc (uses_edge uses) c c →
  drain_dependencies fuel uses deps refs = None.
Proof.
  intros Hd Hdc Hc. revert refs. induction deps as [|d0 deps IH]; intros refs;
    [by apply elem_of_nil in Hd|].
  simpl. apply elem_of_cons in Hd as [<-|Hd].
  - rewrite (drain_queue_diverges _ _ _ _ _ c (list_elem_of_here _ _) Hdc Hc). done.
  - destruct (drain_queue _ _ _ _); simpl; [by apply IH|done].
Qed.

(** The loop over the queue has no visited check. When a dependency of a
    function expression reaches a temporary that the recorded operands lead
    back to itself, [collectFunctionExpressionRValues] does not return,
    whatever the fuel. *)
Theorem closure_filter_diverges_on_cycle fuel fn pre instr post deps d c :
  all_instructions fn = pre ++ instr :: post →
  instr_value instr = FunctionExpression deps →
  d ∈ deps →
  rtc (uses_edge (uses_after pre)) (id (place_identifier d)) c →
  tc (uses_edge (uses_after pre)) c c →
  collectFunctionExpressionRValues fuel fn = None.
Proof.
  intros Hl Hv Hd Hdc Hc. unfold collectFunctionExpressionRValues.
  fold (all_instructions fn). rewrite Hl, foldl_option_app.
  destruct (foldl_option _ _ pre) as [[u r]|] eqn:Hp; simpl; [|done].
  destruct (collect_rvalues_fold _ _ _ _ _ _ 0%N Hp) as [-> _].
  fold (uses_after pre).
  unfold collect_rvalues_instr. rewrite Hv.
  by rewrite (drain_dependencies_diverges _ _ _ _ d c Hd Hdc Hc).
Qed.

Lemma closure_filter_diverges_on_cycle_witness :
  collectFunctionExpressionRValues 1000 cyclic_fn = None.
Proof.
  apply (closure_filter_diverges_on_cycle 1000 cyclic_fn
           [{| instr_id := 1; lvalue := {| place_identifier := ident 1 |};
               instr_value := OtherValue [{| place_identifier := ident 1 |}] [] |}]
           {| instr_id := 2; lvalue := {| place_identifier := ident 7 |};
              instr_value := FunctionExpression [{| place_identifier := ident 1 |}] |}
           [] [{| place_identifier := ident 1 |}] {| place_identifier := ident 1 |}
           1%N).
  - reflexivity.
  - reflexivity.
  - apply list_elem_of_here.
  - apply rtc_refl.
  - apply tc_once. unfold uses_edge. vm_compute. apply list_elem_of_here.
Defined.

(** ** The entry point *)

Lemma lookup_foldl_delete {V} (m : gmap N V) (refs : list N) x :
  foldl (fun m r => delete r m) m refs !! x
  = if decide (x ∈ refs) then None else m !! x.
Proof.
  revert m. induction refs as [|r refs IH]; intros m; cbn [foldl].
  - destruct (decide (x ∈ [])) as [[]%elem_of_nil|]; done.
  - rewrite IH. destruct (decide (x ∈ refs)) as [Hin|Hin];
      destruct (decide (x ∈ r :: refs)) as [Hin'|Hin']; try done.
    + destruct Hin'. by apply list_elem_of_further.
    + apply elem_of_cons in Hin' as [->|?]; [|done]. apply lookup_delete_eq.
    + apply lookup_delete_ne. intros ->. apply Hin', list_elem_of_here.
Qed.

(** The entries of [temporaries] for the identifiers that
    [collectFunctionExpressionRValues] returns play no part: two maps that
    agree on all other identifiers give the same result. *)
Theorem captured_temporaries_ignored fuel fn temporaries temporaries' optionals refs :
  collectFunctionExpressionRValues fuel fn = Some refs →
  (∀ x, x ∉ refs → temporaries !! x = temporaries' !! x) →
  collectHoistablePropertyLoads fuel fn temporaries optionals
  = collectHoistablePropertyLoads fuel fn temporaries' optionals.
Proof.
  intros Hr Ht. unfold collectHoistablePropertyLoads. rewrite Hr. simpl.
  replace (foldl (fun m r => delete r m) temporaries' refs)
    with (foldl (fun m r => delete r m) temporaries refs); [done|].
  apply map_eq. intros x. rewrite !lookup_foldl_delete.
  destruct (decide (x ∈ refs)); [done|by apply Ht].
Qed.

Lemma captured_temporaries_ignored_witness :
  collectHoistablePropertyLoads 5 closure_fn optional_temporaries ∅
  = collectHoistablePropertyLoads 5 closure_fn ∅ ∅.
Proof.
  apply (captured_temporaries_ignored 5 closure_fn optional_temporaries ∅ ∅
           [5%N; 3%N]).
  - vm_compute. reflexivity.
  - intros x Hx. unfold optional_temporaries. rewrite lookup_empty.
    apply lookup_singleton_ne. intros <-. apply Hx, list_elem_of_here.
Defined.

Lemma Map_set_keys {V} (m : list (N * V)) k v :
  (Map_set m k v).*1 = if decide (k ∈ m.*1) then m.*1 else m.*1 ++ [k].
Proof.
  induction m as [|[k0 v0] m IH]; cbn [Map_set].
  - destruct (decide (k ∈ [])) as [[]%elem_of_nil|]; done.
  - destruct (decide (k0 = k)) as [->|Hk]; rewrite !fmap_cons; cbn [fst].
    + destruct (decide (k ∈ k :: m.*1)) as [|Hn]; [done|].
      destruct Hn. apply list_elem_of_here.
    + rewrite IH. destruct (decide (k ∈ m.*1)) as [Hin|Hin];
        destruct (decide (k ∈ k0 :: m.*1)) as [Hin'|Hin']; try done.
      * destruct Hin'. by apply list_elem_of_further.
      * apply elem_of_cons in Hin' as [->|?]; done.
Qed.

Lemma Map_set_NoDup {V} (m : list (N * V)) k v :
  NoDup m.*1 → NoDup (Map_set m k v).*1.
Proof.
  intros Hm. rewrite Map_set_keys. case_decide as Hk; [done|].
  apply NoDup_app. split_and!; [done| |apply NoDup_singleton].
  intros x Hx ->%list_elem_of_singleton. done.
Qed.

Lemma elem_of_Map_set {V} (m : list (N * V)) k v k' v' :
  NoDup m.*1 →
  (k', v') ∈ Map_set m k v ↔ (k' = k ∧ v' = v) ∨ (k' ≠ k ∧ (k', v') ∈ m).
Proof.
  induction m as [|[k0 v0] m IH]; cbn [Map_set]; rewrite ?fmap_cons; cbn [fst];
    intros Hm.
  - rewrite list_elem_of_singleton. split.
    + intros [= -> ->]. by left.
    + intros [[-> ->]|[_ []%elem_of_nil]]. done.
  - apply NoDup_cons in Hm as [Hk0 Hm]. destruct (decide (k0 = k)) as [->|Hk].
    + rewrite !elem_of_cons. split.
      * intros [[= -> ->]|Hin]; [by left|]. right. split; [|by right].
        intros ->. apply Hk0. apply list_elem_of_fmap. by exists (k, v').
      * intros [[-> ->]|[Hne [[= ? ?]|Hin]]]; [by left|done|by right].
    + rewrite !elem_of_cons, (IH Hm). split.
      * intros [[= -> ->]|[?|[? ?]]]; [right|by left|right]; split; try done;
          [by left|by right].
      * intros [?|[Hne [?|?]]]; [right; by left|by left|right; right; done].
Qed.

Lemma scope_table_spec (nodes : gmap BlockId BlockInfo) (bs : list BasicBlock) :
  let table :=
    foldl (fun acc b =>
             match terminal b with
             | TerminalScope scope blockId =>
                 Map_set acc (scope_id scope) (nodes !! blockId)
             | _ => acc
             end) [] bs in
  NoDup table.*1
  ∧ ∀ s v, (s, v) ∈ table ↔
      ∃ pre b post sc blk,
        bs = pre ++ b :: post
        ∧ terminal b = TerminalScope sc blk ∧ scope_id sc = s
        ∧ v = nodes !! blk
        ∧ ∀ b' sc' blk', b' ∈ post → terminal b' = TerminalScope sc' blk' →
            scope_id sc' ≠ s.
Proof.
  induction bs as [|b bs IH] using rev_ind; simpl.
  { split; [apply NoDup_nil_2|]. intros s v. split; [by intros []%elem_of_nil|].
    intros (pre & b & post & sc & blk & Hl & _). by destruct pre. }
  rewrite foldl_app. simpl. destruct IH as [ND IH].
  set (T := foldl _ [] bs) in *.
  assert (Hlast : ∀ pre b0 post, bs ++ [b] = pre ++ b0 :: post →
            (post = [] ∧ pre = bs ∧ b0 = b)
            ∨ ∃ post', post = post' ++ [b] ∧ bs = pre ++ b0 :: post').
  { intros pre b0 post Hl. destruct post as [|p post _] using rev_ind.
    - left. apply app_inj_tail in Hl as [-> ->]. done.
    - right. exists post. rewrite app_comm_cons, app_assoc in Hl.
      apply app_inj_tail in Hl as [-> ->]. done. }
  assert (G : (∀ sc blk, terminal b ≠ TerminalScope sc blk) →
    NoDup T.*1
    ∧ ∀ s v, (s, v) ∈ T ↔
        ∃ pre b0 post sc blk,
          bs ++ [b] = pre ++ b0 :: post
          ∧ terminal b0 = TerminalScope sc blk ∧ scope_id sc = s
          ∧ v = nodes !! blk
          ∧ ∀ b' sc' blk', b' ∈ post → terminal b' = TerminalScope sc' blk' →
              scope_id sc' ≠ s).
  { intros Hn. split; [done|]. intros s v. rewrite IH. split.
    - intros (pre & b0 & post & sc & blk & -> & Ht & Hs & Hv & Hp).
      exists pre, b0, (post ++ [b]), sc, blk. rewrite <- app_assoc.
      split_and!; try done.
      intros b' sc' blk' [Hin| ->%list_elem_of_singleton]%elem_of_app Ht';
        [by apply (Hp b' sc' blk')|]. by destruct (Hn sc' blk').
    - intros (pre & b0 & post & sc & blk & Hl & Ht & Hs & Hv & Hp).
      destruct (Hlast _ _ _ Hl) as [(-> & -> & ->)|(post' & -> & ->)];
        [by destruct (Hn sc blk)|].
      exists pre, b0, post', sc, blk. split_and!; try done.
      intros b' sc' blk' Hin. apply Hp. apply elem_of_app. by left. }
  destruct (terminal b) as [sc0 blk0| | |] eqn:Hb.
  - split; [by apply Map_set_NoDup|]. intros s v.
    rewrite (elem_of_Map_set _ _ _ _ _ ND), IH. split.
    + intros [[-> ->]|(Hne & pre & b0 & post & sc & blk & -> & Ht & Hs & Hv & Hp)].
      * exists bs, b, [], sc0, blk0. split_and!; try done.
        intros b' ? ? []%elem_of_nil.
      * exists pre, b0, (post ++ [b]), sc, blk. rewrite <- app_assoc.
        split_and!; try done.
        intros b' sc' blk' [Hin| ->%list_elem_of_singleton]%elem_of_app Ht'.
        -- by apply (Hp b' sc' blk').
        -- rewrite Hb in Ht'. injection Ht' as <- <-. congruence.
    + intros (pre & b0 & post & sc & blk & Hl & Ht & Hs & Hv & Hp).
      destruct (Hlast _ _ _ Hl) as [(-> & -> & ->)|(post' & -> & ->)].
      * left. rewrite Hb in Ht. injection Ht as ? ?. by subst.
      * right. split.
        -- intros Heq. apply (Hp b sc0 blk0); [|done..].
           apply elem_of_app. right. apply list_elem_of_here.
        -- exists pre, b0, post', sc, blk. split_and!; try done.
           intros b' sc' blk' Hin. apply Hp. apply elem_of_app. by left.
  - by apply G.
  - by apply G.
  - by apply G.
Qed.

(** The final re-indexing by scope: the table has one entry for each scope
    id that a scope terminal of the function carries, and the entry of a
    scope id is what the fact table holds for the block of the last scope
    terminal, in block order, with that scope id. *)
Theorem scope_table_last_wins fn nodes :
  NoDup (nodesKeyedByScopeId_of fn nodes).*1
  ∧ ∀ s v, (s, v) ∈ nodesKeyedByScopeId_of fn nodes ↔
      ∃ pre b post sc blk,
        (blocks fn).*2 = pre ++ b :: post
        ∧ terminal b = TerminalScope sc blk ∧ scope_id sc = s
        ∧ v = nodes !! blk
        ∧ ∀ b' sc' blk', b' ∈ post → terminal b' = TerminalScope sc' blk' →
            scope_id sc' ≠ s.
Proof. apply scope_table_spec. Qed.

Lemma collect_blocks_entries fn temporaries optionals known nonNull bs t nodes t' nodes' :
  wf_tree t → valid_set t nonNull → NoDup nonNull → wf_nodes t nodes →
  foldl (collect_block fn temporaries optionals known nonNull) (t, nodes) bs
    = (t', nodes') →
  ∀ k info, nodes' !! k = Some info →
    nodes !! k = Some info ∨ (block info ∈ bs ∧ block_id (block info) = k).
Proof.
  revert t nodes. induction bs as [|b bs IH]; intros t nodes W V D Wn;
    cbn [foldl].
  - intros [= <- <-] k info Hk. by left.
  - destruct (collect_block fn temporaries optionals known nonNull (t, nodes) b)
      as [t1 n1] eqn:H1. intros H k info Hk.
    destruct (collect_block_spec _ _ _ _ _ _ _ _ _ _ W V D Wn H1)
      as (W1 & E1 & Wn1 & O1 & info1 & Hi1 & Hb1 & _).
    destruct (IH t1 n1 W1 (extends_valid_set _ _ _ E1 V) D Wn1 H k info Hk)
      as [Hk1|[Hin Hid]].
    + destruct (decide (k = block_id b)) as [->|Hne].
      * right. assert (info = info1) as -> by congruence.
        rewrite Hb1. split; [apply list_elem_of_here|done].
      * left. by rewrite <- (O1 k Hne).
    + right. split; [by apply list_elem_of_further|done].
Qed.

(** The fact table of a function with a closed graph knows every block and
    every neighbor. *)
Lemma closed_graph_table fn temporaries optionals t t' nodes :
  closed_graph fn → wf_tree t →
  collectNonNullsInBlocks fn temporaries optionals t = (t', nodes) →
  (∀ k, k ∈ (blocks fn).*1 → is_Some (nodes !! k))
  ∧ (∀ k info, nodes !! k = Some info →
       block_id (block info) = k ∧ (k, block info) ∈ blocks fn)
  ∧ neighbors_known (blockSuccessors_of fn) forward
      {| traversalState := ∅; st_nodes := nodes; st_tree := t' |}
  ∧ neighbors_known (blockSuccessors_of fn) backward
      {| traversalState := ∅; st_nodes := nodes; st_tree := t' |}.
Proof.
  intros [Cid Cp Cs] W H.
  destruct (collectNonNullsInBlocks_spec _ _ _ _ _ _ W H) as (_ & _ & _ & Dom & _).
  assert (K : ∀ k, k ∈ (blocks fn).*1 → is_Some (nodes !! k)).
  { intros k Hk. apply Dom. apply list_elem_of_fmap in Hk as ([k' b] & -> & Hin).
    simpl. rewrite <- (Cid _ _ Hin). apply list_elem_of_fmap. exists b.
    split; [done|]. apply list_elem_of_fmap. by exists (k', b). }
  assert (B : ∀ k info, nodes !! k = Some info →
            block_id (block info) = k ∧ (k, block info) ∈ blocks fn).
  { unfold collectNonNullsInBlocks in H.
    destruct (knownNonNullIdentifiers_of fn t) as [t0 nonNull] eqn:H0.
    destruct (knownNonNullIdentifiers_of_spec _ _ _ _ W H0) as (W0 & E0 & V0 & D0).
    assert (Wn0 : wf_nodes t0 ∅) by (intros k i; by rewrite lookup_empty).
    intros k info Hk.
    destruct (collect_blocks_entries _ _ _ _ _ _ _ _ _ _ W0 V0 D0 Wn0 H k info Hk)
      as [Hk0|[Hin Hid]]; [by rewrite lookup_empty in Hk0|].
    split; [done|]. apply list_elem_of_fmap in Hin as ([k' b] & Hb & Hin).
    simpl in Hb. subst b. by rewrite <- Hid, (Cid _ _ Hin). }
  split_and!; [done..| |].
  - intros k info p Hk Hp. simpl in *. destruct (B k info Hk) as [_ Hin].
    apply K. by apply (Cp k (block info)).
  - intros k info p Hk Hp. simpl in *. apply K.
    by apply (elem_of_blockSuccessors fn k).
Qed.

(** On a function with a closed graph the pass never fails with "Bad node".
    It throws the error of the iteration cap, or it returns a table in which
    every scope has an entry, for a block of the function, whose fact set is
    a set of nodes of the returned trie without repetition. *)
Theorem closed_function_result fuel fn temporaries optionals :
  closed_graph fn →
  match collectHoistablePropertyLoads fuel fn temporaries optionals with
  | Ok (table, t') =>
      wf_tree t'
      ∧ ∀ s v, (s, v) ∈ table →
          ∃ info, v = Some info
            ∧ (block_id (block info), block info) ∈ blocks fn
            ∧ valid_set t' (assumedNonNullObjects info)
            ∧ NoDup (assumedNonNullObjects info)
  | Throw e => e = invariant_error fixpoint_reason
  | OutOfFuel => True
  end.
Proof.
  intros C. unfold collectHoistablePropertyLoads.
  destruct (collectFunctionExpressionRValues fuel fn) as [refs|]; simpl; [|done].
  destruct (collectNonNullsInBlocks _ _ _ _) as [t1 nodes] eqn:H1.
  destruct (closed_graph_table _ _ _ _ _ _ C wf_tree_new H1) as (K & B & Nf & Nb).
  destruct (collectNonNullsInBlocks_spec _ _ _ _ _ _ wf_tree_new H1)
    as (W1 & _ & Wn1 & _).
  destruct (propagateNonNull fuel fn nodes t1) as [[nodes' t2]|e|] eqn:Hp; simpl;
    [| |done].
  - destruct (propagateNonNull_facts _ _ _ _ _ _ W1 Wn1 Hp) as [_ [W2 Wn2] _ _].
    simpl in W2, Wn2. split; [done|]. intros s v Hin.
    apply (proj2 (scope_table_spec nodes' (blocks fn).*2)) in Hin
      as (pre & b & post & sc & blk & Hl & Ht & _ & -> & _).
    assert (Hb : b ∈ (blocks fn).*2).
    { rewrite Hl. apply elem_of_app. right. apply list_elem_of_here. }
    apply list_elem_of_fmap in Hb as ([k b'] & -> & Hkb).
    destruct (K blk (cg_scopes _ C _ _ _ _ Hkb Ht)) as [info Hi].
    assert (Hblocks : block <$> nodes' !! blk = block <$> nodes !! blk).
    { unfold propagateNonNull in Hp.
      destruct (fixpoint_loop _ _ _ _ _) as [st'|?|] eqn:Hf; simpl in Hp; [|done..].
      injection Hp as <- <-.
      apply (fixpoint_loop_blocks _ _ _ _
               {| traversalState := ∅; st_nodes := nodes; st_tree := t1 |} _
               eq_refl Hf). }
    rewrite Hi in Hblocks. destruct (nodes' !! blk) as [info'|] eqn:Hi'; [|done].
    injection Hblocks as Hblocks. exists info'. destruct (B blk info Hi) as [Hid Hin].
    destruct (Wn2 blk info' Hi').
    split_and!; [done| |done..]. by rewrite Hblocks, Hid.
  - unfold propagateNonNull in Hp.
    destruct (fixpoint_loop _ _ _ _ _) as [st'|e'|] eqn:H; simpl in Hp; [done| |done].
    injection Hp as <-.
    by apply (fixpoint_loop_only_cap _ _ _ _
                {| traversalState := ∅; st_nodes := nodes; st_tree := t1 |} _
                eq_refl Nf Nb K) in H.
Qed.

Lemma scoped_fn_closed : closed_graph scoped_fn.
Proof.
  split.
  - intros k b Hin. unfold scoped_fn in Hin. cbn [blocks] in Hin.
    repeat (apply elem_of_cons in Hin as [[= -> ->]|Hin]); try done.
    by apply elem_of_nil in Hin.
  - intros k b p Hin. unfold scoped_fn in Hin. cbn [blocks] in Hin.
    repeat (apply elem_of_cons in Hin as [[= -> ->]|Hin]); simpl.
    + by intros []%elem_of_nil.
    + intros ->%list_elem_of_singleton. apply list_elem_of_here.
    + by apply elem_of_nil in Hin.
  - intros k b sc blk Hin. unfold scoped_fn in Hin. cbn [blocks] in Hin.
    repeat (apply elem_of_cons in Hin as [[= -> ->]|Hin]); simpl.
    + intros [= <- <-]. apply list_elem_of_further, list_elem_of_here.
    + done.
    + by apply elem_of_nil in Hin.
Qed.

Lemma closed_function_result_witness :
  match collectHoistablePropertyLoads 5 scoped_fn ∅ ∅ with
  | Ok (table, t') =>
      wf_tree t'
      ∧ ∀ s v, (s, v) ∈ table →
          ∃ info, v = Some info
            ∧ (block_id (block info), block info) ∈ blocks scoped_fn
            ∧ valid_set t' (assumedNonNullObjects info)
            ∧ NoDup (assumedNonNullObjects info)
  | Throw e => e = invariant_error fixpoint_reason
  | OutOfFuel => True
  end.
Proof. exact (closed_function_result 5 scoped_fn ∅ ∅ scoped_fn_closed). Defined.

(** The pass terminates. When the operands that the closure-reference filter
    records for a temporary all have a lower rank than the temporary, the
    pass returns a table or throws, for every function, [temporaries] and
    [optionals]. *)
Theorem pass_terminates fn temporaries optionals (rank : N → nat) :
  ranked_uses rank (all_instructions fn) →
  ∃ fuel, ∀ fuel', fuel ≤ fuel' →
    collectHoistablePropertyLoads fuel' fn temporaries optionals ≠ OutOfFuel.
Proof.
  intros Hi.
  destruct (collect_rvalues_terminates rank (all_instructions fn) ∅ [] Hi)
    as (f1 & [u refs] & H1).
  { intros a b. unfold uses_edge. rewrite lookup_empty. by intros []%elem_of_nil. }
  set (realTemporaries := foldl (fun m r => delete r m) temporaries refs).
  destruct (collectNonNullsInBlocks fn realTemporaries optionals Tree_new)
    as [t1 nodes] eqn:Hc.
  destruct (collectNonNullsInBlocks_spec _ _ _ _ _ _ wf_tree_new Hc)
    as (W1 & _ & Wn1 & _).
  destruct (fixpoint_loop_converges fn (blockSuccessors_of fn) MAX_LOOPS
              {| traversalState := ∅; st_nodes := nodes; st_tree := t1 |} eq_refl)
    as [f2 H2].
  { split; [done|]. intros k info Hk. apply (Wn1 k info Hk). }
  exists (f1 `max` f2). intros fuel' Hf. unfold collectHoistablePropertyLoads.
  unfold collectFunctionExpressionRValues. fold (all_instructions fn).
  rewrite (H1 fuel') by lia. simpl. fold realTemporaries. rewrite Hc.
  assert (Hp : propagateNonNull f2 fn nodes t1 ≠ OutOfFuel).
  { unfold propagateNonNull. by destruct (fixpoint_loop _ _ _ _ _). }
  rewrite (propagateNonNull_mono f2 fuel' fn nodes t1 ltac:(lia) Hp).
  by destruct (propagateNonNull f2 fn nodes t1) as [[??]|?|].
Qed.

Lemma pass_terminates_witness :
  ∃ fuel, ∀ fuel', fuel ≤ fuel' →
    collectHoistablePropertyLoads fuel' closure_fn optional_temporaries ∅
    ≠ OutOfFuel.
Proof.
  apply (pass_terminates closure_fn optional_temporaries ∅ N.to_nat).
  intros instr o Hin Hn Hu Ho. unfold all_instructions in Hin. simpl in Hin.
  repeat (apply elem_of_cons in Hin as [->|Hin]);
    [..|by apply elem_of_nil in Hin]; simpl in Ho.
  - apply list_elem_of_singleton in Ho as ->. simpl. lia.
  - by destruct (Hn _ eq_refl).
  - apply list_elem_of_singleton in Ho as ->. simpl. lia.
Defined.

(** ** The fixed point of the propagator *)

(** The path that a re-walk ends at is not rewritten by a second re-walk. *)
Lemma canon_path_stable t K c es r :
  find_path t c (canon_path t K c es) = Some r →
  unrewritten t K c (canon_path t K c es) = true.
Proof.
  revert c. induction es as [|e es IH]; intros c; [done|]. cbn [canon_path].
  set (e' := if optional e && Set_has K c then unconditional e else e).
  cbn [find_path unrewritten].
  destruct (child_of t c e') as [next|] eqn:Hc; simpl; [|done].
  intros H. rewrite (IH _ H), andb_true_r. unfold e'.
  destruct (optional e) eqn:He, (Set_has K c) eqn:Hh; simpl; try done;
    by rewrite ?He, ?andb_false_r.
Qed.

Lemma rewalk_stable t K o n t' c :
  wf_tree t → heap t !! o = Some n → rewalk t K o = (t', c) →
  stable t' K c.
Proof.
  intros W Hn H.
  destruct (rewalk_spec _ _ _ _ _ _ W Hn H)
    as (W' & E & r0 & rn & Hr0 & _ & Hrn & I & P & _).
  pose proof (wf_self _ W' _ _ Hrn) as Hs.
  destruct (find_dep_root _ _ _ _ Hs) as (r0' & Hr0' & Hp).
  assert (r0' = r0) as ->.
  { rewrite I in Hr0'. pose proof (ext_roots _ _ E _ _ Hr0). congruence. }
  apply (stable_unrewritten _ K _ _ _ W' Hrn Hr0').
  rewrite P in Hp |- *. by apply (canon_path_stable _ _ _ _ c).
Qed.

Lemma unrewritten_extends t t' K c cn es r :
  wf_tree t → extends t t' → heap t !! c = Some cn →
  find_path t c es = Some r →
  unrewritten t' K c es = unrewritten t K c es.
Proof.
  intros W E. revert c cn. induction es as [|e es IH]; intros c cn Hc; [done|].
  cbn [find_path unrewritten].
  destruct (child_of t c e) as [next|] eqn:Hn; simpl; [|done]. intros H.
  rewrite (extends_child_of _ _ _ _ _ _ E Hc Hn).
  destruct (wf_child_of _ _ _ _ _ W Hc Hn) as (nn & Hnn & _).
  by rewrite (IH _ _ Hnn H).
Qed.

(** A node that a re-walk leaves alone in a later trie, with more known
    nodes, is left alone now. *)
Lemma stable_transport t t' K K' x :
  wf_tree t → wf_tree t' → extends t t' → x < length (heap t) →
  (∀ y, y ∈ K → y ∈ K') →
  stable t' K' x → stable t K x.
Proof.
  intros W W' E Hx HK S.
  destruct (lookup_lt_is_Some_2 _ _ Hx) as [n Hn].
  destruct (ext_node _ _ E _ _ Hn) as (n' & Hn' & Hf & _).
  pose proof (wf_self _ W _ _ Hn) as Hs.
  destruct (find_dep_root _ _ _ _ Hs) as (r0 & Hr0 & Hp).
  pose proof (ext_roots _ _ E _ _ Hr0) as Hr0'.
  apply (stable_unrewritten _ K _ _ _ W Hn Hr0).
  destruct (wf_roots _ W _ _ Hr0) as (rn & Hrn & _).
  rewrite <- (unrewritten_extends t t' K r0 rn _ x W E Hrn Hp).
  apply (unrewritten_antitone _ K'); [done|].
  rewrite <- Hf in Hr0'.
  pose proof (proj1 (stable_unrewritten _ K' _ _ _ W' Hn' Hr0') S) as U.
  by rewrite Hf in U.
Qed.

Lemma unrewritten_false t K c es r :
  find_path t c es = Some r → unrewritten t K c es = false →
  ∃ q e r' nq, es = q ++ e :: r' ∧ optional e = true
    ∧ find_path t c q = Some nq ∧ nq ∈ K.
Proof.
  revert c. induction es as [|e es IH]; intros c; [done|].
  cbn [find_path unrewritten].
  destruct (child_of t c e) as [next|] eqn:Hn; simpl; [|done]. intros H.
  destruct (optional e && Set_has K c) eqn:Hb; simpl.
  - intros _. apply andb_true_iff in Hb as [He Hh]. apply Set_has_true in Hh.
    by exists [], e, es, c.
  - intros U. destruct (IH _ H U) as (q & e1 & r' & nq & -> & He & Hq & Hin).
    exists (e :: q), e1, r', nq. split_and!; try done. simpl. by rewrite Hn.
Qed.

Lemma rewalk_entries_old t K c cn es t' r r' :
  wf_tree t → heap t !! c = Some cn →
  rewalk_entries t K c es = (t', r) →
  find_path t c (canon_path t' K c es) = Some r' →
  t' = t.
Proof.
  intros W. revert c cn. induction es as [|e es IH]; intros c cn Hc;
    cbn [rewalk_entries canon_path].
  { by intros [= <- <-]. }
  set (e' := if optional e && Set_has K c
             then {| property := property e; optional := false |} else e).
  fold (unconditional e). 
  destruct (getOrCreatePropertyEntry t c e') as [t1 next] eqn:H1. intros H.
  change (if optional e && Set_has K c then unconditional e else e) with e'.
  cbn [find_path]. destruct (child_of t c e') as [next0|] eqn:Hn; simpl; [|done].
  rewrite (getOrCreatePropertyEntry_found _ _ _ _ Hn) in H1.
  injection H1 as <- <-.
  destruct (wf_child_of _ _ _ _ _ W Hc Hn) as (nn & Hnn & _).
  destruct (rewalk_entries_spec _ _ _ _ _ _ _ W Hnn H) as (_ & E & _).
  rewrite (extends_child_of _ _ _ _ _ _ E Hc Hn).
  by apply (IH _ _ Hnn).
Qed.

(** A re-walk that ends at a node that was in the trie creates nothing. *)
Lemma rewalk_old t K o n t' c :
  wf_tree t → heap t !! o = Some n → rewalk t K o = (t', c) →
  c < length (heap t) → t' = t.
Proof.
  intros W Hn H Hc.
  destruct (rewalk_spec _ _ _ _ _ _ W Hn H)
    as (W' & E & r0 & rn & Hr0 & _ & Hrn & I & P & _).
  destruct (lookup_lt_is_Some_2 _ _ Hc) as [cn Hcn].
  destruct (ext_node _ _ E _ _ Hcn) as (cn' & Hcn' & Hf & _).
  assert (cn' = rn) as -> by congruence.
  pose proof (wf_self _ W _ _ Hcn) as Hs. rewrite <- Hf, I, P in Hs.
  destruct (find_dep_root _ _ _ _ Hs) as (r0' & Hr0' & Hp).
  assert (r0' = r0) as -> by congruence.
  unfold rewalk in H. rewrite (deref_lookup _ _ _ Hn) in H.
  rewrite (getOrCreateIdentifier_found _ _ _ Hr0) in H.
  destruct (wf_roots _ W _ _ Hr0) as (r0n & Hr0n & _).
  by apply (rewalk_entries_old _ _ _ _ _ _ _ _ W Hr0n H Hp).
Qed.

Lemma find_dep_prefix t i q rest x :
  find_dep t i (q ++ rest) = Some x → ∃ nq, find_dep t i q = Some nq.
Proof.
  unfold find_dep. destruct (roots t !! i) as [r0|]; simpl; [|done].
  rewrite find_path_app. destruct (find_path t r0 q) as [nq|]; simpl; [|done].
  intros _. by exists nq.
Qed.

Lemma filter_elem_of_ext (P Q : nat → Prop) `{∀ x, Decision (P x)}
  `{∀ x, Decision (Q x)} (l : list nat) :
  (∀ x, x ∈ l → P x ↔ Q x) → filter P l = filter Q l.
Proof.
  induction l as [|a l IH]; intros HPQ; [done|]. rewrite !filter_cons.
  rewrite IH by (intros x Hx; apply HPQ; by apply list_elem_of_further).
  destruct (decide (P a)) as [HP|HP], (decide (Q a)) as [HQ|HQ]; try done.
  - destruct HQ. by apply (HPQ a (list_elem_of_here _ _)).
  - destruct HP. by apply (HPQ a (list_elem_of_here _ _)).
Qed.

Lemma reduce_body_settle prev U t0 s original rest :
  (∀ x, x ∈ prev → x ∈ U) → valid_set t0 U →
  reduce_inv s → reduce_settle prev U t0 s → rs_pending s = original :: rest →
  reduce_settle prev U t0 (reduce_body s original rest).
Proof.
  intros HpU VU I Q Hp.
  destruct (reduce_body_spec s original rest I Hp) as (I' & E' & _).
  pose proof (ri_pending _ I) as Vp. rewrite Hp in Vp.
  apply Forall_cons in Vp as [Ho _].
  destruct (lookup_lt_is_Some_2 _ _ Ho) as [n Hn].
  pose proof (ri_wf _ I) as W. pose proof (ri_wf _ I') as W'.
  destruct Q as [Qk (tail & Qf & Qt) Qg Qn Qtr].
  revert I' E' W'. unfold reduce_body.
  destruct (rewalk (rs_tree s) (rs_knownNonNulls s) original) as [t' c] eqn:Hr.
  pose proof (rewalk_stable _ _ _ _ _ _ W Hn Hr) as Sc.
  case_bool_decide as Hc; simpl; intros I' E' W'.
  - assert (HcN : c ∈ rs_knownNonNulls s → c ∈ rs_nodes s).
    { intros HcK. destruct (decide (c ∈ rs_nodes s)) as [|HcN]; [done|].
      destruct (Qg c HcK HcN).
      apply (stable_transport _ t' _ (rs_knownNonNulls s)); try done.
      apply (valid_set_elem _ _ _ (ri_known _ I) HcK). }
    assert (Hunst : ∀ x, x ∈ rs_knownNonNulls s →
              ¬ stable (rs_tree s) (rs_knownNonNulls s) x →
              ¬ stable t' (Set_add (rs_knownNonNulls s) c) x).
    { intros x Hx Hns S. apply Hns.
      apply (stable_transport _ t' _ (Set_add (rs_knownNonNulls s) c));
        try done.
      - apply (valid_set_elem _ _ _ (ri_known _ I) Hx).
      - intros y Hy. apply elem_of_Set_add. by left. }
    split; simpl.
    + intros x Hx. apply elem_of_Set_add. left. by apply Qk.
    + assert (Hfront : filter (fun x => x ∈ Set_add (Set_delete (rs_nodes s) original) c)
                         prev
                       = filter (fun y => y ≠ original)
                           (filter (fun x => x ∈ rs_nodes s) prev)).
      { rewrite list_filter_filter. apply filter_elem_of_ext. intros x Hx.
        rewrite elem_of_Set_add, elem_of_Set_delete. split.
        - intros [[? ?]| ->]; [done|]. split; [done|]. apply HcN, Qk, HpU, Hx.
        - intros [? ?]. by left. }
      assert (Hdel : Set_delete (rs_nodes s) original
                     = filter (fun x => x ∈ Set_add (Set_delete (rs_nodes s) original) c)
                         prev
                       ++ filter (fun y => y ≠ original) tail).
      { rewrite Hfront. unfold Set_delete. rewrite Qf at 1. by rewrite filter_app. }
      clear Hfront.
      remember (filter (fun x => x ∈ Set_add (Set_delete (rs_nodes s) original) c)
                  prev) as F eqn:HF.
      unfold Set_add.
      destruct (Set_has (Set_delete (rs_nodes s) original) c) eqn:Hh.
      * exists (filter (fun y => y ≠ original) tail). split; [done|].
        intros z [_ Hz]%list_elem_of_filter. by apply Qt.
      * apply Set_has_false in Hh.
        exists (filter (fun y => y ≠ original) tail ++ [c]). split.
        -- rewrite Hdel at 1. by rewrite <- app_assoc.
        -- intros z [[_ Hz]%list_elem_of_filter| ->%list_elem_of_singleton]%elem_of_app;
             [by apply Qt|].
           intros Hcp. apply Hh. apply elem_of_Set_delete. split; [|done].
           apply HcN, Qk, HpU, Hcp.
    + intros x [Hx| ->]%elem_of_Set_add Hxn.
      * apply (Hunst x Hx).
        destruct (decide (x = original)) as [->|Hne].
        -- unfold stable. rewrite Hr. intros [= ? ?]. done.
        -- apply (Qg x Hx). intros HxN. apply Hxn. apply elem_of_Set_add. left.
           by apply elem_of_Set_delete.
      * destruct Hxn. apply elem_of_Set_add. by right.
    + intros z Hz HzU q e r nq Hpath He Hq.
      destruct (decide (z ∈ rs_knownNonNulls s)) as [HzK|HzK].
      * pose proof (valid_set_elem _ _ _ (ri_known _ I) HzK) as Vz.
        rewrite (extends_fullPath _ _ _ E' Vz) in Hpath, Hq.
        destruct (lookup_lt_is_Some_2 _ _ Vz) as [zn Hzn].
        pose proof (wf_self _ W _ _ Hzn) as Hs.
        rewrite (deref_lookup _ _ _ Hzn) in Hpath, Hq. rewrite Hpath in Hs.
        destruct (find_dep_prefix _ _ _ _ _ Hs) as [nq0 Hq0].
        pose proof (find_dep_ext _ _ _ _ _ W E' Hq0) as Hq0'.
        assert (nq = nq0) as -> by congruence.
        apply (Qn z HzK HzU q e r nq0); [|done|];
          by rewrite (deref_lookup _ _ _ Hzn).
      * apply elem_of_Set_add in Hz as [?| ->]; [done|].
        intros HnqU. apply Qk in HnqU.
        destruct (rewalk_spec _ _ _ _ _ _ W Hn Hr)
          as (_ & _ & r0 & rn & Hr0 & _ & Hrn & Hi & _).
        rewrite (deref_lookup _ _ _ Hrn) in Hpath, Hq.
        destruct (find_dep_root _ _ _ _ Hq) as (r0' & Hr0' & Hqp).
        pose proof (proj1 (stable_unrewritten _ (rs_knownNonNulls s) _ _ _ W' Hrn Hr0')
                      Sc) as Un.
        rewrite Hpath in Un.
        by apply (unrewritten_base _ _ _ _ _ _ _ Un Hqp He).
    + destruct (decide (c ∈ U)) as [HcU|HcU].
      * destruct Qtr as [Ht0|(z & Hz & HzU)].
        -- left. rewrite <- Ht0. apply (rewalk_old _ _ _ _ _ _ W Hn Hr).
           rewrite Ht0. apply (valid_set_elem _ _ _ VU HcU).
        -- right. exists z. split; [|done]. apply elem_of_Set_add. by left.
      * right. exists c. split; [|done]. apply elem_of_Set_add. by right.
  - assert (c = original) as -> by (destruct (decide (c = original)); done).
    pose proof (rewalk_same _ _ _ _ _ W Hn Hr) as ->.
    split; simpl; try done. by exists tail.
Qed.

Lemma reduce_for_settle prev U t0 fuel s s' :
  (∀ x, x ∈ prev → x ∈ U) → valid_set t0 U →
  reduce_inv s → reduce_settle prev U t0 s → reduce_for fuel s = Some s' →
  reduce_inv s' ∧ reduce_settle prev U t0 s' ∧ rs_pending s' = [].
Proof.
  intros HpU VU. revert s. induction fuel as [|fuel IH]; intros s I Q; simpl;
    [done|].
  destruct (rs_pending s) as [|original rest] eqn:Hp; [by intros [= <-]|].
  apply IH.
  - by destruct (reduce_body_spec s original rest I Hp) as (I' & _).
  - by apply reduce_body_settle.
Qed.

Lemma reduce_loop_settle prev U t0 fuel t nodes known ocn nodes' t' :
  (∀ x, x ∈ prev → x ∈ U) → valid_set t0 U →
  reduce_inv {| rs_tree := t; rs_nodes := nodes; rs_knownNonNulls := known;
                rs_visited := []; rs_pending := ocn; rs_changed := false |} →
  reduce_settle prev U t0
    {| rs_tree := t; rs_nodes := nodes; rs_knownNonNulls := known;
       rs_visited := []; rs_pending := ocn; rs_changed := false |} →
  reduce_loop fuel t nodes known ocn = Some (nodes', t') →
  ∃ s, rs_tree s = t' ∧ rs_nodes s = nodes' ∧ reduce_inv s
       ∧ reduce_settle prev U t0 s
       ∧ rs_pending s = [] ∧ rs_changed s = false.
Proof.
  intros HpU VU. revert t nodes known ocn. induction fuel as [|fuel IH];
    intros t nodes known ocn I Q; [done|].
  cbn [reduce_loop].
  destruct (reduce_for (S fuel) _) as [s1|] eqn:H1; [|done].
  destruct (reduce_for_settle _ _ _ _ _ _ HpU VU I Q H1) as (I1 & Q1 & Hp1).
  destruct (rs_changed s1) eqn:Hc.
  - apply IH.
    + destruct I1 as [W1 Vn Vk Vv Vp NK OP ST].
      unfold rs_optionalChainNodes. rewrite Hp1, app_nil_r. split; simpl; try done.
      * apply Forall_nil_2.
      * intros x Hx Hopt. specialize (OP x Hx Hopt).
        by rewrite Hp1, app_nil_r in OP.
      * intros _ x []%elem_of_nil.
    + destruct Q1 as [Qk Qf Qg Qn Qtr]. split; simpl; done.
  - intros [= <- <-]. by exists s1.
Qed.

Lemma Set_union_app (a b : list nat) :
  ∃ extra, Set_union a b = a ++ extra ∧ ∀ z, z ∈ extra → z ∉ a.
Proof.
  unfold Set_union. revert a. induction b as [|x b IH]; intros a; simpl.
  { exists []. split; [by rewrite app_nil_r|]. by intros z []%elem_of_nil. }
  destruct (IH (Set_add a x)) as (extra & -> & Hn). unfold Set_add in *.
  destruct (Set_has a x) eqn:Hh.
  - by exists extra.
  - apply Set_has_false in Hh. exists (x :: extra). split.
    + by rewrite <- app_assoc.
    + intros z [->|Hz]%elem_of_cons; [done|]. intros Hza.
      apply (Hn z Hz). apply elem_of_app. by left.
Qed.

Lemma filter_all (P : nat → Prop) `{∀ x, Decision (P x)} (l : list nat) :
  (∀ x, x ∈ l → P x) → filter P l = l.
Proof.
  induction l as [|a l IH]; intros HP; [done|]. rewrite filter_cons.
  rewrite decide_True by apply HP, list_elem_of_here.
  f_equal. apply IH. intros x Hx. by apply HP, list_elem_of_further.
Qed.

(** After a pass that changed nothing, every member of the set is left alone
    by a re-walk. *)
Lemma reduce_inv_final_stable s :
  reduce_inv s → rs_pending s = [] → rs_changed s = false →
  ∀ x, x ∈ rs_nodes s → stable (rs_tree s) (rs_knownNonNulls s) x.
Proof.
  intros [W Vn Vk Vv Vp NK OP ST] Hp Hc x Hx.
  destruct (hasOptional (deref (rs_tree s) x)) eqn:Hopt.
  - apply (ST Hc). specialize (OP x Hx Hopt). by rewrite Hp, app_nil_r in OP.
  - apply stable_no_optional; [done|apply (valid_set_elem _ _ _ Vn Hx)|done].
Qed.

(** When the set that the canonicalizer returns is equal, as a set, to the
    first part [prev] of the set it was called with, the canonicalizer has
    returned [prev] itself and has left the trie as it was. *)
Lemma reduce_equal_unchanged fuel prev extra t merged t' :
  wf_tree t → valid_set t (prev ++ extra) → NoDup prev →
  (∀ z, z ∈ extra → z ∉ prev) →
  reduceMaybeOptionalChains fuel (prev ++ extra) t = Some (merged, t') →
  Set_equal prev merged = true →
  merged = prev ∧ t' = t.
Proof.
  intros W V D Hex H Heq.
  apply andb_true_iff in Heq as [Hlen Hsub]. apply Nat.eqb_eq in Hlen.
  rewrite forallb_forall in Hsub.
  assert (Hin : ∀ x, x ∈ prev → x ∈ merged).
  { intros x Hx. apply Set_has_true, Hsub. by apply list_elem_of_In. }
  assert (HpU : ∀ x, x ∈ prev → x ∈ prev ++ extra).
  { intros x Hx. apply elem_of_app. by left. }
  assert (G : ∃ s, rs_tree s = t' ∧ rs_nodes s = merged ∧ reduce_inv s
                ∧ reduce_settle prev (prev ++ extra) t s
                ∧ rs_pending s = [] ∧ rs_changed s = false).
  { revert H. unfold reduceMaybeOptionalChains, Set_filter.
    set (ocn := filter (fun x => hasOptional (deref t x) = true) (prev ++ extra)).
    set (s0 := {| rs_tree := t; rs_nodes := prev ++ extra;
                  rs_knownNonNulls := prev ++ extra; rs_visited := [];
                  rs_pending := ocn; rs_changed := false |}).
    assert (I0 : reduce_inv s0).
    { split; simpl; try done.
      - apply Forall_nil_2.
      - by apply valid_set_filter.
      - intros y Hy Ho. by apply list_elem_of_filter.
      - intros _ y []%elem_of_nil. }
    assert (Q0 : reduce_settle prev (prev ++ extra) t s0).
    { split; simpl; try done.
      - exists extra. split; [|done]. f_equal. symmetry. by apply filter_all.
      - by left. }
    destruct (length ocn =? 0)%nat eqn:Hl.
    - intros [= <- <-]. apply Nat.eqb_eq, nil_length_inv in Hl.
      exists s0. by split_and!.
    - by apply reduce_loop_settle. }
  destruct G as (s & <- & <- & I & [Qk (tail & Qf & Qt) Qg Qn Qtr] & Hp & Hc).
  pose proof (reduce_inv_final_stable s I Hp Hc) as St.
  assert (Hm : rs_nodes s = prev).
  { rewrite (filter_all _ prev Hin) in Qf. rewrite Qf in Hlen.
    rewrite length_app in Hlen. destruct tail; [|simpl in Hlen; lia].
    by rewrite app_nil_r in Qf. }
  split; [done|].
  assert (HK : ∀ k z, z ∈ rs_knownNonNulls s →
            length (path (fullPath (deref (rs_tree s) z))) < k →
            z ∈ prev ++ extra).
  { induction k as [|k IH]; intros z Hz Hk; [lia|].
    destruct (decide (z ∈ prev ++ extra)) as [|HzU]; [done|]. exfalso.
    assert (Hzn : z ∉ rs_nodes s).
    { rewrite Hm. intros Hzp. apply HzU. by apply HpU. }
    pose proof (valid_set_elem _ _ _ (ri_known _ I) Hz) as Vz.
    destruct (lookup_lt_is_Some_2 _ _ Vz) as [zn Hzn'].
    pose proof (wf_self _ (ri_wf _ I) _ _ Hzn') as Hs.
    destruct (find_dep_root _ _ _ _ Hs) as (r0 & Hr0 & Hpz).
    pose proof (stable_unrewritten _ (rs_knownNonNulls s) _ _ _ (ri_wf _ I) Hzn' Hr0)
      as SU.
    destruct (unrewritten (rs_tree s) (rs_knownNonNulls s) r0 (path (fullPath zn)))
      eqn:Un.
    { apply (Qg z Hz Hzn). by apply SU. }
    destruct (unrewritten_false _ _ _ _ _ Hpz Un)
      as (q & e & r' & nq & Hpath & He & Hq & HnqK).
    assert (Hqd : find_dep (rs_tree s) (id (identifier (fullPath zn))) q = Some nq).
    { unfold find_dep. by rewrite Hr0. }
    rewrite (deref_lookup _ _ _ Hzn') in Hk.
    apply (Qn z Hz HzU q e r' nq); rewrite ?(deref_lookup _ _ _ Hzn'); try done.
    apply IH; [done|].
    destruct (find_dep_node _ _ _ _ (ri_wf _ I) Hqd) as (nqn & Hnqn & _ & Pnq).
    rewrite (deref_lookup _ _ _ Hnqn), Pnq. rewrite Hpath, length_app in Hk.
    simpl in Hk. lia. }
  destruct Qtr as [?|(z & Hz & HzU)]; [done|]. destruct HzU.
  by apply (HK (S (length (path (fullPath (deref (rs_tree s) z)))))); [|lia].
Qed.

(** A merge that reports no change has changed nothing: the entry of the
    block and the trie are as they were. *)
Lemma merge_block_unchanged fuel n neighbors changed st st' :
  visited_ok st → facts_ok st →
  merge_block fuel n neighbors changed st = Ok (false, st') →
  changed = false ∧ st_nodes st' = st_nodes st ∧ st_tree st' = st_tree st.
Proof.
  intros Hv [W Wn] Hm.
  destruct (merge_block_Ok _ _ _ _ _ _ _ Hv Hm) as (info & merged & t' & Hi & Hr & Hc & ->).
  symmetry in Hc. apply orb_false_iff in Hc as [-> Heq].
  apply negb_false_iff in Heq. destruct (Wn n info Hi) as [Vi Di].
  destruct (Set_union_app (assumedNonNullObjects info)
              (Set_intersect (done_neighbor_sets st neighbors)))
    as (extra & HU & Hex).
  assert (Vc : valid_set (st_tree st)
            (Set_union (assumedNonNullObjects info)
               (Set_intersect (done_neighbor_sets st neighbors)))).
  { apply valid_set_Set_union; [done|].
    apply valid_set_Set_intersect, done_neighbor_sets_valid.
    intros k i Hk. apply (Wn k i Hk). }
  rewrite HU in Hr, Vc.
  destruct (reduce_equal_unchanged _ _ _ _ _ _ W Vc Di Hex Hr Heq) as [-> ->].
  split_and!; [done| |done]. simpl. apply insert_id. rewrite Hi. by destruct info.
Qed.

Lemma visit_all_false (v : N → PropState → outcome (bool * PropState))
  ys c s s' :
  visit_all v ys c s = Ok (false, s') → c = false.
Proof.
  revert c s. induction ys as [|y ys IHy]; intros c s; cbn [visit_all].
  - by intros [= -> _].
  - destruct (v y s) as [[c1 s1]|?|]; simpl; [|done..]. intros H.
    by apply IHy, orb_false_iff in H as [? _].
Qed.

Lemma visit_all_unchanged succs d v xs changed st st' :
  visit_ok False succs d v →
  (∀ x st st', prop_inv False succs d st → facts_ok st →
     v x st = Ok (false, st') →
     st_nodes st' = st_nodes st ∧ st_tree st' = st_tree st) →
  prop_inv False succs d st → facts_ok st →
  visit_all v xs changed st = Ok (false, st') →
  changed = false ∧ st_nodes st' = st_nodes st ∧ st_tree st' = st_tree st.
Proof.
  intros Hv HU. revert changed st. induction xs as [|x xs IH];
    intros changed st I F; cbn [visit_all].
  - by intros [= -> <-].
  - pose proof (Hv x st I) as Hx. specialize (HU x st).
    destruct (v x st) as [[c1 st1]|e|]; simpl; [|done..].
    destruct Hx as (I1 & _). intros H.
    assert (F1 : facts_ok st1 → changed = false
                 ∧ st_nodes st' = st_nodes st1 ∧ st_tree st' = st_tree st1 ∧ c1 = false).
    { intros F1. destruct (IH _ _ I1 F1 H) as ([-> ->]%orb_false_iff & ? & ?). done. }
    destruct c1.
    + apply visit_all_false, orb_false_iff in H as [_ ?]. done.
    + destruct (HU st1 I F eq_refl) as [Hn Ht].
      destruct F1 as (? & ? & ? & _).
      { destruct F as [W Wn]. split; by rewrite ?Hn, ?Ht. }
      split_and!; congruence.
Qed.

Lemma recursivelyPropagateNonNull_unchanged succs d fuel n st st' :
  prop_inv False succs d st → facts_ok st →
  recursivelyPropagateNonNull fuel succs d n st = Ok (false, st') →
  st_nodes st' = st_nodes st ∧ st_tree st' = st_tree st.
Proof.
  revert n st st'. induction fuel as [|fuel IH]; intros n st st' I F; [done|].
  cbn [recursivelyPropagateNonNull]. case_decide as Hin.
  { by intros [= <-]. }
  change (st_nodes (set_status n active st)) with (st_nodes st).
  destruct (st_nodes st !! n) as [node|] eqn:Hnode; [|done].
  set (st1 := set_status n active st).
  pose proof (prop_inv_set_status _ _ _ _ _ _ I Hnode) as I1.
  assert (F1 : facts_ok st1) by done.
  pose proof (visit_all_ok False succs d _ (neighbors_of succs d n node) false st1
                (unless_visited_ok _ _ _ _
                   (recursivelyPropagateNonNull_ok False succs d fuel)) I1) as Hall.
  destruct (visit_all _ (neighbors_of succs d n node) false st1)
    as [[c2 st2]|e|] eqn:H2; simpl; [|done..].
  destruct Hall as ((Hv2 & _) & _).
  intros Hm.
  assert (Hc2 : facts_ok st2 → c2 = false
                ∧ st_nodes st' = st_nodes st2 ∧ st_tree st' = st_tree st2).
  { intros F2. by apply (merge_block_unchanged _ _ _ _ _ _ Hv2 F2 Hm). }
  destruct c2.
  - exfalso. unfold merge_block in Hm.
    rewrite (neighbor_sets_done _ _ Hv2) in Hm. simpl in Hm.
    destruct (st_nodes st2 !! n); simpl in Hm; [|done].
    by destruct (reduceMaybeOptionalChains _ _ _) as [[??]|].
  - assert (R12 : st_nodes st2 = st_nodes st1 ∧ st_tree st2 = st_tree st1).
    { eapply (visit_all_unchanged succs d); [| |exact I1|exact F1|exact H2].
      - apply unless_visited_ok, recursivelyPropagateNonNull_ok.
      - intros x s s' Is Fs. unfold unless_visited. case_decide.
        + by intros [= <-].
        + by apply IH. }
    destruct R12 as [Hn Ht]. destruct Hc2 as (_ & ? & ?).
    { destruct F1 as [W Wn]. split; by rewrite ?Hn, ?Ht. }
    change (st_nodes st1) with (st_nodes st) in Hn.
    change (st_tree st1) with (st_tree st) in Ht.
    split; congruence.
Qed.

Lemma sweep_both_unchanged fuel fn succs st st' :
  traversalState st = ∅ → facts_ok st →
  sweep_both fuel fn succs st = Ok (false, st') →
  st' = st.
Proof.
  intros Hts F. unfold sweep_both.
  pose proof (prop_inv_empty False succs forward st Hts ltac:(done)) as I0.
  destruct (visit_all _ (blocks fn).*1 false st) as [[c1 st1]|e|] eqn:H1; simpl;
    [|done..].
  pose proof (prop_inv_empty False succs backward (clear_traversal st1) eq_refl
                ltac:(done)) as I1.
  destruct (visit_all _ (reverse (blocks fn)).*1 c1 (clear_traversal st1))
    as [[c2 st2]|e|] eqn:H2; simpl; [|done..].
  intros [= -> <-].
  assert (G : ∀ s, visit_ok False succs s
                (recursivelyPropagateNonNull fuel succs s))
    by (intros; apply recursivelyPropagateNonNull_ok).
  assert (Hc1 : facts_ok (clear_traversal st1) → c1 = false
                ∧ st_nodes st2 = st_nodes st1 ∧ st_tree st2 = st_tree st1).
  { intros F1.
    apply (visit_all_unchanged succs backward _ _ _ _ _ (G backward)
             (fun x s s' => recursivelyPropagateNonNull_unchanged _ _ _ x s s')
             I1 F1 H2). }
  destruct c1.
  - by apply visit_all_false in H2.
  - destruct (visit_all_unchanged succs forward _ _ _ _ _ (G forward)
                (fun x s s' => recursivelyPropagateNonNull_unchanged _ _ _ x s s')
                I0 F H1) as (_ & Hn & Ht).
    destruct Hc1 as (_ & Hn2 & Ht2).
    { destruct F as [W Wn]. split; simpl; by rewrite ?Hn, ?Ht. }
    destruct st, st2. simpl in *. unfold clear_traversal. simpl. congruence.
Qed.

(** The state that the loop returns is one that a further iteration leaves
    as it is. *)
Lemma fixpoint_loop_last fuel fn succs k st st' :
  traversalState st = ∅ → facts_ok st →
  fixpoint_loop fuel fn succs k st = Ok st' →
  sweep_both fuel fn succs st' = Ok (false, st').
Proof.
  revert st. induction k as [|k IH]; intros st Hts F; cbn [fixpoint_loop]; [done|].
  destruct (sweep_both fuel fn succs st) as [[c st1]|e|] eqn:H1; simpl; [|done..].
  destruct c.
  - destruct (sweep_both_facts _ _ _ _ _ _ Hts F H1) as [Hts1 R1].
    apply (IH _ Hts1 (fr_ok _ _ R1)).
  - intros [= <-]. pose proof (sweep_both_unchanged _ _ _ _ _ Hts F H1) as ->.
    done.
Qed.

Lemma propagateNonNull_last fuel fn nodes t nodes' t' :
  wf_tree t → wf_nodes t nodes →
  propagateNonNull fuel fn nodes t = Ok (nodes', t') →
  sweep_both fuel fn (blockSuccessors_of fn)
    {| traversalState := ∅; st_nodes := nodes'; st_tree := t' |}
  = Ok (false, {| traversalState := ∅; st_nodes := nodes'; st_tree := t' |}).
Proof.
  intros W Wn. unfold propagateNonNull.
  destruct (fixpoint_loop _ _ _ _ _) as [st'|e|] eqn:H; simpl; [|done..].
  intros [= <- <-].
  pose proof (fixpoint_loop_last _ _ _ _
                {| traversalState := ∅; st_nodes := nodes; st_tree := t |} _
                eq_refl (conj W Wn) H) as Hl.
  assert (Hts : traversalState st' = ∅).
  { unfold sweep_both in Hl.
    destruct (visit_all _ (blocks fn).*1 false st') as [[c1 st1]|?|]; simpl in Hl;
      [|done..].
    destruct (visit_all _ (reverse (blocks fn)).*1 c1 (clear_traversal st1))
      as [[c2 st2]|?|]; simpl in Hl; [|done..].
    injection Hl as _ Hl. by rewrite <- Hl. }
  assert (Hst : {| traversalState := ∅; st_nodes := st_nodes st';
                   st_tree := st_tree st' |} = st').
  { destruct st'. simpl in *. by subst. }
  by rewrite Hst.
Qed.

(** The propagator returns a fixed point: propagating again from the table
    and the trie it has returned gives that table and that trie back, in one
    iteration that reports no change. *)
Theorem propagation_reaches_fixed_point fuel fn nodes t nodes' t' :
  wf_tree t → wf_nodes t nodes →
  propagateNonNull fuel fn nodes t = Ok (nodes', t') →
  propagateNonNull fuel fn nodes' t' = Ok (nodes', t')
  ∧ sweep_both fuel fn (blockSuccessors_of fn)
      {| traversalState := ∅; st_nodes := nodes'; st_tree := t' |}
    = Ok (false, {| traversalState := ∅; st_nodes := nodes'; st_tree := t' |}).
Proof.
  intros W Wn H. pose proof (propagateNonNull_last _ _ _ _ _ _ W Wn H) as Hl.
  split; [|done]. unfold propagateNonNull, MAX_LOOPS. cbn [fixpoint_loop].
  by rewrite Hl.
Qed.

Lemma propagation_reaches_fixed_point_witness :
  propagateNonNull 10 (diamond true) diamond_result.1 diamond_result.2
  = Ok (diamond_result.1, diamond_result.2)
  ∧ sweep_both 10 (diamond true) (blockSuccessors_of (diamond true))
      {| traversalState := ∅; st_nodes := diamond_result.1;
         st_tree := diamond_result.2 |}
    = Ok (false, {| traversalState := ∅; st_nodes := diamond_result.1;
                    st_tree := diamond_result.2 |}).
Proof.
  destruct (collectNonNullsInBlocks_spec (diamond true) ∅ ∅ Tree_new _ _
              wf_tree_new (surjective_pairing _)) as (W & _ & Wn & _).
  apply (propagation_reaches_fixed_point 10 (diamond true)
           (st_nodes (diamond_start true)) (st_tree (diamond_start true))
           diamond_result.1 diamond_result.2 W Wn).
  vm_compute. reflexivity.
Defined.

(** ** The equation that the result solves on an acyclic graph *)

Lemma below_active_step lt st st' n :
  step_rel st st' → below_active lt st n → below_active lt st' n.
Proof.
  intros R A a Ha. apply A.
  destruct (traversalState st !! a) as [s|] eqn:Hs.
  - rewrite (sr_status _ _ R _ _ Hs) in Ha. congruence.
  - by pose proof (sr_new_done _ _ R _ _ Hs Ha).
Qed.

Lemma done_neighbor_sets_all st neighbors :
  (∀ p, p ∈ neighbors → traversalState st !! p = Some done) →
  done_neighbor_sets st neighbors = all_neighbor_sets (st_nodes st) neighbors.
Proof.
  unfold done_neighbor_sets, all_neighbor_sets.
  induction neighbors as [|p ps IH]; intros Hd; [done|].
  specialize (IH (fun q Hq => Hd q (list_elem_of_further _ _ _ Hq))).
  simpl. rewrite decide_True by apply Hd, list_elem_of_here.
  unfold omap in IH. by rewrite IH.
Qed.

Section Equation.
Context (succs : gmap BlockId (list BlockId)) (d : Direction).
Context (lt : BlockId → BlockId → Prop).
Context (nodes : gmap BlockId BlockInfo) (t : Tree).
Hypothesis lt_irrefl : ∀ a, ¬ lt a a.
Hypothesis lt_trans : ∀ a b c, lt a b → lt b c → lt a c.
Hypothesis lt_neighbors : ∀ k info p,
  nodes !! k = Some info → p ∈ neighbors_of succs d k info → lt p k.

Lemma visit_all_equation fuel0 v xs changed st st' :
  visit_ok False succs d v →
  (∀ x st st', prop_inv False succs d st → facts_ok st →
     st_nodes st = nodes → st_tree st = t → below_active lt st x →
     v x st = Ok (false, st') →
     st_nodes st' = nodes ∧ st_tree st' = t
     ∧ ∀ k, traversalState st !! k = None →
            traversalState st' !! k = Some done →
            satisfies_equation fuel0 succs d nodes t k) →
  prop_inv False succs d st → facts_ok st →
  st_nodes st = nodes → st_tree st = t →
  (∀ x, x ∈ xs → below_active lt st x) →
  visit_all v xs changed st = Ok (false, st') →
  st_nodes st' = nodes ∧ st_tree st' = t
  ∧ ∀ k, traversalState st !! k = None →
         traversalState st' !! k = Some done →
         satisfies_equation fuel0 succs d nodes t k.
Proof.
  intros Hv HE. revert changed st. induction xs as [|x xs IH];
    intros changed st I F Hn Ht HA; cbn [visit_all].
  - intros [= _ <-]. split_and!; [done..|]. intros k Hk Hk'. congruence.
  - pose proof (Hv x st I) as Hx. specialize (HE x st).
    destruct (v x st) as [[c1 st1]|e|]; simpl; [|done..].
    destruct Hx as (I1 & R1 & _). intros H.
    pose proof (visit_all_false _ _ _ _ _ H) as [_ ->]%orb_false_iff.
    destruct (HE st1 I F Hn Ht (HA x (list_elem_of_here _ _)) eq_refl)
      as (Hn1 & Ht1 & E1).
    assert (F1 : facts_ok st1).
    { destruct F as [W Wn]. split; by rewrite ?Hn1, ?Ht1, <- ?Hn, <- ?Ht. }
    assert (A1 : ∀ y, y ∈ xs → below_active lt st1 y).
    { intros y Hy. apply (below_active_step _ st); [done|].
      by apply HA, list_elem_of_further. }
    destruct (IH _ _ I1 F1 Hn1 Ht1 A1 H) as (Hn' & Ht' & E').
    split_and!; [done..|]. intros k Hk Hk'.
    destruct (traversalState st1 !! k) as [s|] eqn:Hs.
    + pose proof (sr_new_done _ _ R1 _ _ Hk Hs) as ->. by apply E1.
    + by apply E'.
Qed.

Lemma recursivelyPropagateNonNull_equation fuel0 fuel n st st' :
  fuel ≤ fuel0 →
  prop_inv False succs d st → facts_ok st →
  st_nodes st = nodes → st_tree st = t → below_active lt st n →
  recursivelyPropagateNonNull fuel succs d n st = Ok (false, st') →
  st_nodes st' = nodes ∧ st_tree st' = t
  ∧ ∀ k, traversalState st !! k = None →
         traversalState st' !! k = Some done →
         satisfies_equation fuel0 succs d nodes t k.
Proof.
  revert n st st'. induction fuel as [|fuel IH]; intros n st st' Hf I F Hn Ht A;
    [done|].
  cbn [recursivelyPropagateNonNull]. case_decide as Hin.
  { intros [= <-]. split_and!; [done..|]. intros k Hk Hk'. congruence. }
  assert (Hnone : traversalState st !! n = None).
  { destruct (traversalState st !! n) eqn:E; [|done]. destruct Hin. eauto. }
  change (st_nodes (set_status n active st)) with (st_nodes st).
  destruct (st_nodes st !! n) as [node|] eqn:Hnode; [|done].
  set (st1 := set_status n active st).
  set (nbs := neighbors_of succs d n node).
  pose proof (prop_inv_set_status _ _ _ _ _ _ I Hnode) as I1.
  assert (F1 : facts_ok st1) by done.
  assert (Hnb : ∀ p, p ∈ nbs → lt p n).
  { intros p Hp. apply (lt_neighbors n node); [by rewrite <- Hn|done]. }
  assert (A1 : ∀ p, p ∈ nbs → below_active lt st1 p).
  { intros p Hp a. unfold st1. simpl. rewrite lookup_insert.
    case_decide as Ha.
    - subst a. intros _. by apply Hnb.
    - intros Hact. apply (lt_trans _ n); [by apply Hnb|by apply A]. }
  pose proof (visit_all_ok False succs d _ nbs false st1
                (unless_visited_ok _ _ _ _
                   (recursivelyPropagateNonNull_ok False succs d fuel)) I1) as Hall.
  destruct (visit_all _ nbs false st1) as [[c2 st2]|e|] eqn:H2; simpl; [|done..].
  destruct Hall as ((Hv2 & Hcl2 & _) & R12 & Hst2 & _).
  intros Hm.
  assert (c2 = false) as ->.
  { destruct c2; [|done]. exfalso. unfold merge_block in Hm.
    rewrite (neighbor_sets_done _ _ Hv2) in Hm. simpl in Hm.
    destruct (st_nodes st2 !! n); simpl in Hm; [|done].
    by destruct (reduceMaybeOptionalChains _ _ _) as [[??]|]. }
  assert (HE : ∀ x s s', prop_inv False succs d s → facts_ok s →
     st_nodes s = nodes → st_tree s = t → below_active lt s x →
     unless_visited (recursivelyPropagateNonNull fuel succs d) x s = Ok (false, s') →
     st_nodes s' = nodes ∧ st_tree s' = t
     ∧ ∀ k, traversalState s !! k = None →
            traversalState s' !! k = Some done →
            satisfies_equation fuel0 succs d nodes t k).
  { intros x s s' Is Fs Hns Hts As. unfold unless_visited. case_decide.
    - intros [= <-]. split_and!; [done..|]. intros k Hk Hk'. congruence.
    - apply IH; [lia|done..]. }
  destruct (visit_all_equation fuel0 _ nbs false st1 st2
              (unless_visited_ok _ _ _ _
                 (recursivelyPropagateNonNull_ok False succs d fuel))
              HE I1 F1 Hn Ht A1 H2) as (Hn2 & Ht2 & E2).
  assert (F2 : facts_ok st2).
  { destruct F as [W Wn]. split; by rewrite ?Hn2, ?Ht2, <- ?Hn, <- ?Ht. }
  destruct (merge_block_unchanged _ _ _ _ _ _ Hv2 F2 Hm) as (_ & Hn' & Ht').
  split_and!; [congruence..|].
  assert (Hdone : ∀ p, p ∈ nbs → traversalState st2 !! p = Some done).
  { intros p Hp. destruct (Hst2 p Hp) as [s Hs]. destruct s; [|done]. exfalso.
    destruct (decide (p = n)) as [->|Hne]; [by apply (lt_irrefl n), Hnb|].
    apply (lt_irrefl n). apply (lt_trans _ p); [|by apply Hnb].
    apply A. destruct (traversalState st !! p) as [s0|] eqn:Hs0.
    - assert (traversalState st1 !! p = Some s0) as Hs1.
      { unfold st1. simpl. by rewrite lookup_insert_ne. }
      rewrite (sr_status _ _ R12 _ _ Hs1) in Hs. congruence.
    - assert (traversalState st1 !! p = None) as Hs1.
      { unfold st1. simpl. by rewrite lookup_insert_ne. }
      by pose proof (sr_new_done _ _ R12 _ _ Hs1 Hs). }
  destruct (merge_block_Ok _ _ _ _ _ _ _ Hv2 Hm)
    as (info & merged & t' & Hi & Hr & _ & ->).
  simpl in Hn', Ht'. rewrite (done_neighbor_sets_all _ _ Hdone) in Hr.
  intros k Hk. simpl. rewrite lookup_insert. case_decide as Hkn.
  - subst k. intros _. exists info. rewrite <- Hn2. split; [done|].
    assert (node = info) as ->.
    { unfold st1 in Hn2. simpl in Hn2. rewrite Hn2, <- Hn in Hi. congruence. }
    fold nbs. apply (reduceMaybeOptionalChains_mono (S fuel)); [|lia].
    rewrite Ht2 in Hr, Ht'. rewrite Hr. f_equal. f_equal; [|congruence].
    assert (Hins : <[n:={| block := block info; assumedNonNullObjects := merged |}]>
                     (st_nodes st2) !! n = st_nodes st2 !! n) by by rewrite Hn'.
    rewrite lookup_insert_eq, Hi in Hins. by injection Hins as <-.
  - intros Hk'. apply E2; [|done]. unfold st1. simpl. by rewrite lookup_insert_ne.
Qed.

End Equation.

Lemma sweep_order_irrefl rank d a : ¬ sweep_order rank d a a.
Proof. destruct d; simpl; lia. Qed.

Lemma sweep_order_trans rank d a b c :
  sweep_order rank d a b → sweep_order rank d b c → sweep_order rank d a c.
Proof. destruct d; simpl; lia. Qed.

Lemma elem_of_all_neighbor_sets nodes neighbors s :
  s ∈ all_neighbor_sets nodes neighbors ↔
  ∃ p info, p ∈ neighbors ∧ nodes !! p = Some info ∧ s = assumedNonNullObjects info.
Proof.
  unfold all_neighbor_sets. rewrite list_elem_of_omap. split.
  - intros (p & Hp & Hs). destruct (nodes !! p) as [info|] eqn:Hi; [|done].
    injection Hs as <-. by exists p, info.
  - intros (p & info & Hp & Hi & ->). exists p. by rewrite Hi.
Qed.

(** In a sweep from a state that an iteration leaves as it is, every block
    that the sweep visits satisfies the equation. *)
Lemma sweep_equation fuel succs d (rank : N → nat) xs st st' :
  (∀ k info p, st_nodes st !! k = Some info →
     p ∈ neighbors_of succs d k info → sweep_order rank d p k) →
  traversalState st = ∅ → facts_ok st →
  visit_all (recursivelyPropagateNonNull fuel succs d) xs false st = Ok (false, st') →
  st_nodes st' = st_nodes st ∧ st_tree st' = st_tree st
  ∧ ∀ k, k ∈ xs → satisfies_equation fuel succs d (st_nodes st) (st_tree st) k.
Proof.
  intros Hnb Hts F H.
  pose proof (prop_inv_empty False succs d st Hts ltac:(done)) as I0.
  pose proof (visit_all_ok False succs d _ xs false st
                (recursivelyPropagateNonNull_ok False succs d fuel) I0) as Hok.
  rewrite H in Hok. destruct Hok as (_ & R & Hxs & _).
  destruct (visit_all_equation succs d (sweep_order rank d) (st_nodes st) (st_tree st)
              fuel _ xs false st st'
              (recursivelyPropagateNonNull_ok False succs d fuel))
    as (Hn & Ht & E); try done.
  - intros x s s' Is Fs Hns Hts' As.
    by apply (recursivelyPropagateNonNull_equation succs d (sweep_order rank d)
                (st_nodes st) (st_tree st)
                (sweep_order_irrefl rank d) (sweep_order_trans rank d) Hnb
                fuel fuel).
  - intros x _ a Ha. by rewrite Hts, lookup_empty in Ha.
  - split_and!; [done..|]. intros k Hk. apply E.
    + by rewrite Hts, lookup_empty.
    + destruct (Hxs k Hk) as [s Hs]. rewrite Hs. f_equal.
      apply (sr_new_done _ _ R k); [|done]. by rewrite Hts, lookup_empty.
Qed.

(** On an acyclic graph the result of the propagator solves the equation
    [X = Union(Intersect(X_neighbors), X)], up to the canonicalizer, at every
    block of the function and in both directions: merging the facts of all
    the predecessors (all the successors) of a block into its facts changes
    neither its facts nor the trie. So a fact that all the predecessors, or
    all the successors, of a block have is a fact of the block, with some of
    its optional segments made unconditional at most. *)
Theorem acyclic_result_solves_equation fuel fn nodes t nodes' t' (rank : N → nat) d k :
  wf_tree t → wf_nodes t nodes →
  (∀ k info p, nodes !! k = Some info → p ∈ preds (block info) → rank p < rank k) →
  (∀ k b p, (k, b) ∈ blocks fn → p ∈ preds b → rank p < rank k) →
  propagateNonNull fuel fn nodes t = Ok (nodes', t') →
  k ∈ (blocks fn).*1 →
  satisfies_equation fuel (blockSuccessors_of fn) d nodes' t' k
  ∧ ∀ info x, nodes' !! k = Some info →
      neighbors_of (blockSuccessors_of fn) d k info ≠ [] →
      (∀ p, p ∈ neighbors_of (blockSuccessors_of fn) d k info →
         ∃ i, nodes' !! p = Some i ∧ x ∈ assumedNonNullObjects i) →
      ∃ y, y ∈ assumedNonNullObjects info ∧ relaxed_node t' x y.
Proof.
  intros W Wn Hr1 Hr2 H Hk.
  pose proof (propagateNonNull_last _ _ _ _ _ _ W Wn H) as Hl.
  destruct (propagateNonNull_facts _ _ _ _ _ _ W Wn H) as [_ F' _ _].
  pose proof F' as [W' Wn']. simpl in W', Wn'.
  set (st := {| traversalState := ∅; st_nodes := nodes'; st_tree := t' |}) in *.
  assert (Hblocks : ∀ m, block <$> nodes' !! m = block <$> nodes !! m).
  { unfold propagateNonNull in H.
    destruct (fixpoint_loop _ _ _ _ _) as [s'|?|] eqn:Hf; simpl in H; [|done..].
    injection H as <- <-.
    apply (fixpoint_loop_blocks _ _ _ _
             {| traversalState := ∅; st_nodes := nodes; st_tree := t |} _
             eq_refl Hf). }
  assert (Hnb : ∀ d k info p, nodes' !! k = Some info →
            p ∈ neighbors_of (blockSuccessors_of fn) d k info →
            sweep_order rank d p k).
  { intros [|] m info p Hm Hp; simpl in *.
    - pose proof (Hblocks m) as Hb. rewrite Hm in Hb.
      destruct (nodes !! m) as [info0|] eqn:Hm0; [|done]. injection Hb as Hb.
      apply (Hr1 m info0 p Hm0). by rewrite <- Hb.
    - unfold blockSuccessors_of in Hp.
      rewrite blockSuccessors_blocks, lookup_empty in Hp. simpl in Hp.
      destruct Hp as [[]%elem_of_nil|(b & Hb & Hin)]. by apply (Hr2 p b m). }
  assert (E : satisfies_equation fuel (blockSuccessors_of fn) d nodes' t' k).
  { unfold sweep_both in Hl.
    destruct (visit_all _ (blocks fn).*1 false st) as [[c1 st1]|?|] eqn:H1;
      simpl in Hl; [|done..].
    destruct (visit_all _ (reverse (blocks fn)).*1 c1 (clear_traversal st1))
      as [[c2 st2]|?|] eqn:H2; simpl in Hl; [|done..].
    injection Hl as -> Hl.
    pose proof (visit_all_false _ _ _ _ _ H2) as ->.
    destruct (sweep_equation fuel (blockSuccessors_of fn) forward rank _ st st1
                (Hnb forward) eq_refl F' H1) as (Hn1 & Ht1 & E1).
    destruct d; [by apply E1|].
    simpl in Hn1, Ht1.
    assert (F1 : facts_ok (clear_traversal st1)).
    { split; simpl; by rewrite ?Hn1, ?Ht1. }
    assert (Hnb1 : ∀ m info p, st_nodes (clear_traversal st1) !! m = Some info →
              p ∈ neighbors_of (blockSuccessors_of fn) backward m info →
              sweep_order rank backward p m).
    { simpl st_nodes. rewrite Hn1. apply (Hnb backward). }
    destruct (sweep_equation fuel (blockSuccessors_of fn) backward rank _
                (clear_traversal st1) st2 Hnb1 eq_refl F1 H2) as (_ & _ & E2).
    simpl st_nodes in E2. simpl st_tree in E2. rewrite Hn1, Ht1 in E2. apply E2.
    by rewrite fmap_reverse, elem_of_reverse. }
  split; [done|]. intros info x Hi Hne Hall.
  destruct E as (info' & Hi' & Hr). assert (info' = info) as -> by congruence.
  destruct (Wn' k info Hi) as [Vi Di].
  set (sets := all_neighbor_sets nodes'
                 (neighbors_of (blockSuccessors_of fn) d k info)) in *.
  assert (Vs : Forall (valid_set t') sets).
  { apply Forall_forall. intros s (p & i & _ & Hp & ->)%elem_of_all_neighbor_sets.
    apply (Wn' p i Hp). }
  assert (Hx : x ∈ Set_intersect sets).
  { apply elem_of_Set_intersect_all. split.
    - destruct (neighbors_of (blockSuccessors_of fn) d k info) as [|p ps] eqn:Hps;
        [done|].
      destruct (Hall p (list_elem_of_here _ _)) as (i & Hp & _).
      intros Hnil.
      assert (assumedNonNullObjects i ∈ sets) as Hin.
      { apply elem_of_all_neighbor_sets. exists p, i.
        split_and!; [apply list_elem_of_here|done..]. }
      rewrite Hnil in Hin. by apply elem_of_nil in Hin.
    - intros s (p & i & Hp & Hpi & ->)%elem_of_all_neighbor_sets.
      destruct (Hall p Hp) as (i' & Hpi' & Hxi). congruence. }
  destruct (reduceMaybeOptionalChains_track _ _ _ _ _ W'
              (valid_set_Set_union _ _ _ Vi (valid_set_Set_intersect _ _ Vs))
              (Set_union_NoDup _ _ Di) Hr) as (_ & _ & To & _).
  apply To. apply elem_of_Set_union. by right.
Qed.

Lemma acyclic_result_solves_equation_witness :
  satisfies_equation 10 (blockSuccessors_of (diamond true)) forward
    diamond_result.1 diamond_result.2 3
  ∧ ∀ info x, diamond_result.1 !! 3%N = Some info →
      neighbors_of (blockSuccessors_of (diamond true)) forward 3 info ≠ [] →
      (∀ p, p ∈ neighbors_of (blockSuccessors_of (diamond true)) forward 3 info →
         ∃ i, diamond_result.1 !! p = Some i ∧ x ∈ assumedNonNullObjects i) →
      ∃ y, y ∈ assumedNonNullObjects info ∧ relaxed_node diamond_result.2 x y.
Proof.
  destruct (collectNonNullsInBlocks_spec (diamond true) ∅ ∅ Tree_new _ _
              wf_tree_new (surjective_pairing _)) as (W & _ & Wn & _).
  apply (acyclic_result_solves_equation 10 (diamond true)
           (st_nodes (diamond_start true)) (st_tree (diamond_start true))
           diamond_result.1 diamond_result.2 N.to_nat forward 3%N W Wn).
  - intros k info p Hk. revert p. apply Forall_forall. revert k info Hk.
    apply (bool_decide_unpack _). vm_compute. exact I.
  - intros k b p Hin. change (p ∈ preds (k, b).2 → N.to_nat p < N.to_nat (k, b).1).
    revert p. apply Forall_forall. revert Hin. generalize (k, b).
    apply Forall_forall. apply (bool_decide_unpack _). vm_compute. exact I.
  - vm_compute. reflexivity.
  - apply (bool_decide_unpack _). vm_compute. exact I.
Defined.
